(** * Snapshotter: a limit-order-book matching engine with epoch reclamation

    A shallow embedding of the Go sources (order records and pool, the
    price level FIFO, the SPSC retirement ring, the epoch registry, the
    red-black price index and the matching engine) together with the
    properties the specification states about them.

    Conventions of the embedding:
    - [uint64] and [int64] values are integers of [Z]; every arithmetic
      operation of the source is followed by its wrap-around ([u64], [i64]).
    - A [*Order] is a [handle] (an address); the Order records live in a
      heap [gmap handle Order].  A record that was never written reads as the
      Go zero value, which is what [new(Order)] allocates.
    - A Go [panic], explicit or raised by the runtime, is a [Panic] result. *)

From stdpp Require Import base option list sorting gmap.
From Stdlib Require Import ZArith Lia.

Local Open Scope Z_scope.

(** ** Machine integers *)

Definition u64 (x : Z) : Z := x mod 2 ^ 64.
Definition i64 (x : Z) : Z := (x + 2 ^ 63) mod 2 ^ 64 - 2 ^ 63.

(** [^uint64(0)] *)
Definition ALL_F : Z := 2 ^ 64 - 1.

(** ** Results of fallible code *)

Inductive Fault : Set :=
| PoolExhausted      (* panic("order pool exhausted") *)
| RetireRingFull     (* panic("retire ring full") *)
| NilDeref           (* runtime: nil pointer dereference *)
| IndexOutOfRange    (* runtime: index out of range *)
| OutOfFuel.         (* a loop of the embedding exceeded its bound *)

Inductive Result (A : Type) : Type :=
| Ok (a : A)
| Panic (f : Fault).
Arguments Ok {A} a.
Arguments Panic {A} f.

#[global] Instance Result_bind : MBind Result := λ A B k m,
  match m with
  | Ok a => k a
  | Panic f => Panic f
  end.
#[global] Instance Result_ret : MRet Result := λ A a, Ok a.

Definition is_panic {A} (r : Result A) : Prop :=
  match r with Ok _ => False | Panic _ => True end.

(** ** order.go: orders and the order pool *)

Inductive OrderStatus : Set := Active | Inactive.
Inductive Side : Set := Bid | Ask.
Inductive OrderType : Set := Limit | Market | IOC | FOK | PostOnly.

#[global] Instance OrderStatus_eq_dec : EqDecision OrderStatus.
Proof. solve_decision. Defined.
#[global] Instance Side_eq_dec : EqDecision Side.
Proof. solve_decision. Defined.
#[global] Instance OrderType_eq_dec : EqDecision OrderType.
Proof. solve_decision. Defined.

(** A non-nil [*Order]. *)
Definition handle : Set := nat.

Record Order : Set := mkOrder {
  oID : Z;                       (* ID uint64 *)
  oSide : Side;
  oType : OrderType;
  oPrice : Z;                    (* Price int64 *)
  oQty : Z;                      (* Qty int64 *)
  oFilled : Z;                   (* Filled int64 *)
  oSeqID : Z;                    (* SeqID uint64 *)
  oStatus : OrderStatus;
  onext : option handle;
  oprev : option handle;
  oretireEpoch : Z               (* retireEpoch uint64 *)
}.

(** The Go zero value [Order{}]; [Active], [Bid] and [Limit] are the
    zero constants of their types, so this is also [Order{Status: Active}]. *)
Definition zeroOrder : Order :=
  mkOrder 0 Bid Limit 0 0 0 0 Active None None 0.

#[global] Instance Order_inhabited : Inhabited Order := populate zeroOrder.

Definition set_Qty (v : Z) (o : Order) : Order :=
  mkOrder (oID o) (oSide o) (oType o) (oPrice o) v (oFilled o) (oSeqID o)
          (oStatus o) (onext o) (oprev o) (oretireEpoch o).
Definition set_Price (v : Z) (o : Order) : Order :=
  mkOrder (oID o) (oSide o) (oType o) v (oQty o) (oFilled o) (oSeqID o)
          (oStatus o) (onext o) (oprev o) (oretireEpoch o).
Definition set_Filled (v : Z) (o : Order) : Order :=
  mkOrder (oID o) (oSide o) (oType o) (oPrice o) (oQty o) v (oSeqID o)
          (oStatus o) (onext o) (oprev o) (oretireEpoch o).
Definition set_Status (v : OrderStatus) (o : Order) : Order :=
  mkOrder (oID o) (oSide o) (oType o) (oPrice o) (oQty o) (oFilled o) (oSeqID o)
          v (onext o) (oprev o) (oretireEpoch o).
Definition set_next (v : option handle) (o : Order) : Order :=
  mkOrder (oID o) (oSide o) (oType o) (oPrice o) (oQty o) (oFilled o) (oSeqID o)
          (oStatus o) v (oprev o) (oretireEpoch o).
Definition set_prev (v : option handle) (o : Order) : Order :=
  mkOrder (oID o) (oSide o) (oType o) (oPrice o) (oQty o) (oFilled o) (oSeqID o)
          (oStatus o) (onext o) v (oretireEpoch o).
Definition set_retireEpoch (v : Z) (o : Order) : Order :=
  mkOrder (oID o) (oSide o) (oType o) (oPrice o) (oQty o) (oFilled o) (oSeqID o)
          (oStatus o) (onext o) (oprev o) v.

(** The heap of Order records. *)
Abbreviation heap := (gmap handle Order).

(** [h.f = v] for a field of the record behind [h]. *)
Definition upd (h : handle) (f : Order → Order) (σ : heap) : heap :=
  <[h := f (σ !!! h)]> σ.

Record OrderPool : Set := mkPool {
  store : list handle;
  top : nat
}.

(** [NewOrderPool(cap)]: the [cap] records allocated at startup get the
    addresses [0 .. cap-1]. *)
Definition NewOrderPool (cap : nat) : OrderPool :=
  mkPool (seq 0 cap) cap.

Definition Get (p : OrderPool) (σ : heap)
  : Result (option handle * OrderPool * heap) :=
  if (top p =? 0)%nat then Ok (None, p, σ)
  else
    let t := (top p - 1)%nat in
    match store p !! t with
    | None => Panic IndexOutOfRange
    | Some o => Ok (Some o, mkPool (store p) t, <[o := zeroOrder]> σ)
    end.

Definition Put (p : OrderPool) (o : handle) (σ : heap)
  : Result (OrderPool * heap) :=
  if (top p =? length (store p))%nat then Ok (p, σ)
  else
    let σ1 := upd o (fun r => set_prev None (set_next None r)) σ in
    let σ2 := upd o (set_Status Inactive) σ1 in
    if (top p <? length (store p))%nat
    then Ok (mkPool (<[top p := o]> (store p)) (S (top p)), σ2)
    else Panic IndexOutOfRange.

(** The handles the pool currently holds (the stack below [top]). *)
Definition pool_free (p : OrderPool) : list handle := take (top p) (store p).

(** [n] calls of [pool.Get()] in a row, with what each returned. *)
Fixpoint Get_many (n : nat) (p : OrderPool) (σ : heap)
  : Result (list (option handle) * OrderPool * heap) :=
  match n with
  | O => Ok ([], p, σ)
  | S n' =>
      '(got, p1, σ1) ← Get p σ;
      '(rest, p2, σ2) ← Get_many n' p1 σ1;
      Ok (got :: rest, p2, σ2)
  end.

(** ** The SPSC retirement ring *)

Record retireRing : Set := mkRing {
  buf : list (option handle);
  mask : Z;
  rq_head : Z;                   (* head uint64: write side *)
  rq_tail : Z                    (* tail uint64: read side *)
}.

Definition newRetireRing (pow2 : Z) : retireRing :=
  mkRing (replicate (Z.to_nat pow2) None) (u64 (pow2 - 1)) 0 0.

(** The index expression [c & q.mask] of [q.buf[c & q.mask]]. *)
Definition slot (q : retireRing) (c : Z) : nat := Z.to_nat (Z.land c (mask q)).

Definition Enqueue (q : retireRing) (o : handle) : Result (bool * retireRing) :=
  let h := rq_head q in
  let t := rq_tail q in
  if u64 (h - t) =? Z.of_nat (length (buf q)) then Ok (false, q)
  else if (slot q h <? length (buf q))%nat
  then Ok (true, mkRing (<[slot q h := Some o]> (buf q)) (mask q) (u64 (h + 1)) t)
  else Panic IndexOutOfRange.

Definition Dequeue (q : retireRing) : Result (option handle * retireRing) :=
  let t := rq_tail q in
  let h := rq_head q in
  if t =? h then Ok (None, q)
  else
    match buf q !! slot q t with
    | None => Panic IndexOutOfRange
    | Some o => Ok (o, mkRing (<[slot q t := None]> (buf q)) (mask q) h (u64 (t + 1)))
    end.

(** ** Epoch bookkeeping *)

Record Reader : Set := mkReader { epoch : Z }.

Definition EnterRead (globalEpoch : Z) (r : Reader) : Reader := mkReader globalEpoch.
Definition ExitRead (r : Reader) : Reader := mkReader 0.

Definition minReaderEpoch (rs : list Reader) : Z :=
  fold_left (fun min r =>
               let e := epoch r in
               if negb (e =? 0) && (e <? min) then e else min)
            rs ALL_F.

(** ** Price levels: an intrusive doubly-linked FIFO of orders *)

Record PriceLevel : Set := mkLevel {
  Price : Z;                     (* Price int64 *)
  lvl_head : option handle;
  lvl_tail : option handle;
  TotalQty : Z                   (* TotalQty int64 *)
}.

Definition set_head (v : option handle) (l : PriceLevel) : PriceLevel :=
  mkLevel (Price l) v (lvl_tail l) (TotalQty l).
Definition set_tail (v : option handle) (l : PriceLevel) : PriceLevel :=
  mkLevel (Price l) (lvl_head l) v (TotalQty l).
Definition set_TotalQty (v : Z) (l : PriceLevel) : PriceLevel :=
  mkLevel (Price l) (lvl_head l) (lvl_tail l) v.

(** [lvl.Enqueue(o)] *)
Definition Level_Enqueue (lvl : PriceLevel) (o : handle) (σ : heap)
  : PriceLevel * heap :=
  let '(lvl1, σ1) :=
    match lvl_tail lvl with
    | Some t => (lvl, upd o (set_prev (Some t)) (upd t (set_next (Some o)) σ))
    | None => (set_head (Some o) lvl, σ)
    end in
  let lvl2 := set_tail (Some o) lvl1 in
  (set_TotalQty (i64 (TotalQty lvl2 + oQty (σ1 !!! o))) lvl2, σ1).

(** [lvl.unlinkAlreadyInactive(o)] *)
Definition unlinkAlreadyInactive (lvl : PriceLevel) (o : handle) (σ : heap)
  : PriceLevel * heap :=
  let '(lvl1, σ1) :=
    match oprev (σ !!! o) with
    | Some p => (lvl, upd p (set_next (onext (σ !!! o))) σ)
    | None => (set_head (onext (σ !!! o)) lvl, σ)
    end in
  let '(lvl2, σ2) :=
    match onext (σ1 !!! o) with
    | Some n => (lvl1, upd n (set_prev (oprev (σ1 !!! o))) σ1)
    | None => (set_tail (oprev (σ1 !!! o)) lvl1, σ1)
    end in
  let lvl3 := set_TotalQty (i64 (TotalQty lvl2 - oQty (σ2 !!! o))) lvl2 in
  (lvl3, upd o (fun r => set_prev None (set_next None r)) σ2).

(** ** The red-black price index

    The tree of [node] records is embedded as an algebraic tree: [Nil] is
    the sentinel [t.nil], and the [parent] pointers of a node are the
    [path] of frames from that node up to the root.  A [*PriceLevel] is
    referenced from exactly one node, so the level record is kept in the
    node that points to it. *)

Inductive Color : Set := red | black.

#[global] Instance Color_eq_dec : EqDecision Color.
Proof. solve_decision. Defined.

Inductive node : Set :=
| Nil
| Node (color : Color) (left : node) (key : Z) (level : PriceLevel) (right : node).

Record RBTree : Set := mkTree {
  root : node;
  size : Z
}.

Definition NewRBTree : RBTree := mkTree Nil 0.

Definition Size (t : RBTree) : Z := size t.

(** [n.color]; the sentinel is black. *)
Definition color_of (n : node) : Color :=
  match n with
  | Nil => black
  | Node c _ _ _ _ => c
  end.

(** [n.color = c]; the source only ever stores black into the sentinel. *)
Definition set_color (c : Color) (n : node) : node :=
  match n with
  | Nil => Nil
  | Node _ l k v r => Node c l k v r
  end.

(** Which child of its parent a node is. *)
Inductive dir : Set := L | R.

#[global] Instance dir_eq_dec : EqDecision dir.
Proof. solve_decision. Defined.

(** One step of a parent chain: the parent's own fields, which of its
    children the node below is, and the parent's other child. *)
Record frame : Set := mkFrame {
  fdir : dir;
  fcolor : Color;
  fkey : Z;
  flevel : PriceLevel;
  fsib : node
}.

Definition set_fcolor (c : Color) (f : frame) : frame :=
  mkFrame (fdir f) c (fkey f) (flevel f) (fsib f).
Definition set_fsib (s : node) (f : frame) : frame :=
  mkFrame (fdir f) (fcolor f) (fkey f) (flevel f) s.

Definition plug1 (f : frame) (x : node) : node :=
  match fdir f with
  | L => Node (fcolor f) x (fkey f) (flevel f) (fsib f)
  | R => Node (fcolor f) (fsib f) (fkey f) (flevel f) x
  end.

(** The tree around [x]: [path] lists the ancestors of [x], nearest first. *)
Fixpoint plug (path : list frame) (x : node) : node :=
  match path with
  | [] => x
  | f :: up => plug up (plug1 f x)
  end.

(** Focus on a child of [n]; dereferencing the sentinel's children faults. *)
Definition down (d : dir) (n : node) : Result (node * frame) :=
  match n with
  | Nil => Panic NilDeref
  | Node c l k v r =>
      match d with
      | L => Ok (l, mkFrame L c k v r)
      | R => Ok (r, mkFrame R c k v l)
      end
  end.

Fixpoint FindLevel_from (n : node) (price : Z) : option PriceLevel :=
  match n with
  | Nil => None
  | Node _ l k v r =>
      if price <? k then FindLevel_from l price
      else if k <? price then FindLevel_from r price
      else Some v
  end.

Definition FindLevel (t : RBTree) (price : Z) : option PriceLevel :=
  FindLevel_from (root t) price.

(** The store through the [*PriceLevel] that [FindLevel] or [UpsertLevel]
    returned for [price]. *)
Fixpoint writeLevel_from (n : node) (price : Z) (lvl : PriceLevel) : node :=
  match n with
  | Nil => Nil
  | Node c l k v r =>
      if price <? k then Node c (writeLevel_from l price lvl) k v r
      else if k <? price then Node c l k v (writeLevel_from r price lvl)
      else Node c l k lvl r
  end.

Definition writeLevel (t : RBTree) (price : Z) (lvl : PriceLevel) : RBTree :=
  mkTree (writeLevel_from (root t) price lvl) (size t).

Fixpoint searchNode (n : node) (price : Z) (path : list frame)
  : option (node * list frame) :=
  match n with
  | Nil => None
  | Node c l k v r =>
      if price <? k then searchNode l price (mkFrame L c k v r :: path)
      else if k <? price then searchNode r price (mkFrame R c k v l :: path)
      else Some (n, path)
  end.

Fixpoint minNode (n : node) (path : list frame) : node * list frame :=
  match n with
  | Nil => (Nil, path)
  | Node c l k v r =>
      match l with
      | Nil => (n, path)
      | Node _ _ _ _ _ => minNode l (mkFrame L c k v r :: path)
      end
  end.

Fixpoint maxNode (n : node) (path : list frame) : node * list frame :=
  match n with
  | Nil => (Nil, path)
  | Node c l k v r =>
      match r with
      | Nil => (n, path)
      | Node _ _ _ _ _ => maxNode r (mkFrame R c k v l :: path)
      end
  end.

Definition level_of (n : node) : option PriceLevel :=
  match n with
  | Nil => None
  | Node _ _ _ v _ => Some v
  end.

Definition MinLevel (t : RBTree) : option PriceLevel :=
  level_of (fst (minNode (root t) [])).

Definition MaxLevel (t : RBTree) : option PriceLevel :=
  level_of (fst (maxNode (root t) [])).

(** The loop of [Successor]: [succ] is the last node at which the search
    went left. *)
Fixpoint Successor_from (n : node) (price : Z) (succ : node) : node :=
  match n with
  | Nil => succ
  | Node _ l k _ r =>
      if price <? k then Successor_from l price n
      else Successor_from r price succ
  end.

Definition Successor (t : RBTree) (price : Z) : option PriceLevel :=
  level_of (Successor_from (root t) price Nil).

(** The loop of [Predecessor]: [pred] is the last node at which the search
    went right. *)
Fixpoint Predecessor_from (n : node) (price : Z) (pred : node) : node :=
  match n with
  | Nil => pred
  | Node _ l k _ r =>
      if k <? price then Predecessor_from r price n
      else Predecessor_from l price pred
  end.

Definition Predecessor (t : RBTree) (price : Z) : option PriceLevel :=
  level_of (Predecessor_from (root t) price Nil).

(** The climb of [next]: [for p != t.nil && n == p.right]. *)
Fixpoint next_up (n : node) (path : list frame) : node * list frame :=
  match path with
  | [] => (Nil, [])
  | f :: up =>
      match fdir f with
      | R => next_up (plug1 f n) up
      | L => (plug1 f n, up)
      end
  end.

Fixpoint prev_up (n : node) (path : list frame) : node * list frame :=
  match path with
  | [] => (Nil, [])
  | f :: up =>
      match fdir f with
      | L => prev_up (plug1 f n) up
      | R => (plug1 f n, up)
      end
  end.

(** In-order successor and predecessor of the node [n] reached by [path]. *)
Definition next (n : node) (path : list frame) : node * list frame :=
  match n with
  | Nil => (Nil, [])
  | Node c l k v r =>
      match r with
      | Node _ _ _ _ _ => minNode r (mkFrame R c k v l :: path)
      | Nil => next_up n path
      end
  end.

Definition prev (n : node) (path : list frame) : node * list frame :=
  match n with
  | Nil => (Nil, [])
  | Node c l k v r =>
      match l with
      | Node _ _ _ _ _ => maxNode l (mkFrame L c k v r :: path)
      | Nil => prev_up n path
      end
  end.

Fixpoint count_nodes (n : node) : nat :=
  match n with
  | Nil => O
  | Node _ l _ _ r => S (count_nodes l + count_nodes r)
  end.

Section Traversal.
Context {A : Type}.
(** The callback with the variables it captures: it returns whether
    iteration goes on together with their new values. *)
Variable fn : PriceLevel → A → bool * A.

Fixpoint forEach (step : node → list frame → node * list frame)
         (fuel : nat) (n : node) (path : list frame) (acc : A) : Result A :=
  match n with
  | Nil => Ok acc
  | Node _ _ _ v _ =>
      let '(go, acc') := fn v acc in
      if go then
        match fuel with
        | O => Panic OutOfFuel
        | S fuel' =>
            let '(n', path') := step n path in
            forEach step fuel' n' path' acc'
        end
      else Ok acc'
  end.

Definition ForEachAscending (t : RBTree) (acc : A) : Result A :=
  let '(n, path) := minNode (root t) [] in
  forEach next (count_nodes (root t)) n path acc.

Definition ForEachDescending (t : RBTree) (acc : A) : Result A :=
  let '(n, path) := maxNode (root t) [] in
  forEach prev (count_nodes (root t)) n path acc.
End Traversal.

(** *** Rotations and fixups *)

Definition leftRotate (x : node) : Result node :=
  match x with
  | Node xc a xk xv (Node yc b yk yv c) => Ok (Node yc (Node xc a xk xv b) yk yv c)
  | _ => Panic NilDeref
  end.

Definition rightRotate (y : node) : Result node :=
  match y with
  | Node yc (Node xc a xk xv b) yk yv c => Ok (Node xc a xk xv (Node yc b yk yv c))
  | _ => Panic NilDeref
  end.

(** The loop of [insertFixup].  [z] is the current node and [p :: g :: _]
    are its parent and grandparent; the rotated subtree takes the place of
    the node that was rotated, and [down] finds [z] again below it. *)
Fixpoint insertFixup_loop (fuel : nat) (z : node) (path : list frame)
  : Result node :=
  match path with
  | [] => Ok z
  | p :: up =>
      match fcolor p with
      | black => Ok (plug path z)
      | red =>
          match fuel, up with
          | O, _ => Panic OutOfFuel
          | S _, [] => Panic NilDeref
          | S fuel', g :: up' =>
              let y := fsib g in
              match fdir g with
              | L =>
                  match color_of y with
                  | red =>
                      (* Case 1 *)
                      let g' := set_fsib (set_color black y) (set_fcolor red g) in
                      insertFixup_loop fuel' (plug1 g' (plug1 (set_fcolor black p) z)) up'
                  | black =>
                      (* Case 2 *)
                      '(z1, p1) ← match fdir p with
                                   | R => sub ← leftRotate (plug1 p z); down L sub
                                   | L => Ok (z, p)
                                   end;
                      (* Case 3 *)
                      sub ← rightRotate (plug1 (set_fcolor red g)
                                               (plug1 (set_fcolor black p1) z1));
                      '(z2, p2) ← down L sub;
                      insertFixup_loop fuel' z2 (p2 :: up')
                  end
              | R =>
                  match color_of y with
                  | red =>
                      (* Case 1 *)
                      let g' := set_fsib (set_color black y) (set_fcolor red g) in
                      insertFixup_loop fuel' (plug1 g' (plug1 (set_fcolor black p) z)) up'
                  | black =>
                      (* Case 2 *)
                      '(z1, p1) ← match fdir p with
                                   | L => sub ← rightRotate (plug1 p z); down R sub
                                   | R => Ok (z, p)
                                   end;
                      (* Case 3 *)
                      sub ← leftRotate (plug1 (set_fcolor red g)
                                              (plug1 (set_fcolor black p1) z1));
                      '(z2, p2) ← down R sub;
                      insertFixup_loop fuel' z2 (p2 :: up')
                  end
              end
          end
      end
  end.

(** [insertFixup(z)] followed by the new root: [t.root.color = black]. *)
Definition insertFixup (z : node) (path : list frame) : Result node :=
  r ← insertFixup_loop (length path) z path;
  Ok (set_color black r).

Fixpoint upsert_search (x : node) (price : Z) (path : list frame)
  : PriceLevel + list frame :=
  match x with
  | Nil => inr path
  | Node c l k v r =>
      if price <? k then upsert_search l price (mkFrame L c k v r :: path)
      else if k <? price then upsert_search r price (mkFrame R c k v l :: path)
      else inl v
  end.

Definition UpsertLevel (t : RBTree) (price : Z) : Result (PriceLevel * RBTree) :=
  match upsert_search (root t) price [] with
  | inl lvl => Ok (lvl, t)
  | inr path =>
      let pl := mkLevel price None None 0 in
      let z := Node red Nil price pl Nil in
      r ← insertFixup z path;
      Ok (pl, mkTree r (i64 (size t + 1)))
  end.

(** The loop of [deleteFixup].  [x] is the current node, possibly the
    sentinel, whose [parent] field [transplant] has set: it is the head [p]
    of [path], and [w] is the other child of [p].  (When [x] is the
    sentinel and both children of [p] are the sentinel, the pointer test
    [x == x.parent.left] holds whichever child [x] stands for; [w] is then
    the sentinel in either branch and [w.left.color] faults in both.) *)
Fixpoint deleteFixup_loop (fuel : nat) (x : node) (path : list frame)
  : Result node :=
  match path with
  | [] => Ok (set_color black x)
  | p :: up =>
      match color_of x, fuel with
      | red, _ => Ok (plug path (set_color black x))
      | black, O => Panic OutOfFuel
      | black, S fuel' =>
          match fdir p with
          | L =>
              (* Case 1 *)
              '(p1, up1) ← match color_of (fsib p) with
                            | red =>
                                let p' := set_fsib (set_color black (fsib p))
                                                   (set_fcolor red p) in
                                sub ← leftRotate (plug1 p' x);
                                '(pn, wf) ← down L sub;
                                '(_, p1) ← down L pn;
                                Ok (p1, wf :: up)
                            | black => Ok (p, up)
                            end;
              match fsib p1 with
              | Nil => Panic NilDeref
              | Node wc wl wk wv wr =>
                  match color_of wl, color_of wr with
                  | black, black =>
                      (* Case 2 *)
                      deleteFixup_loop fuel'
                        (plug1 (set_fsib (Node red wl wk wv wr) p1) x) up1
                  | _, _ =>
                      (* Case 3 *)
                      w3 ← match color_of wr with
                            | black =>
                                rightRotate (Node red (set_color black wl) wk wv wr)
                            | red => Ok (Node wc wl wk wv wr)
                            end;
                      (* Case 4 *)
                      match w3 with
                      | Nil => Panic NilDeref
                      | Node _ l3 k3 v3 r3 =>
                          let w4 := Node (fcolor p1) l3 k3 v3 (set_color black r3) in
                          sub ← leftRotate
                                  (plug1 (set_fsib w4 (set_fcolor black p1)) x);
                          deleteFixup_loop fuel' (plug up1 sub) []
                      end
                  end
              end
          | R =>
              (* Case 1 *)
              '(p1, up1) ← match color_of (fsib p) with
                            | red =>
                                let p' := set_fsib (set_color black (fsib p))
                                                   (set_fcolor red p) in
                                sub ← rightRotate (plug1 p' x);
                                '(pn, wf) ← down R sub;
                                '(_, p1) ← down R pn;
                                Ok (p1, wf :: up)
                            | black => Ok (p, up)
                            end;
              match fsib p1 with
              | Nil => Panic NilDeref
              | Node wc wl wk wv wr =>
                  match color_of wr, color_of wl with
                  | black, black =>
                      (* Case 2 *)
                      deleteFixup_loop fuel'
                        (plug1 (set_fsib (Node red wl wk wv wr) p1) x) up1
                  | _, _ =>
                      (* Case 3 *)
                      w3 ← match color_of wl with
                            | black =>
                                leftRotate (Node red wl wk wv (set_color black wr))
                            | red => Ok (Node wc wl wk wv wr)
                            end;
                      (* Case 4 *)
                      match w3 with
                      | Nil => Panic NilDeref
                      | Node _ l3 k3 v3 r3 =>
                          let w4 := Node (fcolor p1) (set_color black l3) k3 v3 r3 in
                          sub ← rightRotate
                                  (plug1 (set_fsib w4 (set_fcolor black p1)) x);
                          deleteFixup_loop fuel' (plug up1 sub) []
                      end
                  end
              end
          end
      end
  end.

Definition deleteFixup (x : node) (path : list frame) : Result node :=
  deleteFixup_loop (length path) x path.

(** [deleteNode(z)], where [path] is the parent chain of [z].  In the
    two-children case [y] is the minimum of [z.right] and [ypath] its parent
    chain inside [z.right]; after the relinking [y] stands in the place of
    [z] with the colour and left subtree of [z], and [x = y.right] hangs
    where [y] was. *)
Definition deleteNode (z : node) (path : list frame) : Result node :=
  match z with
  | Nil => Panic NilDeref
  | Node zc zl zk zv zr =>
      '(yOrigColor, x, xpath) ←
        match zl, zr with
        | Nil, _ => Ok (zc, zr, path)
        | _, Nil => Ok (zc, zl, path)
        | _, _ =>
            let '(y, ypath) := minNode zr [] in
            match y with
            | Nil => Panic NilDeref
            | Node yc _ yk yv yr =>
                Ok (yc, yr, ypath ++ mkFrame R zc yk yv zl :: path)
            end
        end;
      match yOrigColor with
      | black => deleteFixup x xpath
      | red => Ok (plug xpath x)
      end
  end.

Definition DeleteLevel (t : RBTree) (price : Z) : Result (bool * RBTree) :=
  match searchNode (root t) price [] with
  | None => Ok (false, t)
  | Some (z, path) =>
      r ← deleteNode z path;
      Ok (true, mkTree r (i64 (size t - 1)))
  end.

(** ** The order book and the matching engine *)

Record OrderBook : Set := mkBook {
  Bids : RBTree;
  Asks : RBTree;
  LastSeq : Z                    (* atomic.Uint64 *)
}.

Definition NewOrderBook : OrderBook := mkBook NewRBTree NewRBTree 0.

(** Everything the engine's functions reach: the heap of orders, the pool
    and the ring they are handed, the book, and the global epoch. *)
Record Engine : Type := mkEngine {
  orders : heap;
  pool : OrderPool;
  rq : retireRing;
  book : OrderBook;
  globalEpoch : Z                (* atomic.Uint64 *)
}.

Definition set_orders (σ : heap) (e : Engine) : Engine :=
  mkEngine σ (pool e) (rq e) (book e) (globalEpoch e).
Definition set_rq (q : retireRing) (e : Engine) : Engine :=
  mkEngine (orders e) (pool e) q (book e) (globalEpoch e).
Definition set_book (b : OrderBook) (e : Engine) : Engine :=
  mkEngine (orders e) (pool e) (rq e) b (globalEpoch e).

Definition side_tree (s : Side) (b : OrderBook) : RBTree :=
  match s with
  | Bid => Bids b
  | Ask => Asks b
  end.

Definition set_side_tree (s : Side) (t : RBTree) (b : OrderBook) : OrderBook :=
  match s with
  | Bid => mkBook t (Asks b) (LastSeq b)
  | Ask => mkBook (Bids b) t (LastSeq b)
  end.

Definition min_int64 (a b : Z) : Z := if a <? b then a else b.

(** [b.cancelOrder(price, o, rq, side)] *)
Definition cancelOrder (price : Z) (o : handle) (side : Side) (e : Engine)
  : Result Engine :=
  let σ1 := upd o (set_Status Inactive) (orders e) in
  let σ2 := upd o (set_retireEpoch (globalEpoch e)) σ1 in
  let t := side_tree side (book e) in
  '(t', σ3) ← match FindLevel t price with
               | Some lvl =>
                   let '(lvl', σ') := unlinkAlreadyInactive lvl o σ2 in
                   let t1 := writeLevel t price lvl' in
                   match lvl_head lvl' with
                   | None => '(_, t2) ← DeleteLevel t1 price; Ok (t2, σ')
                   | Some _ => Ok (t1, σ')
                   end
               | None => Ok (t, σ2)
               end;
  '(ok, q') ← Enqueue (rq e) o;
  if ok : bool
  then Ok (mkEngine σ3 (pool e) q' (set_side_tree side t' (book e)) (globalEpoch e))
  else Panic RetireRingFull.

Definition opposite (s : Side) : Side :=
  match s with
  | Bid => Ask
  | Ask => Bid
  end.

(** The two loops of [match]: against the best ask for a bid, against the
    best bid for an ask. *)
Fixpoint match_loop (fuel : nat) (side : Side) (o : handle) (filled : Z)
         (e : Engine) : Result (Z * Engine) :=
  if 0 <? oQty (orders e !!! o) then
    match fuel with
    | O => Panic OutOfFuel
    | S fuel' =>
        let best := match side with
                    | Bid => MinLevel (Asks (book e))
                    | Ask => MaxLevel (Bids (book e))
                    end in
        match best with
        | None => Ok (filled, e)
        | Some best =>
            let ord := orders e !!! o in
            let unmarketable := match side with
                                | Bid => oPrice ord <? Price best
                                | Ask => Price best <? oPrice ord
                                end in
            if bool_decide (oType ord ≠ Market) && unmarketable
            then Ok (filled, e)
            else
              match lvl_head best with
              | None => Panic NilDeref
              | Some head =>
                  let trade := min_int64 (oQty ord) (oQty (orders e !!! head)) in
                  let σ1 := upd o (fun r => set_Qty (i64 (oQty r - trade)) r) (orders e) in
                  let σ2 := upd head (fun r => set_Qty (i64 (oQty r - trade)) r) σ1 in
                  let filled' := i64 (filled + trade) in
                  e' ← (if oQty (σ2 !!! head) =? 0
                        then cancelOrder (Price best) head (opposite side) (set_orders σ2 e)
                        else Ok (set_orders σ2 e));
                  match_loop fuel' side o filled' e'
              end
        end
    end
  else Ok (filled, e).

(** [b.match(o, rq)].  An iteration that does not end the loop retires the
    head order into the ring, which bounds the number of iterations. *)
Definition match_ (o : handle) (e : Engine) : Result (Z * Engine) :=
  match_loop (S (length (buf (rq e)))) (oSide (orders e !!! o)) o 0 e.

(** [b.enqueue(o)] *)
Definition enqueue (o : handle) (e : Engine) : Result Engine :=
  let ord := orders e !!! o in
  let t := side_tree (oSide ord) (book e) in
  '(lvl, t1) ← UpsertLevel t (oPrice ord);
  let '(lvl', σ') := Level_Enqueue lvl o (orders e) in
  Ok (set_orders σ' (set_book (set_side_tree (oSide ord)
                                 (writeLevel t1 (oPrice ord) lvl') (book e)) e)).

(** [checkLiquidity(side, limitPrice, desired)]; the callbacks capture
    [available]. *)
Definition checkLiquidity (side : Side) (limitPrice desired : Z) (b : OrderBook)
  : Result Z :=
  match side with
  | Bid =>
      ForEachAscending
        (fun lvl available =>
           if limitPrice <? Price lvl then (false, available)
           else
             let available := i64 (available + TotalQty lvl) in
             if desired <=? available then (false, available)
             else (true, available))
        (Asks b) 0
  | Ask =>
      ForEachDescending
        (fun lvl available =>
           if Price lvl <? limitPrice then (false, available)
           else
             let available := i64 (available + TotalQty lvl) in
             if desired <=? available then (false, available)
             else (true, available))
        (Bids b) 0
  end.

(** [o.Status = Inactive; _ = rq.Enqueue(o)]: the result of the enqueue is
    discarded. *)
Definition retire_unchecked (o : handle) (e : Engine) : Result Engine :=
  let σ := upd o (set_Status Inactive) (orders e) in
  '(_, q') ← Enqueue (rq e) o;
  Ok (set_rq q' (set_orders σ e)).

(** [b.placeOrder(side, otype, price, id, qty, seq, pool, rq)] *)
Definition placeOrder (side : Side) (otype : OrderType) (price id qty seq : Z)
           (e : Engine) : Result (handle * Engine) :=
  '(got, pool', σ0) ← Get (pool e) (orders e);
  match got with
  | None => Panic PoolExhausted
  | Some o =>
      let σ1 := <[o := mkOrder id side otype price qty 0 seq Active None None 0]> σ0 in
      let b1 := mkBook (Bids (book e)) (Asks (book e)) seq in
      let σ2 := if bool_decide (oType (σ1 !!! o) = Market)
                then upd o (set_Price 0) σ1 else σ1 in
      let e2 := mkEngine σ2 pool' (rq e) b1 (globalEpoch e) in
      rejected ← (if bool_decide (oType (σ2 !!! o) = FOK)
                  then available ← checkLiquidity side (oPrice (σ2 !!! o))
                                                  (oQty (σ2 !!! o)) b1;
                       Ok (available <? oQty (σ2 !!! o))
                  else Ok false);
      if rejected : bool then
        e3 ← retire_unchecked o e2;
        Ok (o, e3)
      else
        '(matched, e3) ← match_ o e2;
        let e4 := set_orders (upd o (set_Filled matched) (orders e3)) e3 in
        let ord := orders e4 !!! o in
        e5 ← match oType ord with
              | Limit =>
                  if 0 <? oQty ord then enqueue o e4 else Ok e4
              | PostOnly =>
                  if 0 <? matched then retire_unchecked o e4
                  else if 0 <? oQty ord then enqueue o e4
                  else Ok e4
              | IOC =>
                  if 0 <? oQty ord then retire_unchecked o e4 else Ok e4
              | FOK =>
                  if 0 <? oQty ord then retire_unchecked o e4 else Ok e4
              | Market =>
                  if 0 <? oQty ord then retire_unchecked o e4 else Ok e4
              end;
        Ok (o, e5)
  end.

(** The drain loop of [advanceEpochAndReclaim]. *)
Fixpoint reclaim_loop (fuel : nat) (min : Z) (e : Engine) : Result Engine :=
  match fuel with
  | O => Panic OutOfFuel
  | S fuel' =>
      '(got, q1) ← Dequeue (rq e);
      match got with
      | None => Ok (set_rq q1 e)
      | Some o =>
          if (min =? ALL_F) || (oretireEpoch (orders e !!! o) <? min) then
            '(pool', σ') ← Put (pool e) o (orders e);
            reclaim_loop fuel' min
                         (mkEngine σ' pool' q1 (book e) (globalEpoch e))
          else
            '(_, q2) ← Enqueue q1 o;
            Ok (set_rq q2 e)
      end
  end.

(** [advanceEpochAndReclaim(rq, pool, rs...)]: every iteration that goes
    on has taken one handle out of the ring. *)
Definition advanceEpochAndReclaim (rs : list Reader) (e : Engine) : Result Engine :=
  let e1 := mkEngine (orders e) (pool e) (rq e) (book e) (u64 (globalEpoch e + 1)) in
  let min := minReaderEpoch rs in
  reclaim_loop (S (length (buf (rq e)))) min e1.

(** *** Snapshots *)

Section Snapshot.
Context {A : Type}.
(** The [visit] callback with the variables it captures: it is given the
    price of the level, the order (its handle and its fields) and the
    captured variables, and returns their new values.  It reads the order
    and does not write to it. *)
Variable visit : Z → handle → Order → A → A.

(** [for n := lvl.head; n != nil; n = n.next { if n.Status == Active
    { visit(lvl.Price, n) } }] *)
Fixpoint visit_level (fuel : nat) (σ : heap) (price : Z) (n : option handle)
         (acc : A) : Result A :=
  match n with
  | None => Ok acc
  | Some h =>
      match fuel with
      | O => Panic OutOfFuel
      | S fuel' =>
          let o := σ !!! h in
          let acc' := match oStatus o with
                      | Active => visit price h o acc
                      | Inactive => acc
                      end in
          visit_level fuel' σ price (onext o) acc'
      end
  end.

(** [b.SnapshotActiveIter(r, visit)]: bids from the highest price
    down, then asks from the lowest price up; both callbacks return true. *)
Definition SnapshotActiveIter (fuel : nat) (r : Reader) (e : Engine) (acc : A)
  : Result (Reader * A) :=
  let r := EnterRead (globalEpoch e) r in
  let each := fun (lvl : PriceLevel) (acc : Result A) =>
                (true, a ← acc; visit_level fuel (orders e) (Price lvl) (lvl_head lvl) a) in
  acc1 ← ForEachDescending each (Bids (book e)) (Ok acc);
  acc2 ← ForEachAscending each (Asks (book e)) acc1;
  a ← acc2;
  Ok (ExitRead r, a).
End Snapshot.

(** The engine of a test environment: a fresh book, pool and ring. *)
Definition newEngine (poolCap : nat) (ringPow2 : Z) (epoch0 : Z) : Engine :=
  mkEngine ∅ (NewOrderPool poolCap) (newRetireRing ringPow2) NewOrderBook epoch0.


(** ** Sequential executions of the ring *)

Inductive ring_op : Set :=
| OpEnqueue (o : handle)
| OpDequeue.

(** The ring, the handles whose Enqueue returned true and the handles that
    Dequeue returned, both in the order of the calls. *)
Record ring_run : Set := mkRun {
  run_ring : retireRing;
  accepted : list handle;
  delivered : list handle
}.

Definition ring_step (s : ring_run) (op : ring_op) : Result ring_run :=
  match op with
  | OpEnqueue o =>
      '(ok, q') ← Enqueue (run_ring s) o;
      Ok (mkRun q' (if ok : bool then accepted s ++ [o] else accepted s) (delivered s))
  | OpDequeue =>
      '(got, q') ← Dequeue (run_ring s);
      Ok (mkRun q' (accepted s)
                (match got with
                 | Some o => delivered s ++ [o]
                 | None => delivered s
                 end))
  end.

Fixpoint ring_exec (ops : list ring_op) (s : ring_run) : Result ring_run :=
  match ops with
  | [] => Ok s
  | op :: ops' => s' ← ring_step s op; ring_exec ops' s'
  end.

(** ** Sequences of index operations *)

Inductive index_op : Set :=
| OpUpsert (price : Z)
| OpDelete (price : Z).

Definition index_step (t : RBTree) (op : index_op) : Result RBTree :=
  match op with
  | OpUpsert p => '(_, t') ← UpsertLevel t p; Ok t'
  | OpDelete p => '(_, t') ← DeleteLevel t p; Ok t'
  end.

Fixpoint index_exec (ops : list index_op) (t : RBTree) : Result RBTree :=
  match ops with
  | [] => Ok t
  | op :: ops' => t' ← index_step t op; index_exec ops' t'
  end.


(** ** Sequences of engine operations *)

Inductive engine_op : Type :=
| OpPlace (side : Side) (otype : OrderType) (price id qty seq : Z)
| OpCancel (price : Z) (o : handle) (side : Side)
| OpReclaim (rs : list Reader).

Definition engine_step (e : Engine) (op : engine_op) : Result Engine :=
  match op with
  | OpPlace side otype price id qty seq =>
      '(_, e') ← placeOrder side otype price id qty seq e; Ok e'
  | OpCancel price o side => cancelOrder price o side e
  | OpReclaim rs => advanceEpochAndReclaim rs e
  end.

Fixpoint engine_exec (ops : list engine_op) (e : Engine) : Result Engine :=
  match ops with
  | [] => Ok e
  | op :: ops' => e' ← engine_step e op; engine_exec ops' e'
  end.

(** The arguments of a call have the Go types of the parameters. *)
Definition in_i64b (x : Z) : bool := (- 2 ^ 63 <=? x) && (x <? 2 ^ 63).
Definition in_u64b (x : Z) : bool := (0 <=? x) && (x <? 2 ^ 64).

Definition op_typed (op : engine_op) : bool :=
  match op with
  | OpPlace _ _ price id qty seq =>
      in_i64b price && in_u64b id && in_i64b qty && in_u64b seq
  | OpCancel price _ _ => in_i64b price
  | OpReclaim rs => forallb (fun r => in_u64b (epoch r)) rs
  end.

(** * Properties *)

(** ** Machine arithmetic *)

Lemma u64_range x : 0 ≤ u64 x < 2 ^ 64.
Proof. unfold u64. apply Z.mod_pos_bound. lia. Qed.

Lemma u64_small x : 0 ≤ x < 2 ^ 64 → u64 x = x.
Proof. intros. unfold u64. apply Z.mod_small. lia. Qed.

Lemma u64_mod_pow2 x k : 0 ≤ k ≤ 64 → u64 x mod 2 ^ k = x mod 2 ^ k.
Proof.
  intros Hk. unfold u64. apply Z.mod_mod_divide.
  exists (2 ^ (64 - k)). rewrite <- Z.pow_add_r by lia. f_equal. lia.
Qed.

Lemma pow2_le_63 k : 0 ≤ k < 64 → 0 < 2 ^ k ≤ 2 ^ 63.
Proof.
  intros. split; [lia|]. apply Z.pow_le_mono_r; lia.
Qed.

(** ** The retirement ring *)

Definition ring_cap (q : retireRing) : Z := Z.of_nat (length (buf q)).

(** [ring_wf q l]: the ring [q] was built for a power-of-two capacity and
    holds the handles [l], oldest first. *)
Definition ring_wf (q : retireRing) (l : list handle) : Prop :=
  ∃ k, 0 ≤ k < 64 ∧ ring_cap q = 2 ^ k ∧ mask q = 2 ^ k - 1 ∧
       0 ≤ rq_tail q < 2 ^ 64 ∧
       rq_head q = u64 (rq_tail q + Z.of_nat (length l)) ∧
       Z.of_nat (length l) ≤ 2 ^ k ∧
       ∀ (i : nat) o, l !! i = Some o →
                      buf q !! slot q (rq_tail q + Z.of_nat i) = Some (Some o).

(** The handles in the slots from [tail] up to [head], oldest first. *)
Definition ring_contents (q : retireRing) : list handle :=
  omap (fun i : nat => buf q !! slot q (rq_tail q + Z.of_nat i) ≫= id)
       (seq 0 (Z.to_nat (u64 (rq_head q - rq_tail q)))).

Lemma slot_mod q k c :
  mask q = 2 ^ k - 1 → 0 ≤ k → slot q c = Z.to_nat (c mod 2 ^ k).
Proof.
  intros Hm Hk. unfold slot. rewrite Hm.
  replace (2 ^ k - 1) with (Z.ones k) by (rewrite Z.ones_equiv; lia).
  by rewrite Z.land_ones.
Qed.

Lemma slot_lt q k c :
  mask q = 2 ^ k - 1 → 0 ≤ k → ring_cap q = 2 ^ k → (slot q c < length (buf q))%nat.
Proof.
  intros Hm Hk Hc. rewrite (slot_mod q k) by done.
  unfold ring_cap in Hc.
  pose proof (Z.mod_pos_bound c (2 ^ k)). lia.
Qed.

Lemma slot_u64 q k c :
  mask q = 2 ^ k - 1 → 0 ≤ k < 64 → slot q (u64 c) = slot q c.
Proof.
  intros Hm Hk. rewrite !(slot_mod q k) by lia.
  by rewrite u64_mod_pow2 by lia.
Qed.

Lemma slot_inj q k t (i j : nat) :
  mask q = 2 ^ k - 1 → 0 ≤ k →
  Z.of_nat i < 2 ^ k → Z.of_nat j < 2 ^ k →
  slot q (t + Z.of_nat i) = slot q (t + Z.of_nat j) → i = j.
Proof.
  intros Hm Hk Hi Hj. rewrite !(slot_mod q k) by done.
  intros Heq.
  pose proof (Z.mod_pos_bound (t + Z.of_nat i) (2 ^ k)).
  pose proof (Z.mod_pos_bound (t + Z.of_nat j) (2 ^ k)).
  assert (E : (t + Z.of_nat i) mod 2 ^ k = (t + Z.of_nat j) mod 2 ^ k) by lia.
  assert (D : (Z.of_nat i - Z.of_nat j) mod 2 ^ k = 0).
  { replace (Z.of_nat i - Z.of_nat j) with ((t + Z.of_nat i) - (t + Z.of_nat j)) by lia.
    rewrite Zminus_mod, E, Z.sub_diag. apply Z.mod_0_l. lia. }
  apply Z.mod_divide in D; [|lia].
  destruct D as [c D].
  assert (c = 0) by nia. lia.
Qed.

Lemma ring_wf_count q l :
  ring_wf q l → u64 (rq_head q - rq_tail q) = Z.of_nat (length l).
Proof.
  intros (k & Hk & Hc & Hm & Ht & Hh & Hl & _).
  pose proof (pow2_le_63 k Hk).
  rewrite Hh. unfold u64.
  rewrite Zminus_mod_idemp_l.
  replace (rq_tail q + Z.of_nat (length l) - rq_tail q) with (Z.of_nat (length l)) by lia.
  apply Z.mod_small. lia.
Qed.

Lemma ring_wf_new k : 0 ≤ k < 64 → ring_wf (newRetireRing (2 ^ k)) [].
Proof.
  intros Hk. pose proof (pow2_le_63 k Hk). exists k.
  unfold newRetireRing, ring_cap; simpl.
  rewrite length_replicate, Z2Nat.id by lia.
  rewrite !u64_small by lia.
  repeat split; try lia; try done.
Qed.

Lemma Enqueue_full q l o :
  ring_wf q l → Z.of_nat (length l) = ring_cap q → Enqueue q o = Ok (false, q).
Proof.
  intros Hwf Hfull. unfold Enqueue.
  rewrite (ring_wf_count q l Hwf). fold (ring_cap q).
  by rewrite (proj2 (Z.eqb_eq _ _) Hfull).
Qed.

Lemma Enqueue_room q l o :
  ring_wf q l → Z.of_nat (length l) ≠ ring_cap q →
  ∃ q', Enqueue q o = Ok (true, q') ∧ ring_wf q' (l ++ [o]) ∧
        buf q' = <[slot q (rq_head q) := Some o]> (buf q).
Proof.
  intros Hwf Hroom. pose proof (ring_wf_count q l Hwf) as Hcnt.
  destruct Hwf as (k & Hk & Hc & Hm & Ht & Hh & Hl & Hbuf).
  pose proof (pow2_le_63 k Hk).
  unfold Enqueue. rewrite Hcnt. fold (ring_cap q).
  rewrite (proj2 (Z.eqb_neq _ _) Hroom).
  pose proof (slot_lt q k (rq_head q) Hm ltac:(lia) Hc) as Hlt.
  rewrite (proj2 (Nat.ltb_lt _ _) Hlt).
  eexists; split; [done|]. split; [|done].
  exists k. unfold ring_cap in *; simpl.
  rewrite length_insert, length_app; simpl.
  repeat split; try lia.
  - rewrite Hh. unfold u64. rewrite Zplus_mod_idemp_l. f_equal. lia.
  - intros i o' Hi.
    assert (Hs : ∀ c, slot (mkRing (<[slot q (rq_head q):=Some o]> (buf q)) (mask q)
                                   (u64 (rq_head q + 1)) (rq_tail q)) c = slot q c) by done.
    rewrite Hs.
    assert (Hhs : slot q (rq_head q) = slot q (rq_tail q + Z.of_nat (length l))).
    { rewrite Hh. by apply (slot_u64 q k). }
    destruct (decide (i = length l)) as [->|Hne].
    + rewrite lookup_app_r in Hi by lia.
      rewrite Nat.sub_diag in Hi. simpl in Hi. injection Hi as <-.
      rewrite Hhs. apply list_lookup_insert_eq.
      rewrite <- Hhs. done.
    + assert (i < length l)%nat.
      { apply lookup_lt_Some in Hi. rewrite length_app in Hi. simpl in Hi. lia. }
      rewrite lookup_app_l in Hi by done.
      rewrite list_lookup_insert_ne; [by apply Hbuf|].
      rewrite Hhs. intros Heq.
      apply (slot_inj q k) in Heq; [lia|done|lia|lia|lia].
Qed.

Lemma Dequeue_empty q : ring_wf q [] → Dequeue q = Ok (None, q).
Proof.
  intros (k & Hk & Hc & Hm & Ht & Hh & Hl & Hbuf).
  unfold Dequeue. simpl in Hh. rewrite Z.add_0_r, u64_small in Hh by done.
  by rewrite Hh, Z.eqb_refl.
Qed.

Lemma Dequeue_cons q o l :
  ring_wf q (o :: l) →
  rq_head q ≠ rq_tail q ∧
  ∃ q', Dequeue q = Ok (Some o, q') ∧ ring_wf q' l.
Proof.
  intros Hwf. pose proof (ring_wf_count q _ Hwf) as Hcnt.
  destruct Hwf as (k & Hk & Hc & Hm & Ht & Hh & Hl & Hbuf).
  pose proof (pow2_le_63 k Hk).
  simpl length in *.
  assert (Hne : rq_head q ≠ rq_tail q).
  { intros E. rewrite E, Z.sub_diag in Hcnt. unfold u64 in Hcnt.
    rewrite Z.mod_0_l in Hcnt; lia. }
  split; [done|].
  unfold Dequeue.
  rewrite (proj2 (Z.eqb_neq _ _)) by lia.
  pose proof (Hbuf 0%nat o eq_refl) as H0. simpl in H0. rewrite Z.add_0_r in H0.
  rewrite H0. eexists; split; [done|].
  exists k. unfold ring_cap in *; simpl.
  rewrite length_insert.
  pose proof (u64_range (rq_tail q + 1)).
  repeat split; try lia.
  - rewrite Hh. unfold u64. rewrite Zplus_mod_idemp_l. f_equal. lia.
  - intros i o' Hi.
    assert (Hs : ∀ c, slot (mkRing (<[slot q (rq_tail q):=None]> (buf q)) (mask q)
                                   (rq_head q) (u64 (rq_tail q + 1))) c = slot q c) by done.
    rewrite Hs.
    assert (E : slot q (u64 (rq_tail q + 1) + Z.of_nat i)
                = slot q (rq_tail q + Z.of_nat (S i))).
    { rewrite !(slot_mod q k) by lia. f_equal.
      rewrite Zplus_mod, u64_mod_pow2, <- Zplus_mod by lia.
      f_equal. lia. }
    rewrite E.
    rewrite list_lookup_insert_ne; [by apply Hbuf|].
    replace (rq_tail q) with (rq_tail q + Z.of_nat 0) at 1 by lia.
    intros Heq. apply (slot_inj q k) in Heq; [lia|done|lia|lia|].
    apply lookup_lt_Some in Hi. lia.
Qed.

Lemma omap_seq_lookup {A} (f : nat → option A) (l : list A) (s : nat) :
  (∀ i o, l !! i = Some o → f (s + i)%nat = Some o) →
  omap f (seq s (length l)) = l.
Proof.
  revert s. induction l as [|a l IH]; intros s Hf; [done|].
  simpl. rewrite <- (Nat.add_0_r s) at 1.
  rewrite (Hf 0%nat a eq_refl). f_equal.
  apply IH. intros i o Hi.
  replace (S s + i)%nat with (s + S i)%nat by lia. by apply Hf.
Qed.

Lemma ring_wf_contents q l : ring_wf q l → ring_contents q = l.
Proof.
  intros Hwf. unfold ring_contents.
  rewrite (ring_wf_count q l Hwf), Nat2Z.id.
  destruct Hwf as (k & Hk & Hc & Hm & Ht & Hh & Hl & Hbuf).
  apply omap_seq_lookup. intros i o Hi. simpl.
  by rewrite (Hbuf i o Hi).
Qed.

Lemma ring_wf_cap_mask q l : ring_wf q l → mask q = ring_cap q - 1.
Proof. intros (k & Hk & Hc & Hm & _). lia. Qed.

Lemma Enqueue_spec q l o :
  ring_wf q l →
  ∃ b q', Enqueue q o = Ok (b, q') ∧
          (b = false ↔ u64 (rq_head q - rq_tail q) = ring_cap q) ∧
          (b = false → q' = q) ∧
          (b = true →
           buf q' = <[Z.to_nat (Z.land (rq_head q) (ring_cap q - 1)) := Some o]> (buf q) ∧
           rq_head q' = u64 (rq_head q + 1) ∧ rq_tail q' = rq_tail q ∧
           ring_wf q' (l ++ [o])).
Proof.
  intros Hwf. pose proof (ring_wf_count q l Hwf) as Hcnt.
  pose proof (ring_wf_cap_mask q l Hwf) as Hmask.
  destruct (decide (Z.of_nat (length l) = ring_cap q)) as [Hfull|Hroom].
  - exists false, q. rewrite (Enqueue_full q l o Hwf Hfull).
    split; [done|]. split; [|done]. split; [lia|done].
  - destruct (Enqueue_room q l o Hwf Hroom) as (q' & HE & Hwf' & Hbuf).
    exists true, q'. split; [done|]. split; [split; [done|lia]|]. split; [done|].
    intros _. unfold slot in Hbuf. rewrite Hmask in Hbuf.
    split; [done|].
    unfold Enqueue in HE. rewrite Hcnt in HE. fold (ring_cap q) in HE.
    rewrite (proj2 (Z.eqb_neq _ _) Hroom) in HE.
    destruct (_ <? _)%nat; [|done]. by injection HE as <-.
Qed.

Lemma Dequeue_spec q l :
  ring_wf q l →
  ∃ got q', Dequeue q = Ok (got, q') ∧
            (got = None ↔ rq_head q = rq_tail q) ∧
            got = head l ∧ ring_wf q' (tail l) ∧
            (∀ o, got = Some o →
                  buf q !! Z.to_nat (Z.land (rq_tail q) (ring_cap q - 1)) = Some (Some o) ∧
                  rq_tail q' = u64 (rq_tail q + 1) ∧ rq_head q' = rq_head q).
Proof.
  intros Hwf. pose proof (ring_wf_cap_mask q l Hwf) as Hmask.
  destruct l as [|o l].
  - exists None, q. rewrite (Dequeue_empty q Hwf).
    split; [done|]. split; [|by repeat split].
    split; [|done]. intros _.
    destruct Hwf as (k & Hk & Hc & Hm & Ht & Hh & _). simpl in Hh.
    by rewrite Z.add_0_r, u64_small in Hh.
  - destruct (Dequeue_cons q o l Hwf) as (Hne & q' & HD & Hwf').
    exists (Some o), q'. split; [done|]. split; [done|]. split; [done|]. split; [done|].
    intros o' [= <-].
    unfold Dequeue in HD.
    rewrite (proj2 (Z.eqb_neq _ _)) in HD by lia.
    unfold slot in HD. rewrite Hmask in HD.
    destruct (buf q !! _) as [[o'|]|] eqn:E; simplify_eq; done.
Qed.

Lemma Enqueue_cap q o b q' :
  Enqueue q o = Ok (b, q') → ring_cap q' = ring_cap q ∧ mask q' = mask q.
Proof.
  unfold Enqueue, ring_cap. intros H.
  repeat case_match; simplify_eq; simpl; by rewrite ?length_insert.
Qed.

Lemma Dequeue_cap q got q' :
  Dequeue q = Ok (got, q') → ring_cap q' = ring_cap q ∧ mask q' = mask q.
Proof.
  unfold Dequeue, ring_cap. intros H.
  repeat case_match; simplify_eq; simpl; by rewrite ?length_insert.
Qed.

Lemma ring_step_inv s op l :
  ring_wf (run_ring s) l → accepted s = delivered s ++ l →
  ∃ s' l', ring_step s op = Ok s' ∧ ring_wf (run_ring s') l' ∧
           accepted s' = delivered s' ++ l' ∧
           ring_cap (run_ring s') = ring_cap (run_ring s).
Proof.
  intros Hwf Hacc. destruct op as [o|]; unfold ring_step.
  - destruct (Enqueue_spec _ l o Hwf) as (b & q' & HE & _ & Hf & Ht).
    rewrite HE. apply Enqueue_cap in HE as [Hcap _]. simpl.
    destruct b.
    + exists (mkRun q' (accepted s ++ [o]) (delivered s)), (l ++ [o]).
      split; [done|]. simpl. split; [by apply Ht|].
      by rewrite Hacc, app_assoc.
    + exists (mkRun q' (accepted s) (delivered s)), l.
      split; [done|]. simpl. by rewrite Hf.
  - destruct (Dequeue_spec _ l Hwf) as (got & q' & HD & _ & -> & Hwf' & _).
    rewrite HD. apply Dequeue_cap in HD as [Hcap _]. simpl.
    destruct l as [|o l]; simpl in *.
    + exists (mkRun q' (accepted s) (delivered s)), []. done.
    + exists (mkRun q' (accepted s) (delivered s ++ [o])), l.
      split; [done|]. split; [done|]. simpl. by rewrite Hacc, <- app_assoc.
Qed.

Lemma ring_exec_inv ops : ∀ s l,
  ring_wf (run_ring s) l → accepted s = delivered s ++ l →
  ∃ s' l', ring_exec ops s = Ok s' ∧ ring_wf (run_ring s') l' ∧
           accepted s' = delivered s' ++ l' ∧
           ring_cap (run_ring s') = ring_cap (run_ring s).
Proof.
  induction ops as [|op ops IH]; intros s l Hwf Hacc; simpl.
  - by exists s, l.
  - destruct (ring_step_inv s op l Hwf Hacc) as (s1 & l1 & -> & Hwf1 & Hacc1 & Hc1).
    simpl. destruct (IH s1 l1 Hwf1 Hacc1) as (s' & l' & ? & ? & ? & Hc').
    exists s', l'. rewrite Hc'. done.
Qed.

Lemma ring_drain l : ∀ s,
  ring_wf (run_ring s) l →
  ∃ s', ring_exec (replicate (length l) OpDequeue) s = Ok s' ∧
        delivered s' = delivered s ++ l ∧ accepted s' = accepted s ∧
        ring_wf (run_ring s') [].
Proof.
  induction l as [|o l IH]; intros s Hwf; simpl.
  - exists s. by rewrite app_nil_r.
  - destruct (Dequeue_cons _ o l Hwf) as (_ & q' & HD & Hwf').
    rewrite HD. simpl.
    destruct (IH (mkRun q' (accepted s) (delivered s ++ [o])) Hwf')
      as (s' & -> & Hd & Ha & Hw).
    exists s'. split; [done|]. simpl in *. by rewrite Hd, <- app_assoc.
Qed.

(** C7: in any sequential execution of a ring built for a power-of-two
    capacity, Enqueue returns false exactly when [head - tail] (in wrapping
    uint64 arithmetic) equals the capacity, Dequeue returns nil exactly when
    [head = tail], the slot used is [counter & (capacity - 1)] with the
    counters advancing modulo 2^64, the handles dequeued so far are the
    handles accepted so far in the same order up to those still in the
    ring, and draining the ring delivers every accepted handle exactly
    once. *)
Theorem retireRing_sequential_fifo (k : Z) (ops : list ring_op) :
  0 ≤ k < 64 →
  ∃ s, ring_exec ops (mkRun (newRetireRing (2 ^ k)) [] []) = Ok s ∧
       let q := run_ring s in
       ring_cap q = 2 ^ k ∧
       (∀ o, ∃ b q', Enqueue q o = Ok (b, q') ∧
                     (b = false ↔ u64 (rq_head q - rq_tail q) = ring_cap q) ∧
                     (b = true →
                      buf q' = <[Z.to_nat (Z.land (rq_head q) (ring_cap q - 1)) := Some o]> (buf q) ∧
                      rq_head q' = u64 (rq_head q + 1) ∧ rq_tail q' = rq_tail q)) ∧
       (∃ got q', Dequeue q = Ok (got, q') ∧
                  (got = None ↔ rq_head q = rq_tail q) ∧
                  (∀ o, got = Some o →
                        buf q !! Z.to_nat (Z.land (rq_tail q) (ring_cap q - 1)) = Some (Some o) ∧
                        rq_tail q' = u64 (rq_tail q + 1) ∧ rq_head q' = rq_head q)) ∧
       accepted s = delivered s ++ ring_contents q ∧
       ∃ s', ring_exec (replicate (length (ring_contents q)) OpDequeue) s = Ok s' ∧
             delivered s' = accepted s ∧ accepted s' = accepted s ∧
             ring_contents (run_ring s') = [].
Proof.
  intros Hk.
  destruct (ring_exec_inv ops (mkRun (newRetireRing (2 ^ k)) [] []) []
              (ring_wf_new k Hk) eq_refl) as (s & l & Hrun & Hwf & Hacc & Hcap).
  exists s. split; [done|]. simpl.
  rewrite (ring_wf_contents _ l Hwf).
  split; [|split; [|split; [|split]]].
  - rewrite Hcap. unfold ring_cap, newRetireRing. simpl.
    pose proof (pow2_le_63 k Hk). rewrite length_replicate. lia.
  - intros o. destruct (Enqueue_spec _ l o Hwf) as (b & q' & HE & Hb & _ & Ht).
    exists b, q'. split; [done|]. split; [done|]. intros Hbt.
    destruct (Ht Hbt) as (? & ? & ? & _). done.
  - destruct (Dequeue_spec _ l Hwf) as (got & q' & HD & Hg & _ & _ & Ho).
    by exists got, q'.
  - done.
  - destruct (ring_drain l s Hwf) as (s' & Hs' & Hd & Ha & Hw).
    exists s'. split; [done|]. split; [by rewrite Hd, Hacc|]. split; [done|].
    by apply ring_wf_contents.
Qed.

Lemma retireRing_sequential_fifo_witness :
  0 ≤ 2 < 64 ∧
  ∃ s, ring_exec [OpEnqueue 7%nat; OpEnqueue 8%nat; OpDequeue; OpEnqueue 9%nat]
                 (mkRun (newRetireRing (2 ^ 2)) [] []) = Ok s ∧
       accepted s = delivered s ++ ring_contents (run_ring s).
Proof.
  split; [lia|].
  destruct (retireRing_sequential_fifo 2
              [OpEnqueue 7%nat; OpEnqueue 8%nat; OpDequeue; OpEnqueue 9%nat])
    as (s & Hs & _ & _ & _ & Hfifo & _); [lia|].
  exists s. split; [exact Hs | exact Hfifo].
Defined.

(** ** Reclamation *)

(** The test of the drain loop on a handle whose retire epoch is [ep o]. *)
Definition releasable (min : Z) (ep : handle → Z) (o : handle) : bool :=
  (min =? ALL_F) || (ep o <? min).

(** What a drain releases from a ring holding [l], and what it leaves. *)
Fixpoint released (safe : handle → bool) (l : list handle) : list handle :=
  match l with
  | [] => []
  | o :: l' => if safe o then o :: released safe l' else []
  end.

Fixpoint left_in_ring (safe : handle → bool) (l : list handle) : list handle :=
  match l with
  | [] => []
  | o :: l' => if safe o then left_in_ring safe l' else l' ++ [o]
  end.

Definition pool_wf (p : OrderPool) : Prop := (top p ≤ length (store p))%nat.

Lemma upd_lookup h f (σ : heap) : upd h f σ !!! h = f (σ !!! h).
Proof. unfold upd. by rewrite lookup_total_insert_eq. Qed.

Lemma upd_lookup_ne h h' f (σ : heap) : h ≠ h' → upd h f σ !!! h' = σ !!! h'.
Proof. intros. unfold upd. by rewrite lookup_total_insert_ne. Qed.

Lemma Put_spec p o σ :
  pool_wf p →
  ∃ p' σ', Put p o σ = Ok (p', σ') ∧ pool_wf p' ∧
           length (store p') = length (store p) ∧
           pool_free p' = take (length (store p)) (pool_free p ++ [o]) ∧
           (∀ h, oretireEpoch (σ' !!! h) = oretireEpoch (σ !!! h)).
Proof.
  unfold pool_wf, Put, pool_free. intros Hwf.
  destruct (top p =? length (store p))%nat eqn:E.
  - apply Nat.eqb_eq in E. exists p, σ. split; [done|]. split; [done|].
    split; [done|]. split; [|done].
    rewrite take_app_le by (rewrite length_take; lia).
    rewrite take_take. f_equal. lia.
  - apply Nat.eqb_neq in E.
    rewrite (proj2 (Nat.ltb_lt _ _)) by lia.
    eexists _, _. split; [done|]. simpl. rewrite length_insert.
    split; [lia|]. split; [done|]. split.
    + rewrite (take_ge (take _ _ ++ _)) by (rewrite length_app, length_take; simpl; lia).
      rewrite (take_S_r _ _ o) by (apply list_lookup_insert_eq; lia).
      f_equal. by rewrite take_insert_ge by lia.
    + intros h. destruct (decide (h = o)) as [->|Hne].
      * by rewrite !upd_lookup.
      * by rewrite !upd_lookup_ne.
Qed.

Lemma pool_free_length p : pool_wf p → length (pool_free p) = top p.
Proof. unfold pool_wf, pool_free. intros. rewrite length_take. lia. Qed.

Lemma released_left_length safe l :
  (length (left_in_ring safe l) ≤ length l)%nat.
Proof.
  induction l as [|o l IH]; simpl; [done|].
  destruct (safe o); [lia|]. rewrite length_app. simpl. lia.
Qed.

Lemma take_take_app {A} n (a r : list A) :
  take n (take n a ++ r) = take n (a ++ r).
Proof.
  destruct (decide (length a ≤ n)%nat).
  - by rewrite (take_ge a).
  - rewrite !take_app_le by (rewrite ?length_take; lia).
    rewrite take_take. f_equal. lia.
Qed.

Lemma reclaim_loop_spec min ep : ∀ l fuel e,
  ring_wf (rq e) l → (length l < fuel)%nat → pool_wf (pool e) →
  (∀ h, oretireEpoch (orders e !!! h) = ep h) →
  ∃ e', reclaim_loop fuel min e = Ok e' ∧
        ring_wf (rq e') (left_in_ring (releasable min ep) l) ∧
        pool_wf (pool e') ∧
        length (store (pool e')) = length (store (pool e)) ∧
        pool_free (pool e') =
          take (length (store (pool e)))
               (pool_free (pool e) ++ released (releasable min ep) l) ∧
        (∀ h, oretireEpoch (orders e' !!! h) = ep h) ∧
        book e' = book e ∧ globalEpoch e' = globalEpoch e.
Proof.
  induction l as [|o l IH]; intros fuel e Hwf Hfuel Hp Hep;
    (destruct fuel as [|fuel]; [simpl in Hfuel; lia|]); simpl reclaim_loop.
  - rewrite (Dequeue_empty _ Hwf). simpl.
    exists (set_rq (rq e) e). split; [done|]. simpl.
    rewrite app_nil_r, take_ge by (rewrite pool_free_length; done).
    done.
  - destruct (Dequeue_cons _ o l Hwf) as (_ & q1 & HD & Hwf1).
    rewrite HD. simpl.
    rewrite Hep. fold (releasable min ep o).
    destruct (releasable min ep o) eqn:Hsafe.
    + destruct (Put_spec (pool e) o (orders e) Hp) as (p' & σ' & -> & Hp' & Hlen & Hfree & Hep').
      simpl.
      destruct (IH fuel (mkEngine σ' p' q1 (book e) (globalEpoch e)))
        as (e' & -> & Hwf' & Hpw & Hlen' & Hfree' & Hep'' & Hb & Hg);
        simpl; [done | simpl in Hfuel; lia | done | by intros h; rewrite Hep' |].
      exists e'. split; [done|]. simpl in *.
      split; [done|]. split; [done|]. split; [lia|].
      split; [|done].
      rewrite Hfree', Hfree, Hlen.
      by rewrite take_take_app, <- app_assoc.
    + assert (Hroom : Z.of_nat (length l) ≠ ring_cap q1).
      { apply Dequeue_cap in HD as [Hc1 _]. rewrite Hc1.
        destruct Hwf as (k & ? & Hc & _ & _ & _ & Hl & _).
        simpl length in Hl. lia. }
      destruct (Enqueue_room q1 l o Hwf1 Hroom) as (q2 & -> & Hwf2 & _). simpl.
      exists (set_rq q2 e). split; [done|]. simpl.
      rewrite app_nil_r, take_ge by (rewrite pool_free_length; done).
      done.
Qed.

(** A decidable form of [ring_wf]: the checks on the fields, and a handle
    in every slot from [tail] up to [head]. *)
Definition ring_okb (q : retireRing) : bool :=
  let cap := ring_cap q in
  let k := Z.log2 cap in
  let n := u64 (rq_head q - rq_tail q) in
  (0 <? cap) && (cap =? 2 ^ k) && (k <? 64) && (mask q =? cap - 1) &&
  (0 <=? rq_tail q) && (rq_tail q <? 2 ^ 64) &&
  (0 <=? rq_head q) && (rq_head q <? 2 ^ 64) &&
  (n <=? cap) &&
  (length (ring_contents q) =? Z.to_nat n)%nat.

Lemma omap_length_le {A B} (f : A → option B) (l : list A) :
  (length (omap f l) ≤ length l)%nat.
Proof.
  induction l as [|a l IH]; [done|].
  change (omap f (a :: l)) with (match f a with Some y => y :: omap f l | None => omap f l end).
  destruct (f a); simpl; lia.
Qed.

Lemma omap_seq_full {A} (f : nat → option A) : ∀ n s,
  length (omap f (seq s n)) = n →
  ∀ i, (i < n)%nat → f (s + i)%nat = omap f (seq s n) !! i.
Proof.
  induction n as [|n IH]; intros s Hlen i Hi; [lia|].
  pose proof (omap_length_le f (seq (S s) n)) as Hle. rewrite length_seq in Hle.
  change (seq s (S n)) with (s :: seq (S s) n) in *.
  change (omap f (s :: seq (S s) n))
    with (match f s with Some y => y :: omap f (seq (S s) n) | None => omap f (seq (S s) n) end) in *.
  destruct (f s) as [a|] eqn:Hs; simpl in Hlen; [|lia].
  destruct i as [|i]; simpl.
  - by rewrite Nat.add_0_r, Hs.
  - replace (s + S i)%nat with (S s + i)%nat by lia.
    apply IH; lia.
Qed.

Lemma ring_okb_wf q : ring_okb q = true → ring_wf q (ring_contents q).
Proof.
  unfold ring_okb. intros H.
  repeat (apply andb_prop in H as [H ?]).
  repeat match goal with
         | H : (_ <? _) = true |- _ => apply Z.ltb_lt in H
         | H : (_ <=? _) = true |- _ => apply Z.leb_le in H
         | H : (_ =? _) = true |- _ => apply Z.eqb_eq in H
         | H : (_ =? _)%nat = true |- _ => apply Nat.eqb_eq in H
         end.
  pose proof (Z.log2_nonneg (ring_cap q)).
  pose proof (u64_range (rq_head q - rq_tail q)).
  exists (Z.log2 (ring_cap q)).
  repeat split; try lia.
  - match goal with Hl : length _ = _ |- _ => rewrite Hl end.
    rewrite Z2Nat.id by lia. unfold u64.
    rewrite Zplus_mod_idemp_r.
    replace (rq_tail q + (rq_head q - rq_tail q)) with (rq_head q) by lia.
    rewrite Z.mod_small; lia.
  - intros i o Hi.
    pose proof (lookup_lt_Some _ _ _ Hi) as Hlt.
    unfold ring_contents in Hi, Hlt.
    match goal with Hl : length _ = _ |- _ => unfold ring_contents in Hl end.
    rewrite <- (omap_seq_full _ _ 0%nat) in Hi; [|done|lia].
    simpl in Hi.
    destruct (buf q !! _) as [[o'|]|]; simpl in Hi; by simplify_eq.
Qed.

Lemma ring_contents_length q l : ring_wf q l → Z.of_nat (length l) ≤ ring_cap q.
Proof. intros (k & ? & Hc & _ & _ & _ & Hl & _). lia. Qed.

Lemma advanceEpochAndReclaim_spec rs e l :
  ring_wf (rq e) l → pool_wf (pool e) →
  let safe := releasable (minReaderEpoch rs) (fun h => oretireEpoch (orders e !!! h)) in
  ∃ e', advanceEpochAndReclaim rs e = Ok e' ∧
        ring_wf (rq e') (left_in_ring safe l) ∧
        pool_wf (pool e') ∧
        pool_free (pool e') =
          take (length (store (pool e))) (pool_free (pool e) ++ released safe l) ∧
        (∀ h, oretireEpoch (orders e' !!! h) = oretireEpoch (orders e !!! h)) ∧
        book e' = book e ∧ globalEpoch e' = u64 (globalEpoch e + 1).
Proof.
  intros Hwf Hp safe. unfold advanceEpochAndReclaim.
  pose proof (ring_contents_length _ _ Hwf) as Hlen. unfold ring_cap in Hlen.
  destruct (reclaim_loop_spec (minReaderEpoch rs) (fun h => oretireEpoch (orders e !!! h))
              l (S (length (buf (rq e))))
              (mkEngine (orders e) (pool e) (rq e) (book e) (u64 (globalEpoch e + 1))))
    as (e' & He' & Hwf' & Hp' & _ & Hfree & Hep & Hb & Hg); simpl; try done; [lia|].
  exists e'. done.
Qed.

Lemma minReaderEpoch_fold_le rs : ∀ m,
  fold_left (fun min r =>
               let e := epoch r in
               if negb (e =? 0) && (e <? min) then e else min) rs m ≤ m.
Proof.
  induction rs as [|r rs IH]; intros m; simpl; [lia|].
  etrans; [apply IH|].
  destruct (negb _ && _) eqn:E; [|lia].
  apply andb_prop in E as [_ E]. apply Z.ltb_lt in E. lia.
Qed.

Lemma minReaderEpoch_fold_elem rs r : ∀ m,
  r ∈ rs → epoch r ≠ 0 →
  fold_left (fun min r =>
               let e := epoch r in
               if negb (e =? 0) && (e <? min) then e else min) rs m ≤ epoch r.
Proof.
  induction rs as [|r' rs IH]; intros m Hin Hnz; [by apply elem_of_nil in Hin|].
  apply elem_of_cons in Hin as [->|Hin]; simpl.
  - etrans; [apply minReaderEpoch_fold_le|].
    apply Z.eqb_neq in Hnz. rewrite Hnz. simpl.
    destruct (_ <? _) eqn:E; [lia|]. apply Z.ltb_ge in E. lia.
  - by apply IH.
Qed.

Lemma minReaderEpoch_le rs r :
  r ∈ rs → epoch r ≠ 0 → minReaderEpoch rs ≤ epoch r.
Proof. apply minReaderEpoch_fold_elem. Qed.

Lemma released_unsafe safe l o : safe o = false → o ∉ released safe l.
Proof.
  intros Ho. induction l as [|a l IH]; simpl; [apply not_elem_of_nil|].
  destruct (safe a) eqn:Ha; [|apply not_elem_of_nil].
  apply not_elem_of_cons. split; [congruence|done].
Qed.

Lemma left_in_ring_unsafe safe l o :
  safe o = false → o ∈ l → o ∈ left_in_ring safe l.
Proof.
  intros Ho. induction l as [|a l IH]; simpl; [done|].
  intros Hin. destruct (safe a) eqn:Ha.
  - apply elem_of_cons in Hin as [->|Hin]; [congruence|by apply IH].
  - apply elem_of_app. apply elem_of_cons in Hin as [->|Hin]; [right|left]; [|done].
    set_solver.
Qed.

Lemma released_all safe l : (∀ o, safe o = true) → released safe l = l ∧ left_in_ring safe l = [].
Proof.
  intros Hs. induction l as [|a l [IH1 IH2]]; simpl; [done|].
  by rewrite Hs, IH1, IH2.
Qed.

Lemma left_in_ring_blocked safe rel b rest :
  forallb safe rel = true → safe b = false →
  left_in_ring safe (rel ++ b :: rest) = rest ++ [b] ∧
  released safe (rel ++ b :: rest) = rel.
Proof.
  intros Hrel Hb. induction rel as [|a rel IH]; simpl in *.
  - by rewrite Hb.
  - apply andb_prop in Hrel as [-> Hrel]. destruct (IH Hrel) as [-> ->]. done.
Qed.

(** C6 (amended): when the drain of [advanceEpochAndReclaim] stops on a
    handle that is not yet releasable, that handle is put back at the tail
    of the ring: of a ring holding [rel ++ b :: rest], where the handles of
    [rel] are releasable and [b] is not, the drain leaves [rest ++ [b]].  The
    later-retired handles [rest] keep their order among themselves and now
    stand before the blocked handle [b]. *)
Theorem reclaim_moves_blocked_handle_to_tail
        (rs : list Reader) (e : Engine) (rel : list handle) (b : handle)
        (rest : list handle) :
  ring_okb (rq e) = true → pool_wf (pool e) →
  ring_contents (rq e) = rel ++ b :: rest →
  forallb (releasable (minReaderEpoch rs) (λ h, oretireEpoch (orders e !!! h))) rel = true →
  releasable (minReaderEpoch rs) (λ h, oretireEpoch (orders e !!! h)) b = false →
  ∃ e', advanceEpochAndReclaim rs e = Ok e' ∧
        ring_contents (rq e') = rest ++ [b] ∧
        pool_free (pool e') = take (length (store (pool e))) (pool_free (pool e) ++ rel).
Proof.
  intros Hok Hp Hc Hrel Hb.
  apply ring_okb_wf in Hok. 
  destruct (advanceEpochAndReclaim_spec rs e _ Hok Hp)
    as (e' & He' & Hwf' & _ & Hfree & _).
  exists e'. split; [done|].
  rewrite Hc in Hwf', Hfree.
  destruct (left_in_ring_blocked _ rel b rest Hrel Hb) as [Hl Hr].
  rewrite Hl in Hwf'. rewrite Hr in Hfree.
  split; [by apply ring_wf_contents|done].
Qed.

(** Two bids placed and cancelled at global epoch 7. *)
Definition two_retired : Result Engine :=
  '(o1, e1) ← placeOrder Bid Limit 100 1 5 1 (newEngine 4 4 7);
  '(o2, e2) ← placeOrder Bid Limit 101 2 5 2 e1;
  e3 ← cancelOrder 100 o1 Bid e2;
  cancelOrder 101 o2 Bid e3.

Definition two_retired_engine : Engine :=
  Eval vm_compute in
    match two_retired with
    | Ok e => e
    | Panic _ => newEngine 0 1 0
    end.

Lemma two_retired_engine_eq : two_retired = Ok two_retired_engine.
Proof. vm_compute. reflexivity. Qed.

Lemma reclaim_moves_blocked_handle_to_tail_witness :
  ∃ e', advanceEpochAndReclaim [mkReader 7] two_retired_engine = Ok e' ∧
        ring_contents (rq e') = [2%nat] ++ [3%nat] ∧
        pool_free (pool e') =
          take (length (store (pool two_retired_engine)))
               (pool_free (pool two_retired_engine) ++ []).
Proof.
  apply (reclaim_moves_blocked_handle_to_tail [mkReader 7] two_retired_engine
           [] 3%nat [2%nat]).
  - reflexivity.
  - unfold pool_wf. simpl. lia.
  - reflexivity.
  - reflexivity.
  - reflexivity.
Defined.

(** C6 as stated fails: with a reader still at epoch 7 the drain stops on
    the first retired order (handle 3) and re-enqueues it behind the order
    retired after it (handle 2), so what is left in the ring is no longer in
    retirement order. *)
Lemma reclaim_reorders_ring_counterexample :
  ∃ e e', two_retired = Ok e ∧
          advanceEpochAndReclaim [EnterRead 7 (mkReader 0)] e = Ok e' ∧
          ring_contents (rq e) = [3%nat; 2%nat] ∧
          ring_contents (rq e') = [2%nat; 3%nat].
Proof.
  eexists _, _. split; [apply two_retired_engine_eq|].
  split; [vm_compute; reflexivity|]. split; reflexivity.
Qed.

(** C5 as stated fails at the all-ones epoch: a reader that entered at
    global epoch 2^64-1 is registered with the value that [minReaderEpoch]
    uses for "no reader", so an order retired at that epoch is released to
    the pool although the reader's epoch is non-zero and not greater. *)
Lemma reclaim_all_ones_reader_counterexample :
  ∃ e1 e2 e3,
    placeOrder Bid Limit 100 1 5 1 (newEngine 4 4 ALL_F) = Ok (3%nat, e1) ∧
    cancelOrder 100 3%nat Bid e1 = Ok e2 ∧
    oretireEpoch (orders e2 !!! 3%nat) = ALL_F ∧
    epoch (EnterRead (globalEpoch e1) (mkReader 0)) = ALL_F ∧
    pool_free (pool e2) = [0; 1; 2]%nat ∧
    advanceEpochAndReclaim [EnterRead (globalEpoch e1) (mkReader 0)] e2 = Ok e3 ∧
    pool_free (pool e3) = [0; 1; 2; 3]%nat.
Proof.
  eexists _, _, _.
  split; [vm_compute; reflexivity|].
  split; [vm_compute; reflexivity|].
  split; [reflexivity|]. split; [reflexivity|].
  split; [reflexivity|].
  split; [vm_compute; reflexivity|].
  reflexivity.
Qed.

(** ** Scenarios on the engine of the tests *)

(** The environment of the tests, [newTestEnv()]: a fresh book, a pool of
    [1 << 12] orders and a ring of [1 << 12] slots, at global epoch 0. *)
Definition newTestEnv : Engine := newEngine (2 ^ 12) (2 ^ 12) 0.

(** S1: a bid and an ask that cross exactly. *)
Definition simple_cross : Result (Order * Order * OrderBook) :=
  '(bid, e1) ← placeOrder Bid Limit 100 1 10 1 newTestEnv;
  '(ask, e2) ← placeOrder Ask Limit 100 2 10 2 e1;
  Ok (orders e2 !!! bid, orders e2 !!! ask, book e2).

Lemma simple_cross_eq :
  simple_cross =
  Ok (mkOrder 1 Bid Limit 100 0 0 1 Inactive None None 0,
      mkOrder 2 Ask Limit 100 0 10 2 Active None None 0,
      mkBook (mkTree Nil 0) (mkTree Nil 0) 2).
Proof. vm_compute. reflexivity. Qed.

(** C3 (amended): after Bid Limit 100 x 10 (seq 1) and Ask Limit 100 x 10
    (seq 2) on an empty book, the resting bid has Qty = 0, Status = Inactive
    and Filled = 0, the incoming ask has Filled = 10 and Qty = 0, neither
    index holds a level, and the last sequence is 2. *)
Theorem simple_cross_outcome :
  ∃ bid ask bk,
    simple_cross = Ok (bid, ask, bk) ∧
    oFilled bid = 0 ∧ oQty bid = 0 ∧ oStatus bid = Inactive ∧
    oFilled ask = 10 ∧ oQty ask = 0 ∧
    root (Bids bk) = Nil ∧ root (Asks bk) = Nil ∧
    FindLevel (Bids bk) 100 = None ∧ FindLevel (Asks bk) 100 = None ∧
    LastSeq bk = 2.
Proof.
  eexists _, _, _. split; [apply simple_cross_eq|].
  repeat split.
Qed.

(** C3 as stated fails: [match] never updates the Filled field of a resting
    order and [placeOrder] leaves a fully filled incoming order Active. *)
Lemma simple_cross_counterexample :
  ¬ ∃ bid ask bk,
      simple_cross = Ok (bid, ask, bk) ∧
      oFilled bid = 10 ∧ oQty bid = 0 ∧ oStatus bid = Inactive ∧
      oFilled ask = 10 ∧ oQty ask = 0 ∧ oStatus ask = Inactive ∧
      root (Bids bk) = Nil ∧ root (Asks bk) = Nil ∧ LastSeq bk = 2.
Proof.
  intros (bid & ask & bk & Hrun & Hf & _).
  rewrite simple_cross_eq in Hrun. injection Hrun as <- _ _.
  simpl in Hf. lia.
Qed.

(** Where the two orders of that scenario end up, on an engine [e0]: the
    handles of the bid and of the ask, the ring, and whether the ask is free
    in the pool. *)
Definition simple_cross_owners (e0 : Engine)
  : Result (handle * handle * list handle * bool) :=
  '(bid, e1) ← placeOrder Bid Limit 100 1 10 1 e0;
  '(ask, e2) ← placeOrder Ask Limit 100 2 10 2 e1;
  Ok (bid, ask, ring_contents (rq e2), bool_decide (ask ∈ pool_free (pool e2))).

(** On a pool of 4 orders and a ring of 4 slots: the depleted bid is
    retired into the ring; the incoming ask, filled completely, is neither
    in the ring nor back in the pool, and its Status is still Active
    ([simple_cross_eq]): [placeOrder] makes an order Inactive and enqueues
    it only under [o.Qty > 0]. *)
Lemma simple_cross_ask_not_retired :
  simple_cross_owners (newEngine 4 4 0) = Ok (3%nat, 2%nat, [3%nat], false).
Proof. vm_compute. reflexivity. Qed.

(** *** Partial fills and the aggregate quantity of a level *)

(** An ask of 10 at 100, then a bid of 4 at 100 that fills against it. *)
Definition partial_fill : Result (handle * Engine) :=
  '(ask, e1) ← placeOrder Ask Limit 100 1 10 1 newTestEnv;
  '(bid, e2) ← placeOrder Bid Limit 100 2 4 2 e1;
  Ok (ask, e2).

(** That state seen from outside: the ask's handle, the ask, and the
    book. *)
Definition partial_fill_book : Result (handle * Order * OrderBook) :=
  '(ask, e) ← partial_fill;
  Ok (ask, orders e !!! ask, book e).

(** C1 fails on the code: after the partial fill the level at 100 still
    links the ask alone, whose remaining Qty is 6, while TotalQty is 10;
    [match] decrements [head.Qty] and leaves the level's TotalQty as it
    was. *)
Theorem partial_fill_stale_TotalQty :
  ∃ ask o bk lvl,
    partial_fill_book = Ok (ask, o, bk) ∧
    FindLevel (Asks bk) 100 = Some lvl ∧
    lvl_head lvl = Some ask ∧ lvl_tail lvl = Some ask ∧
    onext o = None ∧
    oQty o = 6 ∧
    TotalQty lvl = 10.
Proof.
  eexists _, _, _, _. split; [vm_compute; reflexivity|].
  split; [vm_compute; reflexivity|]. repeat split.
Qed.

(** The same book, then a FOK bid of 10 at 100. *)
Definition fok_after_partial_fill : Result (Z * Order * OrderBook) :=
  '(_, e2) ← partial_fill;
  available ← checkLiquidity Bid 100 10 (book e2);
  '(fok, e3) ← placeOrder Bid FOK 100 3 10 3 e2;
  Ok (available, orders e3 !!! fok, book e3).

(** C4 fails on the code, by the defect of C1: the cumulative TotalQty of
    the marketable asks is 10, equal to the quantity of the FOK bid, so the
    pre-check lets it through; only 6 are left to trade, and the FOK ends
    partially filled (Filled = 6, Qty = 4) and Inactive. *)
Theorem fok_partially_filled :
  ∃ fok bk,
    fok_after_partial_fill = Ok (10, fok, bk) ∧
    oFilled fok = 6 ∧ oQty fok = 4 ∧ oStatus fok = Inactive ∧
    root (Asks bk) = Nil.
Proof.
  eexists _, _. split; [vm_compute; reflexivity|]. repeat split.
Qed.

(** *** PostOnly *)

(** TestPostOnlyOrder: an ask of 5 at 100, then a PostOnly bid of 5 at 101. *)
Definition postonly_cross : Result (Order * Order * OrderBook) :=
  '(ask, e1) ← placeOrder Ask Limit 100 1 5 1 newTestEnv;
  '(bid, e2) ← placeOrder Bid PostOnly 101 2 5 2 e1;
  Ok (orders e2 !!! ask, orders e2 !!! bid, book e2).

(** C2 fails on the code: the crossing PostOnly bid is matched before it is
    rejected; it comes back Inactive with Filled = 5 and Qty = 0, and the
    resting ask has been consumed and its level removed. *)
Theorem postonly_cross_trades :
  ∃ ask bid bk,
    postonly_cross = Ok (ask, bid, bk) ∧
    oStatus bid = Inactive ∧ oFilled bid = 5 ∧ oQty bid = 0 ∧
    oStatus ask = Inactive ∧ oQty ask = 0 ∧
    root (Asks bk) = Nil ∧ root (Bids bk) = Nil.
Proof.
  eexists _, _, _. split; [vm_compute; reflexivity|]. repeat split.
Qed.

(** ** The price index: contents and traversal *)

(** The entries of a tree in key order of the positions (in-order). *)
Fixpoint elements (n : node) : list (Z * PriceLevel) :=
  match n with
  | Nil => []
  | Node _ l k v r => elements l ++ (k, v) :: elements r
  end.

Definition keys (n : node) : list Z := (elements n).*1.
Definition levels (n : node) : list PriceLevel := (elements n).*2.

(** The entries to the left and to the right of the subtree that a path
    leads to. *)
Definition before1 (f : frame) : list (Z * PriceLevel) :=
  match fdir f with
  | L => []
  | R => elements (fsib f) ++ [(fkey f, flevel f)]
  end.

Definition after1 (f : frame) : list (Z * PriceLevel) :=
  match fdir f with
  | L => (fkey f, flevel f) :: elements (fsib f)
  | R => []
  end.

Fixpoint path_before (path : list frame) : list (Z * PriceLevel) :=
  match path with
  | [] => []
  | f :: up => path_before up ++ before1 f
  end.

Fixpoint path_after (path : list frame) : list (Z * PriceLevel) :=
  match path with
  | [] => []
  | f :: up => after1 f ++ path_after up
  end.

Lemma elements_plug1 f x :
  elements (plug1 f x) = before1 f ++ elements x ++ after1 f.
Proof.
  unfold plug1, before1, after1. destruct (fdir f); simpl.
  - done.
  - by rewrite app_nil_r, <- app_assoc.
Qed.

Lemma plug_cons f up x : plug (f :: up) x = plug up (plug1 f x).
Proof. done. Qed.

Lemma plug_app p1 p2 : ∀ x, plug (p1 ++ p2) x = plug p2 (plug p1 x).
Proof. induction p1 as [|f p1 IH]; intros x; simpl; [done|apply IH]. Qed.

Lemma elements_plug path : ∀ x,
  elements (plug path x) = path_before path ++ elements x ++ path_after path.
Proof.
  induction path as [|f up IH]; intros x; simpl.
  - by rewrite app_nil_r.
  - rewrite IH, elements_plug1. by rewrite <- !app_assoc.
Qed.

(** The fold that a traversal with an early-stop callback computes. *)
Fixpoint fold_stop {A} (fn : PriceLevel → A → bool * A)
         (l : list PriceLevel) (acc : A) : A :=
  match l with
  | [] => acc
  | v :: l' =>
      let '(go, acc') := fn v acc in
      if go : bool then fold_stop fn l' acc' else acc'
  end.

(** What an ascending traversal standing at [n] has yet to visit. *)
Definition rest_asc (n : node) (path : list frame) : list (Z * PriceLevel) :=
  match n with
  | Nil => []
  | Node _ _ k v r => (k, v) :: elements r ++ path_after path
  end.

Definition rest_desc (n : node) (path : list frame) : list (Z * PriceLevel) :=
  match n with
  | Nil => []
  | Node _ l k v _ => (k, v) :: reverse (elements l) ++ reverse (path_before path)
  end.

Lemma minNode_rest n : ∀ path,
  n ≠ Nil ∨ path_after path = [] →
  rest_asc (minNode n path).1 (minNode n path).2 = elements n ++ path_after path.
Proof.
  induction n as [|c l IHl k v r _]; intros path H.
  - destruct H as [?| ->]; done.
  - simpl. destruct l as [|lc ll lk lv lr]; [done|].
    rewrite IHl by (by left). simpl. by rewrite <- !app_assoc.
Qed.

Lemma maxNode_rest n : ∀ path,
  n ≠ Nil ∨ path_before path = [] →
  rest_desc (maxNode n path).1 (maxNode n path).2
  = reverse (elements n) ++ reverse (path_before path).
Proof.
  induction n as [|c l _ k v r IHr]; intros path H.
  - destruct H as [?| ->]; done.
  - simpl. destruct r as [|rc rl rk rv rr].
    + simpl. by rewrite reverse_app, reverse_singleton.
    + rewrite IHr by (by left). simpl.
      unfold before1; simpl.
      rewrite !reverse_app, !reverse_cons, !reverse_app. simpl.
      rewrite ?reverse_cons. by rewrite <- !app_assoc.
Qed.

Lemma next_up_rest : ∀ path n,
  rest_asc (next_up n path).1 (next_up n path).2 = path_after path.
Proof.
  induction path as [|f up IH]; intros n; [done|].
  simpl. unfold after1. destruct (fdir f) eqn:E.
  - unfold plug1. rewrite E. done.
  - by rewrite IH.
Qed.

Lemma prev_up_rest : ∀ path n,
  rest_desc (prev_up n path).1 (prev_up n path).2 = reverse (path_before path).
Proof.
  induction path as [|f up IH]; intros n; [done|].
  simpl. unfold before1. destruct (fdir f) eqn:E.
  - by rewrite IH, app_nil_r.
  - unfold plug1. rewrite E. simpl.
    by rewrite !reverse_app, reverse_singleton.
Qed.

Lemma next_rest c l k v r path :
  rest_asc (next (Node c l k v r) path).1 (next (Node c l k v r) path).2
  = elements r ++ path_after path.
Proof.
  unfold next. destruct r as [|rc rl rk rv rr].
  - by rewrite next_up_rest.
  - by rewrite minNode_rest by (by left).
Qed.

Lemma prev_rest c l k v r path :
  rest_desc (prev (Node c l k v r) path).1 (prev (Node c l k v r) path).2
  = reverse (elements l) ++ reverse (path_before path).
Proof.
  unfold prev. destruct l as [|lc ll lk lv lr].
  - by rewrite prev_up_rest.
  - rewrite maxNode_rest by (by left). simpl. unfold before1. simpl.
    by rewrite app_nil_r.
Qed.

Lemma forEach_next {A} (fn : PriceLevel → A → bool * A) : ∀ fuel n path acc,
  (length (rest_asc n path) ≤ fuel)%nat →
  forEach fn next fuel n path acc = Ok (fold_stop fn (rest_asc n path).*2 acc).
Proof.
  induction fuel as [|fuel IH]; intros n path acc Hlen.
  - destruct n; [done|]. simpl in Hlen. lia.
  - destruct n as [|c l k v r]; [done|].
    cbn -[next prev]. destruct (fn v acc) as [go acc']. destruct go; [|done].
    pose proof (next_rest c l k v r path) as Hn.
    destruct (next (Node c l k v r) path) as [n' path']. simpl in Hn.
    rewrite IH; [by rewrite Hn|].
    rewrite Hn. simpl in Hlen. lia.
Qed.

Lemma forEach_prev {A} (fn : PriceLevel → A → bool * A) : ∀ fuel n path acc,
  (length (rest_desc n path) ≤ fuel)%nat →
  forEach fn prev fuel n path acc = Ok (fold_stop fn (rest_desc n path).*2 acc).
Proof.
  induction fuel as [|fuel IH]; intros n path acc Hlen.
  - destruct n; [done|]. simpl in Hlen. lia.
  - destruct n as [|c l k v r]; [done|].
    cbn -[next prev]. destruct (fn v acc) as [go acc']. destruct go; [|done].
    pose proof (prev_rest c l k v r path) as Hn.
    destruct (prev (Node c l k v r) path) as [n' path']. simpl in Hn.
    rewrite IH; [by rewrite Hn|].
    rewrite Hn. simpl in Hlen. lia.
Qed.

Lemma elements_length n : length (elements n) = count_nodes n.
Proof.
  induction n as [|c l IHl k v r IHr]; [done|].
  simpl. rewrite length_app. simpl. lia.
Qed.

(** The traversals visit the levels in order and never run out of fuel. *)
Lemma ForEachAscending_fold {A} (fn : PriceLevel → A → bool * A) t acc :
  ForEachAscending fn t acc = Ok (fold_stop fn (levels (root t)) acc).
Proof.
  unfold ForEachAscending.
  pose proof (minNode_rest (root t) [] (or_intror eq_refl)) as H.
  destruct (minNode (root t) []) as [n path]. simpl in H.
  rewrite app_nil_r in H.
  rewrite forEach_next; [by rewrite H|].
  by rewrite H, elements_length.
Qed.

Lemma ForEachDescending_fold {A} (fn : PriceLevel → A → bool * A) t acc :
  ForEachDescending fn t acc = Ok (fold_stop fn (reverse (levels (root t))) acc).
Proof.
  unfold ForEachDescending.
  pose proof (maxNode_rest (root t) [] (or_intror eq_refl)) as H.
  destruct (maxNode (root t) []) as [n path]. simpl in H.
  rewrite app_nil_r in H.
  rewrite forEach_prev; [by rewrite H; unfold levels; rewrite fmap_reverse|].
  by rewrite H, length_reverse, elements_length.
Qed.

(** ** The price index: rotations and fixups keep the entries in order *)

Lemma bind_Ok {A B} (m : Result A) (k : A → Result B) b :
  m ≫= k = Ok b → ∃ a, m = Ok a ∧ k a = Ok b.
Proof. destruct m as [a|f]; [by exists a|done]. Qed.

Ltac inv_bind :=
  repeat match goal with
         | H : _ ≫= _ = Ok _ |- _ =>
             let a := fresh "a" in
             let Ha := fresh "Ha" in
             apply bind_Ok in H as (a & Ha & H)
         | H : Ok _ = Ok _ |- _ => injection H as H; subst
         | H : Panic _ = Ok _ |- _ => discriminate H
         | H : (let '(_, _) := ?p in _) = _ |- _ => destruct p
         end.

Lemma leftRotate_elements x y : leftRotate x = Ok y → elements y = elements x.
Proof.
  destruct x as [|xc a xk xv [|yc b yk yv c]]; try done.
  intros [= <-]. simpl. by rewrite <- !app_assoc.
Qed.

Lemma rightRotate_elements x y : rightRotate x = Ok y → elements y = elements x.
Proof.
  destruct x as [|xc [|yc a yk yv b] xk xv c]; try done.
  intros [= <-]. simpl. by rewrite <- !app_assoc.
Qed.

Lemma down_plug1 d n c f : down d n = Ok (c, f) → plug1 f c = n ∧ fdir f = d.
Proof. destruct n, d; try done; by intros [= <- <-]. Qed.

Lemma elements_set_color c n : elements (set_color c n) = elements n.
Proof. by destruct n. Qed.

Lemma elements_plug1_set_fcolor c f x :
  elements (plug1 (set_fcolor c f) x) = elements (plug1 f x).
Proof. unfold plug1. simpl. by destruct (fdir f). Qed.

Lemma elements_plug1_congr f x y :
  elements x = elements y → elements (plug1 f x) = elements (plug1 f y).
Proof. intros E. by rewrite !elements_plug1, E. Qed.

Lemma elements_plug_congr path x y :
  elements x = elements y → elements (plug path x) = elements (plug path y).
Proof. intros E. by rewrite !elements_plug, E. Qed.

Lemma elements_plug1_set_fsib s f x :
  elements s = elements (fsib f) →
  elements (plug1 (set_fsib s f) x) = elements (plug1 f x).
Proof. intros E. unfold plug1. simpl. destruct (fdir f); simpl; by rewrite E. Qed.

Lemma insertFixup_loop_elements : ∀ fuel z path r,
  insertFixup_loop fuel z path = Ok r →
  elements r = elements (plug path z).
Proof.
  induction fuel as [|fuel IH]; intros z path r H.
  - destruct path as [|p up]; simpl in H; [by simplify_eq|].
    destruct (fcolor p); [done|by simplify_eq].
  - destruct path as [|p up]; simpl in H; [by simplify_eq|].
    destruct (fcolor p) eqn:Ep; [|by simplify_eq].
    destruct up as [|g up']; [done|].
    rewrite !plug_cons.
    destruct (fdir g) eqn:Eg, (color_of (fsib g)) eqn:Ey.
    + apply IH in H. rewrite H. apply elements_plug_congr.
      rewrite elements_plug1_set_fsib by apply elements_set_color.
      rewrite elements_plug1_set_fcolor. apply elements_plug1_congr.
      apply elements_plug1_set_fcolor.
    + inv_bind.
      apply IH in H. rewrite H, plug_cons. apply elements_plug_congr.
      apply down_plug1 in Ha1 as [-> _].
      apply rightRotate_elements in Ha0. rewrite Ha0.
      rewrite elements_plug1_set_fcolor. apply elements_plug1_congr.
      rewrite elements_plug1_set_fcolor.
      destruct (fdir p); inv_bind; [done|].
      apply down_plug1 in Ha as [-> _]. by apply leftRotate_elements.
    + apply IH in H. rewrite H. apply elements_plug_congr.
      rewrite elements_plug1_set_fsib by apply elements_set_color.
      rewrite elements_plug1_set_fcolor. apply elements_plug1_congr.
      apply elements_plug1_set_fcolor.
    + inv_bind.
      apply IH in H. rewrite H, plug_cons. apply elements_plug_congr.
      apply down_plug1 in Ha1 as [-> _].
      apply leftRotate_elements in Ha0. rewrite Ha0.
      rewrite elements_plug1_set_fcolor. apply elements_plug1_congr.
      rewrite elements_plug1_set_fcolor.
      destruct (fdir p); inv_bind; [|done].
      apply down_plug1 in Ha as [-> _]. by apply rightRotate_elements.
Qed.

Lemma set_color_plug1_elements f x c :
  elements (plug1 f (set_color c x)) = elements (plug1 f x).
Proof. apply elements_plug1_congr, elements_set_color. Qed.

Ltac elts :=
  repeat (rewrite ?elements_plug, ?elements_plug1, ?elements_set_color; simpl);
  unfold before1, after1; simpl;
  repeat (rewrite <- app_assoc; simpl); rewrite ?app_nil_r; try done.

Lemma deleteFixup_loop_elements : ∀ fuel x path r,
  deleteFixup_loop fuel x path = Ok r →
  elements r = elements (plug path x).
Proof.
  induction fuel as [|fuel IH]; intros x path r H.
  - destruct path as [|p up]; simpl in H; [simplify_eq; apply elements_set_color|].
    destruct (color_of x); [|done]. simplify_eq. by elts.
  - destruct path as [|p up]; simpl in H; [simplify_eq; apply elements_set_color|].
    destruct (color_of x) eqn:Ex.
    { simplify_eq. by elts. }
    destruct p as [d pc pk pv w]. simpl in H.
    destruct d; simpl in H.
    + apply bind_Ok in H as ([p1 up1] & H1 & H).
      assert (E1 : elements (plug (p1 :: up1) x)
                   = elements (plug (mkFrame L pc pk pv w :: up) x) ∧ fdir p1 = L).
      { destruct (color_of w) eqn:Ew; [|by simplify_eq].
        destruct w as [|wc wl wk wv wr]; [done|]. simpl in *.
        simplify_eq. simpl. split; [|done]. by elts. }
      destruct E1 as [E1 Ed]. rewrite <- E1. clear E1 H1.
      destruct p1 as [d1 c1 k1 v1 w1]. simpl in *. subst d1.
      destruct w1 as [|wc wl wk wv wr]; [done|].
      destruct (color_of wl) eqn:Ewl, (color_of wr) eqn:Ewr.
      * simpl in H. apply IH in H. rewrite H. by elts.
      * simpl in H. destruct wl as [|lc ll lk lv lr]; [done|]. simpl in *. subst.
        apply IH in H. rewrite H. by elts.
      * simpl in H. apply IH in H. rewrite H. by elts.
      * apply IH in H. rewrite H. by elts.
    + apply bind_Ok in H as ([p1 up1] & H1 & H).
      assert (E1 : elements (plug (p1 :: up1) x)
                   = elements (plug (mkFrame R pc pk pv w :: up) x) ∧ fdir p1 = R).
      { destruct (color_of w) eqn:Ew; [|by simplify_eq].
        destruct w as [|wc wl wk wv wr]; [done|]. simpl in *.
        simplify_eq. simpl. split; [|done]. by elts. }
      destruct E1 as [E1 Ed]. rewrite <- E1. clear E1 H1.
      destruct p1 as [d1 c1 k1 v1 w1]. simpl in *. subst d1.
      destruct w1 as [|wc wl wk wv wr]; [done|].
      destruct (color_of wr) eqn:Ewr, (color_of wl) eqn:Ewl.
      * simpl in H. apply IH in H. rewrite H. by elts.
      * simpl in H. destruct wr as [|rc rl rk rv rr]; [done|]. simpl in *. subst.
        apply IH in H. rewrite H. by elts.
      * simpl in H. apply IH in H. rewrite H. by elts.
      * apply IH in H. rewrite H. by elts.
Qed.

Lemma minNode_before n : ∀ path, path_before (minNode n path).2 = path_before path.
Proof.
  induction n as [|c l IHl k v r _]; intros path; [done|].
  simpl. destruct l; [done|]. rewrite IHl. simpl. unfold before1. simpl.
  by rewrite app_nil_r.
Qed.

Lemma minNode_left n : ∀ path c l k v r,
  (minNode n path).1 = Node c l k v r → l = Nil.
Proof.
  induction n as [|nc nl IHl nk nv nr _]; intros path c l k v r; [done|].
  simpl. destruct nl; [by intros [= _ <- _ _ _]|]. apply IHl.
Qed.

Lemma minNode_Nil n path : (minNode n path).1 = Nil → n = Nil.
Proof.
  revert path. induction n as [|nc nl IHl nk nv nr _]; intros path; [done|].
  simpl. destruct nl; [done|]. intros H. by apply IHl in H.
Qed.

Lemma deleteFixup_elements x path r :
  deleteFixup x path = Ok r → elements r = elements (plug path x).
Proof. apply deleteFixup_loop_elements. Qed.

Lemma deleteNode_elements z path r :
  deleteNode z path = Ok r →
  ∃ c l k v rr, z = Node c l k v rr ∧
    elements r = path_before path ++ elements l ++ elements rr ++ path_after path.
Proof.
  destruct z as [|zc zl zk zv zr]; [done|]. intros H.
  exists zc, zl, zk, zv, zr. split; [done|].
  unfold deleteNode in H.
  apply bind_Ok in H as ([[yOrig x] xpath] & H1 & H).
  assert (E : elements (plug xpath x)
              = path_before path ++ elements zl ++ elements zr ++ path_after path).
  { destruct zl as [|lc ll lk lv lr].
    - simplify_eq. by elts.
    - destruct zr as [|rc rl rk rv rr].
      + simplify_eq. by elts.
      + assert (Hne : Node rc rl rk rv rr ≠ Nil) by done.
        pose proof (minNode_rest _ [] (or_introl Hne)) as Hm.
        pose proof (minNode_before (Node rc rl rk rv rr) []) as Hb.
        destruct (minNode (Node rc rl rk rv rr) []) as [y ypath].
        destruct y as [|yc yl yk yv yr]; [done|].
        simplify_eq. simpl in Hm, Hb. rewrite app_nil_r in Hm.
        rewrite plug_app.
        change (elements (Node rc rl rk rv rr)) with (elements rl ++ (rk, rv) :: elements rr).
        rewrite <- Hm. elts. by rewrite Hb. }
  rewrite <- E. destruct yOrig.
  - by simplify_eq.
  - by apply deleteFixup_elements.
Qed.

(** ** The price index: red-black invariants *)

(** [is_rb n h]: no red node of [n] has a red child and every path from
    [n] down to the sentinel crosses [h] black nodes. *)
Fixpoint is_rb (n : node) (h : nat) : Prop :=
  match n with
  | Nil => h = O
  | Node red l _ _ r =>
      color_of l = black ∧ color_of r = black ∧ is_rb l h ∧ is_rb r h
  | Node black l _ _ r =>
      match h with
      | O => False
      | S h' => is_rb l h' ∧ is_rb r h'
      end
  end.

(** [path_rb path c h]: the ancestors [path] accept below them a subtree
    with root colour [c] and black height [h]; the root is black. *)
Fixpoint path_rb (path : list frame) (c : Color) (h : nat) : Prop :=
  match path with
  | [] => c = black
  | f :: up =>
      is_rb (fsib f) h ∧
      match fcolor f with
      | red => c = black ∧ color_of (fsib f) = black ∧ path_rb up red h
      | black => path_rb up black (S h)
      end
  end.

(** The ancestors of the red node that [insertFixup] is looking at. *)
Definition ins_path (path : list frame) (h : nat) : Prop :=
  match path with
  | [] => True
  | p :: up =>
      is_rb (fsib p) h ∧
      match fcolor p with
      | red => color_of (fsib p) = black ∧ path_rb up red h
      | black => path_rb up black (S h)
      end
  end.

Lemma set_color_id c n : color_of n = c → set_color c n = n.
Proof. destruct n; simpl; [done|by intros ->]. Qed.

Lemma path_rb_red_black path h : path_rb path red h → path_rb path black h.
Proof.
  destruct path as [|f up]; simpl; [done|].
  intros [? H]. split; [done|]. destruct (fcolor f); [|done]. by destruct H.
Qed.

Lemma path_rb_ins path c h : path_rb path c h → ins_path path h.
Proof.
  destruct path as [|f up]; simpl; [done|].
  intros [? H]. split; [done|]. destruct (fcolor f); [|done]. by destruct H as (_ & ? & ?).
Qed.

Lemma plug_rb : ∀ path x c h,
  is_rb x h → color_of x = c → path_rb path c h →
  ∃ h', is_rb (plug path x) h' ∧ color_of (plug path x) = black.
Proof.
  induction path as [|f up IH]; intros x c h Hx Hc Hp; simpl in *.
  - exists h. by subst.
  - destruct Hp as [Hs Hp]. destruct f as [d fc fk fv s]; simpl in *.
    destruct fc.
    + destruct Hp as (-> & Hsc & Hp).
      apply (IH _ red h); [|by destruct d|done].
      destruct d; simpl; done.
    + apply (IH _ black (S h)); [|by destruct d|done].
      destruct d; simpl; done.
Qed.

Lemma is_rb_red_node n h :
  color_of n = red → is_rb n h →
  ∃ l k v r, n = Node red l k v r ∧ color_of l = black ∧ color_of r = black ∧
             is_rb l h ∧ is_rb r h.
Proof.
  destruct n as [|[] l k v r]; try done. intros _ (? & ? & ? & ?).
  by exists l, k, v, r.
Qed.

Lemma insertFixup_loop_rb : ∀ fuel path z h,
  (length path ≤ fuel)%nat → color_of z = red → is_rb z h → ins_path path h →
  ∃ r h', insertFixup_loop fuel z path = Ok r ∧ is_rb (set_color black r) h'.
Proof.
  induction fuel as [|fuel IH]; intros path z h Hlen Hz Hrb Hp.
  - destruct path; [|simpl in Hlen; lia].
    exists z, (S h). split; [done|].
    apply is_rb_red_node in Hrb as (l & k & v & r & -> & _ & _ & ? & ?); done.
  - destruct path as [|p up].
    { exists z, (S h). split; [done|].
      apply is_rb_red_node in Hrb as (l & k & v & r & -> & _ & _ & ? & ?); done. }
    destruct p as [pd pc pk pv ps]. simpl in Hp. destruct Hp as [Hps Hp].
    destruct pc.
    2:{ simpl.
        destruct (plug_rb up (plug1 (mkFrame pd black pk pv ps) z) black (S h))
          as (h' & Hr & Hc); [by destruct pd|by destruct pd|done|].
        eexists _, h'. split; [done|]. by rewrite set_color_id. }
    destruct Hp as [Hpsc Hp].
    destruct up as [|g up']; [done|].
    destruct g as [gd gc gk gv y]. simpl in Hp. destruct Hp as [Hy Hp].
    destruct gc; [by destruct Hp|].
    apply is_rb_red_node in Hrb as (zl & zk & zv & zr & -> & Hzl & Hzr & Hzlh & Hzrh); [|done].
    simpl in Hlen.
    destruct (color_of y) eqn:Ey.
    + (* Case 1 *)
      apply is_rb_red_node in Hy as (yl & yk & yv & yr & -> & Hyl & Hyr & Hylh & Hyrh); [|done].
      assert (Hgo : ∀ z', color_of z' = red → is_rb z' (S h) →
                ∃ r h', insertFixup_loop fuel z' up' = Ok r ∧ is_rb (set_color black r) h').
      { intros z' ? ?. apply (IH up' z' (S h)); [lia|done|done|by eapply path_rb_ins]. }
      destruct gd, pd; simpl; apply Hgo; simpl; done.
    + (* Cases 2 and 3 *)
      assert (Hfin : ∀ sub, color_of sub = black → is_rb sub (S h) →
                ∃ r h', Ok (plug up' sub) = Ok r ∧ is_rb (set_color black r) h').
      { intros sub ? ?.
        destruct (plug_rb up' sub black (S h)) as (h' & ? & ?); try done.
        eexists _, h'. split; [done|]. by rewrite set_color_id. }
      destruct gd, pd; simpl; rewrite Ey; destruct fuel; simpl;
        apply Hfin; simpl; done.
Qed.

(** What [deleteFixup] is looking at: a subtree one black node short,
    which becomes a full subtree when its root is red and painted black. *)
Definition del_inv (x : node) (h : nat) : Prop :=
  match color_of x with
  | black => is_rb x h
  | red => is_rb (set_color black x) (S h)
  end.

Lemma is_rb_black_node n h :
  color_of n = black → is_rb n (S h) →
  ∃ l k v r, n = Node black l k v r ∧ is_rb l h ∧ is_rb r h.
Proof.
  destruct n as [|[] l k v r]; try done. intros _ (? & ?).
  by exists l, k, v, r.
Qed.

Lemma color_of_set_color c n : n ≠ Nil → color_of (set_color c n) = c.
Proof. by destruct n. Qed.

Lemma color_of_blacken n : color_of (set_color black n) = black.
Proof. by destruct n. Qed.

Lemma is_rb_blacken n h :
  color_of n = red → is_rb n h → is_rb (set_color black n) (S h).
Proof. destruct n as [|[] l k v r]; try done. by intros _ (_ & _ & ? & ?). Qed.

Lemma deleteFixup_loop_nil fuel x : deleteFixup_loop fuel x [] = Ok (set_color black x).
Proof. by destruct fuel. Qed.

Lemma deleteFixup_loop_red fuel x path :
  color_of x = red → deleteFixup_loop fuel x path = Ok (plug path (set_color black x)).
Proof. intros E. destruct fuel, path; simpl; by rewrite ?E. Qed.

Create HintDb rb.
#[local] Hint Resolve color_of_blacken is_rb_blacken : rb.

Ltac rb_side := simpl; repeat split; eauto with rb.

Lemma deleteFixup_loop_rb : ∀ fuel path x h,
  (length path ≤ fuel)%nat → del_inv x h → path_rb path black (S h) →
  ∃ r h', deleteFixup_loop fuel x path = Ok r ∧ is_rb r h' ∧ color_of r = black.
Proof.
  assert (Hplug : ∀ path sub c h, is_rb sub h → color_of sub = c → path_rb path c h →
            ∃ r h', Ok (plug path sub) = Ok r ∧ is_rb r h' ∧ color_of r = black).
  { intros path sub c h Hs Hc Hp.
    destruct (plug_rb path sub c h) as (h' & ? & ?); try done. by eexists _, h'. }
  assert (Hroot : ∀ up sub c h, is_rb sub h → color_of sub = c → path_rb up c h →
            ∃ r h', Ok (set_color black (plug up sub)) = Ok r ∧ is_rb r h' ∧ color_of r = black).
  { intros up sub c h Hs Hc Hp.
    destruct (plug_rb up sub c h) as (h' & ? & ?); try done.
    eexists _, h'. split; [done|]. by rewrite set_color_id. }
  induction fuel as [|fuel IH]; intros path x h Hlen Hx Hp.
  - destruct path; [|simpl in Hlen; lia]. simpl.
    unfold del_inv in Hx. destruct x as [|[] l k v r]; simpl in *.
    + by exists Nil, h.
    + by eexists _, (S h).
    + by eexists _, h.
  - destruct path as [|p up].
    { simpl. unfold del_inv in Hx. destruct x as [|[] l k v r]; simpl in *.
      + by exists Nil, h.
      + by eexists _, (S h).
      + by eexists _, h. }
    destruct (color_of x) eqn:Ex.
    { rewrite deleteFixup_loop_red by done.
      unfold del_inv in Hx. rewrite Ex in Hx.
      apply (Hplug _ _ black (S h)); [done|apply color_of_blacken|done]. }
    assert (Hxb : is_rb x h) by (unfold del_inv in Hx; by rewrite Ex in Hx).
    destruct p as [d pc pk pv w]. simpl in Hp. destruct Hp as [Hw Hp].
    simpl in Hlen.
    assert (Hgo : ∀ x' h', del_inv x' h' → path_rb up black (S h') →
              ∃ r h', deleteFixup_loop fuel x' up = Ok r ∧ is_rb r h' ∧ color_of r = black).
    { intros x' h' ? ?. apply (IH up x' h'); [lia|done|done]. }
    simpl deleteFixup_loop. rewrite Ex.
    destruct (color_of w) eqn:Ew.
    + (* Case 1: the sibling is red, so the parent is black *)
      apply is_rb_red_node in Hw as (wl & wk & wv & wr & -> & Hwl & Hwr & Hwlh & Hwrh); [|done].
      destruct pc; [by destruct Hp as (_ & ? & _)|].
      apply is_rb_black_node in Hwlh as (a & lk & lv & b & -> & Ha & Hb); [|done].
      apply is_rb_black_node in Hwrh as (a' & rk & rv & b' & -> & Ha' & Hb'); [|done].
      destruct d; simpl.
      * destruct (color_of a) eqn:Eca, (color_of b) eqn:Ecb; simpl.
        -- rewrite deleteFixup_loop_nil.
           apply (Hroot (mkFrame L black wk wv (Node black a' rk rv b') :: up) _ red (S h));
             rb_side.
        -- apply is_rb_red_node in Ha as (al & ak & av & ar & -> & ? & ? & ? & ?); [|done].
           simpl. rewrite deleteFixup_loop_nil.
           apply (Hroot (mkFrame L black wk wv (Node black a' rk rv b') :: up) _ red (S h));
             rb_side.
        -- rewrite deleteFixup_loop_nil.
           apply (Hroot (mkFrame L black wk wv (Node black a' rk rv b') :: up) _ red (S h));
             rb_side.
        -- rewrite deleteFixup_loop_red by done.
           apply (Hplug (mkFrame L black wk wv (Node black a' rk rv b') :: up) _ black (S h));
             rb_side.
      * destruct (color_of b') eqn:Ecb, (color_of a') eqn:Eca; simpl.
        -- rewrite deleteFixup_loop_nil.
           apply (Hroot (mkFrame R black wk wv (Node black a lk lv b) :: up) _ red (S h));
             rb_side.
        -- apply is_rb_red_node in Hb' as (bl & bk & bv & br & -> & ? & ? & ? & ?); [|done].
           simpl. rewrite deleteFixup_loop_nil.
           apply (Hroot (mkFrame R black wk wv (Node black a lk lv b) :: up) _ red (S h));
             rb_side.
        -- rewrite deleteFixup_loop_nil.
           apply (Hroot (mkFrame R black wk wv (Node black a lk lv b) :: up) _ red (S h));
             rb_side.
        -- rewrite deleteFixup_loop_red by done.
           apply (Hplug (mkFrame R black wk wv (Node black a lk lv b) :: up) _ black (S h));
             rb_side.
    + (* the sibling is black *)
      apply is_rb_black_node in Hw as (a & wk & wv & b & -> & Ha & Hb); [|done].
      assert (Hup : match pc with
                    | red => path_rb up red (S h)
                    | black => path_rb up black (S (S h))
                    end).
      { destruct pc; [by destruct Hp as (_ & _ & ?)|done]. }
      clear Hp.
      assert (Hfin : ∀ sub, color_of sub = pc →
                is_rb sub (match pc with red => S h | black => S (S h) end) →
                ∃ r h', Ok (set_color black (plug up sub)) = Ok r ∧ is_rb r h' ∧ color_of r = black).
      { intros sub Hc Hs. destruct pc.
        - by apply (Hroot up sub red (S h)).
        - by apply (Hroot up sub black (S (S h))). }
      destruct d; simpl.
      * destruct (color_of a) eqn:Eca, (color_of b) eqn:Ecb; simpl.
        -- rewrite deleteFixup_loop_nil. apply Hfin; [done|]. destruct pc; rb_side.
        -- apply is_rb_red_node in Ha as (al & ak & av & ar & -> & ? & ? & ? & ?); [|done].
           simpl. rewrite deleteFixup_loop_nil. apply Hfin; [done|]. destruct pc; rb_side.
        -- rewrite deleteFixup_loop_nil. apply Hfin; [done|]. destruct pc; rb_side.
        -- destruct pc.
           ++ apply (Hgo _ h); [by rb_side|]. by apply path_rb_red_black.
           ++ apply (Hgo _ (S h)); [by rb_side|done].
      * destruct (color_of b) eqn:Ecb, (color_of a) eqn:Eca; simpl.
        -- rewrite deleteFixup_loop_nil. apply Hfin; [done|]. destruct pc; rb_side.
        -- apply is_rb_red_node in Hb as (bl & bk & bv & br & -> & ? & ? & ? & ?); [|done].
           simpl. rewrite deleteFixup_loop_nil. apply Hfin; [done|]. destruct pc; rb_side.
        -- rewrite deleteFixup_loop_nil. apply Hfin; [done|]. destruct pc; rb_side.
        -- destruct pc.
           ++ apply (Hgo _ h); [by rb_side|]. by apply path_rb_red_black.
           ++ apply (Hgo _ (S h)); [by rb_side|done].
Qed.

Lemma is_rb_children c l k v r h path :
  is_rb (Node c l k v r) h → path_rb path c h →
  ∃ h', is_rb l h' ∧ is_rb r h' ∧
        path_rb (mkFrame L c k v r :: path) (color_of l) h' ∧
        path_rb (mkFrame R c k v l :: path) (color_of r) h'.
Proof.
  destruct c; simpl.
  - intros (? & ? & ? & ?) ?. by exists h.
  - destruct h as [|h']; [done|]. intros (? & ?) ?. by exists h'.
Qed.

Lemma upsert_search_rb k : ∀ x path path' h,
  is_rb x h → path_rb path (color_of x) h →
  upsert_search x k path = inr path' → path_rb path' black 0.
Proof.
  induction x as [|c l IHl xk v r IHr]; intros path path' h Hx Hp H; simpl in *.
  - by simplify_eq.
  - destruct (is_rb_children _ _ xk v _ _ _ Hx Hp) as (h' & Hl & Hr & Hpl & Hpr).
    destruct (k <? xk); [by eapply IHl|].
    destruct (xk <? k); [by eapply IHr|done].
Qed.

Lemma searchNode_rb k : ∀ n path z path' h,
  is_rb n h → path_rb path (color_of n) h →
  searchNode n k path = Some (z, path') →
  ∃ hz, is_rb z hz ∧ path_rb path' (color_of z) hz.
Proof.
  induction n as [|c l IHl xk v r IHr]; intros path z path' h Hx Hp H; simpl in *.
  - done.
  - destruct (is_rb_children _ _ xk v _ _ _ Hx Hp) as (h' & Hl & Hr & Hpl & Hpr).
    destruct (k <? xk); [by eapply IHl|].
    destruct (xk <? k); [by eapply IHr|].
    simplify_eq. by exists h.
Qed.

Lemma minNode_rb : ∀ n path h,
  is_rb n h → path_rb path (color_of n) h →
  ∃ hy, is_rb (minNode n path).1 hy ∧
        path_rb (minNode n path).2 (color_of (minNode n path).1) hy.
Proof.
  induction n as [|c l IHl xk v r _]; intros path h Hx Hp.
  - by exists h.
  - destruct (is_rb_children _ _ xk v _ _ _ Hx Hp) as (h' & Hl & Hr & Hpl & Hpr).
    simpl. destruct l as [|lc ll lk lv lr]; [by exists h|].
    by apply (IHl _ h').
Qed.

Lemma minNode_app : ∀ n p q,
  minNode n (p ++ q) = ((minNode n p).1, (minNode n p).2 ++ q).
Proof.
  induction n as [|c l IHl xk v r _]; intros p q; [done|].
  simpl. destruct l; [done|]. apply (IHl (_ :: p) q).
Qed.

Lemma minNode_base n q :
  minNode n q = ((minNode n []).1, (minNode n []).2 ++ q).
Proof. apply (minNode_app n [] q). Qed.

Lemma path_rb_swap_frame f f' q : ∀ p c h,
  fcolor f = fcolor f' → fsib f = fsib f' →
  path_rb (p ++ f :: q) c h → path_rb (p ++ f' :: q) c h.
Proof.
  induction p as [|g p IH]; intros c h Hc Hs; simpl.
  - by rewrite Hc, Hs.
  - intros [? H]. split; [done|].
    destruct (fcolor g); [|by apply IH].
    destruct H as (? & ? & ?). repeat split; [done..|by apply IH].
Qed.

(** The shape half of the index invariant: a red-black tree with a black root. *)
Definition rb_ok (n : node) : Prop :=
  (∃ h, is_rb n h) ∧ color_of n = black.

Lemma rb_ok_Nil : rb_ok Nil.
Proof. split; [by exists O|done]. Qed.

Lemma insertFixup_rb z path h :
  color_of z = red → is_rb z h → ins_path path h →
  ∃ r, insertFixup z path = Ok r ∧ rb_ok r.
Proof.
  intros Hz Hrb Hp. unfold insertFixup.
  destruct (insertFixup_loop_rb (length path) path z h) as (r & h' & -> & Hr); try done.
  simpl. exists (set_color black r). split; [done|].
  split; [by exists h'|apply color_of_blacken].
Qed.

Lemma UpsertLevel_rb t k :
  rb_ok (root t) → ∃ lvl t', UpsertLevel t k = Ok (lvl, t') ∧ rb_ok (root t').
Proof.
  intros [[h Hrb] Hc]. unfold UpsertLevel.
  destruct (upsert_search (root t) k []) as [lvl|path] eqn:E.
  - exists lvl, t. split; [done|]. split; [by exists h|done].
  - apply (upsert_search_rb k _ _ _ h) in E; [|done|by rewrite Hc].
    destruct (insertFixup_rb (Node red Nil k (mkLevel k None None 0) Nil) path 0)
      as (r & -> & Hr); [done|done|by eapply path_rb_ins|].
    simpl. by eexists _, _.
Qed.

Lemma deleteFixup_rb x path h :
  del_inv x h → path_rb path black (S h) →
  ∃ r, deleteFixup x path = Ok r ∧ rb_ok r.
Proof.
  intros Hx Hp. unfold deleteFixup.
  destruct (deleteFixup_loop_rb (length path) path x h) as (r & h' & -> & Hr & Hc); try done.
  exists r. split; [done|]. split; [by exists h'|done].
Qed.

Lemma plug_rb_ok path x c h :
  is_rb x h → color_of x = c → path_rb path c h → rb_ok (plug path x).
Proof.
  intros. destruct (plug_rb path x c h) as (h' & ? & ?); try done.
  split; [by exists h'|done].
Qed.

Lemma is_rb_0_black n : is_rb n 0 → color_of n = black → n = Nil.
Proof. by destruct n as [|[] ? ? ? ?]. Qed.

Lemma del_inv_0 n : is_rb n 0 → del_inv n 0.
Proof.
  unfold del_inv. destruct (color_of n) eqn:E; [|done]. by apply is_rb_blacken.
Qed.

Lemma deleteNode_rb z path h :
  z ≠ Nil → is_rb z h → path_rb path (color_of z) h →
  ∃ r, deleteNode z path = Ok r ∧ rb_ok r.
Proof.
  destruct z as [|zc zl zk zv zr]; [done|]. intros _ Hz Hp.
  unfold deleteNode.
  assert (Hstep : ∀ yc x xpath hx,
            is_rb x hx →
            match yc with
            | red => color_of x = black ∧ path_rb xpath red hx
            | black => hx = O ∧ path_rb xpath black 1
            end →
            ∃ r, (match yc with
                  | black => deleteFixup x xpath
                  | red => Ok (plug xpath x)
                  end) = Ok r ∧ rb_ok r).
  { intros yc x xpath hx Hx Hy. destruct yc.
    - destruct Hy as [Hc Hxp]. eexists. split; [done|].
      apply (plug_rb_ok _ _ black hx); [done|done|by apply path_rb_red_black].
    - destruct Hy as [-> Hxp]. apply (deleteFixup_rb _ _ O); [by apply del_inv_0|done]. }
  destruct zl as [|lc ll lk lv lr].
  - simpl. destruct zc; simpl in Hz.
    + destruct Hz as (_ & Hcr & -> & Hr). apply (Hstep red zr path O); done.
    + destruct h as [|h]; [done|]. destruct Hz as [-> Hr].
      apply (Hstep black zr path O); done.
  - destruct zr as [|rc rl rk rv rr].
    + simpl. destruct zc; simpl in Hz.
      * destruct Hz as (Hcl & _ & Hl & ->). apply (Hstep red _ path O); done.
      * destruct h as [|h]; [done|]. destruct Hz as [Hl ->].
        apply (Hstep black _ path O); done.
    + destruct (is_rb_children _ _ zk zv _ _ _ Hz Hp) as (h' & Hl & Hr & Hpl & Hpr).
      destruct (minNode_rb _ _ _ Hr Hpr) as (hy & Hy & Hyp).
      rewrite minNode_base in Hy, Hyp.
      pose proof (minNode_left (Node rc rl rk rv rr) []) as Hleft.
      pose proof (minNode_Nil (Node rc rl rk rv rr) []) as Hnil.
      destruct (minNode (Node rc rl rk rv rr) []) as [y ypath].
      cbn [fst snd] in *.
      destruct y as [|yc yl yk yv yr]; [by specialize (Hnil eq_refl)|].
      rewrite (Hleft _ _ _ _ _ eq_refl) in Hy. cbn [mbind Result_bind].
      apply (path_rb_swap_frame _ (mkFrame R zc yk yv (Node lc ll lk lv lr))) in Hyp;
        [|done|done].
      destruct (is_rb_children _ _ yk yv _ _ _ Hy Hyp) as (hx & Hnl & Hyr & _ & Hxp).
      simpl in Hnl. subst hx.
      destruct yc; simpl in Hy.
      * destruct Hy as (_ & Hcr & _ & _).
        apply (Hstep red yr _ O); [done|]. split; [done|].
        simpl in Hxp. by destruct Hxp as (_ & _ & _ & ?).
      * destruct hy as [|hy]; [done|]. destruct Hy as [Hy0 _]. simpl in Hy0. subst hy.
        apply (Hstep black yr _ O); [done|]. split; [done|].
        simpl in Hxp. by destruct Hxp as (_ & ?).
Qed.

Lemma searchNode_spec k : ∀ n path,
  match searchNode n k path with
  | Some (z, path') =>
      plug path' z = plug path n ∧ ∃ c l v r, z = Node c l k v r ∧
      FindLevel_from n k = Some v
  | None => FindLevel_from n k = None
  end.
Proof.
  induction n as [|c l IHl xk v r IHr]; intros path; simpl; [done|].
  destruct (k <? xk) eqn:E1; [apply IHl|].
  destruct (xk <? k) eqn:E2; [apply IHr|].
  apply Z.ltb_ge in E1, E2. assert (k = xk) as -> by lia.
  split; [done|]. by exists c, l, v, r.
Qed.

Lemma DeleteLevel_rb t k :
  rb_ok (root t) → ∃ b t', DeleteLevel t k = Ok (b, t') ∧ rb_ok (root t').
Proof.
  intros [[h Hrb] Hc]. unfold DeleteLevel.
  pose proof (searchNode_spec k (root t) []) as Hs.
  destruct (searchNode (root t) k []) as [[z path]|] eqn:E.
  - destruct Hs as (_ & c & l & v & r & -> & _).
    assert (Hp0 : path_rb [] (color_of (root t)) h) by (by rewrite Hc).
    destruct (searchNode_rb k _ _ _ _ h Hrb Hp0 E) as (hz & Hz & Hp).
    assert (Hne : Node c l k v r ≠ Nil) by done.
    destruct (deleteNode_rb _ path hz Hne Hz Hp) as (r' & -> & Hr').
    simpl. by eexists _, _.
  - exists false, t. split; [done|]. split; [by exists h|done].
Qed.

(** *** Keys in order *)

Definition kv_lt (a b : Z * PriceLevel) : Prop := a.1 < b.1.

(** The search-tree half of the index invariant. *)
Definition sorted (l : list (Z * PriceLevel)) : Prop := StronglySorted kv_lt l.

Definition lt_all (l : list (Z * PriceLevel)) (k : Z) : Prop :=
  Forall (λ e, e.1 < k) l.
Definition gt_all (l : list (Z * PriceLevel)) (k : Z) : Prop :=
  Forall (λ e, k < e.1) l.

Lemma sorted_insert l1 l2 k v :
  sorted (l1 ++ l2) → lt_all l1 k → gt_all l2 k → sorted (l1 ++ (k, v) :: l2).
Proof.
  unfold sorted, lt_all, gt_all. rewrite !StronglySorted_app, StronglySorted_cons.
  intros (H12 & H1 & H2) Hl Hg. rewrite Forall_forall in Hl, Hg.
  split; [|split; [done|split; [|done]]].
  - intros a b Ha Hb. apply elem_of_cons in Hb as [->|Hb].
    + by apply Hl.
    + by apply H12.
  - apply Forall_forall. intros b Hb. by apply Hg.
Qed.

Lemma sorted_remove l1 l2 k v :
  sorted (l1 ++ (k, v) :: l2) → sorted (l1 ++ l2) ∧ lt_all l1 k ∧ gt_all l2 k.
Proof.
  unfold sorted, lt_all, gt_all. rewrite !StronglySorted_app, StronglySorted_cons.
  intros (H12 & H1 & Hk & H2).
  split; [split; [|done]|split].
  - intros a b Ha Hb. apply H12; [done|]. by apply elem_of_cons; right.
  - apply Forall_forall. intros a Ha. apply (H12 a (k, v)); [done|]. by apply elem_of_cons; left.
  - done.
Qed.

Lemma upsert_search_inl k : ∀ x path v,
  upsert_search x k path = inl v → FindLevel_from x k = Some v.
Proof.
  induction x as [|c l IHl xk xv r IHr]; intros path v; simpl; [done|].
  destruct (k <? xk); [apply IHl|]. destruct (xk <? k); [apply IHr|].
  by intros [= ->].
Qed.

Lemma upsert_search_inr k : ∀ x path path',
  sorted (elements (plug path x)) →
  lt_all (path_before path) k → gt_all (path_after path) k →
  upsert_search x k path = inr path' →
  FindLevel_from x k = None ∧
  path_before path' ++ path_after path' = elements (plug path x) ∧
  lt_all (path_before path') k ∧ gt_all (path_after path') k.
Proof.
  induction x as [|c l IHl xk xv r IHr]; intros path path' Hs Hl Hg H; simpl in *.
  - simplify_eq. split; [done|]. split; [|done]. by rewrite elements_plug.
  - pose proof Hs as Hs'. rewrite elements_plug in Hs'. simpl in Hs'.
    unfold sorted in Hs'.
    apply StronglySorted_app_1_r, StronglySorted_app_1_l in Hs'.
    apply sorted_remove in Hs' as (_ & Hlx & Hgx).
    destruct (k <? xk) eqn:E1.
    + apply Z.ltb_lt in E1.
      apply (IHl (mkFrame L c xk xv r :: path) path'); simpl; try done.
      * unfold before1; simpl. by rewrite app_nil_r.
      * unfold after1; simpl. apply Forall_cons. split; [done|].
        apply Forall_app. split; [|done].
        eapply Forall_impl; [exact Hgx|]. simpl. lia.
    + destruct (xk <? k) eqn:E2; [|done].
      apply Z.ltb_lt in E2.
      apply (IHr (mkFrame R c xk xv l :: path) path'); simpl; try done.
      unfold before1; simpl. apply Forall_app. split; [done|].
      apply Forall_app. split; [|by apply Forall_singleton].
      eapply Forall_impl; [exact Hlx|]. simpl. lia.
Qed.

Lemma insertFixup_elements z path r :
  insertFixup z path = Ok r → elements r = elements (plug path z).
Proof.
  unfold insertFixup. intros H. inv_bind.
  rewrite elements_set_color. by eapply insertFixup_loop_elements.
Qed.

Lemma UpsertLevel_spec t k lvl t' :
  sorted (elements (root t)) → UpsertLevel t k = Ok (lvl, t') →
  (FindLevel t k = Some lvl ∧ t' = t) ∨
  (FindLevel t k = None ∧ lvl = mkLevel k None None 0 ∧
   ∃ l1 l2, elements (root t) = l1 ++ l2 ∧
            elements (root t') = l1 ++ (k, lvl) :: l2 ∧
            lt_all l1 k ∧ gt_all l2 k).
Proof.
  intros Hs H. unfold UpsertLevel in H.
  destruct (upsert_search (root t) k []) as [v|path] eqn:E.
  - left. simplify_eq. split; [|done]. by eapply upsert_search_inl.
  - right.
    apply upsert_search_inr in E as (Hf & He & Hl & Hg);
      [|done|by apply Forall_nil|by apply Forall_nil].
    inv_bind. apply insertFixup_elements in Ha.
    split; [done|]. split; [done|].
    exists (path_before path), (path_after path). simpl in *.
    split; [done|]. split; [|done]. by rewrite Ha, elements_plug.
Qed.

Lemma DeleteLevel_spec t k b t' :
  DeleteLevel t k = Ok (b, t') →
  (b = false ∧ t' = t ∧ FindLevel t k = None) ∨
  (b = true ∧ ∃ l1 v l2, FindLevel t k = Some v ∧
                         elements (root t) = l1 ++ (k, v) :: l2 ∧
                         elements (root t') = l1 ++ l2).
Proof.
  unfold DeleteLevel. intros H.
  pose proof (searchNode_spec k (root t) []) as Hs.
  destruct (searchNode (root t) k []) as [[z path]|].
  - right. destruct Hs as (Hplug & c & l & v & r & -> & Hf).
    inv_bind. split; [done|].
    apply deleteNode_elements in Ha as (c' & l' & k' & v' & r' & [= <- <- <- <- <-] & He).
    exists (path_before path ++ elements l), v, (elements r ++ path_after path).
    split; [done|]. simpl in *. rewrite He.
    split; [|by rewrite <- !app_assoc].
    rewrite <- Hplug, elements_plug. simpl. by rewrite <- !app_assoc.
  - left. by simplify_eq.
Qed.

(** *** The index invariant and lookups *)

Definition index_ok (t : RBTree) : Prop :=
  rb_ok (root t) ∧ sorted (elements (root t)) ∧
  Forall (λ e, Price e.2 = e.1) (elements (root t)).

Lemma index_ok_new : index_ok NewRBTree.
Proof.
  split; [apply rb_ok_Nil|]. split; [apply SSorted_nil|by apply Forall_nil].
Qed.

Lemma FindLevel_from_Some n k v :
  FindLevel_from n k = Some v → (k, v) ∈ elements n.
Proof.
  induction n as [|c l IHl xk xv r IHr]; simpl; [done|].
  destruct (k <? xk) eqn:E1.
  { intros H. apply elem_of_app. left. by apply IHl. }
  destruct (xk <? k) eqn:E2.
  { intros H. apply elem_of_app. right. apply elem_of_cons. right. by apply IHr. }
  apply Z.ltb_ge in E1, E2. intros [= <-]. assert (k = xk) as -> by lia.
  apply elem_of_app. right. by apply elem_of_cons; left.
Qed.

Lemma FindLevel_from_elem n k v :
  sorted (elements n) → (k, v) ∈ elements n → FindLevel_from n k = Some v.
Proof.
  induction n as [|c l IHl xk xv r IHr]; simpl; intros Hs Hin.
  { by apply elem_of_nil in Hin. }
  pose proof Hs as Hs'. apply sorted_remove in Hs' as (Hlr & Hlt & Hgt).
  unfold sorted in Hs. apply StronglySorted_app in Hs as (_ & Hsl & Hsr).
  apply StronglySorted_cons in Hsr as [_ Hsr].
  unfold lt_all, gt_all in *. rewrite Forall_forall in Hlt, Hgt.
  apply elem_of_app in Hin as [Hin|Hin]; [|apply elem_of_cons in Hin as [Hin|Hin]].
  - specialize (Hlt _ Hin). simpl in Hlt.
    rewrite (proj2 (Z.ltb_lt _ _) Hlt). by apply IHl.
  - simplify_eq. by rewrite Z.ltb_irrefl.
  - specialize (Hgt _ Hin). simpl in Hgt.
    rewrite (proj2 (Z.ltb_ge _ _)) by lia.
    rewrite (proj2 (Z.ltb_lt _ _) Hgt). by apply IHr.
Qed.

Lemma FindLevel_from_None n k :
  sorted (elements n) → FindLevel_from n k = None → k ∉ keys n.
Proof.
  intros Hs Hf Hin. unfold keys in Hin.
  apply list_elem_of_fmap in Hin as ([k' v] & -> & Hin).
  apply FindLevel_from_elem in Hin; [|done]. simpl in Hf. congruence.
Qed.



Lemma UpsertLevel_ok t k :
  index_ok t →
  ∃ lvl t', UpsertLevel t k = Ok (lvl, t') ∧ index_ok t' ∧
    ((FindLevel t k = Some lvl ∧ t' = t) ∨
     (FindLevel t k = None ∧ lvl = mkLevel k None None 0 ∧
      ∃ l1 l2, elements (root t) = l1 ++ l2 ∧
               elements (root t') = l1 ++ (k, lvl) :: l2)).
Proof.
  intros (Hrb & Hs & Hp).
  destruct (UpsertLevel_rb t k Hrb) as (lvl & t' & HU & Hrb').
  exists lvl, t'. split; [done|].
  destruct (UpsertLevel_spec t k lvl t' Hs HU)
    as [[Hf ->]|(Hf & -> & l1 & l2 & He & He' & Hl & Hg)].
  - split; [done|]. by left.
  - split.
    + split; [done|]. rewrite He'. split.
      * apply sorted_insert; [by rewrite <- He|done..].
      * rewrite He in Hp. apply Forall_app in Hp as [? ?].
        apply Forall_app. split; [done|]. by apply Forall_cons.
    + right. split; [done|]. split; [done|]. by exists l1, l2.
Qed.

Lemma DeleteLevel_ok t k :
  index_ok t →
  ∃ b t', DeleteLevel t k = Ok (b, t') ∧ index_ok t' ∧
    ((b = false ∧ t' = t ∧ FindLevel t k = None) ∨
     (b = true ∧ ∃ l1 v l2, FindLevel t k = Some v ∧
                            elements (root t) = l1 ++ (k, v) :: l2 ∧
                            elements (root t') = l1 ++ l2)).
Proof.
  intros (Hrb & Hs & Hp).
  destruct (DeleteLevel_rb t k Hrb) as (b & t' & HD & Hrb').
  exists b, t'. split; [done|].
  destruct (DeleteLevel_spec t k b t' HD)
    as [(-> & -> & Hf)|(-> & l1 & v & l2 & Hf & He & He')].
  - split; [done|]. by left.
  - split.
    + split; [done|]. rewrite He'. rewrite He in Hs, Hp. split.
      * by apply sorted_remove in Hs as (? & _).
      * apply Forall_app in Hp as [? Hp]. apply Forall_cons in Hp as [_ ?].
        by apply Forall_app.
    + right. split; [done|]. by exists l1, v, l2.
Qed.

Lemma sorted_keys l : sorted l → StronglySorted Z.lt l.*1.
Proof. apply StronglySorted_fmap. by intros [] []. Qed.



Lemma index_exec_ok ops : ∀ t,
  index_ok t → ∃ t', index_exec ops t = Ok t' ∧ index_ok t'.
Proof.
  induction ops as [|op ops IH]; intros t Ht; simpl.
  - by exists t.
  - destruct op as [p|p]; simpl.
    + destruct (UpsertLevel_ok t p Ht) as (lvl & t1 & -> & Ht1 & _). simpl. by apply IH.
    + destruct (DeleteLevel_ok t p Ht) as (b & t1 & -> & Ht1 & _). simpl. by apply IH.
Qed.

Lemma prices_keys (l : list (Z * PriceLevel)) :
  Forall (λ e, Price e.2 = e.1) l → Price <$> l.*2 = l.*1.
Proof.
  induction 1 as [|[k v] l Hk _ IH]; [done|].
  cbn [fmap list_fmap fst snd]. simpl in Hk. by rewrite Hk, IH.
Qed.


(** ** The engine: what every placement, cancel and reclaim preserves *)

Lemma MinLevel_elem t v : MinLevel t = Some v → ∃ k, (k, v) ∈ elements (root t).
Proof.
  unfold MinLevel. pose proof (minNode_rest (root t) [] (or_intror eq_refl)) as H.
  destruct (minNode (root t) []) as [n path]. simpl in *.
  destruct n as [|c l k v' r]; [done|]. intros [= <-].
  exists k. rewrite app_nil_r in H. rewrite <- H. by apply elem_of_cons; left.
Qed.

Lemma MaxLevel_elem t v : MaxLevel t = Some v → ∃ k, (k, v) ∈ elements (root t).
Proof.
  unfold MaxLevel. pose proof (maxNode_rest (root t) [] (or_intror eq_refl)) as H.
  destruct (maxNode (root t) []) as [n path]. simpl in *.
  destruct n as [|c l k v' r]; [done|]. intros [= <-].
  exists k. rewrite app_nil_r in H.
  apply elem_of_reverse. rewrite <- H. by apply elem_of_cons; left.
Qed.

Lemma writeLevel_from_spec k lvl' : ∀ n v,
  FindLevel_from n k = Some v →
  ∃ l1 l2, elements n = l1 ++ (k, v) :: l2 ∧
           elements (writeLevel_from n k lvl') = l1 ++ (k, lvl') :: l2.
Proof.
  induction n as [|c l IHl xk xv r IHr]; intros v; simpl; [done|].
  destruct (k <? xk) eqn:E1.
  { intros H. destruct (IHl v H) as (l1 & l2 & -> & Hw).
    exists l1, (l2 ++ (xk, xv) :: elements r). simpl. rewrite Hw.
    by rewrite <- !app_assoc. }
  destruct (xk <? k) eqn:E2.
  { intros H. destruct (IHr v H) as (l1 & l2 & -> & Hw).
    exists (elements l ++ (xk, xv) :: l1), l2. simpl. rewrite Hw.
    by rewrite <- !app_assoc. }
  apply Z.ltb_ge in E1, E2. assert (k = xk) as -> by lia.
  intros [= <-]. by exists (elements l), (elements r).
Qed.

Lemma writeLevel_from_color k lvl n : color_of (writeLevel_from n k lvl) = color_of n.
Proof. destruct n; simpl; [done|]. by repeat case_match. Qed.

Lemma writeLevel_from_rb k lvl : ∀ n h, is_rb n h → is_rb (writeLevel_from n k lvl) h.
Proof.
  induction n as [|c l IHl xk xv r IHr]; intros h; simpl; [done|].
  destruct (k <? xk), (xk <? k), c, h; simpl;
    rewrite ?writeLevel_from_color; intuition auto.
Qed.

Lemma writeLevel_ok t k v lvl' :
  index_ok t → FindLevel t k = Some v → Price lvl' = k →
  index_ok (writeLevel t k lvl') ∧
  ∃ l1 l2, elements (root t) = l1 ++ (k, v) :: l2 ∧
           elements (root (writeLevel t k lvl')) = l1 ++ (k, lvl') :: l2 ∧
           FindLevel (writeLevel t k lvl') k = Some lvl'.
Proof.
  intros ([[h Hrb] Hc] & Hs & Hp) Hf Hprice.
  destruct (writeLevel_from_spec k lvl' _ _ Hf) as (l1 & l2 & He & He').
  assert (Hs' : sorted (l1 ++ (k, lvl') :: l2)).
  { rewrite He in Hs. apply sorted_remove in Hs as (? & ? & ?). by apply sorted_insert. }
  split.
  - split; [split|split].
    + exists h. by apply writeLevel_from_rb.
    + simpl. by rewrite writeLevel_from_color.
    + simpl. by rewrite He'.
    + simpl. rewrite He'. rewrite He in Hp.
      apply Forall_app in Hp as [? Hp]. apply Forall_cons in Hp as [_ ?].
      apply Forall_app. split; [done|]. by apply Forall_cons.
  - exists l1, l2. split; [done|]. split; [done|].
    apply FindLevel_from_elem; simpl; rewrite He'; [done|].
    apply elem_of_app. right. by apply elem_of_cons; left.
Qed.

Definition in_i64 (x : Z) : Prop := - 2 ^ 63 ≤ x < 2 ^ 63.

Lemma i64_range x : in_i64 (i64 x).
Proof.
  unfold in_i64, i64. pose proof (Z.mod_pos_bound (x + 2 ^ 63) (2 ^ 64)). lia.
Qed.

Lemma i64_small x : in_i64 x → i64 x = x.
Proof. unfold in_i64, i64. intros. rewrite Z.mod_small; lia. Qed.

(** Every level of the index has a head. *)
Definition heads_ok (t : RBTree) : Prop :=
  Forall (λ e, lvl_head e.2 ≠ None) (elements (root t)).

Definition tree_ok (t : RBTree) : Prop := index_ok t ∧ heads_ok t.

Definition heap_ok (σ : heap) : Prop := ∀ h, in_i64 (oQty (σ !!! h)).

Definition engine_ok (e : Engine) : Prop :=
  tree_ok (Bids (book e)) ∧ tree_ok (Asks (book e)) ∧
  (∃ l, ring_wf (rq e) l) ∧ pool_wf (pool e) ∧ heap_ok (orders e).

Lemma side_tree_ok s b :
  tree_ok (Bids b) → tree_ok (Asks b) → tree_ok (side_tree s b).
Proof. by destruct s. Qed.

Lemma set_side_tree_ok s t b :
  tree_ok (Bids b) → tree_ok (Asks b) → tree_ok t →
  tree_ok (Bids (set_side_tree s t b)) ∧ tree_ok (Asks (set_side_tree s t b)).
Proof. by destruct s. Qed.

Lemma oQty_upd a f (σ : heap) h :
  (∀ r, oQty (f r) = oQty r) → oQty (upd a f σ !!! h) = oQty (σ !!! h).
Proof.
  intros Hf. destruct (decide (a = h)) as [->|Hne].
  - by rewrite upd_lookup.
  - by rewrite upd_lookup_ne.
Qed.

Lemma heap_ok_upd a f σ :
  heap_ok σ → (∀ r, in_i64 (oQty r) → in_i64 (oQty (f r))) → heap_ok (upd a f σ).
Proof.
  intros Hσ Hf h. destruct (decide (a = h)) as [->|Hne].
  - rewrite upd_lookup. by apply Hf.
  - by rewrite upd_lookup_ne.
Qed.

Lemma unlink_spec lvl o σ :
  Price (unlinkAlreadyInactive lvl o σ).1 = Price lvl ∧
  ∀ h, oQty ((unlinkAlreadyInactive lvl o σ).2 !!! h) = oQty (σ !!! h).
Proof.
  unfold unlinkAlreadyInactive.
  destruct (oprev (σ !!! o)) as [p|]; simpl.
  - destruct (onext (upd p _ σ !!! o)) as [n|]; simpl; split; try done;
      intros h; by rewrite !oQty_upd.
  - destruct (onext (σ !!! o)) as [n|]; simpl; split; try done;
      intros h; by rewrite !oQty_upd.
Qed.

Lemma Level_Enqueue_spec lvl o σ :
  Price (Level_Enqueue lvl o σ).1 = Price lvl ∧
  (lvl_head lvl ≠ None ∨ lvl_tail lvl = None →
   lvl_head (Level_Enqueue lvl o σ).1 ≠ None) ∧
  ∀ h, oQty ((Level_Enqueue lvl o σ).2 !!! h) = oQty (σ !!! h).
Proof.
  unfold Level_Enqueue. destruct (lvl_tail lvl) as [t|]; simpl.
  - split; [done|]. split; [by intros [?|?]|].
    intros h. by rewrite !oQty_upd.
  - done.
Qed.

(** Enqueue adds the order's Qty to the level's TotalQty, and unlink
    subtracts the Qty the order has when it is unlinked. *)
Lemma Level_Enqueue_TotalQty lvl o σ :
  TotalQty (Level_Enqueue lvl o σ).1 = i64 (TotalQty lvl + oQty (σ !!! o)).
Proof.
  unfold Level_Enqueue. destruct (lvl_tail lvl) as [t|]; simpl; [|done].
  by rewrite !oQty_upd.
Qed.

Lemma unlink_TotalQty lvl o σ :
  TotalQty (unlinkAlreadyInactive lvl o σ).1 = i64 (TotalQty lvl - oQty (σ !!! o)).
Proof.
  unfold unlinkAlreadyInactive.
  destruct (oprev (σ !!! o)) as [p|]; simpl.
  - destruct (onext (upd p _ σ !!! o)) as [n|]; simpl; by rewrite !oQty_upd.
  - destruct (onext (σ !!! o)) as [n|]; simpl; by rewrite ?oQty_upd.
Qed.

Lemma heads_ok_delete t1 t2 l1 l2 l1' l2' k v v' :
  sorted (elements (root t1)) →
  elements (root t1) = l1 ++ (k, v) :: l2 →
  elements (root t1) = l1' ++ (k, v') :: l2' →
  elements (root t2) = l1' ++ l2' →
  Forall (λ e, lvl_head e.2 ≠ None) (l1 ++ l2) →
  heads_ok t2.
Proof.
  intros Hs He He' He2 Hh. unfold heads_ok. rewrite He2.
  rewrite He' in Hs. apply sorted_remove in Hs as (_ & Hlt & Hgt).
  unfold lt_all, gt_all in *. rewrite Forall_forall in Hlt, Hgt, Hh.
  apply Forall_forall. intros e Hin.
  assert (Hne : e.1 ≠ k).
  { apply elem_of_app in Hin as [Hin|Hin].
    - specialize (Hlt _ Hin). simpl in Hlt. lia.
    - specialize (Hgt _ Hin). simpl in Hgt. lia. }
  assert (Hin1 : e ∈ l1 ++ (k, v) :: l2).
  { rewrite <- He, He'. apply elem_of_app in Hin as [?|?]; apply elem_of_app; [by left|].
    right. by apply elem_of_cons; right. }
  apply Hh. apply elem_of_app in Hin1 as [?|Hin1]; apply elem_of_app; [by left|].
  apply elem_of_cons in Hin1 as [->|?]; [done|by right].
Qed.

Lemma cancel_tree_ok t price o σ :
  tree_ok t →
  ∃ t' σ',
    (match FindLevel t price with
     | Some lvl =>
         let '(lvl', σ') := unlinkAlreadyInactive lvl o σ in
         match lvl_head lvl' with
         | None => '(_, t2) ← DeleteLevel (writeLevel t price lvl') price; Ok (t2, σ')
         | Some _ => Ok (writeLevel t price lvl', σ')
         end
     | None => Ok (t, σ)
     end) = Ok (t', σ') ∧
    tree_ok t' ∧ ∀ h, oQty (σ' !!! h) = oQty (σ !!! h).
Proof.
  intros [Hi Hh].
  destruct (FindLevel t price) as [lvl|] eqn:Hf; [|by exists t, σ].
  pose proof (unlink_spec lvl o σ) as [Hprice Hq].
  destruct (unlinkAlreadyInactive lvl o σ) as [lvl' σ']. simpl in *.
  assert (Hpl : Price lvl = price).
  { destruct Hi as (_ & _ & Hp). rewrite Forall_forall in Hp.
    apply (Hp (price, lvl)). by apply FindLevel_from_Some. }
  destruct (writeLevel_ok t price lvl lvl' Hi Hf ltac:(congruence))
    as (Hi1 & l1 & l2 & He & He1 & Hf1).
  unfold heads_ok in Hh. rewrite He in Hh.
  apply Forall_app in Hh as [Hh1 Hh2]. apply Forall_cons in Hh2 as [_ Hh2].
  destruct (lvl_head lvl') as [hd|] eqn:Ehd.
  - eexists _, _. split; [done|]. split; [|done]. split; [done|].
    unfold heads_ok. rewrite He1. apply Forall_app. split; [done|].
    apply Forall_cons. split; [|done]. simpl. by rewrite Ehd.
  - destruct (DeleteLevel_ok _ price Hi1) as (b & t2 & -> & Hi2 & Hd). simpl.
    eexists _, _. split; [done|]. split; [|done]. split; [done|].
    destruct Hd as [(_ & _ & Hn)|(_ & l1' & v' & l2' & _ & He1' & He2)]; [congruence|].
    apply (heads_ok_delete (writeLevel t price lvl') t2 l1 l2 l1' l2' price lvl' v');
      [by destruct Hi1 as (_ & ? & _)|done|done|done|by apply Forall_app].
Qed.


Lemma cancelOrder_ok price o side e l :
  engine_ok e → ring_wf (rq e) l →
  match cancelOrder price o side e with
  | Ok e' => engine_ok e' ∧ ring_wf (rq e') (l ++ [o]) ∧ pool e' = pool e ∧
             ring_cap (rq e') = ring_cap (rq e) ∧
             (∀ h, oQty (orders e' !!! h) = oQty (orders e !!! h))
  | Panic f => f = RetireRingFull ∧ u64 (rq_head (rq e) - rq_tail (rq e)) = ring_cap (rq e)
  end.
Proof.
  intros (Hb & Ha & _ & Hp & Hσ) Hwf. unfold cancelOrder. cbv zeta.
  pose proof (side_tree_ok side _ Hb Ha) as Ht.
  destruct (cancel_tree_ok _ price o
              (upd o (set_retireEpoch (globalEpoch e)) (upd o (set_Status Inactive) (orders e))) Ht)
    as (t' & σ' & Heq & Ht' & Hq).
  rewrite Heq.
  cbn [mbind Result_bind].
  destruct (Enqueue_spec _ l o Hwf) as (b & q' & HE & Hfull & _ & Hroom).
  rewrite HE. apply Enqueue_cap in HE as [Hcap _].
  cbn [mbind Result_bind]. destruct b.
  - destruct (Hroom eq_refl) as (_ & _ & _ & Hwf').
    destruct (set_side_tree_ok side t' _ Hb Ha Ht') as [? ?].
    assert (Hq' : ∀ h, oQty (σ' !!! h) = oQty (orders e !!! h)).
    { intros h. by rewrite Hq, !oQty_upd. }
    split; [|done].
    split; [done|]. split; [done|]. split; [by exists (l ++ [o])|]. split; [done|].
    intros h. simpl. rewrite Hq'. apply Hσ.
  - split; [done|]. by apply Hfull.
Qed.

Lemma engine_ok_set_orders σ e :
  engine_ok e → heap_ok σ → engine_ok (set_orders σ e).
Proof. intros (? & ? & ? & ? & _) ?. unfold engine_ok. simpl. tauto. Qed.

Lemma match_loop_exit fuel side o filled e :
  oQty (orders e !!! o) ≤ 0 → match_loop fuel side o filled e = Ok (filled, e).
Proof.
  intros H. destruct fuel; simpl; by rewrite (proj2 (Z.ltb_ge _ _) H).
Qed.

Lemma trade_progress (σ : heap) o head :
  heap_ok σ → 0 < oQty (σ !!! o) →
  let trade := min_int64 (oQty (σ !!! o)) (oQty (σ !!! head)) in
  let σ1 := upd o (fun r => set_Qty (i64 (oQty r - trade)) r) σ in
  let σ2 := upd head (fun r => set_Qty (i64 (oQty r - trade)) r) σ1 in
  heap_ok σ2 ∧ (oQty (σ2 !!! head) ≠ 0 → oQty (σ2 !!! o) ≤ 0).
Proof.
  intros Hσ Hpos trade σ1 σ2.
  assert (H1 : heap_ok σ1).
  { apply heap_ok_upd; [done|]. intros r _. apply i64_range. }
  split.
  { apply heap_ok_upd; [done|]. intros r _. apply i64_range. }
  pose proof (Hσ o) as Ho. pose proof (Hσ head) as Hh.
  unfold σ2, σ1, trade, min_int64.
  destruct (decide (head = o)) as [->|Hne].
  - rewrite Z.ltb_irrefl, !upd_lookup. simpl.
    rewrite Z.sub_diag. change (i64 0) with 0.
    rewrite i64_small by (unfold in_i64 in *; lia). lia.
  - rewrite upd_lookup, (upd_lookup_ne head o) by done.
    rewrite upd_lookup, (upd_lookup_ne o head) by done. simpl.
    destruct (_ <? _) eqn:E.
    + rewrite Z.sub_diag. change (i64 0) with 0. lia.
    + rewrite Z.sub_diag. change (i64 0) with 0. done.
Qed.

Lemma best_head side e best :
  engine_ok e →
  match side with
  | Bid => MinLevel (Asks (book e))
  | Ask => MaxLevel (Bids (book e))
  end = Some best →
  lvl_head best ≠ None.
Proof.
  intros ([_ Hb] & [_ Ha] & _) H. unfold heads_ok in *.
  rewrite Forall_forall in Hb, Ha.
  destruct side.
  - apply MinLevel_elem in H as [k H]. by apply (Ha _ H).
  - apply MaxLevel_elem in H as [k H]. by apply (Hb _ H).
Qed.

Lemma match_loop_ok : ∀ fuel side o filled e l,
  engine_ok e → ring_wf (rq e) l →
  (Z.to_nat (ring_cap (rq e)) - length l < fuel)%nat →
  match match_loop fuel side o filled e with
  | Ok (_, e') => engine_ok e' ∧ pool e' = pool e
  | Panic f => f = RetireRingFull
  end.
Proof.
  induction fuel as [|fuel IH]; intros side o filled e l He Hwf Hfuel; [lia|].
  simpl. destruct (0 <? oQty (orders e !!! o)) eqn:Hpos; [|done].
  apply Z.ltb_lt in Hpos.
  pose proof (best_head side e) as Hbest.
  destruct (match side with
            | Bid => MinLevel (Asks (book e))
            | Ask => MaxLevel (Bids (book e))
            end) as [best|]; [|done].
  specialize (Hbest best He eq_refl).
  destruct (bool_decide _ && _); [done|].
  destruct (lvl_head best) as [head|]; [|done].
  pose proof He as (_ & _ & _ & _ & Hσ).
  destruct (trade_progress (orders e) o head Hσ Hpos) as [Hσ2 Hprog].
  cbv zeta in Hσ2, Hprog.
  set (σ2 := upd head _ _) in *.
  destruct (oQty (σ2 !!! head) =? 0) eqn:Ez.
  - pose proof (cancelOrder_ok (Price best) head (opposite side) (set_orders σ2 e) l
                  (engine_ok_set_orders _ _ He Hσ2) Hwf) as Hc.
    destruct (cancelOrder _ _ _ _) as [e'|f]; [|by destruct Hc].
    destruct Hc as (He' & Hwf' & Hpool & Hcap & _).
    cbn [mbind Result_bind].
    pose proof (ring_contents_length _ _ Hwf') as Hlen. rewrite length_app in Hlen.
    simpl in Hlen, Hcap.
    specialize (IH side o (i64 (filled + min_int64 (oQty (orders e !!! o)) (oQty (orders e !!! head))))
                   e' (l ++ [head]) He' Hwf').
    destruct (match_loop fuel _ _ _ e') as [[m e'']|f].
    + destruct IH as [? ?]; [rewrite length_app; simpl; lia|].
      split; [done|]. by rewrite H0, Hpool.
    + apply IH. rewrite length_app; simpl; lia.
  - apply Z.eqb_neq in Ez. cbn [mbind Result_bind].
    rewrite match_loop_exit by (by apply Hprog).
    split; [by apply engine_ok_set_orders|done].
Qed.

(** Every level but the one at price [k] has a head. *)
Definition heads_ok_except (k : Z) (t : RBTree) : Prop :=
  Forall (λ e, e.1 = k ∨ lvl_head e.2 ≠ None) (elements (root t)).

Lemma UpsertLevel_then_write t k f :
  tree_ok t →
  (∀ lvl, Price (f lvl) = Price lvl ∧
          (lvl_head lvl ≠ None ∨ lvl_tail lvl = None → lvl_head (f lvl) ≠ None)) →
  ∃ lvl t1, UpsertLevel t k = Ok (lvl, t1) ∧ tree_ok (writeLevel t1 k (f lvl)).
Proof.
  intros [Hi Hh] Hf.
  destruct (UpsertLevel_ok t k Hi) as (lvl & t1 & HU & Hi1 & Hcase).
  exists lvl, t1. split; [done|].
  destruct (Hf lvl) as [Hprice Hhead].
  assert (Hfind : FindLevel t1 k = Some lvl ∧ Price lvl = k ∧
                  (lvl_head lvl ≠ None ∨ lvl_tail lvl = None) ∧ heads_ok_except k t1).
  2:{ destruct Hfind as (Hf1 & Hpk & Hor & Hex).
      destruct (writeLevel_ok t1 k lvl (f lvl) Hi1 Hf1 ltac:(congruence))
        as (Hi2 & l1 & l2 & He & He2 & _).
      split; [done|]. unfold heads_ok. rewrite He2.
      unfold heads_ok_except in Hex. rewrite He in Hex.
      apply Forall_app in Hex as [H1 H2]. apply Forall_cons in H2 as [_ H2].
      destruct Hi1 as (_ & Hs1 & _). rewrite He in Hs1.
      apply sorted_remove in Hs1 as (_ & Hlt & Hgt).
      unfold lt_all, gt_all in *.
      apply Forall_app. split; [|apply Forall_cons; split].
      - rewrite Forall_forall in *. intros e Hin.
        destruct (H1 e Hin) as [Hk|?]; [|done]. specialize (Hlt e Hin). lia.
      - simpl. by apply Hhead.
      - rewrite Forall_forall in *. intros e Hin.
        destruct (H2 e Hin) as [Hk|?]; [|done]. specialize (Hgt e Hin). lia. }
  unfold heads_ok_except. unfold heads_ok in Hh.
  destruct Hcase as [[Hfd ->]|(Hfd & -> & l1 & l2 & He & He1)].
  - split; [done|]. 
    pose proof (FindLevel_from_Some _ _ _ Hfd) as Hin.
    rewrite Forall_forall in Hh. pose proof (Hh _ Hin) as Hhd. simpl in Hhd.
    destruct Hi as (_ & _ & Hp). rewrite Forall_forall in Hp.
    split; [by apply (Hp _ Hin)|]. split; [by left|].
    apply Forall_forall. intros e He. right. by apply Hh.
  - destruct Hi1 as (_ & Hs1 & _).
    split. { apply FindLevel_from_elem; [done|]. rewrite He1.
             apply elem_of_app. right. by apply elem_of_cons; left. }
    split; [done|]. split; [by right|].
    rewrite He1. rewrite He in Hh. apply Forall_app in Hh as [H1 H2].
    apply Forall_app. split; [|apply Forall_cons; split].
    + eapply Forall_impl; [exact H1|]. by right.
    + by left.
    + eapply Forall_impl; [exact H2|]. by right.
Qed.

Lemma enqueue_ok o e :
  engine_ok e → ∃ e', enqueue o e = Ok e' ∧ engine_ok e' ∧ pool e' = pool e.
Proof.
  intros (Hb & Ha & Hr & Hp & Hσ). unfold enqueue. cbv zeta.
  set (ord := orders e !!! o).
  pose proof (side_tree_ok (oSide ord) _ Hb Ha) as Ht.
  destruct (UpsertLevel_then_write _ (oPrice ord)
              (λ lvl, (Level_Enqueue lvl o (orders e)).1) Ht)
    as (lvl & t1 & -> & Ht1).
  { intros lvl. by destruct (Level_Enqueue_spec lvl o (orders e)) as (? & ? & _). }
  cbn [mbind Result_bind].
  destruct (Level_Enqueue_spec lvl o (orders e)) as (_ & _ & Hq).
  destruct (Level_Enqueue lvl o (orders e)) as [lvl' σ']. simpl in *.
  eexists. split; [done|]. split; [|done].
  destruct (set_side_tree_ok (oSide ord) _ _ Hb Ha Ht1) as [? ?].
  unfold engine_ok. simpl. repeat (split; [done|]).
  intros h. rewrite Hq. apply Hσ.
Qed.

Lemma retire_unchecked_ok o e :
  engine_ok e → ∃ e', retire_unchecked o e = Ok e' ∧ engine_ok e' ∧ pool e' = pool e.
Proof.
  intros (Hb & Ha & [l Hwf] & Hp & Hσ). unfold retire_unchecked.
  destruct (Enqueue_spec _ l o Hwf) as (b & q' & -> & _ & Hf & Ht).
  cbn [mbind Result_bind]. eexists. split; [done|]. split; [|done].
  unfold engine_ok. simpl. repeat (split; [done|]).
  split; [|split; [done|]].
  - destruct b; [exists (l ++ [o]); by apply Ht|exists l; by rewrite Hf].
  - intros h. rewrite oQty_upd by done. apply Hσ.
Qed.

Lemma checkLiquidity_ok side limitPrice desired b :
  ∃ available, checkLiquidity side limitPrice desired b = Ok available.
Proof.
  unfold checkLiquidity. destruct side.
  - rewrite ForEachAscending_fold. by eexists.
  - rewrite ForEachDescending_fold. by eexists.
Qed.

Lemma Get_ok p σ :
  pool_wf p →
  (top p = 0%nat ∧ Get p σ = Ok (None, p, σ)) ∨
  (∃ o, Get p σ = Ok (Some o, mkPool (store p) (top p - 1), <[o := zeroOrder]> σ) ∧
        top p ≠ 0%nat).
Proof.
  unfold pool_wf, Get. intros Hwf.
  destruct (top p =? 0)%nat eqn:E.
  - apply Nat.eqb_eq in E. by left.
  - apply Nat.eqb_neq in E. right.
    destruct (lookup_lt_is_Some_2 (store p) (top p - 1)) as [o Ho]; [lia|].
    exists o. by rewrite Ho.
Qed.

Definition fatal (f : Fault) : Prop := f = PoolExhausted ∨ f = RetireRingFull.

Lemma placeOrder_ok side otype price id qty seq e :
  engine_ok e → in_i64 qty →
  match placeOrder side otype price id qty seq e with
  | Ok (_, e') => engine_ok e'
  | Panic f => fatal f
  end.
Proof.
  intros He Hqty. pose proof He as (Hb & Ha & [l Hwf] & Hp & Hσ).
  unfold placeOrder.
  destruct (Get_ok (pool e) (orders e) Hp) as [[_ ->]|(o & -> & Htop)];
    cbn [mbind Result_bind]; [by left|].
  set (σ1 := <[o:=_]> (<[o:=zeroOrder]> (orders e))).
  assert (Hσ1 : heap_ok σ1).
  { intros h. unfold σ1. destruct (decide (o = h)) as [->|Hne].
    - by rewrite lookup_total_insert_eq.
    - rewrite !lookup_total_insert_ne by done. apply Hσ. }
  cbv zeta.
  set (σ2 := if bool_decide _ then _ else σ1).
  assert (Hσ2 : heap_ok σ2).
  { unfold σ2. destruct (bool_decide _); [|done].
    apply heap_ok_upd; [done|]. by intros r. }
  set (e2 := mkEngine σ2 _ _ _ _).
  assert (He2 : engine_ok e2).
  { unfold engine_ok, e2. simpl. repeat (split; [done|]).
    split; [by exists l|]. split; [|done]. unfold pool_wf in *. simpl. lia. }
  assert (Hrej : ∃ rejected : bool,
             (if bool_decide (oType (σ2 !!! o) = FOK)
              then checkLiquidity side (oPrice (σ2 !!! o)) (oQty (σ2 !!! o))
                                  (mkBook (Bids (book e)) (Asks (book e)) seq)
                   ≫= λ available, Ok (available <? oQty (σ2 !!! o))
              else Ok false) = Ok rejected).
  { destruct (bool_decide (oType (σ2 !!! o) = FOK)); [|by exists false].
    destruct (checkLiquidity_ok side (oPrice (σ2 !!! o)) (oQty (σ2 !!! o))
                (mkBook (Bids (book e)) (Asks (book e)) seq)) as [a ->].
    by eexists. }
  destruct Hrej as [rejected ->]. cbn [mbind Result_bind].
  destruct rejected.
  { destruct (retire_unchecked_ok o e2 He2) as (e3 & -> & He3 & _). done. }
  unfold match_.
  pose proof (match_loop_ok (S (length (buf (rq e2)))) (oSide (orders e2 !!! o)) o 0 e2 l
                He2 Hwf) as Hm.
  destruct (match_loop _ _ _ _ _) as [[matched e3]|f].
  2:{ cbn [mbind Result_bind]. right. apply Hm. unfold ring_cap. lia. }
  destruct Hm as [He3 _]; [unfold ring_cap; lia|].
  cbn [mbind Result_bind].
  set (e4 := set_orders _ e3).
  assert (He4 : engine_ok e4).
  { apply engine_ok_set_orders; [done|].
    destruct He3 as (_ & _ & _ & _ & Hσ3).
    intros h. rewrite oQty_upd by done. apply Hσ3. }
  assert (Hfin : ∀ r : Result Engine,
             (∃ e5, r = Ok e5 ∧ engine_ok e5) →
             match r ≫= (λ e5, Ok (o, e5)) with
             | Ok (_, e') => engine_ok e'
             | Panic f => fatal f
             end).
  { intros r (e5 & -> & ?). done. }
  apply Hfin.
  assert (Hsame : ∃ e5, Ok e4 = Ok e5 ∧ engine_ok e5) by (by exists e4).
  assert (Henq : ∃ e5, enqueue o e4 = Ok e5 ∧ engine_ok e5).
  { destruct (enqueue_ok o e4 He4) as (e5 & ? & ? & _). by exists e5. }
  assert (Hret : ∃ e5, retire_unchecked o e4 = Ok e5 ∧ engine_ok e5).
  { destruct (retire_unchecked_ok o e4 He4) as (e5 & ? & ? & _). by exists e5. }
  destruct (oType (orders e4 !!! o)); repeat case_match; done.
Qed.

Lemma Put_Qty p o σ p' σ' :
  Put p o σ = Ok (p', σ') → ∀ h, oQty (σ' !!! h) = oQty (σ !!! h).
Proof.
  unfold Put. intros H h. repeat case_match; simplify_eq; [done|].
  by rewrite !oQty_upd.
Qed.

Lemma reclaim_loop_Qty min : ∀ fuel e e',
  reclaim_loop fuel min e = Ok e' →
  ∀ h, oQty (orders e' !!! h) = oQty (orders e !!! h).
Proof.
  induction fuel as [|fuel IH]; intros e e' H h; [done|].
  simpl in H. apply bind_Ok in H as ([got q1] & _ & H).
  destruct got as [o|]; [|by simplify_eq].
  destruct (_ || _).
  - apply bind_Ok in H as ([p' σ'] & HP & H).
    rewrite (IH _ _ H h). simpl. by apply (Put_Qty _ _ _ _ _ HP).
  - apply bind_Ok in H as ([b q2] & _ & H). by simplify_eq.
Qed.

Lemma advanceEpochAndReclaim_ok rs e :
  engine_ok e → ∃ e', advanceEpochAndReclaim rs e = Ok e' ∧ engine_ok e'.
Proof.
  intros (Hb & Ha & [l Hwf] & Hp & Hσ).
  destruct (advanceEpochAndReclaim_spec rs e l Hwf Hp)
    as (e' & He' & Hwf' & Hp' & _ & _ & Hbook & _).
  exists e'. split; [done|].
  unfold engine_ok. rewrite Hbook. repeat (split; [done|]).
  split; [by eexists|]. split; [done|].
  intros h. unfold advanceEpochAndReclaim in He'.
  rewrite (reclaim_loop_Qty _ _ _ _ He' h). apply Hσ.
Qed.

Lemma engine_ok_new poolCap k epoch0 :
  0 ≤ k < 64 → engine_ok (newEngine poolCap (2 ^ k) epoch0).
Proof.
  intros Hk. unfold engine_ok, newEngine. simpl.
  assert (Ht : tree_ok NewRBTree).
  { split; [apply index_ok_new|]. by apply Forall_nil. }
  repeat (split; [done|]).
  split; [exists []; by apply ring_wf_new|].
  split.
  - unfold pool_wf, NewOrderPool. simpl. by rewrite length_seq.
  - intros h. rewrite lookup_total_empty. unfold in_i64. simpl. lia.
Qed.

Lemma engine_step_ok e op :
  engine_ok e → op_typed op = true →
  match engine_step e op with
  | Ok e' => engine_ok e'
  | Panic f => fatal f
  end.
Proof.
  intros He Hop. destruct op as [side otype price id qty seq|price o side|rs]; simpl.
  - pose proof (placeOrder_ok side otype price id qty seq e He) as H.
    destruct (placeOrder _ _ _ _ _ _ _) as [[o e']|f]; simpl; apply H.
    all: unfold op_typed in Hop; repeat (apply andb_prop in Hop as [Hop ?]).
    all: unfold in_i64, in_i64b in *; lia.
  - pose proof He as (_ & _ & [l Hwf] & _).
    pose proof (cancelOrder_ok price o side e l He Hwf) as H.
    destruct (cancelOrder _ _ _ _) as [e'|f]; [by destruct H|].
    right. by destruct H.
  - destruct (advanceEpochAndReclaim_ok rs e He) as (e' & -> & ?). done.
Qed.

Lemma engine_exec_ok ops : ∀ e,
  engine_ok e → forallb op_typed ops = true →
  match engine_exec ops e with
  | Ok e' => engine_ok e'
  | Panic f => fatal f
  end.
Proof.
  induction ops as [|op ops IH]; intros e He Hops; simpl; [done|].
  simpl in Hops. apply andb_prop in Hops as [Hop Hops].
  pose proof (engine_step_ok e op He Hop) as H.
  destruct (engine_step e op) as [e'|f]; simpl; [by apply IH|done].
Qed.

(** ** Level heads and fatal conditions over whole runs *)

Lemma heads_ok_find t price lvl :
  heads_ok t → FindLevel t price = Some lvl → lvl_head lvl ≠ None.
Proof.
  unfold heads_ok. rewrite Forall_forall. intros Hh Hf.
  apply FindLevel_from_Some in Hf. by apply (Hh _ Hf).
Qed.

Lemma heads_ok_levels t :
  heads_ok t → Forall (λ lvl, lvl_head lvl ≠ None) (levels (root t)).
Proof. unfold heads_ok, levels. intros H. by apply Forall_fmap. Qed.

(** C10: from a fresh engine, whatever placements, cancels and reclaims
    are made (with arguments of the parameters' types), every level in the
    bid index and in the ask index has a non-nil head after each operation
    that returns, and no operation faults on a nil pointer: the only panics
    are "order pool exhausted" and "retire ring full".  In particular the
    head of the best opposite level that [match] dereferences is never
    nil. *)
Theorem every_indexed_level_has_a_head
        (poolCap : nat) (k epoch0 : Z) (ops : list engine_op) :
  0 ≤ k < 64 → forallb op_typed ops = true →
  match engine_exec ops (newEngine poolCap (2 ^ k) epoch0) with
  | Ok e =>
      Forall (λ lvl, lvl_head lvl ≠ None) (levels (root (Bids (book e)))) ∧
      Forall (λ lvl, lvl_head lvl ≠ None) (levels (root (Asks (book e)))) ∧
      (∀ side price lvl,
         FindLevel (side_tree side (book e)) price = Some lvl → lvl_head lvl ≠ None) ∧
      (∀ lvl, MinLevel (Asks (book e)) = Some lvl → lvl_head lvl ≠ None) ∧
      (∀ lvl, MaxLevel (Bids (book e)) = Some lvl → lvl_head lvl ≠ None)
  | Panic f => f = PoolExhausted ∨ f = RetireRingFull
  end.
Proof.
  intros Hk Hops.
  pose proof (engine_exec_ok ops _ (engine_ok_new poolCap k epoch0 Hk) Hops) as H.
  destruct (engine_exec ops _) as [e|f]; [|done].
  pose proof H as ([_ Hb] & [_ Ha] & _).
  split; [by apply heads_ok_levels|]. split; [by apply heads_ok_levels|].
  split; [|split].
  - intros side price lvl. destruct side; by apply heads_ok_find.
  - intros lvl. by apply (best_head Bid e lvl).
  - intros lvl. by apply (best_head Ask e lvl).
Qed.

Lemma every_indexed_level_has_a_head_witness :
  match engine_exec [OpPlace Ask Limit 100 1 5 1; OpPlace Ask Limit 101 2 5 2;
                     OpPlace Bid Limit 100 3 7 3; OpCancel 101 2%nat Ask;
                     OpReclaim [mkReader 0]]
                    (newEngine 4 (2 ^ 2) 0) with
  | Ok e =>
      Forall (λ lvl, lvl_head lvl ≠ None) (levels (root (Bids (book e)))) ∧
      Forall (λ lvl, lvl_head lvl ≠ None) (levels (root (Asks (book e)))) ∧
      (∀ side price lvl,
         FindLevel (side_tree side (book e)) price = Some lvl → lvl_head lvl ≠ None) ∧
      (∀ lvl, MinLevel (Asks (book e)) = Some lvl → lvl_head lvl ≠ None) ∧
      (∀ lvl, MaxLevel (Bids (book e)) = Some lvl → lvl_head lvl ≠ None)
  | Panic f => f = PoolExhausted ∨ f = RetireRingFull
  end.
Proof.
  apply (every_indexed_level_has_a_head 4 2 0); [lia|reflexivity].
Defined.










(** On the depletion path the full ring is signalled: a bid that consumes
    the resting ask while the ring is full panics with "retire ring
    full". *)
Lemma full_ring_depletion_panics :
  (e ← engine_exec [OpPlace Ask Limit 100 1 5 1; OpPlace Ask Limit 101 2 5 2;
                    OpCancel 101 1%nat Ask] (newEngine 3 (2 ^ 0) 0);
   placeOrder Bid Limit 100 3 5 3 e) = Panic RetireRingFull.
Proof. vm_compute. reflexivity. Qed.

(** * Further properties of the price index *)

(** ** Size *)

Lemma i64_add_l a b : i64 (i64 a + b) = i64 (a + b).
Proof.
  unfold i64. f_equal.
  replace ((a + 2 ^ 63) mod 2 ^ 64 - 2 ^ 63 + b + 2 ^ 63)
    with ((a + 2 ^ 63) mod 2 ^ 64 + b) by lia.
  rewrite Zplus_mod_idemp_l. f_equal. lia.
Qed.

Lemma UpsertLevel_size t k lvl t' :
  UpsertLevel t k = Ok (lvl, t') →
  (FindLevel t k = Some lvl ∧ t' = t) ∨
  (FindLevel t k = None → size t' = i64 (size t + 1)).
Proof.
  unfold UpsertLevel. destruct (upsert_search (root t) k []) as [v|path] eqn:E.
  - intros [= -> ->]. left. split; [|done]. by apply (upsert_search_inl k _ []).
  - intros H. inv_bind. by right.
Qed.

Lemma DeleteLevel_size t k t' :
  DeleteLevel t k = Ok (true, t') → size t' = i64 (size t - 1).
Proof.
  unfold DeleteLevel. destruct (searchNode (root t) k []) as [[z path]|]; [|done].
  intros H. by inv_bind.
Qed.

Definition size_ok (t : RBTree) : Prop :=
  size t = i64 (Z.of_nat (length (elements (root t)))).

Lemma index_step_size t op :
  index_ok t → size_ok t →
  ∃ t', index_step t op = Ok t' ∧ index_ok t' ∧ size_ok t' ∧
        (length (elements (root t')) ≤ S (length (elements (root t))))%nat.
Proof.
  intros Hi Hs. destruct op as [k|k]; simpl.
  - destruct (UpsertLevel_ok t k Hi) as (lvl & t' & HU & Hi' & Hcase).
    rewrite HU. cbn [mbind Result_bind]. exists t'. split; [done|]. split; [done|].
    destruct Hcase as [[_ ->]|(Hnone & _ & l1 & l2 & E1 & E2)]; [split; [done|lia]|].
    destruct (UpsertLevel_size _ _ _ _ HU) as [[Hf _]|Hsz]; [congruence|].
    unfold size_ok in *. rewrite (Hsz Hnone), Hs, i64_add_l, E1, E2.
    rewrite !length_app. simpl. split; [f_equal; lia|lia].
  - destruct (DeleteLevel_ok t k Hi) as (b & t' & HD & Hi' & Hcase).
    rewrite HD. cbn [mbind Result_bind]. exists t'. split; [done|]. split; [done|].
    destruct Hcase as [(_ & -> & _)|(-> & l1 & v & l2 & _ & E1 & E2)]; [split; [done|lia]|].
    unfold size_ok in *. rewrite (DeleteLevel_size _ _ _ HD), Hs.
    replace (i64 (Z.of_nat (length (elements (root t)))) - 1)
      with (i64 (Z.of_nat (length (elements (root t)))) + -1) by lia.
    rewrite i64_add_l, E1, E2, !length_app. simpl. split; [f_equal; lia|lia].
Qed.

Lemma index_exec_size ops : ∀ t,
  index_ok t → size_ok t →
  ∃ t', index_exec ops t = Ok t' ∧ index_ok t' ∧ size_ok t' ∧
        (length (elements (root t')) ≤ length (elements (root t)) + length ops)%nat.
Proof.
  induction ops as [|op ops IH]; intros t Hi Hs; simpl.
  - exists t. split; [done|]. split; [done|]. split; [done|lia].
  - destruct (index_step_size t op Hi Hs) as (t1 & -> & Hi1 & Hs1 & Hlen).
    cbn [mbind Result_bind].
    destruct (IH t1 Hi1 Hs1) as (t' & -> & ? & ? & ?).
    exists t'. split; [done|]. split; [done|]. split; [done|lia].
Qed.

(** [Size] is the number of levels in the index: after any UpsertLevel and
    DeleteLevel calls on an empty tree (fewer than 2^63 of them, so that the
    counter cannot wrap), the counter equals the number of levels that a
    traversal visits, and it is 0 exactly when the tree is empty. *)
Theorem Size_counts_levels (ops : list index_op) :
  Z.of_nat (length ops) < 2 ^ 63 →
  ∃ t, index_exec ops NewRBTree = Ok t ∧
       Size t = Z.of_nat (length (levels (root t))) ∧
       (Size t = 0 ↔ root t = Nil).
Proof.
  intros Hlen.
  destruct (index_exec_size ops NewRBTree index_ok_new eq_refl)
    as (t & Hrun & _ & Hs & Hle).
  exists t. split; [done|]. simpl in Hle.
  assert (E : Size t = Z.of_nat (length (levels (root t)))).
  { unfold Size, levels. rewrite length_fmap, Hs. apply i64_small.
    unfold in_i64. lia. }
  split; [done|]. rewrite E. unfold levels. rewrite length_fmap.
  destruct (root t); simpl; [done|]. rewrite length_app. simpl. split; [lia|done].
Qed.

Lemma Size_counts_levels_witness :
  ∃ t, index_exec [OpUpsert 5; OpUpsert 3; OpUpsert 5; OpDelete 7; OpDelete 3;
                   OpUpsert 9] NewRBTree = Ok t ∧
       Size t = Z.of_nat (length (levels (root t))) ∧
       (Size t = 0 ↔ root t = Nil).
Proof.
  apply (Size_counts_levels [OpUpsert 5; OpUpsert 3; OpUpsert 5; OpDelete 7;
                             OpDelete 3; OpUpsert 9]).
  vm_compute. reflexivity.
Defined.

(** ** Lookups after an insertion or a deletion *)

Lemma sorted_node c l k v r :
  sorted (elements (Node c l k v r)) →
  sorted (elements l) ∧ sorted (elements r) ∧
  (∀ e, e ∈ elements l → e.1 < k) ∧ (∀ e, e ∈ elements r → k < e.1).
Proof.
  simpl. intros Hs. pose proof Hs as Hs'.
  apply sorted_remove in Hs' as (_ & Hlt & Hgt).
  unfold sorted in Hs. apply StronglySorted_app in Hs as (_ & Hsl & Hsr).
  apply StronglySorted_cons in Hsr as [_ Hsr].
  unfold lt_all, gt_all in *. rewrite Forall_forall in Hlt, Hgt. done.
Qed.

(** On a search tree [FindLevel] is the lookup in the in-order list. *)
Lemma FindLevel_ext t t' k :
  sorted (elements (root t)) → sorted (elements (root t')) →
  (∀ v, (k, v) ∈ elements (root t) ↔ (k, v) ∈ elements (root t')) →
  FindLevel t' k = FindLevel t k.
Proof.
  intros Hs Hs' Hiff. unfold FindLevel.
  destruct (FindLevel_from (root t) k) as [v|] eqn:E.
  - apply FindLevel_from_Some in E. apply FindLevel_from_elem; [done|]. by apply Hiff.
  - destruct (FindLevel_from (root t') k) as [v|] eqn:E'; [|done].
    apply FindLevel_from_Some, Hiff in E'.
    apply FindLevel_from_elem in E'; [|done]. congruence.
Qed.

Lemma index_ok_sorted t : index_ok t → sorted (elements (root t)).
Proof. by intros (_ & ? & _). Qed.

Lemma index_ok_Price t k v : index_ok t → FindLevel t k = Some v → Price v = k.
Proof.
  intros (_ & _ & Hp) Hf. apply FindLevel_from_Some in Hf.
  rewrite Forall_forall in Hp. by apply (Hp _ Hf).
Qed.


(** DeleteLevel then FindLevel: on an index built by UpsertLevel and
    DeleteLevel calls, [DeleteLevel(k)] returns true exactly when [k] had a
    level, leaves the tree as it was when it had none, and afterwards
    [FindLevel(k)] is nil while every other price is found with the level it
    had. *)
Theorem DeleteLevel_then_FindLevel (ops : list index_op) (k : Z) :
  ∃ t b t',
    index_exec ops NewRBTree = Ok t ∧
    DeleteLevel t k = Ok (b, t') ∧
    (b = true ↔ FindLevel t k ≠ None) ∧
    (b = false → t' = t) ∧
    FindLevel t' k = None ∧
    ∀ k', k' ≠ k → FindLevel t' k' = FindLevel t k'.
Proof.
  destruct (index_exec_ok ops NewRBTree index_ok_new) as (t & Hrun & Hi).
  destruct (DeleteLevel_ok t k Hi) as (b & t' & HD & Hi' & Hcase).
  exists t, b, t'. split; [done|]. split; [done|].
  destruct Hcase as [(-> & -> & Hnone)|(-> & l1 & v & l2 & Hf & E1 & E2)].
  - rewrite Hnone. split; [split; [done|by intros []]|]. done.
  - rewrite Hf. split; [done|]. split; [done|].
    pose proof (index_ok_sorted _ Hi) as Hs. rewrite E1 in Hs.
    apply sorted_remove in Hs as (_ & Hlt & Hgt).
    unfold lt_all, gt_all in *. rewrite Forall_forall in Hlt, Hgt.
    split.
    + destruct (FindLevel t' k) as [v'|] eqn:E; [|done].
      apply FindLevel_from_Some in E. rewrite E2 in E.
      apply elem_of_app in E as [E|E].
      * specialize (Hlt _ E). simpl in Hlt. lia.
      * specialize (Hgt _ E). simpl in Hgt. lia.
    + intros k' Hne. apply FindLevel_ext; try by apply index_ok_sorted.
      intros v'. rewrite E1, E2, !elem_of_app, elem_of_cons.
      split; [|tauto]. intros [?|[?|?]]; [tauto|by simplify_eq|tauto].
Qed.

(** ** The extremes and the neighbours of a price *)

Lemma MinLevel_head t : MinLevel t = snd <$> head (elements (root t)).
Proof.
  unfold MinLevel. pose proof (minNode_rest (root t) [] (or_intror eq_refl)) as H.
  destruct (minNode (root t) []) as [n path]. simpl in *.
  rewrite app_nil_r in H. rewrite <- H. by destruct n.
Qed.

Lemma MaxLevel_last t : MaxLevel t = snd <$> last (elements (root t)).
Proof.
  unfold MaxLevel. pose proof (maxNode_rest (root t) [] (or_intror eq_refl)) as H.
  destruct (maxNode (root t) []) as [n path]. simpl in *.
  rewrite app_nil_r in H. rewrite <- head_reverse, <- H. by destruct n.
Qed.

Lemma sorted_head_least l e :
  sorted l → head l = Some e → ∀ e', e' ∈ l → e.1 ≤ e'.1.
Proof.
  destruct 1 as [|a l Hs Ha]; [done|]. intros [= ->] e' Hin.
  rewrite Forall_forall in Ha. unfold kv_lt in Ha.
  apply elem_of_cons in Hin as [->|Hin]; [lia|]. specialize (Ha _ Hin). lia.
Qed.

Lemma sorted_last_greatest l e :
  sorted l → last l = Some e → ∀ e', e' ∈ l → e'.1 ≤ e.1.
Proof.
  intros Hs Hl e' Hin. apply last_Some in Hl as [l' ->].
  unfold sorted in Hs. apply StronglySorted_app in Hs as (Hlt & _ & _).
  apply elem_of_app in Hin as [Hin|Hin].
  - assert (e ∈ [e]) as He by (by apply list_elem_of_singleton).
    specialize (Hlt _ _ Hin He). unfold kv_lt in Hlt. lia.
  - apply list_elem_of_singleton in Hin as ->. lia.
Qed.

(** MinLevel and MaxLevel: on an index built by UpsertLevel and DeleteLevel
    calls, each is nil exactly when the index is empty, and otherwise it is
    the level stored for the least, respectively the greatest, price of the
    index. *)
Theorem MinLevel_MaxLevel_extremes (ops : list index_op) :
  ∃ t, index_exec ops NewRBTree = Ok t ∧
       match MinLevel t with
       | None => root t = Nil
       | Some lo =>
           FindLevel t (Price lo) = Some lo ∧
           ∀ k v, FindLevel t k = Some v → Price lo ≤ k
       end ∧
       match MaxLevel t with
       | None => root t = Nil
       | Some hi =>
           FindLevel t (Price hi) = Some hi ∧
           ∀ k v, FindLevel t k = Some v → k ≤ Price hi
       end.
Proof.
  destruct (index_exec_ok ops NewRBTree index_ok_new) as (t & Hrun & Hi).
  exists t. split; [done|].
  pose proof (index_ok_sorted _ Hi) as Hs.
  destruct Hi as (_ & _ & Hp). rewrite Forall_forall in Hp.
  split.
  - rewrite MinLevel_head. destruct (head (elements (root t))) as [[k0 lo]|] eqn:E; simpl.
    + assert (Hin : (k0, lo) ∈ elements (root t)).
      { destruct (elements (root t)); simplify_eq/=. by apply elem_of_cons; left. }
      pose proof (Hp _ Hin) as Hk. simpl in Hk. rewrite Hk.
      split; [by apply FindLevel_from_elem|].
      intros k v Hf. apply FindLevel_from_Some in Hf.
      apply (sorted_head_least _ _ Hs E _ Hf).
    + apply head_None in E. destruct (root t) as [|c l k v r]; [done|].
      simpl in E. by destruct (elements l).
  - rewrite MaxLevel_last. destruct (last (elements (root t))) as [[k0 hi]|] eqn:E; simpl.
    + assert (Hin : (k0, hi) ∈ elements (root t)).
      { apply last_Some in E as [l' ->]. apply elem_of_app. right.
        by apply list_elem_of_singleton. }
      pose proof (Hp _ Hin) as Hk. simpl in Hk. rewrite Hk.
      split; [by apply FindLevel_from_elem|].
      intros k v Hf. apply FindLevel_from_Some in Hf.
      apply (sorted_last_greatest _ _ Hs E _ Hf).
    + apply last_None in E. destruct (root t) as [|c l k v r]; [done|].
      simpl in E. by destruct (elements l).
Qed.

Lemma Successor_from_spec p : ∀ n s,
  sorted (elements n) →
  (Successor_from n p s = s ∧ ∀ e, e ∈ elements n → e.1 ≤ p) ∨
  (∃ c l k v r, Successor_from n p s = Node c l k v r ∧
                (k, v) ∈ elements n ∧ p < k ∧
                ∀ e, e ∈ elements n → p < e.1 → k ≤ e.1).
Proof.
  induction n as [|c l IHl k v r IHr]; intros s Hs.
  { left. split; [done|]. intros e He. by apply elem_of_nil in He. }
  destruct (sorted_node _ _ _ _ _ Hs) as (Hsl & Hsr & Hlt & Hgt).
  simpl. destruct (p <? k) eqn:E.
  - apply Z.ltb_lt in E. right.
    destruct (IHl (Node c l k v r) Hsl) as [[-> Hall]|(c' & l' & k' & v' & r' & -> & Hin & Hp & Hmin)].
    + exists c, l, k, v, r. split; [done|].
      split; [apply elem_of_app; right; by apply elem_of_cons; left|].
      split; [done|]. intros e He Hpe.
      apply elem_of_app in He as [He|He]; [specialize (Hall _ He); lia|].
      apply elem_of_cons in He as [->|He]; [simpl; lia|].
      specialize (Hgt _ He). lia.
    + exists c', l', k', v', r'. split; [done|].
      split; [apply elem_of_app; by left|]. split; [done|].
      intros e He Hpe. specialize (Hlt _ Hin). simpl in Hlt.
      apply elem_of_app in He as [He|He]; [by apply Hmin|].
      apply elem_of_cons in He as [->|He]; [simpl; lia|].
      specialize (Hgt _ He). lia.
  - apply Z.ltb_ge in E.
    destruct (IHr s Hsr) as [[-> Hall]|(c' & l' & k' & v' & r' & -> & Hin & Hp & Hmin)].
    + left. split; [done|]. intros e He.
      apply elem_of_app in He as [He|He]; [specialize (Hlt _ He); lia|].
      apply elem_of_cons in He as [->|He]; [simpl; lia|]. by apply Hall.
    + right. exists c', l', k', v', r'. split; [done|].
      split; [apply elem_of_app; right; apply elem_of_cons; by right|].
      split; [done|]. intros e He Hpe.
      apply elem_of_app in He as [He|He]; [specialize (Hlt _ He); lia|].
      apply elem_of_cons in He as [->|He]; [simpl in *; lia|]. by apply Hmin.
Qed.

Lemma Predecessor_from_spec p : ∀ n s,
  sorted (elements n) →
  (Predecessor_from n p s = s ∧ ∀ e, e ∈ elements n → p ≤ e.1) ∨
  (∃ c l k v r, Predecessor_from n p s = Node c l k v r ∧
                (k, v) ∈ elements n ∧ k < p ∧
                ∀ e, e ∈ elements n → e.1 < p → e.1 ≤ k).
Proof.
  induction n as [|c l IHl k v r IHr]; intros s Hs.
  { left. split; [done|]. intros e He. by apply elem_of_nil in He. }
  destruct (sorted_node _ _ _ _ _ Hs) as (Hsl & Hsr & Hlt & Hgt).
  simpl. destruct (k <? p) eqn:E.
  - apply Z.ltb_lt in E. right.
    destruct (IHr (Node c l k v r) Hsr) as [[-> Hall]|(c' & l' & k' & v' & r' & -> & Hin & Hp & Hmax)].
    + exists c, l, k, v, r. split; [done|].
      split; [apply elem_of_app; right; by apply elem_of_cons; left|].
      split; [done|]. intros e He Hpe.
      apply elem_of_app in He as [He|He]; [specialize (Hlt _ He); lia|].
      apply elem_of_cons in He as [->|He]; [simpl; lia|].
      specialize (Hall _ He). lia.
    + exists c', l', k', v', r'. split; [done|].
      split; [apply elem_of_app; right; apply elem_of_cons; by right|].
      split; [done|].
      intros e He Hpe. specialize (Hgt _ Hin). simpl in Hgt.
      apply elem_of_app in He as [He|He]; [specialize (Hlt _ He); lia|].
      apply elem_of_cons in He as [->|He]; [simpl; lia|]. by apply Hmax.
  - apply Z.ltb_ge in E.
    destruct (IHl s Hsl) as [[-> Hall]|(c' & l' & k' & v' & r' & -> & Hin & Hp & Hmax)].
    + left. split; [done|]. intros e He.
      apply elem_of_app in He as [He|He]; [by apply Hall|].
      apply elem_of_cons in He as [->|He]; [simpl; lia|].
      specialize (Hgt _ He). lia.
    + right. exists c', l', k', v', r'. split; [done|].
      split; [apply elem_of_app; by left|].
      split; [done|]. intros e He Hpe.
      apply elem_of_app in He as [He|He]; [by apply Hmax|].
      apply elem_of_cons in He as [->|He]; [simpl in *; lia|].
      specialize (Hgt _ He). lia.
Qed.

(** Successor and Predecessor: on an index built by UpsertLevel and
    DeleteLevel calls, [Successor(p)] is the level of the least price
    strictly above [p], and nil when no price of the index is above [p];
    [Predecessor(p)] is the level of the greatest price strictly below [p],
    and nil when there is none.  [p] itself need not be in the index. *)
Theorem Successor_Predecessor_neighbours (ops : list index_op) (p : Z) :
  ∃ t, index_exec ops NewRBTree = Ok t ∧
       match Successor t p with
       | None => ∀ k v, FindLevel t k = Some v → k ≤ p
       | Some up =>
           p < Price up ∧ FindLevel t (Price up) = Some up ∧
           ∀ k v, FindLevel t k = Some v → p < k → Price up ≤ k
       end ∧
       match Predecessor t p with
       | None => ∀ k v, FindLevel t k = Some v → p ≤ k
       | Some dn =>
           Price dn < p ∧ FindLevel t (Price dn) = Some dn ∧
           ∀ k v, FindLevel t k = Some v → k < p → k ≤ Price dn
       end.
Proof.
  destruct (index_exec_ok ops NewRBTree index_ok_new) as (t & Hrun & Hi).
  exists t. split; [done|].
  pose proof (index_ok_sorted _ Hi) as Hs.
  destruct Hi as (_ & _ & Hpr). rewrite Forall_forall in Hpr.
  split.
  - unfold Successor.
    destruct (Successor_from_spec p (root t) Nil Hs)
      as [[-> Hall]|(c & l & k & v & r & -> & Hin & Hp & Hmin)]; simpl.
    + intros k v Hf. apply FindLevel_from_Some in Hf. apply (Hall _ Hf).
    + pose proof (Hpr _ Hin) as Hk. simpl in Hk. rewrite Hk.
      split; [done|]. split; [by apply FindLevel_from_elem|].
      intros k' v' Hf. apply FindLevel_from_Some in Hf. apply (Hmin _ Hf).
  - unfold Predecessor.
    destruct (Predecessor_from_spec p (root t) Nil Hs)
      as [[-> Hall]|(c & l & k & v & r & -> & Hin & Hp & Hmax)]; simpl.
    + intros k v Hf. apply FindLevel_from_Some in Hf. apply (Hall _ Hf).
    + pose proof (Hpr _ Hin) as Hk. simpl in Hk. rewrite Hk.
      split; [done|]. split; [by apply FindLevel_from_elem|].
      intros k' v' Hf. apply FindLevel_from_Some in Hf. apply (Hmax _ Hf).
Qed.

(** ** Balance *)

(** The number of nodes on the longest path from [n] down to the
    sentinel. *)
Fixpoint height (n : node) : nat :=
  match n with
  | Nil => O
  | Node _ l _ _ r => S (Nat.max (height l) (height r))
  end.

Lemma is_rb_height n : ∀ h,
  is_rb n h →
  (height n ≤ 2 * h + match color_of n with red => 1 | black => 0 end)%nat ∧
  (2 ^ h ≤ count_nodes n + 1)%nat.
Proof.
  induction n as [|c l IHl k v r IHr]; intros h H.
  { simpl in H. subst h. simpl. lia. }
  destruct c; simpl in H.
  - destruct H as (Hcl & Hcr & Hl & Hr).
    destruct (IHl _ Hl) as [Hhl Hnl]. destruct (IHr _ Hr) as [Hhr Hnr].
    rewrite Hcl in Hhl. rewrite Hcr in Hhr. simpl. lia.
  - destruct h as [|h']; [done|]. destruct H as [Hl Hr].
    destruct (IHl _ Hl) as [Hhl Hnl]. destruct (IHr _ Hr) as [Hhr Hnr].
    assert (height l ≤ 2 * h' + 1)%nat by (destruct (color_of l); lia).
    assert (height r ≤ 2 * h' + 1)%nat by (destruct (color_of r); lia).
    cbn [height count_nodes color_of]. rewrite Nat.pow_succ_r'. lia.
Qed.

(** The index stays balanced: after any UpsertLevel and DeleteLevel calls
    on an empty tree, no path from the root down to the sentinel has more
    than [2 * log2 (n + 1)] nodes, where [n] is the number of levels in the
    index. *)
Theorem index_height_logarithmic (ops : list index_op) :
  ∃ t, index_exec ops NewRBTree = Ok t ∧
       (height (root t) ≤ 2 * Nat.log2 (length (levels (root t)) + 1))%nat.
Proof.
  destruct (index_exec_ok ops NewRBTree index_ok_new) as (t & Hrun & Hi).
  exists t. split; [done|].
  destruct Hi as (([h Hrb] & Hblack) & _).
  destruct (is_rb_height _ _ Hrb) as [Hh Hn]. rewrite Hblack in Hh.
  unfold levels. rewrite length_fmap, elements_length.
  assert (h ≤ Nat.log2 (count_nodes (root t) + 1))%nat; [|lia].
  apply Nat.log2_le_pow2; lia.
Qed.

(** ** Traversals with a callback that stops *)

(** The levels on which a callback is called when it is offered the levels
    of [l] in turn and stops the iteration by returning false: the levels
    up to and including the first one that [go] refuses. *)
Fixpoint visited_until (go : PriceLevel → bool) (l : list PriceLevel)
  : list PriceLevel :=
  match l with
  | [] => []
  | lvl :: l' => lvl :: (if go lvl then visited_until go l' else [])
  end.

Lemma fold_stop_until (go : PriceLevel → bool) l : ∀ acc,
  fold_stop (λ lvl acc, (go lvl, acc ++ [lvl])) l acc = acc ++ visited_until go l.
Proof.
  induction l as [|x l IH]; intros acc; simpl.
  - by rewrite app_nil_r.
  - destruct (go x).
    + rewrite IH. by rewrite <- app_assoc.
    + done.
Qed.

(** ForEachAscending and ForEachDescending with early stop: on an index
    built by UpsertLevel and DeleteLevel calls, the ascending traversal
    calls the callback on the levels in strictly increasing price order, the
    descending traversal on the same levels in the reverse order, and each
    stops right after the first level on which the callback returns false;
    both return. *)
Theorem ForEach_visits_until_stop (ops : list index_op) (go : PriceLevel → bool) :
  ∃ t all,
    index_exec ops NewRBTree = Ok t ∧
    StronglySorted Z.lt (Price <$> all) ∧
    (∀ lvl, lvl ∈ all ↔ FindLevel t (Price lvl) = Some lvl) ∧
    ForEachAscending (λ lvl seen, (go lvl, seen ++ [lvl])) t []
      = Ok (visited_until go all) ∧
    ForEachDescending (λ lvl seen, (go lvl, seen ++ [lvl])) t []
      = Ok (visited_until go (reverse all)).
Proof.
  destruct (index_exec_ok ops NewRBTree index_ok_new) as (t & Hrun & Hi).
  exists t, (levels (root t)). split; [done|].
  pose proof (index_ok_sorted _ Hi) as Hs.
  destruct Hi as (_ & _ & Hp).
  split.
  { unfold levels. rewrite prices_keys by done. by apply sorted_keys. }
  split.
  { rewrite Forall_forall in Hp. intros lvl. unfold levels. split.
    - intros Hin. apply list_elem_of_fmap in Hin as ([k v] & -> & Hin).
      pose proof (Hp _ Hin) as Hk. simpl in *. rewrite Hk.
      by apply FindLevel_from_elem.
    - intros Hf. apply FindLevel_from_Some in Hf.
      apply list_elem_of_fmap. by exists (Price lvl, lvl). }
  split.
  - by rewrite ForEachAscending_fold, fold_stop_until.
  - by rewrite ForEachDescending_fold, fold_stop_until.
Qed.

(** * The order pool *)

Lemma Get_many_stack st : ∀ n σ,
  (n ≤ length st)%nat →
  ∃ σ', Get_many n (mkPool st n) σ = Ok (Some <$> reverse (take n st), mkPool st 0, σ') ∧
        ∀ h, (h ∈ take n st → σ' !!! h = zeroOrder) ∧
             (h ∉ take n st → σ' !!! h = σ !!! h).
Proof.
  induction n as [|n IH]; intros σ Hn.
  { exists σ. split; [done|]. intros h. rewrite take_0. split; [|done].
    intros H. by apply elem_of_nil in H. }
  cbn [Get_many]. unfold Get. cbn [top store].
  replace (S n - 1)%nat with n by lia. simpl (S n =? 0)%nat. cbv iota.
  destruct (lookup_lt_is_Some_2 st n ltac:(lia)) as [o Ho]. rewrite Ho.
  cbn [mbind Result_bind].
  destruct (IH (<[o:=zeroOrder]> σ) ltac:(lia)) as (σ' & -> & Hσ').
  cbn [mbind Result_bind]. exists σ'.
  rewrite (take_S_r _ _ _ Ho), reverse_snoc. split; [done|].
  intros h. destruct (Hσ' h) as [Hin Hout]. split.
  - intros H. apply elem_of_app in H as [H|H]; [by apply Hin|].
    apply list_elem_of_singleton in H as ->.
    destruct (decide (o ∈ take n st)) as [Hd|Hd]; [by apply Hin|].
    rewrite (proj2 (Hσ' o) Hd). by rewrite lookup_total_insert_eq.
  - intros H. rewrite Hout.
    + rewrite lookup_total_insert_ne; [done|]. intros ->. apply H.
      apply elem_of_app. right. by apply list_elem_of_singleton.
    + intros Hd. apply H. apply elem_of_app. by left.
Qed.

(** A pool built for [cap] orders serves exactly [cap] of them: the first
    [cap] calls of Get return [cap] different orders, each reset to the
    zero Order (Status Active, no links, Qty 0), and the next Get returns nil
    and changes nothing. *)
Theorem pool_serves_its_capacity (cap : nat) (σ : heap) :
  ∃ hs p' σ',
    Get_many cap (NewOrderPool cap) σ = Ok (Some <$> hs, p', σ') ∧
    length hs = cap ∧ NoDup hs ∧
    (∀ h, h ∈ hs → σ' !!! h = zeroOrder) ∧
    Get p' σ' = Ok (None, p', σ').
Proof.
  unfold NewOrderPool.
  destruct (Get_many_stack (seq 0 cap) cap σ) as (σ' & HG & Hσ').
  { by rewrite length_seq. }
  exists (reverse (take cap (seq 0 cap))), (mkPool (seq 0 cap) 0), σ'.
  split; [done|].
  rewrite take_ge by (by rewrite length_seq).
  split; [by rewrite length_reverse, length_seq|].
  split; [rewrite reverse_Permutation; apply NoDup_seq|].
  split; [|done].
  intros h Hh. rewrite elem_of_reverse in Hh. apply Hσ'.
  by rewrite take_ge by (by rewrite length_seq).
Qed.

(** Put then Get: on a pool that is not full, [Put(o)] marks [o] Inactive,
    clears its links and pushes it, and the next [Get] pops that same order,
    reset to the zero Order, leaving the free orders as they were before the
    Put.  On a full pool [Put(o)] changes neither the pool nor the order. *)
Theorem Put_then_Get (p : OrderPool) (o : handle) (σ : heap) :
  (top p ≤ length (store p))%nat →
  if decide (top p = length (store p)) then Put p o σ = Ok (p, σ)
  else
    ∃ p1 σ1 p2,
      Put p o σ = Ok (p1, σ1) ∧
      oStatus (σ1 !!! o) = Inactive ∧
      onext (σ1 !!! o) = None ∧ oprev (σ1 !!! o) = None ∧
      (∀ h, h ≠ o → σ1 !!! h = σ !!! h) ∧
      pool_free p1 = pool_free p ++ [o] ∧
      Get p1 σ1 = Ok (Some o, p2, <[o := zeroOrder]> σ1) ∧
      pool_free p2 = pool_free p ∧ top p2 = top p.
Proof.
  intros Hwf. destruct (decide _) as [E|Hne].
  { unfold Put. by rewrite (proj2 (Nat.eqb_eq _ _) E). }
  unfold Put. rewrite (proj2 (Nat.eqb_neq _ _) Hne).
  rewrite (proj2 (Nat.ltb_lt _ _)) by lia.
  eexists _, _, _. split; [done|].
  rewrite !upd_lookup. split; [done|]. split; [done|]. split; [done|].
  split.
  { intros h Hh. by rewrite !upd_lookup_ne. }
  assert (Hfree : pool_free (mkPool (<[top p:=o]> (store p)) (S (top p)))
                  = pool_free p ++ [o]).
  { unfold pool_free. cbn [top store].
    assert (Hlk : <[top p:=o]> (store p) !! top p = Some o).
    { apply list_lookup_insert_eq. lia. }
    rewrite (take_S_r _ _ _ Hlk). by rewrite take_insert_ge by lia. }
  split; [done|].
  unfold Get. cbn [top store]. simpl (S (top p) =? 0)%nat. cbv iota.
  replace (S (top p) - 1)%nat with (top p) by lia.
  rewrite list_lookup_insert_eq by lia. split; [done|].
  unfold pool_free. cbn [top store]. split; [|done].
  by rewrite take_insert_ge by lia.
Qed.

Lemma Put_then_Get_witness :
  if decide (top (mkPool [0; 1; 2]%nat 1) = length (store (mkPool [0; 1; 2]%nat 1)))
  then Put (mkPool [0; 1; 2]%nat 1) 2%nat ∅ = Ok (mkPool [0; 1; 2]%nat 1, ∅)
  else
    ∃ p1 σ1 p2,
      Put (mkPool [0; 1; 2]%nat 1) 2%nat ∅ = Ok (p1, σ1) ∧
      oStatus (σ1 !!! 2%nat) = Inactive ∧
      onext (σ1 !!! 2%nat) = None ∧ oprev (σ1 !!! 2%nat) = None ∧
      (∀ h, h ≠ 2%nat → σ1 !!! h = (∅ : heap) !!! h) ∧
      pool_free p1 = pool_free (mkPool [0; 1; 2]%nat 1) ++ [2%nat] ∧
      Get p1 σ1 = Ok (Some 2%nat, p2, <[2%nat := zeroOrder]> σ1) ∧
      pool_free p2 = pool_free (mkPool [0; 1; 2]%nat 1) ∧
      top p2 = top (mkPool [0; 1; 2]%nat 1).
Proof.
  apply (Put_then_Get (mkPool [0; 1; 2]%nat 1) 2%nat ∅). simpl. lia.
Defined.

(** * Reader epochs *)

(** The epochs that count: those of the readers inside a read section. *)
Definition active_epochs (rs : list Reader) : list Z :=
  filter (λ e, e ≠ 0) (epoch <$> rs).

Lemma minReaderEpoch_fold rs : ∀ m,
  fold_left (λ min r, let e := epoch r in
                      if negb (e =? 0) && (e <? min) then e else min) rs m
  = foldr Z.min m (active_epochs rs).
Proof.
  unfold active_epochs.
  induction rs as [|r rs IH]; intros m; [done|].
  cbn [fold_left fmap list_fmap]. rewrite IH. rewrite filter_cons.
  destruct (decide (epoch r ≠ 0)) as [Hne|He].
  - rewrite (proj2 (Z.eqb_neq _ _) Hne). cbn [negb andb foldr].
    generalize (filter (λ e, e ≠ 0) (epoch <$> rs)). intros l.
    destruct (epoch r <? m) eqn:E.
    + apply Z.ltb_lt in E. induction l as [|a l IHl]; simpl; lia.
    + apply Z.ltb_ge in E. induction l as [|a l IHl]; simpl; lia.
  - assert (epoch r = 0) as -> by lia. done.
Qed.

Lemma minReaderEpoch_active rs :
  minReaderEpoch rs = foldr Z.min ALL_F (active_epochs rs).
Proof. apply minReaderEpoch_fold. Qed.

Lemma foldr_min_le m l : foldr Z.min m l ≤ m ∧ ∀ e, e ∈ l → foldr Z.min m l ≤ e.
Proof.
  induction l as [|a l [IH1 IH2]]; simpl.
  - split; [lia|]. intros e He. by apply elem_of_nil in He.
  - split; [lia|]. intros e He. apply elem_of_cons in He as [->|He]; [lia|].
    specialize (IH2 _ He). lia.
Qed.

Lemma foldr_min_in m l : foldr Z.min m l = m ∨ foldr Z.min m l ∈ l.
Proof.
  induction l as [|a l IH]; simpl; [by left|].
  destruct (Z.min_spec a (foldr Z.min m l)) as [[_ ->]|[_ ->]].
  - right. by apply elem_of_cons; left.
  - destruct IH as [?|?]; [by left|right; apply elem_of_cons; by right].
Qed.

Lemma active_epochs_app rs1 rs2 :
  active_epochs (rs1 ++ rs2) = active_epochs rs1 ++ active_epochs rs2.
Proof. unfold active_epochs. by rewrite fmap_app, filter_app. Qed.

Lemma active_epochs_cons r rs :
  active_epochs (r :: rs)
  = if decide (epoch r ≠ 0) then epoch r :: active_epochs rs else active_epochs rs.
Proof. unfold active_epochs. cbn [fmap list_fmap]. by rewrite filter_cons. Qed.

Lemma foldr_min_cons_mid m a l1 l2 :
  foldr Z.min m (l1 ++ a :: l2) = Z.min a (foldr Z.min m (l1 ++ l2)).
Proof.
  induction l1 as [|b l1 IH]; simpl; [done|]. rewrite IH. lia.
Qed.

(** [minReaderEpoch] is the least epoch among the readers whose epoch is
    not 0, and the all-ones value when every reader's epoch is 0 (or when
    there is no reader): it is never above a non-zero reader epoch, and it is
    either all-ones or the non-zero epoch of one of the readers. *)
Theorem minReaderEpoch_least_active (rs : list Reader) :
  minReaderEpoch rs ≤ ALL_F ∧
  (∀ r, r ∈ rs → epoch r ≠ 0 → minReaderEpoch rs ≤ epoch r) ∧
  (minReaderEpoch rs = ALL_F ∨
   ∃ r, r ∈ rs ∧ epoch r ≠ 0 ∧ epoch r = minReaderEpoch rs) ∧
  ((∀ r, r ∈ rs → epoch r = 0) → minReaderEpoch rs = ALL_F).
Proof.
  rewrite minReaderEpoch_active.
  destruct (foldr_min_le ALL_F (active_epochs rs)) as [Hle Hall].
  split; [done|]. split; [|split].
  - intros r Hr Hne. apply Hall. unfold active_epochs.
    apply list_elem_of_filter. split; [done|]. apply list_elem_of_fmap. by exists r.
  - destruct (foldr_min_in ALL_F (active_epochs rs)) as [?|Hin]; [by left|right].
    unfold active_epochs in Hin at 2.
    apply list_elem_of_filter in Hin as [Hne Hin].
    apply list_elem_of_fmap in Hin as (r & E & Hr).
    exists r. split; [done|]. rewrite <- E. done.
  - intros Hz. assert (active_epochs rs = []) as ->; [|done].
    clear Hle Hall. unfold active_epochs. induction rs as [|r rs IH]; [done|].
    cbn [fmap list_fmap]. rewrite filter_cons.
    rewrite (Hz r) by (by apply elem_of_cons; left).
    destruct (decide (0 ≠ 0)); [done|]. apply IH.
    intros r' Hr'. apply Hz. apply elem_of_cons. by right.
Qed.

(** A reader counts from EnterRead to ExitRead: once a reader has called
    ExitRead the minimum is what it is without that reader; a reader that
    called EnterRead at global epoch [g] brings it down to [g] when [g] is
    below it, except that at global epoch 0 the reader stores 0 and does not
    count at all. *)
Theorem reader_counts_between_Enter_and_Exit
        (rs1 rs2 : list Reader) (r : Reader) (g : Z) :
  minReaderEpoch (rs1 ++ ExitRead r :: rs2) = minReaderEpoch (rs1 ++ rs2) ∧
  minReaderEpoch (rs1 ++ EnterRead g r :: rs2)
    = if g =? 0 then minReaderEpoch (rs1 ++ rs2)
      else Z.min g (minReaderEpoch (rs1 ++ rs2)).
Proof.
  rewrite !minReaderEpoch_active, !active_epochs_app, !active_epochs_cons.
  cbn [ExitRead EnterRead epoch].
  split.
  - destruct (decide (0 ≠ 0)); done.
  - destruct (decide (g ≠ 0)) as [Hg|Hg].
    + rewrite (proj2 (Z.eqb_neq _ _) Hg). apply foldr_min_cons_mid.
    + assert (g = 0) as -> by lia. done.
Qed.

(** * Price levels as FIFO queues *)

(** [seg σ p q n]: the orders [q] are doubly linked in this order; the
    first one's [prev] is [p] and the last one's [next] is [n]. *)
Fixpoint seg (σ : heap) (p : option handle) (q : list handle) (n : option handle)
  : Prop :=
  match q with
  | [] => True
  | h :: q' =>
      oprev (σ !!! h) = p ∧
      onext (σ !!! h) = from_option Some n (head q') ∧
      seg σ (Some h) q' n
  end.

(** [is_queue σ lvl q]: the level's FIFO holds exactly the orders [q],
    oldest first. *)
Definition is_queue (σ : heap) (lvl : PriceLevel) (q : list handle) : Prop :=
  NoDup q ∧ lvl_head lvl = head q ∧ lvl_tail lvl = last q ∧ seg σ None q None.

Lemma seg_app σ q1 : ∀ p q2 n,
  seg σ p (q1 ++ q2) n ↔
  seg σ p q1 (from_option Some n (head q2)) ∧
  seg σ (from_option Some p (last q1)) q2 n.
Proof.
  induction q1 as [|h q1 IH]; intros p q2 n.
  { simpl. tauto. }
  cbn [app seg]. rewrite IH.
  assert (E1 : from_option Some n (head (q1 ++ q2))
               = from_option Some (from_option Some n (head q2)) (head q1)).
  { by destruct q1. }
  assert (E2 : from_option Some (Some h) (last q1)
               = from_option Some p (last (h :: q1))).
  { destruct q1 as [|a q1]; [done|]. rewrite last_cons_cons.
    destruct (last (a :: q1)) eqn:E; [done|]. by apply last_None in E. }
  rewrite E1, E2. tauto.
Qed.

Lemma seg_frame σ σ' q : ∀ p n,
  (∀ h, h ∈ q → onext (σ' !!! h) = onext (σ !!! h) ∧
                oprev (σ' !!! h) = oprev (σ !!! h)) →
  seg σ p q n → seg σ' p q n.
Proof.
  induction q as [|h q IH]; intros p n Hf; [done|].
  simpl. intros (Hp & Hn & Hs).
  destruct (Hf h) as [E1 E2]; [by apply elem_of_cons; left|].
  rewrite E1, E2. split; [done|]. split; [done|].
  apply IH; [|done]. intros h' Hh'. apply Hf. apply elem_of_cons. by right.
Qed.

Lemma onext_upd a f (σ : heap) h :
  (∀ r, onext (f r) = onext r) → onext (upd a f σ !!! h) = onext (σ !!! h).
Proof.
  intros Hf. destruct (decide (a = h)) as [->|Hne].
  - by rewrite upd_lookup.
  - by rewrite upd_lookup_ne.
Qed.

Lemma oprev_upd a f (σ : heap) h :
  (∀ r, oprev (f r) = oprev r) → oprev (upd a f σ !!! h) = oprev (σ !!! h).
Proof.
  intros Hf. destruct (decide (a = h)) as [->|Hne].
  - by rewrite upd_lookup.
  - by rewrite upd_lookup_ne.
Qed.

Lemma oStatus_upd a f (σ : heap) h :
  (∀ r, oStatus (f r) = oStatus r) → oStatus (upd a f σ !!! h) = oStatus (σ !!! h).
Proof.
  intros Hf. destruct (decide (a = h)) as [->|Hne].
  - by rewrite upd_lookup.
  - by rewrite upd_lookup_ne.
Qed.

(** What the link updates leave alone in every order. *)
Definition same_but_links (a b : Order) : Prop :=
  oID a = oID b ∧ oSide a = oSide b ∧ oType a = oType b ∧ oPrice a = oPrice b ∧
  oQty a = oQty b ∧ oFilled a = oFilled b ∧ oSeqID a = oSeqID b ∧
  oStatus a = oStatus b ∧ oretireEpoch a = oretireEpoch b.

Lemma same_but_links_refl a : same_but_links a a.
Proof. by repeat split. Qed.

Lemma same_but_links_trans a b c :
  same_but_links a b → same_but_links b c → same_but_links a c.
Proof. unfold same_but_links. intuition congruence. Qed.

Lemma same_but_links_upd a f (σ : heap) h :
  (∀ r, same_but_links (f r) r) → same_but_links (upd a f σ !!! h) (σ !!! h).
Proof.
  intros Hf. destruct (decide (a = h)) as [->|Hne].
  - rewrite upd_lookup. apply Hf.
  - rewrite upd_lookup_ne by done. apply same_but_links_refl.
Qed.

Lemma seg_set_next_last σ q t n n' : ∀ p,
  t ∉ q → seg σ p (q ++ [t]) n →
  seg (upd t (set_next n') σ) p (q ++ [t]) n'.
Proof.
  intros p Ht Hs. apply seg_app in Hs as [H1 H2]. apply seg_app. split.
  - eapply seg_frame; [|done]. intros h Hh.
    assert (t ≠ h) by (by intros ->). by rewrite !upd_lookup_ne.
  - simpl in *. destruct H2 as (Hp & _ & _). rewrite upd_lookup. done.
Qed.

Lemma seg_set_prev_first σ q h p p' n :
  h ∉ q → seg σ p (h :: q) n →
  seg (upd h (set_prev p') σ) p' (h :: q) n.
Proof.
  intros Hh (Hp & Hn & Hs). simpl. rewrite upd_lookup. simpl.
  split; [done|]. split; [done|].
  eapply seg_frame; [|done]. intros h' Hh'.
  assert (h ≠ h') by (by intros ->). by rewrite !upd_lookup_ne.
Qed.

Lemma last_snoc_from_option {A} (l : list A) (x : A) p :
  from_option Some p (last (l ++ [x])) = Some x.
Proof. by rewrite last_snoc. Qed.

(** Enqueue appends: the order goes to the tail of the FIFO, behind the
    orders that were there, and only link fields change. *)
Lemma Level_Enqueue_queue σ lvl q o :
  is_queue σ lvl q → o ∉ q →
  onext (σ !!! o) = None → (q = [] → oprev (σ !!! o) = None) →
  is_queue (Level_Enqueue lvl o σ).2 (Level_Enqueue lvl o σ).1 (q ++ [o]) ∧
  (∀ h, same_but_links ((Level_Enqueue lvl o σ).2 !!! h) (σ !!! h)) ∧
  (∀ h, h ∉ q → h ≠ o → (Level_Enqueue lvl o σ).2 !!! h = σ !!! h).
Proof.
  intros (Hnd & Hhead & Htail & Hseg) Ho Hnext Hprev.
  assert (Hnd' : NoDup (q ++ [o])).
  { apply NoDup_app. split; [done|]. split; [|apply NoDup_singleton].
    intros x Hx Hx'. apply list_elem_of_singleton in Hx' as ->. done. }
  unfold Level_Enqueue.
  destruct (lvl_tail lvl) as [t|] eqn:Et.
  - symmetry in Htail. apply last_Some in Htail as [q' ->].
    assert (Hto : t ≠ o).
    { intros ->. apply Ho. apply elem_of_app. right. by apply list_elem_of_singleton. }
    assert (Htq : t ∉ q').
    { apply NoDup_app in Hnd as (_ & Hd & _). intros H. apply (Hd _ H).
      by apply list_elem_of_singleton. }
    cbn [fst snd]. split; [|split].
    + split; [done|]. split.
      { simpl. rewrite Hhead. by destruct q'. }
      split; [simpl; by rewrite last_snoc|].
      apply seg_app. split.
      * cbn [head from_option].
        eapply seg_frame; [|by apply (seg_set_next_last _ _ _ _ (Some o) _ Htq Hseg)].
        intros h Hh. assert (o ≠ h) by (by intros ->).
        by rewrite !(upd_lookup_ne o).
      * rewrite last_snoc. simpl. rewrite upd_lookup. simpl.
        split; [done|]. split; [|done].
        rewrite upd_lookup_ne by done. done.
    + intros h. eapply same_but_links_trans; apply same_but_links_upd; by intros r.
    + intros h Hh Hho. rewrite !upd_lookup_ne; [done| |done].
      intros ->. apply Hh. apply elem_of_app. right. by apply list_elem_of_singleton.
  - symmetry in Htail. apply last_None in Htail as ->.
    cbn [fst snd]. split; [|split].
    + split; [done|]. split; [done|]. split; [done|].
      simpl. by rewrite Hnext, Hprev.
    + intros h. apply same_but_links_refl.
    + done.
Qed.

Lemma unlink_eq lvl o σ p n :
  oprev (σ !!! o) = p → onext (σ !!! o) = n →
  unlinkAlreadyInactive lvl o σ =
  (let lvl1 := match p with Some _ => lvl | None => set_head n lvl end in
   let σ1 := match p with Some x => upd x (set_next n) σ | None => σ end in
   let lvl2 := match n with Some _ => lvl1 | None => set_tail p lvl1 end in
   let σ2 := match n with Some y => upd y (set_prev p) σ1 | None => σ1 end in
   (set_TotalQty (i64 (TotalQty lvl2 - oQty (σ !!! o))) lvl2,
    upd o (fun r => set_prev None (set_next None r)) σ2)).
Proof.
  intros Hp Hn. unfold unlinkAlreadyInactive. rewrite Hp, Hn.
  destruct p as [x|]; cbn zeta.
  - assert (E1 : onext (upd x (set_next n) σ !!! o) = n).
    { destruct (decide (x = o)) as [->|Hne].
      - by rewrite upd_lookup.
      - by rewrite upd_lookup_ne. }
    assert (E2 : oprev (upd x (set_next n) σ !!! o) = Some x).
    { by rewrite oprev_upd by done. }
    rewrite E1, E2. destruct n as [y|]; cbn zeta; by rewrite !oQty_upd.
  - rewrite Hn, Hp. destruct n as [y|]; cbn zeta; by rewrite ?oQty_upd.
Qed.

(** unlink removes exactly the order, wherever it is in the FIFO, keeps the
    others in their order, and clears the order's own links. *)
Lemma unlink_queue σ lvl q1 o q2 :
  is_queue σ lvl (q1 ++ o :: q2) →
  is_queue (unlinkAlreadyInactive lvl o σ).2 (unlinkAlreadyInactive lvl o σ).1 (q1 ++ q2) ∧
  onext ((unlinkAlreadyInactive lvl o σ).2 !!! o) = None ∧
  oprev ((unlinkAlreadyInactive lvl o σ).2 !!! o) = None ∧
  (∀ h, same_but_links ((unlinkAlreadyInactive lvl o σ).2 !!! h) (σ !!! h)) ∧
  (∀ h, h ∉ q1 → h ∉ q2 → h ≠ o → (unlinkAlreadyInactive lvl o σ).2 !!! h = σ !!! h).
Proof.
  intros (Hnd & Hhead & Htail & Hseg).
  apply seg_app in Hseg as [Hs1 Hs2]. cbn [head from_option seg] in Hs1, Hs2.
  destruct Hs2 as (Hprev & Hnext & Hs2).
  apply NoDup_app in Hnd as (Hnd1 & Hd & Hnd2).
  apply NoDup_cons in Hnd2 as [Ho2 Hnd2].
  assert (Ho1 : o ∉ q1).
  { intros H. apply (Hd _ H). by apply elem_of_cons; left. }
  assert (Hd12 : ∀ x, x ∈ q1 → x ∉ q2).
  { intros x H1 H2. apply (Hd _ H1). apply elem_of_cons. by right. }
  assert (Hnd' : NoDup (q1 ++ q2)).
  { apply NoDup_app. done. }
  rewrite (unlink_eq lvl o σ _ _ Hprev Hnext). cbv zeta. cbn [fst snd].
  rewrite !upd_lookup. cbn [onext oprev set_prev set_next].
  split; [|split; [done|split; [done|split]]].
  - (* the queue *)
    split; [done|].
    destruct q1 as [|p q1 _] using rev_ind; destruct q2 as [|n q2].
    + done.
    + cbn [last head from_option app]. cbn [last head from_option] in *.
      apply NoDup_cons in Hnd2 as [Hn2 Hnd2].
      split; [done|]. split.
      { simpl. rewrite Htail. simpl. by destruct q2. }
      eapply seg_frame; [|by apply (seg_set_prev_first _ _ _ _ None _ Hn2 Hs2)].
      intros h Hh. assert (o ≠ h) by (intros ->; by apply Ho2).
      by rewrite !(upd_lookup_ne o).
    + rewrite last_snoc in *. cbn [head from_option] in *. rewrite app_nil_r.
      apply NoDup_app in Hnd1 as (_ & Hdp & _).
      assert (Hp1 : p ∉ q1).
      { intros H. apply (Hdp _ H). by apply list_elem_of_singleton. }
      split.
      { simpl. rewrite Hhead. by destruct q1. }
      split; [simpl; by rewrite last_snoc|].
      eapply seg_frame; [|by apply (seg_set_next_last _ _ _ _ None _ Hp1 Hs1)].
      intros h Hh. assert (o ≠ h) by (by intros ->).
      by rewrite !(upd_lookup_ne o).
    + rewrite last_snoc in *. cbn [head from_option] in *.
      apply NoDup_app in Hnd1 as (_ & Hdp & _).
      assert (Hp1 : p ∉ q1).
      { intros H. apply (Hdp _ H). by apply list_elem_of_singleton. }
      apply NoDup_cons in Hnd2 as [Hn2 Hnd2].
      split.
      { simpl. rewrite Hhead. by destruct q1. }
      split.
      { simpl. rewrite Htail. rewrite !last_app. simpl. by destruct q2. }
      apply seg_app. rewrite last_snoc. cbn [head from_option]. split.
      * eapply seg_frame; [|by apply (seg_set_next_last _ _ _ _ (Some n) _ Hp1 Hs1)].
        intros h Hh.
        assert (o ≠ h) by (by intros ->).
        assert (n ≠ h).
        { intros ->. apply (Hd12 h Hh). by apply elem_of_cons; left. }
        by rewrite !(upd_lookup_ne o), !(upd_lookup_ne n).
      * eapply seg_frame; [|eapply (seg_set_prev_first _ _ _ _ (Some p) _ Hn2)].
        -- intros h Hh. assert (o ≠ h) by (intros ->; by apply Ho2).
           rewrite !(upd_lookup_ne o) by done. done.
        -- eapply seg_frame; [|exact Hs2].
           intros h Hh. assert (p ≠ h).
           { intros ->. apply (Hd12 h); [|done].
             apply elem_of_app. right. by apply list_elem_of_singleton. }
           by rewrite !(upd_lookup_ne p).
  - (* only links change *)
    intros h. eapply same_but_links_trans; [apply same_but_links_upd; by intros r|].
    destruct (head q2) as [n|]; destruct (last q1) as [p|]; cbn [from_option].
    + eapply same_but_links_trans; apply same_but_links_upd; by intros r.
    + apply same_but_links_upd; by intros r.
    + apply same_but_links_upd; by intros r.
    + apply same_but_links_refl.
  - (* the other orders are untouched *)
    intros h Hh1 Hh2 Hho. rewrite upd_lookup_ne by done.
    assert (E1 : ∀ n, head q2 = Some n → n ≠ h).
    { intros n Hn ->. apply Hh2. destruct q2; simplify_eq/=. by apply elem_of_cons; left. }
    assert (E2 : ∀ p, last q1 = Some p → p ≠ h).
    { intros p Hp ->. apply Hh1. apply last_Some in Hp as [q' ->].
      apply elem_of_app. right. by apply list_elem_of_singleton. }
    destruct (head q2) as [n|]; destruct (last q1) as [p|]; cbn [from_option].
    + rewrite !upd_lookup_ne; [done|by apply E2|by apply E1].
    + rewrite !upd_lookup_ne; [done|by apply E1].
    + rewrite !upd_lookup_ne; [done|by apply E2].
    + done.
Qed.

(** Enqueue is FIFO: when the level's queue holds the orders [q] and [o] is
    a fresh order (not in [q], no links), [lvl.Enqueue(o)] leaves the queue
    [q ++ [o]]: [o] is the new tail, the head changes only when [q] was
    empty, TotalQty grows by [o.Qty] (in int64 arithmetic), and in every
    order only link fields have changed. *)
Theorem Enqueue_appends_at_tail
        (σ : heap) (lvl : PriceLevel) (q : list handle) (o : handle) :
  is_queue σ lvl q → o ∉ q →
  onext (σ !!! o) = None → oprev (σ !!! o) = None →
  ∃ lvl' σ',
    Level_Enqueue lvl o σ = (lvl', σ') ∧
    is_queue σ' lvl' (q ++ [o]) ∧
    lvl_tail lvl' = Some o ∧
    lvl_head lvl' = Some (default o (head q)) ∧
    Price lvl' = Price lvl ∧
    TotalQty lvl' = i64 (TotalQty lvl + oQty (σ !!! o)) ∧
    ∀ h, same_but_links (σ' !!! h) (σ !!! h).
Proof.
  intros Hq Ho Hn Hp.
  destruct (Level_Enqueue_queue σ lvl q o Hq Ho Hn (λ _, Hp)) as (Hq' & Hsame & _).
  pose proof (Level_Enqueue_TotalQty lvl o σ) as HT.
  destruct (Level_Enqueue_spec lvl o σ) as (HP & _ & _).
  destruct (Level_Enqueue lvl o σ) as [lvl' σ']. cbn [fst snd] in *.
  exists lvl', σ'. split; [done|]. split; [done|].
  destruct Hq' as (_ & Hh & Ht & _).
  split; [by rewrite Ht, last_snoc|].
  split; [rewrite Hh; by destruct q|]. done.
Qed.

Lemma Enqueue_appends_at_tail_witness :
  ∃ lvl' σ',
    Level_Enqueue (mkLevel 100 (Some 1%nat) (Some 1%nat) 5) 2%nat
                  (<[1%nat := mkOrder 1 Bid Limit 100 5 0 1 Active None None 0]>
                     (<[2%nat := mkOrder 2 Bid Limit 100 7 0 2 Active None None 0]> ∅))
      = (lvl', σ') ∧
    is_queue σ' lvl' ([1%nat] ++ [2%nat]) ∧
    lvl_tail lvl' = Some 2%nat ∧
    lvl_head lvl' = Some (default 2%nat (head [1%nat])) ∧
    Price lvl' = Price (mkLevel 100 (Some 1%nat) (Some 1%nat) 5) ∧
    TotalQty lvl' =
      i64 (TotalQty (mkLevel 100 (Some 1%nat) (Some 1%nat) 5)
           + oQty ((<[1%nat := mkOrder 1 Bid Limit 100 5 0 1 Active None None 0]>
                      (<[2%nat := mkOrder 2 Bid Limit 100 7 0 2 Active None None 0]> ∅)
                    : heap) !!! 2%nat)) ∧
    ∀ h, same_but_links (σ' !!! h)
           ((<[1%nat := mkOrder 1 Bid Limit 100 5 0 1 Active None None 0]>
               (<[2%nat := mkOrder 2 Bid Limit 100 7 0 2 Active None None 0]> ∅)
             : heap) !!! h).
Proof.
  apply (Enqueue_appends_at_tail _ _ [1%nat] 2%nat).
  - split; [apply NoDup_singleton|]. split; [reflexivity|]. split; [reflexivity|].
    simpl. split; [reflexivity|]. split; [reflexivity|exact I].
  - intros H. apply list_elem_of_singleton in H. discriminate H.
  - reflexivity.
  - reflexivity.
Defined.

(** unlink keeps the FIFO order: when the level's queue is
    [q1 ++ o :: q2], [lvl.unlinkAlreadyInactive(o)] leaves the queue
    [q1 ++ q2], clears the links of [o], lowers TotalQty by the Qty [o] has
    at that moment, and leaves the level without head and tail exactly when
    [o] was its only order. *)
Theorem unlink_removes_one_order
        (σ : heap) (lvl : PriceLevel) (q1 q2 : list handle) (o : handle) :
  is_queue σ lvl (q1 ++ o :: q2) →
  ∃ lvl' σ',
    unlinkAlreadyInactive lvl o σ = (lvl', σ') ∧
    is_queue σ' lvl' (q1 ++ q2) ∧
    onext (σ' !!! o) = None ∧ oprev (σ' !!! o) = None ∧
    (lvl_head lvl' = None ↔ q1 ++ q2 = []) ∧
    Price lvl' = Price lvl ∧
    TotalQty lvl' = i64 (TotalQty lvl - oQty (σ !!! o)) ∧
    ∀ h, same_but_links (σ' !!! h) (σ !!! h).
Proof.
  intros Hq.
  destruct (unlink_queue σ lvl q1 o q2 Hq) as (Hq' & Hn & Hp & Hsame & _).
  pose proof (unlink_TotalQty lvl o σ) as HT.
  destruct (unlink_spec lvl o σ) as (HP & _).
  destruct (unlinkAlreadyInactive lvl o σ) as [lvl' σ']. cbn [fst snd] in *.
  exists lvl', σ'. split; [done|]. split; [done|]. split; [done|]. split; [done|].
  split; [|done].
  destruct Hq' as (_ & Hh & _). rewrite Hh. apply head_None.
Qed.

Lemma unlink_removes_one_order_witness :
  ∃ lvl' σ',
    unlinkAlreadyInactive (mkLevel 100 (Some 1%nat) (Some 2%nat) 12) 1%nat
      (<[1%nat := mkOrder 1 Bid Limit 100 5 0 1 Inactive (Some 2%nat) None 0]>
         (<[2%nat := mkOrder 2 Bid Limit 100 7 0 2 Active None (Some 1%nat) 0]> ∅))
      = (lvl', σ') ∧
    is_queue σ' lvl' ([] ++ [2%nat]) ∧
    onext (σ' !!! 1%nat) = None ∧ oprev (σ' !!! 1%nat) = None ∧
    (lvl_head lvl' = None ↔ [] ++ [2%nat] = []) ∧
    Price lvl' = Price (mkLevel 100 (Some 1%nat) (Some 2%nat) 12) ∧
    TotalQty lvl' =
      i64 (TotalQty (mkLevel 100 (Some 1%nat) (Some 2%nat) 12)
           - oQty ((<[1%nat := mkOrder 1 Bid Limit 100 5 0 1 Inactive (Some 2%nat) None 0]>
                      (<[2%nat := mkOrder 2 Bid Limit 100 7 0 2 Active None (Some 1%nat) 0]> ∅)
                    : heap) !!! 1%nat)) ∧
    ∀ h, same_but_links (σ' !!! h)
           ((<[1%nat := mkOrder 1 Bid Limit 100 5 0 1 Inactive (Some 2%nat) None 0]>
               (<[2%nat := mkOrder 2 Bid Limit 100 7 0 2 Active None (Some 1%nat) 0]> ∅)
             : heap) !!! h).
Proof.
  apply (unlink_removes_one_order _ _ [] [2%nat] 1%nat).
  split.
  { apply NoDup_cons. split; [|apply NoDup_singleton].
    intros H. apply list_elem_of_singleton in H. discriminate H. }
  split; [reflexivity|]. split; [reflexivity|].
  simpl. split; [reflexivity|]. split; [reflexivity|].
  split; [reflexivity|]. split; [reflexivity|exact I].
Defined.

(** * The FOK pre-check *)

(** The opposite levels an order of [side] with limit [limit] can trade
    with, and the sum of their aggregate quantities. *)
Definition marketable (side : Side) (limit : Z) (b : OrderBook) : list PriceLevel :=
  match side with
  | Bid => filter (λ lvl, Price lvl ≤ limit) (levels (root (Asks b)))
  | Ask => filter (λ lvl, limit ≤ Price lvl) (reverse (levels (root (Bids b))))
  end.

Definition liquidity (l : list PriceLevel) : Z :=
  foldr (λ lvl s, TotalQty lvl + s) 0 l.

Lemma fold_stop_liquidity (stop : PriceLevel → bool) (desired : Z) L :
  StronglySorted (λ x y, stop x = true → stop y = true) L →
  ∀ acc,
    0 ≤ acc →
    Forall (λ lvl, 0 ≤ TotalQty lvl) (filter (λ lvl, stop lvl = false) L) →
    acc + liquidity (filter (λ lvl, stop lvl = false) L) < 2 ^ 63 →
    let r := fold_stop (λ lvl a,
                          if stop lvl then (false, a)
                          else let a' := i64 (a + TotalQty lvl) in
                               if desired <=? a' then (false, a') else (true, a'))
                       L acc in
    acc ≤ r ≤ acc + liquidity (filter (λ lvl, stop lvl = false) L) ∧
    (desired ≤ r ↔ desired ≤ acc + liquidity (filter (λ lvl, stop lvl = false) L)).
Proof.
  induction 1 as [|x L HL IH Hx]; intros acc Hacc Hnn Hbd.
  { simpl. lia. }
  cbn [fold_stop]. rewrite filter_cons in *.
  destruct (stop x) eqn:Ex.
  - destruct (decide (true = false)) as [?|_]; [done|].
    assert (filter (λ lvl, stop lvl = false) L = []) as ->.
    { clear -Hx Ex. induction L as [|y L IHL]; [done|].
      apply Forall_cons in Hx as [Hy Hx]. rewrite filter_cons.
      rewrite (Hy eq_refl). destruct (decide (true = false)); [done|]. by apply IHL. }
    simpl. lia.
  - destruct (decide (false = false)) as [_|?]; [|done].
    apply Forall_cons in Hnn as [Hx0 Hnn]. cbn [liquidity foldr] in Hbd.
    fold (liquidity (filter (λ lvl, stop lvl = false) L)) in Hbd.
    assert (Hliq : 0 ≤ liquidity (filter (λ lvl, stop lvl = false) L)).
    { clear -Hnn. induction Hnn as [|y l Hy _ IHl]; simpl; lia. }
    cbn zeta. rewrite i64_small by (unfold in_i64; lia).
    cbn [liquidity foldr]. fold (liquidity (filter (λ lvl, stop lvl = false) L)).
    destruct (desired <=? acc + TotalQty x) eqn:Ed.
    + apply Z.leb_le in Ed. lia.
    + apply Z.leb_gt in Ed.
      specialize (IH (acc + TotalQty x) ltac:(lia) Hnn ltac:(lia)).
      cbv zeta in IH. lia.
Qed.

Lemma StronglySorted_reverse {A} (R : relation A) l :
  StronglySorted R l → StronglySorted (flip R) (reverse l).
Proof.
  induction 1 as [|x l Hl IH Hx]; [constructor|].
  rewrite reverse_cons. apply StronglySorted_app_2; [|done|repeat constructor].
  intros y z Hy Hz. apply list_elem_of_singleton in Hz as ->.
  rewrite elem_of_reverse in Hy. rewrite Forall_forall in Hx. by apply Hx.
Qed.

Lemma StronglySorted_impl {A} (R1 R2 : relation A) l :
  (∀ x y, R1 x y → R2 x y) → StronglySorted R1 l → StronglySorted R2 l.
Proof.
  intros HR. induction 1 as [|x l Hl IH Hx]; constructor; [done|].
  eapply Forall_impl; [done|]. intros y. apply HR.
Qed.

Lemma levels_sorted t :
  index_ok t → StronglySorted (λ x y, Price x < Price y) (levels (root t)).
Proof.
  intros (_ & Hs & Hp). unfold levels.
  induction Hs as [|[k v] l Hl IH Hk]; [constructor|].
  apply Forall_cons in Hp as [Hkv Hp]. cbn [fmap list_fmap snd].
  constructor; [by apply IH|].
  rewrite Forall_forall in Hk, Hp. apply Forall_forall. intros y Hy.
  apply list_elem_of_fmap in Hy as ([k' v'] & -> & Hin).
  specialize (Hk _ Hin). specialize (Hp _ Hin). unfold kv_lt in Hk. simpl in *. lia.
Qed.

Lemma checkLiquidity_spec side limit desired b :
  index_ok (Bids b) → index_ok (Asks b) →
  Forall (λ lvl, 0 ≤ TotalQty lvl) (marketable side limit b) →
  liquidity (marketable side limit b) < 2 ^ 63 →
  ∃ available,
    checkLiquidity side limit desired b = Ok available ∧
    0 ≤ available ≤ liquidity (marketable side limit b) ∧
    (desired ≤ available ↔ desired ≤ liquidity (marketable side limit b)).
Proof.
  intros Hb Ha Hnn Hbd. unfold checkLiquidity. destruct side.
  - rewrite ForEachAscending_fold. eexists. split; [done|].
    assert (E : marketable Bid limit b
                = filter (λ lvl, (limit <? Price lvl) = false) (levels (root (Asks b)))).
    { unfold marketable. apply list_filter_iff. intros lvl. by rewrite Z.ltb_ge. }
    rewrite E in *.
    pose proof (fold_stop_liquidity (λ lvl, limit <? Price lvl) desired
                  (levels (root (Asks b)))) as H.
    cbv zeta in H. apply H; [|lia|done|lia].
    eapply StronglySorted_impl; [|by apply levels_sorted].
    intros x y Hxy. simpl in Hxy. rewrite !Z.ltb_lt. lia.
  - rewrite ForEachDescending_fold. eexists. split; [done|].
    assert (E : marketable Ask limit b
                = filter (λ lvl, (Price lvl <? limit) = false)
                         (reverse (levels (root (Bids b))))).
    { unfold marketable. apply list_filter_iff. intros lvl. by rewrite Z.ltb_ge. }
    rewrite E in *.
    pose proof (fold_stop_liquidity (λ lvl, Price lvl <? limit) desired
                  (reverse (levels (root (Bids b))))) as H.
    cbv zeta in H. apply H; [|lia|done|lia].
    eapply StronglySorted_impl; [|apply StronglySorted_reverse; by apply levels_sorted].
    intros x y Hxy. unfold flip in Hxy. simpl in Hxy. rewrite !Z.ltb_lt. lia.
Qed.

(** * Placements and cancels: what they leave alone *)

(** The fields that identify an order; no operation but the placement that
    acquires the order writes them. *)
Definition same_ident (a b : Order) : Prop :=
  oID a = oID b ∧ oSide a = oSide b ∧ oType a = oType b ∧ oPrice a = oPrice b ∧
  oSeqID a = oSeqID b.

Lemma same_ident_refl a : same_ident a a.
Proof. by repeat split. Qed.

Lemma same_ident_trans a b c : same_ident a b → same_ident b c → same_ident a c.
Proof. unfold same_ident. intuition congruence. Qed.

Lemma same_but_links_ident a b : same_but_links a b → same_ident a b.
Proof. unfold same_but_links, same_ident. tauto. Qed.

Lemma same_ident_upd a f (σ : heap) h :
  (∀ r, same_ident (f r) r) → same_ident (upd a f σ !!! h) (σ !!! h).
Proof.
  intros Hf. destruct (decide (a = h)) as [->|Hne].
  - rewrite upd_lookup. apply Hf.
  - rewrite upd_lookup_ne by done. apply same_ident_refl.
Qed.

Lemma unlink_same lvl o σ h :
  same_but_links ((unlinkAlreadyInactive lvl o σ).2 !!! h) (σ !!! h).
Proof.
  rewrite (unlink_eq lvl o σ _ _ eq_refl eq_refl). cbv zeta. cbn [snd].
  eapply same_but_links_trans; [apply same_but_links_upd; by intros r|].
  destruct (onext (σ !!! o)), (oprev (σ !!! o)).
  - eapply same_but_links_trans; apply same_but_links_upd; by intros r.
  - apply same_but_links_upd; by intros r.
  - apply same_but_links_upd; by intros r.
  - apply same_but_links_refl.
Qed.

Lemma Level_Enqueue_same lvl o σ h :
  same_but_links ((Level_Enqueue lvl o σ).2 !!! h) (σ !!! h).
Proof.
  unfold Level_Enqueue. destruct (lvl_tail lvl); cbn [snd].
  - eapply same_but_links_trans; apply same_but_links_upd; by intros r.
  - apply same_but_links_refl.
Qed.

Lemma writeLevel_from_elements k lvl : ∀ n,
  (elements (writeLevel_from n k lvl)).*1 = (elements n).*1.
Proof.
  induction n as [|c l IHl xk xv r IHr]; [done|]. cbn [writeLevel_from].
  destruct (k <? xk); [|destruct (xk <? k)]; cbn [elements];
    rewrite !fmap_app, !fmap_cons; cbn [fst]; by rewrite ?IHl, ?IHr.
Qed.

Lemma writeLevel_keys t k lvl : keys (root (writeLevel t k lvl)) = keys (root t).
Proof. apply writeLevel_from_elements. Qed.

Lemma DeleteLevel_keys t k b t' :
  DeleteLevel t k = Ok (b, t') → ∀ x, x ∈ keys (root t') → x ∈ keys (root t).
Proof.
  intros H x. destruct (DeleteLevel_spec _ _ _ _ H)
    as [(_ & -> & _)|(_ & l1 & v & l2 & _ & E1 & E2)]; [done|].
  unfold keys. rewrite E1, E2, !fmap_app, !elem_of_app. simpl.
  rewrite elem_of_cons. tauto.
Qed.

Lemma UpsertLevel_keys t k lvl t' :
  index_ok t → UpsertLevel t k = Ok (lvl, t') →
  ∀ x, x ∈ keys (root t') ↔ x = k ∨ x ∈ keys (root t).
Proof.
  intros Hi H x.
  destruct (UpsertLevel_spec _ _ _ _ (index_ok_sorted _ Hi) H)
    as [[Hf ->]|(_ & _ & l1 & l2 & E1 & E2 & _)].
  - split; [by right|]. intros [->|?]; [|done].
    apply FindLevel_from_Some in Hf. unfold keys.
    apply list_elem_of_fmap. by exists (k, lvl).
  - unfold keys. rewrite E1, E2, !fmap_app, !elem_of_app. simpl.
    rewrite elem_of_cons. tauto.
Qed.

Lemma side_tree_set_same s t b : side_tree s (set_side_tree s t b) = t.
Proof. by destruct s. Qed.

Lemma side_tree_set_opposite s t b :
  side_tree (opposite s) (set_side_tree s t b) = side_tree (opposite s) b.
Proof. by destruct s. Qed.

Lemma LastSeq_set_side_tree s t b : LastSeq (set_side_tree s t b) = LastSeq b.
Proof. by destruct s. Qed.

(** A cancel does not touch the other side of the book, adds no price to
    its own side, and writes only Status, retireEpoch and links. *)
Lemma cancelOrder_frame price o side e e' :
  cancelOrder price o side e = Ok e' →
  side_tree (opposite side) (book e') = side_tree (opposite side) (book e) ∧
  (∀ x, x ∈ keys (root (side_tree side (book e'))) →
        x ∈ keys (root (side_tree side (book e)))) ∧
  LastSeq (book e') = LastSeq (book e) ∧ globalEpoch e' = globalEpoch e ∧
  (∀ h, same_ident (orders e' !!! h) (orders e !!! h)) ∧
  oStatus (orders e' !!! o) = Inactive ∧
  oretireEpoch (orders e' !!! o) = globalEpoch e ∧
  (∀ h, h ≠ o → oStatus (orders e' !!! h) = oStatus (orders e !!! h)).
Proof.
  unfold cancelOrder. cbv zeta. intros H.
  apply bind_Ok in H as ([t' σ3] & Ht & H).
  apply bind_Ok in H as ([ok q'] & Hq & H).
  destruct ok; [|done]. injection H as <-. cbn [book orders globalEpoch].
  rewrite side_tree_set_opposite, side_tree_set_same, LastSeq_set_side_tree.
  split; [done|].
  set (σ2 := upd o (set_retireEpoch (globalEpoch e)) (upd o (set_Status Inactive) (orders e))) in *.
  assert (Hσ2 : ∀ h, same_ident (σ2 !!! h) (orders e !!! h)).
  { intros h. eapply same_ident_trans; apply same_ident_upd; by intros r. }
  assert (Hst2 : oStatus (σ2 !!! o) = Inactive ∧ oretireEpoch (σ2 !!! o) = globalEpoch e ∧
                 ∀ h, h ≠ o → oStatus (σ2 !!! h) = oStatus (orders e !!! h)).
  { unfold σ2. rewrite !upd_lookup. split; [done|]. split; [done|].
    intros h Hh. by rewrite !upd_lookup_ne. }
  assert (Hgoal : (∀ x, x ∈ keys (root t') → x ∈ keys (root (side_tree side (book e)))) ∧
                  ∀ h, same_but_links (σ3 !!! h) (σ2 !!! h)).
  { destruct (FindLevel (side_tree side (book e)) price) as [lvl|].
    - pose proof (unlink_same lvl o σ2) as Hsame.
      destruct (unlinkAlreadyInactive lvl o σ2) as [lvl' σ']. cbn [snd] in Hsame.
      destruct (lvl_head lvl').
      + injection Ht as <- <-. split; [|done]. intros x. by rewrite writeLevel_keys.
      + apply bind_Ok in Ht as ([b t2] & Hd & Ht). injection Ht as <- <-.
        split; [|done]. intros x Hx.
        apply (DeleteLevel_keys _ _ _ _ Hd) in Hx. by rewrite writeLevel_keys in Hx.
    - injection Ht as <- <-. split; [done|]. intros h. apply same_but_links_refl. }
  destruct Hgoal as [Hk Hs]. split; [done|]. split; [done|]. split; [done|].
  destruct Hst2 as (H1 & H2 & H3).
  split; [|split; [|split]].
  - intros h. eapply same_ident_trans; [apply same_but_links_ident, Hs|apply Hσ2].
  - destruct (Hs o) as (_ & _ & _ & _ & _ & _ & _ & -> & _). done.
  - destruct (Hs o) as (_ & _ & _ & _ & _ & _ & _ & _ & ->). done.
  - intros h Hh. destruct (Hs h) as (_ & _ & _ & _ & _ & _ & _ & -> & _). by apply H3.
Qed.

Lemma opposite_involutive s : opposite (opposite s) = s.
Proof. by destruct s. Qed.

(** Why the loop of [match] stops without a panic: the incoming order has
    nothing left, or the opposite side is empty, or the best opposite price
    is beyond the limit of an order that is not a Market order. *)
Definition match_exit (side : Side) (o : handle) (e : Engine) : Prop :=
  oQty (orders e !!! o) ≤ 0 ∨
  match side with
  | Bid =>
      match MinLevel (Asks (book e)) with
      | None => True
      | Some best =>
          oType (orders e !!! o) ≠ Market ∧ oPrice (orders e !!! o) < Price best
      end
  | Ask =>
      match MaxLevel (Bids (book e)) with
      | None => True
      | Some best =>
          oType (orders e !!! o) ≠ Market ∧ Price best < oPrice (orders e !!! o)
      end
  end.

Lemma match_loop_post : ∀ fuel side o filled e l m e',
  engine_ok e → ring_wf (rq e) l →
  (Z.to_nat (ring_cap (rq e)) - length l < fuel)%nat →
  match_loop fuel side o filled e = Ok (m, e') →
  side_tree side (book e') = side_tree side (book e) ∧
  (∀ x, x ∈ keys (root (side_tree (opposite side) (book e'))) →
        x ∈ keys (root (side_tree (opposite side) (book e)))) ∧
  LastSeq (book e') = LastSeq (book e) ∧ globalEpoch e' = globalEpoch e ∧
  (∀ h, same_ident (orders e' !!! h) (orders e !!! h)) ∧
  match_exit side o e'.
Proof.
  induction fuel as [|fuel IH]; intros side o filled e l m e' He Hwf Hfuel; [lia|].
  cbn [match_loop]. destruct (0 <? oQty (orders e !!! o)) eqn:Hpos.
  2:{ intros [= <- <-]. apply Z.ltb_ge in Hpos.
      split; [done|]. split; [done|]. split; [done|]. split; [done|].
      split; [intros h; apply same_ident_refl|]. by left. }
  apply Z.ltb_lt in Hpos.
  pose proof (best_head side e) as Hbest.
  destruct (match side with
            | Bid => MinLevel (Asks (book e))
            | Ask => MaxLevel (Bids (book e))
            end) as [best|] eqn:Ebest.
  2:{ intros [= <- <-].
      split; [done|]. split; [done|]. split; [done|]. split; [done|].
      split; [intros h; apply same_ident_refl|]. right.
      destruct side; by rewrite Ebest. }
  specialize (Hbest best He eq_refl).
  destruct (bool_decide (oType (orders e !!! o) ≠ Market) &&
            match side with
            | Bid => oPrice (orders e !!! o) <? Price best
            | Ask => Price best <? oPrice (orders e !!! o)
            end) eqn:Estop.
  { intros [= <- <-].
    split; [done|]. split; [done|]. split; [done|]. split; [done|].
    split; [intros h; apply same_ident_refl|]. right.
    apply andb_true_iff in Estop as [Ht Hp]. apply bool_decide_eq_true in Ht.
    destruct side; rewrite Ebest; (split; [done|]); by apply Z.ltb_lt. }
  destruct (lvl_head best) as [head|]; [|done].
  pose proof He as (_ & _ & _ & _ & Hσ).
  destruct (trade_progress (orders e) o head Hσ Hpos) as [Hσ2 Hprog].
  cbv zeta in Hσ2, Hprog. cbv zeta.
  set (σ2 := upd head _ _) in *.
  assert (Hid2 : ∀ h, same_ident (σ2 !!! h) (orders e !!! h)).
  { intros h. eapply same_ident_trans; apply same_ident_upd; by intros r. }
  destruct (oQty (σ2 !!! head) =? 0) eqn:Ez.
  - pose proof (cancelOrder_ok (Price best) head (opposite side) (set_orders σ2 e) l
                  (engine_ok_set_orders _ _ He Hσ2) Hwf) as Hc.
    destruct (cancelOrder _ _ _ _) as [e1|f] eqn:Ec; [|done].
    destruct Hc as (He1 & Hwf1 & Hpool & Hcap & _).
    cbn [mbind Result_bind]. intros Hrun.
    pose proof (ring_contents_length _ _ Hwf1) as Hlen. rewrite length_app in Hlen.
    simpl in Hlen, Hcap.
    assert (Hfuel1 : (Z.to_nat (ring_cap (rq e1)) - length (l ++ [head]) < fuel)%nat).
    { rewrite length_app. simpl. lia. }
    destruct (IH side o _ e1 (l ++ [head]) m e' He1 Hwf1 Hfuel1 Hrun)
      as (H1 & H2 & H3 & H4 & H5 & H6).
    destruct (cancelOrder_frame _ _ _ _ _ Ec) as (F1 & F2 & F3 & F4 & F5 & _).
    rewrite opposite_involutive in F1. cbn [book set_orders globalEpoch orders] in *.
    split; [by rewrite H1|]. split; [by intros x Hx; apply F2, H2|].
    split; [by rewrite H3|]. split; [by rewrite H4|]. split; [|done].
    intros h. eapply same_ident_trans; [apply H5|].
    eapply same_ident_trans; [apply F5|apply Hid2].
  - apply Z.eqb_neq in Ez. cbn [mbind Result_bind].
    rewrite match_loop_exit by (by apply Hprog). intros [= <- <-].
    cbn [book set_orders globalEpoch orders].
    split; [done|]. split; [done|]. split; [done|]. split; [done|]. split; [done|].
    left. cbn [orders set_orders]. by apply Hprog.
Qed.

Lemma Level_Enqueue_tail lvl o σ : lvl_tail (Level_Enqueue lvl o σ).1 = Some o.
Proof. unfold Level_Enqueue. by destruct (lvl_tail lvl). Qed.

Lemma UpsertLevel_find t k lvl t' :
  index_ok t → UpsertLevel t k = Ok (lvl, t') →
  index_ok t' ∧ FindLevel t' k = Some lvl ∧ Price lvl = k.
Proof.
  intros Hi H. destruct (UpsertLevel_ok t k Hi) as (lvl0 & t0 & H0 & Hi' & Hcase).
  rewrite H in H0. injection H0 as <- <-. split; [done|].
  assert (Hf : FindLevel t' k = Some lvl).
  { destruct Hcase as [[Hf ->]|(_ & _ & l1 & l2 & _ & E2)]; [done|].
    apply FindLevel_from_elem; [by apply index_ok_sorted|].
    rewrite E2. apply elem_of_app. right. by apply elem_of_cons; left. }
  split; [done|]. by apply (index_ok_Price t').
Qed.

(** [enqueue] rests the order at the tail of the level of its price on its
    own side, creating the level when the price is new; it touches nothing
    else of the book. *)
Lemma enqueue_post o e e' :
  engine_ok e → enqueue o e = Ok e' →
  let s := oSide (orders e !!! o) in
  let p := oPrice (orders e !!! o) in
  side_tree (opposite s) (book e') = side_tree (opposite s) (book e) ∧
  (∀ x, x ∈ keys (root (side_tree s (book e'))) ↔
        x = p ∨ x ∈ keys (root (side_tree s (book e)))) ∧
  LastSeq (book e') = LastSeq (book e) ∧ globalEpoch e' = globalEpoch e ∧
  rq e' = rq e ∧ pool e' = pool e ∧
  (∀ h, same_but_links (orders e' !!! h) (orders e !!! h)) ∧
  ∃ lvl, FindLevel (side_tree s (book e')) p = Some lvl ∧ lvl_tail lvl = Some o.
Proof.
  intros (Hb & Ha & _) H. cbv zeta. unfold enqueue in H. cbv zeta in H.
  set (s := oSide (orders e !!! o)) in *. set (p := oPrice (orders e !!! o)) in *.
  apply bind_Ok in H as ([lvl t1] & HU & H).
  pose proof (Level_Enqueue_same lvl o (orders e)) as Hsame.
  pose proof (Level_Enqueue_tail lvl o (orders e)) as Htail.
  destruct (Level_Enqueue_spec lvl o (orders e)) as (Hprice & _ & _).
  destruct (Level_Enqueue lvl o (orders e)) as [lvl' σ']. cbn [fst snd] in *.
  injection H as <-. cbn [book set_orders set_book orders globalEpoch rq pool].
  rewrite side_tree_set_opposite, side_tree_set_same, LastSeq_set_side_tree.
  destruct (side_tree_ok s _ Hb Ha) as [Hi _].
  destruct (UpsertLevel_find _ _ _ _ Hi HU) as (Hi1 & Hf1 & Hp1).
  split; [done|]. split.
  { intros x. rewrite writeLevel_keys. by apply (UpsertLevel_keys _ _ lvl). }
  split; [done|]. split; [done|]. split; [done|]. split; [done|]. split; [done|].
  exists lvl'. split; [|done].
  destruct (writeLevel_ok t1 p lvl lvl' Hi1 Hf1 ltac:(congruence)) as (_ & _ & _ & _ & _ & Hf).
  done.
Qed.

Lemma retire_unchecked_post o e e' :
  retire_unchecked o e = Ok e' →
  book e' = book e ∧ globalEpoch e' = globalEpoch e ∧ pool e' = pool e ∧
  oStatus (orders e' !!! o) = Inactive ∧
  (∀ h, h ≠ o → orders e' !!! h = orders e !!! h) ∧
  (∀ h, same_ident (orders e' !!! h) (orders e !!! h)) ∧
  (∀ h, oQty (orders e' !!! h) = oQty (orders e !!! h)) ∧
  (∀ h, oFilled (orders e' !!! h) = oFilled (orders e !!! h)).
Proof.
  unfold retire_unchecked. cbv zeta. intros H.
  apply bind_Ok in H as ([b q'] & _ & H). injection H as <-.
  cbn [book set_rq set_orders orders globalEpoch pool]. rewrite upd_lookup.
  split; [done|]. split; [done|]. split; [done|]. split; [done|].
  split; [|split; [|split]].
  - intros h Hh. by rewrite upd_lookup_ne.
  - intros h. apply same_ident_upd. by intros r.
  - intros h. by rewrite oQty_upd.
  - intros h. destruct (decide (o = h)) as [->|Hne].
    + by rewrite upd_lookup.
    + by rewrite upd_lookup_ne.
Qed.

(** The record that [placeOrder] writes into the order it acquired. *)
Definition placed_order (id : Z) (side : Side) (otype : OrderType)
           (price qty seq : Z) : Order :=
  mkOrder id side otype (if decide (otype = Market) then 0 else price)
          qty 0 seq Active None None 0.

Lemma placeOrder_cases side otype price id qty seq e o e' :
  pool_wf (pool e) →
  placeOrder side otype price id qty seq e = Ok (o, e') →
  let ord := placed_order id side otype price qty seq in
  let e2 := mkEngine (<[o := ord]> (orders e))
                     (mkPool (store (pool e)) (top (pool e) - 1))
                     (rq e) (mkBook (Bids (book e)) (Asks (book e)) seq)
                     (globalEpoch e) in
  top (pool e) ≠ 0%nat ∧ store (pool e) !! (top (pool e) - 1)%nat = Some o ∧
  ((otype = FOK ∧
    (∃ available, checkLiquidity side price qty (book e2) = Ok available ∧
                  available < qty) ∧
    retire_unchecked o e2 = Ok e')
   ∨
   ((otype = FOK →
     ∃ available, checkLiquidity side price qty (book e2) = Ok available ∧
                  qty ≤ available) ∧
    ∃ matched e3,
      match_loop (S (length (buf (rq e)))) side o 0 e2 = Ok (matched, e3) ∧
      let e4 := set_orders (upd o (set_Filled matched) (orders e3)) e3 in
      match oType (orders e3 !!! o) with
      | Limit =>
          if 0 <? oQty (orders e3 !!! o) then enqueue o e4 = Ok e' else e' = e4
      | PostOnly =>
          if 0 <? matched then retire_unchecked o e4 = Ok e'
          else if 0 <? oQty (orders e3 !!! o) then enqueue o e4 = Ok e'
          else e' = e4
      | _ =>
          if 0 <? oQty (orders e3 !!! o) then retire_unchecked o e4 = Ok e'
          else e' = e4
      end)).
Proof.
  intros Hp H. cbv zeta. unfold placeOrder in H.
  destruct (Get_ok (pool e) (orders e) Hp) as [[_ HG]|(o0 & HG & Htop)];
    rewrite HG in H; cbn [mbind Result_bind] in H; [done|].
  assert (Hlk : store (pool e) !! (top (pool e) - 1)%nat = Some o0).
  { unfold Get in HG. rewrite (proj2 (Nat.eqb_neq _ _) Htop) in HG.
    destruct (store (pool e) !! (top (pool e) - 1)%nat); [|done]. by simplify_eq. }
  cbv zeta in H.
  set (σ1 := <[o0:=_]> (<[o0:=zeroOrder]> (orders e))) in H.
  set (σ2 := if bool_decide (oType (σ1 !!! o0) = Market) then _ else σ1) in H.
  assert (Eσ2 : σ2 = <[o0 := placed_order id side otype price qty seq]> (orders e)).
  { unfold σ2, σ1, placed_order. rewrite lookup_total_insert_eq. cbn [oType].
    rewrite insert_insert_eq.
    destruct (decide (otype = Market)) as [->|Hne].
    - rewrite bool_decide_eq_true_2 by done. unfold upd.
      rewrite lookup_total_insert_eq, insert_insert_eq. done.
    - by rewrite bool_decide_eq_false_2 by done. }
  clearbody σ2. subst σ2. clear σ1.
  rewrite !lookup_total_insert_eq in H.
  assert (Eprice : otype = FOK → oPrice (placed_order id side otype price qty seq) = price).
  { intros ->. done. }
  cbn [oType oQty placed_order] in H. fold (placed_order id side otype price qty seq) in H.
  set (e2 := mkEngine _ _ _ _ _) in H.
  apply bind_Ok in H as (rejected & Hrej & H).
  destruct rejected.
  - apply bind_Ok in H as (e3 & Hret & H). injection H as <- <-.
    split; [done|]. split; [done|]. left.
    destruct (bool_decide (otype = FOK)) eqn:Ef; [|done].
    apply bool_decide_eq_true in Ef. split; [done|].
    apply bind_Ok in Hrej as (a & Hc & Hrej). injection Hrej as Hlt.
    apply Z.ltb_lt in Hlt. rewrite (Eprice Ef) in Hc.
    split; [by exists a|done].
  - apply bind_Ok in H as ([matched e3] & Hm & H).
    apply bind_Ok in H as (e5 & Hd & H). injection H as <- <-.
    split; [done|]. split; [done|]. right. split.
    { intros Ef. rewrite bool_decide_eq_true_2 in Hrej by done.
      apply bind_Ok in Hrej as (a & Hc & Hrej). injection Hrej as Hlt.
      apply Z.ltb_ge in Hlt. rewrite (Eprice Ef) in Hc. by exists a. }
    exists matched, e3. unfold match_ in Hm.
    cbn [orders e2 rq] in Hm. rewrite lookup_total_insert_eq in Hm.
    cbn [oSide placed_order] in Hm. split; [done|].
    cbn [orders set_orders] in Hd. rewrite upd_lookup in Hd.
    cbn [oType oQty set_Filled] in Hd.
    destruct (oType (orders e3 !!! o0)); repeat case_match; by simplify_eq.
Qed.

(** * The book is never crossed *)

Lemma MinLevel_least t :
  index_ok t →
  match MinLevel t with
  | None => keys (root t) = []
  | Some lo => ∀ k, k ∈ keys (root t) → Price lo ≤ k
  end.
Proof.
  intros Hi. pose proof (index_ok_sorted _ Hi) as Hs.
  destruct Hi as (_ & _ & Hp). rewrite Forall_forall in Hp.
  rewrite MinLevel_head. unfold keys.
  destruct (head (elements (root t))) as [[k0 lo]|] eqn:E; simpl.
  - assert (Hin : (k0, lo) ∈ elements (root t)).
    { destruct (elements (root t)); simplify_eq/=. by apply elem_of_cons; left. }
    pose proof (Hp _ Hin) as Hk. simpl in Hk. rewrite Hk.
    intros k Hk'. apply list_elem_of_fmap in Hk' as (e & -> & He).
    apply (sorted_head_least _ _ Hs E _ He).
  - apply head_None in E. by rewrite E.
Qed.

Lemma MaxLevel_greatest t :
  index_ok t →
  match MaxLevel t with
  | None => keys (root t) = []
  | Some hi => ∀ k, k ∈ keys (root t) → k ≤ Price hi
  end.
Proof.
  intros Hi. pose proof (index_ok_sorted _ Hi) as Hs.
  destruct Hi as (_ & _ & Hp). rewrite Forall_forall in Hp.
  rewrite MaxLevel_last. unfold keys.
  destruct (last (elements (root t))) as [[k0 hi]|] eqn:E; simpl.
  - assert (Hin : (k0, hi) ∈ elements (root t)).
    { apply last_Some in E as [l' ->]. apply elem_of_app. right.
      by apply list_elem_of_singleton. }
    pose proof (Hp _ Hin) as Hk. simpl in Hk. rewrite Hk.
    intros k Hk'. apply list_elem_of_fmap in Hk' as (e & -> & He).
    apply (sorted_last_greatest _ _ Hs E _ He).
  - apply last_None in E. by rewrite E.
Qed.

(** Every bid price is below every ask price. *)
Definition uncrossed (b : OrderBook) : Prop :=
  ∀ pb pa, pb ∈ keys (root (Bids b)) → pa ∈ keys (root (Asks b)) → pb < pa.

Lemma uncrossed_sides b b' :
  (∀ x, x ∈ keys (root (Bids b')) → x ∈ keys (root (Bids b))) →
  (∀ x, x ∈ keys (root (Asks b')) → x ∈ keys (root (Asks b))) →
  uncrossed b → uncrossed b'.
Proof. intros Hb Ha H pb pa Hpb Hpa. apply H; auto. Qed.

Lemma uncrossed_shrink side b b' :
  side_tree side b' = side_tree side b →
  (∀ x, x ∈ keys (root (side_tree (opposite side) b')) →
        x ∈ keys (root (side_tree (opposite side) b))) →
  uncrossed b → uncrossed b'.
Proof.
  intros Hs Ho. apply uncrossed_sides; destruct side; simpl in *;
    try (by rewrite Hs); done.
Qed.

Lemma match_exit_unmarketable side o e x :
  engine_ok e → match_exit side o e → 0 < oQty (orders e !!! o) →
  x ∈ keys (root (side_tree (opposite side) (book e))) →
  match side with
  | Bid => oPrice (orders e !!! o) < x
  | Ask => x < oPrice (orders e !!! o)
  end.
Proof.
  intros ([Hb _] & [Ha _] & _) [Hq|Hex] Hpos Hx; [lia|].
  destruct side; simpl in Hx.
  - pose proof (MinLevel_least _ Ha) as Hmin.
    destruct (MinLevel (Asks (book e))) as [best|].
    + destruct Hex as [_ Hlt]. specialize (Hmin _ Hx). lia.
    + rewrite Hmin in Hx. by apply elem_of_nil in Hx.
  - pose proof (MaxLevel_greatest _ Hb) as Hmax.
    destruct (MaxLevel (Bids (book e))) as [best|].
    + destruct Hex as [_ Hlt]. specialize (Hmax _ Hx). lia.
    + rewrite Hmax in Hx. by apply elem_of_nil in Hx.
Qed.

Lemma same_ident_sym a b : same_ident a b → same_ident b a.
Proof. unfold same_ident. intuition congruence. Qed.

(** What a placement that returns has done to the book and to the order it
    returns. *)
Lemma placeOrder_post side otype price id qty seq e o e' :
  engine_ok e → in_i64 qty →
  placeOrder side otype price id qty seq e = Ok (o, e') →
  let r := orders e' !!! o in
  LastSeq (book e') = seq ∧ globalEpoch e' = globalEpoch e ∧
  same_ident r (placed_order id side otype price qty seq) ∧
  (∀ x, x ∈ keys (root (side_tree (opposite side) (book e'))) →
        x ∈ keys (root (side_tree (opposite side) (book e)))) ∧
  ((side_tree side (book e') = side_tree side (book e) ∧
    (0 < oQty r → oStatus r = Inactive) ∧
    (otype = Limit → oQty r ≤ 0) ∧
    (otype = PostOnly → oQty r ≤ 0 ∨ 0 < oFilled r) ∧
    (otype = PostOnly → 0 < oFilled r → oStatus r = Inactive))
   ∨
   ((otype = Limit ∨ otype = PostOnly ∧ oFilled r ≤ 0) ∧ 0 < oQty r ∧
    (∀ x, x ∈ keys (root (side_tree side (book e'))) ↔
          x = price ∨ x ∈ keys (root (side_tree side (book e)))) ∧
    (∃ lvl, FindLevel (side_tree side (book e')) price = Some lvl ∧
            lvl_tail lvl = Some o) ∧
    (∀ x, x ∈ keys (root (side_tree (opposite side) (book e'))) →
          match side with Bid => price < x | Ask => x < price end))).
Proof.
  intros He Hqty H. pose proof He as (Hb & Ha & [l Hwf] & Hp & Hσ).
  destruct (placeOrder_cases _ _ _ _ _ _ _ _ _ Hp H) as (Htop & Hlk & Hcase).
  cbv zeta in Hcase. cbv zeta.
  set (ord := placed_order id side otype price qty seq) in *.
  set (e2 := mkEngine _ _ _ _ _) in *.
  assert (He2 : engine_ok e2).
  { unfold engine_ok, e2. cbn [book orders pool rq Bids Asks].
    split; [done|]. split; [done|]. split; [by exists l|]. split.
    - unfold pool_wf in *. simpl. lia.
    - intros h. destruct (decide (o = h)) as [->|Hne].
      + by rewrite lookup_total_insert_eq.
      + rewrite lookup_total_insert_ne by done. apply Hσ. }
  assert (Hs2 : ∀ s, side_tree s (book e2) = side_tree s (book e)) by (by intros []).
  destruct Hcase as [(-> & _ & Hret)|(_ & matched & e3 & Hm & Hd)].
  { (* FOK rejected *)
    destruct (retire_unchecked_post _ _ _ Hret) as (Hbk & Hep & _ & Hst & _ & Hid & _).
    rewrite Hbk. split; [done|]. split; [done|]. split.
    { eapply same_ident_trans; [apply Hid|]. unfold e2. cbn [orders].
      rewrite lookup_total_insert_eq. apply same_ident_refl. }
    split; [by intros x; rewrite Hs2|]. left. rewrite Hs2.
    split; [done|]. split; [done|]. split; [done|]. split; done. }
  assert (Hfuel : (Z.to_nat (ring_cap (rq e2)) - length l < S (length (buf (rq e))))%nat).
  { unfold ring_cap, e2. cbn [rq]. lia. }
  pose proof (match_loop_ok _ side o 0 e2 l He2 Hwf Hfuel) as Hok.
  rewrite Hm in Hok. destruct Hok as [He3 _].
  destruct (match_loop_post _ _ _ _ _ _ _ _ He2 Hwf Hfuel Hm)
    as (M1 & M2 & M3 & M4 & M5 & M6).
  rewrite Hs2 in M1. setoid_rewrite Hs2 in M2.
  cbv zeta in Hd.
  set (e4 := set_orders _ e3) in *.
  assert (He4 : engine_ok e4).
  { apply engine_ok_set_orders; [done|].
    destruct He3 as (_ & _ & _ & _ & Hσ3).
    intros h. rewrite oQty_upd by done. apply Hσ3. }
  assert (Hord3 : same_ident (orders e3 !!! o) ord).
  { eapply same_ident_trans; [apply M5|]. unfold e2. cbn [orders].
    rewrite lookup_total_insert_eq. apply same_ident_refl. }
  assert (Hord4 : same_ident (orders e4 !!! o) ord).
  { unfold e4. cbn [orders set_orders]. rewrite upd_lookup.
    eapply same_ident_trans; [|apply Hord3]. done. }
  assert (Hq4 : oQty (orders e4 !!! o) = oQty (orders e3 !!! o) ∧
                oFilled (orders e4 !!! o) = matched ∧
                oStatus (orders e4 !!! o) = oStatus (orders e3 !!! o)).
  { unfold e4. cbn [orders set_orders]. by rewrite upd_lookup. }
  destruct Hq4 as (Hq4 & Hf4 & Hst4).
  assert (Htype : oType (orders e3 !!! o) = otype).
  { destruct Hord3 as (_ & _ & -> & _). done. }
  assert (Hseq : LastSeq (book e4) = seq ∧ globalEpoch e4 = globalEpoch e).
  { unfold e4. cbn [book set_orders globalEpoch]. by rewrite M3, M4. }
  destruct Hseq as [Hseq Hep].
  (* the three ways a placement ends *)
  assert (Hstay : e' = e4 → oQty (orders e3 !!! o) ≤ 0 ∨ (otype = PostOnly ∧ False) →
          LastSeq (book e') = seq ∧ globalEpoch e' = globalEpoch e ∧
          same_ident (orders e' !!! o) ord ∧
          (∀ x, x ∈ keys (root (side_tree (opposite side) (book e'))) →
                x ∈ keys (root (side_tree (opposite side) (book e)))) ∧
          side_tree side (book e') = side_tree side (book e) ∧
          (0 < oQty (orders e' !!! o) → oStatus (orders e' !!! o) = Inactive) ∧
          oQty (orders e' !!! o) ≤ 0 ∧ oFilled (orders e' !!! o) = matched).
  { intros -> [Hle|[_ []]]. rewrite Hq4.
    split; [done|]. split; [done|]. split; [done|]. split; [done|].
    split; [done|]. split; [lia|done]. }
  assert (Hretire : retire_unchecked o e4 = Ok e' →
          LastSeq (book e') = seq ∧ globalEpoch e' = globalEpoch e ∧
          same_ident (orders e' !!! o) ord ∧
          (∀ x, x ∈ keys (root (side_tree (opposite side) (book e'))) →
                x ∈ keys (root (side_tree (opposite side) (book e)))) ∧
          side_tree side (book e') = side_tree side (book e) ∧
          oStatus (orders e' !!! o) = Inactive ∧
          oQty (orders e' !!! o) = oQty (orders e3 !!! o) ∧
          oFilled (orders e' !!! o) = matched).
  { intros Hret.
    destruct (retire_unchecked_post _ _ _ Hret) as (Hbk & Hep' & _ & Hst & _ & Hid & HQ & HF).
    rewrite Hbk, Hep', HQ, HF.
    split; [done|]. split; [done|].
    split; [eapply same_ident_trans; [apply Hid|done]|]. done. }
  assert (Henq : enqueue o e4 = Ok e' → 0 < oQty (orders e3 !!! o) →
          otype ≠ Market →
          LastSeq (book e') = seq ∧ globalEpoch e' = globalEpoch e ∧
          same_ident (orders e' !!! o) ord ∧
          (∀ x, x ∈ keys (root (side_tree (opposite side) (book e'))) →
                x ∈ keys (root (side_tree (opposite side) (book e)))) ∧
          oQty (orders e' !!! o) = oQty (orders e3 !!! o) ∧
          oFilled (orders e' !!! o) = matched ∧
          (∀ x, x ∈ keys (root (side_tree side (book e'))) ↔
                x = price ∨ x ∈ keys (root (side_tree side (book e)))) ∧
          (∃ lvl, FindLevel (side_tree side (book e')) price = Some lvl ∧
                  lvl_tail lvl = Some o) ∧
          (∀ x, x ∈ keys (root (side_tree (opposite side) (book e'))) →
                match side with Bid => price < x | Ask => x < price end)).
  { intros Henq Hpos Hnm.
    pose proof (enqueue_post _ _ _ He4 Henq) as Hpost. cbv zeta in Hpost.
    assert (Es : oSide (orders e4 !!! o) = side).
    { destruct Hord4 as (_ & -> & _). done. }
    assert (Ep : oPrice (orders e4 !!! o) = price).
    { destruct Hord4 as (_ & _ & _ & -> & _). unfold ord, placed_order. simpl.
      by destruct (decide (otype = Market)). }
    rewrite Es, Ep in Hpost.
    destruct Hpost as (P1 & P2 & P3 & P4 & _ & _ & P5 & P6).
    unfold e4 in P1, P2. cbn [book set_orders] in P1, P2.
    rewrite P3, P4. split; [done|]. split; [done|].
    split.
    { eapply same_ident_trans; [apply same_but_links_ident, P5|done]. }
    split; [intros x; rewrite P1; apply M2|].
    destruct (P5 o) as (_ & _ & _ & _ & -> & -> & _).
    split; [done|]. split; [done|].
    split; [intros x; rewrite P2, M1; done|]. split; [done|].
    intros x. rewrite P1. intros Hx.
    pose proof (match_exit_unmarketable side o e3 x He3 M6 Hpos Hx) as Hlt.
    assert (Ep3 : oPrice (orders e3 !!! o) = price).
    { destruct Hord3 as (_ & _ & _ & -> & _). unfold ord, placed_order. simpl.
      by destruct (decide (otype = Market)). }
    by rewrite Ep3 in Hlt. }
  rewrite Htype in Hd.
  destruct otype.
  - (* Limit *)
    destruct (0 <? oQty (orders e3 !!! o)) eqn:Eq.
    + apply Z.ltb_lt in Eq.
      destruct (Henq Hd Eq ltac:(done)) as (? & ? & ? & ? & HQ & HF & ? & ? & ?).
      split; [done|]. split; [done|]. split; [done|]. split; [done|]. right.
      rewrite HQ. split; [by left|]. done.
    + apply Z.ltb_ge in Eq.
      destruct (Hstay Hd (or_introl Eq)) as (? & ? & ? & ? & ? & ? & ? & ?).
      split; [done|]. split; [done|]. split; [done|]. split; [done|]. left.
      split; [done|]. split; [done|]. split; [done|]. split; [by left|done].
  - (* Market *)
    destruct (0 <? oQty (orders e3 !!! o)) eqn:Eq.
    + destruct (Hretire Hd) as (? & ? & ? & ? & ? & ? & ? & ?).
      split; [done|]. split; [done|]. split; [done|]. split; [done|]. left. done.
    + apply Z.ltb_ge in Eq.
      destruct (Hstay Hd (or_introl Eq)) as (? & ? & ? & ? & ? & ? & ? & ?).
      split; [done|]. split; [done|]. split; [done|]. split; [done|]. left. done.
  - (* IOC *)
    destruct (0 <? oQty (orders e3 !!! o)) eqn:Eq.
    + destruct (Hretire Hd) as (? & ? & ? & ? & ? & ? & ? & ?).
      split; [done|]. split; [done|]. split; [done|]. split; [done|]. left. done.
    + apply Z.ltb_ge in Eq.
      destruct (Hstay Hd (or_introl Eq)) as (? & ? & ? & ? & ? & ? & ? & ?).
      split; [done|]. split; [done|]. split; [done|]. split; [done|]. left. done.
  - (* FOK *)
    destruct (0 <? oQty (orders e3 !!! o)) eqn:Eq.
    + destruct (Hretire Hd) as (? & ? & ? & ? & ? & ? & ? & ?).
      split; [done|]. split; [done|]. split; [done|]. split; [done|]. left. done.
    + apply Z.ltb_ge in Eq.
      destruct (Hstay Hd (or_introl Eq)) as (? & ? & ? & ? & ? & ? & ? & ?).
      split; [done|]. split; [done|]. split; [done|]. split; [done|]. left. done.
  - (* PostOnly *)
    destruct (0 <? matched) eqn:Em.
    + apply Z.ltb_lt in Em.
      destruct (Hretire Hd) as (? & ? & ? & ? & ? & ? & ? & HF).
      split; [done|]. split; [done|]. split; [done|]. split; [done|]. left.
      split; [done|]. split; [done|]. split; [done|].
      split; [intros _; right; by rewrite HF|done].
    + apply Z.ltb_ge in Em.
      destruct (0 <? oQty (orders e3 !!! o)) eqn:Eq.
      * apply Z.ltb_lt in Eq.
        destruct (Henq Hd Eq ltac:(done)) as (? & ? & ? & ? & HQ & HF & ? & ? & ?).
        split; [done|]. split; [done|]. split; [done|]. split; [done|]. right.
        rewrite HQ, HF. split; [by right|]. done.
      * apply Z.ltb_ge in Eq.
        destruct (Hstay Hd (or_introl Eq)) as (? & ? & ? & ? & ? & ? & ? & HF).
        split; [done|]. split; [done|]. split; [done|]. split; [done|]. left.
        split; [done|]. split; [done|]. split; [done|].
        split; [intros _; by left|]. rewrite HF. lia.
Qed.

Lemma op_typed_place side otype price id qty seq :
  op_typed (OpPlace side otype price id qty seq) = true → in_i64 qty ∧ in_i64 price.
Proof.
  unfold op_typed. intros Hop. repeat (apply andb_prop in Hop as [Hop ?]).
  unfold in_i64, in_i64b in *. lia.
Qed.

(** Whatever typed operations run, a property that every single operation
    preserves holds at the end. *)
Lemma engine_exec_inv (P : Engine → Prop) :
  (∀ e op e', engine_ok e → P e → op_typed op = true →
              engine_step e op = Ok e' → P e') →
  ∀ ops e, engine_ok e → P e → forallb op_typed ops = true →
           match engine_exec ops e with
           | Ok e' => engine_ok e' ∧ P e'
           | Panic f => fatal f
           end.
Proof.
  intros Hstep. induction ops as [|op ops IH]; intros e He HP Hops; simpl; [done|].
  simpl in Hops. apply andb_prop in Hops as [Hop Hops].
  pose proof (engine_step_ok e op He Hop) as H.
  destruct (engine_step e op) as [e'|f] eqn:E; simpl; [|done].
  apply IH; [done| |done]. by apply (Hstep e op e').
Qed.

Lemma engine_step_uncrossed e op e' :
  engine_ok e → uncrossed (book e) → op_typed op = true →
  engine_step e op = Ok e' → uncrossed (book e').
Proof.
  intros He Hu Hop H. destruct op as [side otype price id qty seq|price o side|rs];
    simpl in H.
  - apply bind_Ok in H as ([o e1] & Hpl & H). injection H as <-.
    destruct (op_typed_place _ _ _ _ _ _ Hop) as [Hq _].
    destruct (placeOrder_post _ _ _ _ _ _ _ _ _ He Hq Hpl) as (_ & _ & _ & Hopp & Hown).
    destruct Hown as [(Hsame & _)|(_ & _ & Hkeys & _ & Hlt)].
    + by apply (uncrossed_shrink side (book e)).
    + intros pb pa Hpb Hpa. destruct side; simpl in *.
      * apply Hkeys in Hpb as [->|Hpb]; [by apply Hlt|]. apply Hu; [done|by apply Hopp].
      * apply Hkeys in Hpa as [->|Hpa]; [by apply Hlt|]. apply Hu; [by apply Hopp|done].
  - destruct (cancelOrder_frame _ _ _ _ _ H) as (Hopp & Hkeys & _).
    apply (uncrossed_shrink (opposite side) (book e)); [done| |done].
    by rewrite opposite_involutive.
  - pose proof He as (_ & _ & [l Hwf] & Hp & _).
    destruct (advanceEpochAndReclaim_spec rs e l Hwf Hp) as (e1 & H1 & _ & _ & _ & _ & Hbk & _).
    rewrite H in H1. injection H1 as <-. by rewrite Hbk.
Qed.

Lemma uncrossed_new : uncrossed NewOrderBook.
Proof. intros pb pa Hpb. by apply elem_of_nil in Hpb. Qed.

Lemma FindLevel_key t k v : FindLevel t k = Some v → k ∈ keys (root t).
Proof.
  intros H. apply FindLevel_from_Some in H. unfold keys.
  apply list_elem_of_fmap. by exists (k, v).
Qed.

(** The book is never crossed: after any placements, cancels and reclaims
    on a fresh engine, every price that has a bid level is strictly below
    every price that has an ask level; in particular the best bid is below
    the best ask. *)
Theorem book_never_crossed
        (poolCap : nat) (k epoch0 : Z) (ops : list engine_op) :
  0 ≤ k < 64 → forallb op_typed ops = true →
  match engine_exec ops (newEngine poolCap (2 ^ k) epoch0) with
  | Ok e =>
      (∀ pb pa lb la,
         FindLevel (Bids (book e)) pb = Some lb →
         FindLevel (Asks (book e)) pa = Some la → pb < pa) ∧
      (∀ bid ask,
         MaxLevel (Bids (book e)) = Some bid →
         MinLevel (Asks (book e)) = Some ask → Price bid < Price ask)
  | Panic f => f = PoolExhausted ∨ f = RetireRingFull
  end.
Proof.
  intros Hk Hops.
  pose proof (engine_exec_inv (λ e, uncrossed (book e))
                (λ e op e' He HP, engine_step_uncrossed e op e' He HP)
                ops _ (engine_ok_new poolCap k epoch0 Hk) uncrossed_new Hops) as H.
  destruct (engine_exec ops _) as [e|f]; [|done].
  destruct H as [He Hu]. split.
  - intros pb pa lb la Hb Ha. apply Hu; by eapply FindLevel_key.
  - intros bid ask Hb Ha.
    apply MaxLevel_elem in Hb as [kb Hb]. apply MinLevel_elem in Ha as [ka Ha].
    destruct He as ([(_ & _ & Hpb) _] & [(_ & _ & Hpa) _] & _).
    rewrite Forall_forall in Hpb, Hpa.
    pose proof (Hpb _ Hb) as Eb. pose proof (Hpa _ Ha) as Ea. simpl in Eb, Ea.
    rewrite Eb, Ea.
    apply Hu; unfold keys; apply list_elem_of_fmap.
    + by exists (kb, bid).
    + by exists (ka, ask).
Qed.

Lemma book_never_crossed_witness :
  match engine_exec [OpPlace Bid Limit 99 1 5 1; OpPlace Ask Limit 101 2 5 2;
                     OpPlace Bid Limit 101 3 2 3; OpPlace Ask PostOnly 100 4 4 4;
                     OpPlace Bid Limit 100 5 1 5]
                    (newEngine 8 (2 ^ 3) 0) with
  | Ok e =>
      (∀ pb pa lb la,
         FindLevel (Bids (book e)) pb = Some lb →
         FindLevel (Asks (book e)) pa = Some la → pb < pa) ∧
      (∀ bid ask,
         MaxLevel (Bids (book e)) = Some bid →
         MinLevel (Asks (book e)) = Some ask → Price bid < Price ask)
  | Panic f => f = PoolExhausted ∨ f = RetireRingFull
  end.
Proof.
  apply (book_never_crossed 8 3 0); [lia|reflexivity].
Defined.

(** * What a placement does with the remainder *)

(** After any placements, cancels and reclaims on a fresh engine, a
    placement that returns has stamped the order with its arguments (a
    Market order with price 0) and has set the last sequence; then,
    according to the type:
    - a Limit order with a remainder rests at the tail of the level of its
      price on its own side, and without a remainder its side is untouched;
    - a PostOnly order that traded is Inactive and its side is untouched;
      one that did not trade is treated as a Limit order;
    - an IOC, FOK or Market order never rests: its side is untouched, and if
      it has a remainder it is Inactive. *)
Theorem placeOrder_disposes_of_remainder
        (poolCap : nat) (k epoch0 : Z) (ops : list engine_op) (e : Engine)
        (side : Side) (otype : OrderType) (price id qty seq : Z)
        (o : handle) (e' : Engine) :
  0 ≤ k < 64 → forallb op_typed ops = true →
  engine_exec ops (newEngine poolCap (2 ^ k) epoch0) = Ok e →
  - 2 ^ 63 ≤ qty < 2 ^ 63 →
  placeOrder side otype price id qty seq e = Ok (o, e') →
  let r := orders e' !!! o in
  let rests := ∃ lvl, FindLevel (side_tree side (book e')) price = Some lvl ∧
                      lvl_tail lvl = Some o in
  let untouched := side_tree side (book e') = side_tree side (book e) in
  oID r = id ∧ oSide r = side ∧ oType r = otype ∧ oSeqID r = seq ∧
  oPrice r = (if decide (otype = Market) then 0 else price) ∧
  LastSeq (book e') = seq ∧
  match otype with
  | Limit => if decide (0 < oQty r) then rests else untouched
  | PostOnly =>
      if decide (0 < oFilled r) then untouched ∧ oStatus r = Inactive
      else if decide (0 < oQty r) then rests else untouched
  | IOC | FOK | Market => untouched ∧ (0 < oQty r → oStatus r = Inactive)
  end.
Proof.
  intros Hk Hops Hrun Hqty Hpl. cbv zeta.
  pose proof (engine_exec_ok ops _ (engine_ok_new poolCap k epoch0 Hk) Hops) as He.
  rewrite Hrun in He.
  destruct (placeOrder_post _ _ _ _ _ _ _ _ _ He Hqty Hpl)
    as (Hseq & _ & (Hid & Hsd & Hty & Hpr & Hsq) & _ & Hown).
  split; [done|]. split; [done|]. split; [done|]. split; [done|].
  split; [done|]. split; [done|].
  destruct Hown as [(Hsame & Hin & HL & HP & HP')|(Hty' & Hpos & _ & Hrest & _)].
  - destruct otype.
    + specialize (HL eq_refl). destruct (decide _); [lia|done].
    + done.
    + done.
    + done.
    + destruct (decide (0 < oFilled (orders e' !!! o))); [by split; [|apply HP']|].
      destruct (HP eq_refl); [|lia]. destruct (decide _); [lia|done].
  - destruct Hty' as [->|[-> Hf]].
    + destruct (decide _); [done|lia].
    + destruct (decide (0 < oFilled _)); [lia|]. destruct (decide _); [done|lia].
Qed.

(** An ask of 5 at 100 resting on a small engine. *)
Definition one_ask_ops : list engine_op := [OpPlace Ask Limit 100 1 5 1].

Definition one_ask_engine : Engine :=
  Eval vm_compute in
    match engine_exec one_ask_ops (newEngine 4 (2 ^ 2) 0) with
    | Ok e => e
    | Panic _ => newEngine 0 1 0
    end.

(** The same engine after a Limit bid of 8 at 100, which takes the 5 and
    rests with 3. *)
Definition bid_rests_engine : Engine :=
  Eval vm_compute in
    match placeOrder Bid Limit 100 2 8 2 one_ask_engine with
    | Ok (_, e) => e
    | Panic _ => newEngine 0 1 0
    end.

Lemma placeOrder_disposes_of_remainder_witness :
  let r := orders bid_rests_engine !!! 2%nat in
  let rests := ∃ lvl, FindLevel (side_tree Bid (book bid_rests_engine)) 100 = Some lvl ∧
                      lvl_tail lvl = Some 2%nat in
  let untouched := side_tree Bid (book bid_rests_engine)
                   = side_tree Bid (book one_ask_engine) in
  oID r = 2 ∧ oSide r = Bid ∧ oType r = Limit ∧ oSeqID r = 2 ∧
  oPrice r = (if decide (Limit = Market) then 0 else 100) ∧
  LastSeq (book bid_rests_engine) = 2 ∧
  if decide (0 < oQty r) then rests else untouched.
Proof.
  apply (placeOrder_disposes_of_remainder 4 2 0 one_ask_ops one_ask_engine
           Bid Limit 100 2 8 2 2%nat bid_rests_engine).
  - lia.
  - reflexivity.
  - vm_compute. reflexivity.
  - lia.
  - vm_compute. reflexivity.
Defined.

(** checkLiquidity measures the marketable liquidity: after any placements,
    cancels and reclaims on a fresh engine, if the aggregate quantities of
    the opposite levels within the limit price are not negative and their
    sum fits in an int64, [checkLiquidity(side, limit, desired)] returns a
    value between 0 and that sum, and it reaches [desired] exactly when the
    sum does. *)
Theorem checkLiquidity_measures_marketable_levels
        (poolCap : nat) (k epoch0 : Z) (ops : list engine_op) (e : Engine)
        (side : Side) (limit desired : Z) :
  0 ≤ k < 64 → forallb op_typed ops = true →
  engine_exec ops (newEngine poolCap (2 ^ k) epoch0) = Ok e →
  Forall (λ lvl, 0 ≤ TotalQty lvl) (marketable side limit (book e)) →
  liquidity (marketable side limit (book e)) < 2 ^ 63 →
  ∃ available,
    checkLiquidity side limit desired (book e) = Ok available ∧
    0 ≤ available ≤ liquidity (marketable side limit (book e)) ∧
    (desired ≤ available ↔ desired ≤ liquidity (marketable side limit (book e))).
Proof.
  intros Hk Hops Hrun Hnn Hbd.
  pose proof (engine_exec_ok ops _ (engine_ok_new poolCap k epoch0 Hk) Hops) as He.
  rewrite Hrun in He. destruct He as ([Hb _] & [Ha _] & _).
  by apply checkLiquidity_spec.
Qed.

(** Asks of 5 at 100, 7 at 101 and 4 at 103. *)
Definition three_asks_ops : list engine_op :=
  [OpPlace Ask Limit 100 1 5 1; OpPlace Ask Limit 101 2 7 2;
   OpPlace Ask Limit 103 3 4 3].

Definition three_asks_engine : Engine :=
  Eval vm_compute in
    match engine_exec three_asks_ops (newEngine 4 (2 ^ 2) 0) with
    | Ok e => e
    | Panic _ => newEngine 0 1 0
    end.

Lemma checkLiquidity_measures_marketable_levels_witness :
  ∃ available,
    checkLiquidity Bid 101 10 (book three_asks_engine) = Ok available ∧
    0 ≤ available ≤ liquidity (marketable Bid 101 (book three_asks_engine)) ∧
    (10 ≤ available ↔ 10 ≤ liquidity (marketable Bid 101 (book three_asks_engine))).
Proof.
  apply (checkLiquidity_measures_marketable_levels 4 2 0 three_asks_ops
           three_asks_engine Bid 101 10).
  - lia.
  - reflexivity.
  - vm_compute. reflexivity.
  - vm_compute. repeat constructor; discriminate.
  - vm_compute. reflexivity.
Defined.

(** * Resting orders: what a well-used book looks like

    The operations are used well when every cancel names an order that is
    linked in the level of the given price on the given side.  The book is
    then a set of proper FIFO queues of live orders, and no order is at the
    same time linked in a level and waiting in the ring or free in the
    pool. *)

(** The fields of a linked order: [ex], if any, is an order whose quantity
    has just been taken to 0 and which is about to be unlinked. *)
Definition rests_at (σ : heap) (s : Side) (k : Z) (ex : option handle)
           (h : handle) : Prop :=
  oSide (σ !!! h) = s ∧ oPrice (σ !!! h) = k ∧
  (ex ≠ Some h → oStatus (σ !!! h) = Active ∧ 0 < oQty (σ !!! h)).

Definition level_ok (σ : heap) (s : Side) (k : Z) (ex : option handle)
           (lvl : PriceLevel) : Prop :=
  ∃ q, q ≠ [] ∧ is_queue σ lvl q ∧ ∀ h, h ∈ q → rests_at σ s k ex h.

Definition levels_ok (ex : option handle) (e : Engine) : Prop :=
  ∀ s k lvl, FindLevel (side_tree s (book e)) k = Some lvl →
             level_ok (orders e) s k ex lvl.

(** [h] is linked in some level of the book. *)
Definition linked (e : Engine) (h : handle) : Prop :=
  ∃ s k lvl q, FindLevel (side_tree s (book e)) k = Some lvl ∧
               is_queue (orders e) lvl q ∧ h ∈ q.

(** The orders waiting in the ring and the free orders of the pool are all
    different, and none of them is linked. *)
Definition retired_ok (e : Engine) : Prop :=
  NoDup (ring_contents (rq e) ++ pool_free (pool e)) ∧
  ∀ h, h ∈ ring_contents (rq e) ++ pool_free (pool e) → ¬ linked e h.

Definition book_ok (ex : option handle) (e : Engine) : Prop :=
  engine_ok e ∧ levels_ok ex e ∧ retired_ok e.

Lemma seg_unique σ : ∀ q q' p p',
  seg σ p q None → seg σ p' q' None → head q = head q' → q = q'.
Proof.
  induction q as [|h q IH]; intros q' p p' Hs Hs' Hh.
  { destruct q'; [done|]. simpl in Hh. done. }
  destruct q' as [|h' q']; [done|]. simpl in Hh. injection Hh as <-.
  destruct Hs as (_ & Hn & Hs). destruct Hs' as (_ & Hn' & Hs').
  f_equal. apply (IH q' (Some h) (Some h) Hs Hs').
  rewrite Hn in Hn'. by destruct q, q'.
Qed.

Lemma is_queue_unique σ lvl q q' : is_queue σ lvl q → is_queue σ lvl q' → q = q'.
Proof.
  intros (_ & Hh & _ & Hs) (_ & Hh' & _ & Hs').
  apply (seg_unique σ q q' None None Hs Hs'). congruence.
Qed.

Lemma is_queue_frame σ σ' lvl q :
  (∀ h, h ∈ q → onext (σ' !!! h) = onext (σ !!! h) ∧
                oprev (σ' !!! h) = oprev (σ !!! h)) →
  is_queue σ lvl q → is_queue σ' lvl q.
Proof.
  intros Hf (Hnd & Hh & Ht & Hs). split; [done|]. split; [done|]. split; [done|].
  by apply (seg_frame σ).
Qed.

Lemma same_but_links_sym a b : same_but_links a b → same_but_links b a.
Proof. unfold same_but_links. intuition congruence. Qed.

Lemma rests_at_same σ σ' s k ex h :
  same_but_links (σ' !!! h) (σ !!! h) → rests_at σ s k ex h → rests_at σ' s k ex h.
Proof.
  intros (_ & Hs & _ & Hp & Hq & _ & _ & Hst & _) (H1 & H2 & H3).
  unfold rests_at. rewrite Hs, Hp, Hq, Hst. done.
Qed.

Lemma rests_at_weaken σ s k ex h : rests_at σ s k None h → rests_at σ s k ex h.
Proof. intros (H1 & H2 & H3). split; [done|]. split; [done|]. intros _. by apply H3. Qed.

(** A linked order is in one level only: its side and price say which. *)
Lemma level_ok_queue σ s k ex lvl q :
  level_ok σ s k ex lvl → is_queue σ lvl q →
  q ≠ [] ∧ ∀ h, h ∈ q → rests_at σ s k ex h.
Proof.
  intros (q0 & Hne & Hq0 & Hr) Hq. by rewrite (is_queue_unique _ _ _ _ Hq Hq0).
Qed.

Lemma linked_where ex e h s k lvl q :
  levels_ok ex e →
  FindLevel (side_tree s (book e)) k = Some lvl → is_queue (orders e) lvl q → h ∈ q →
  oSide (orders e !!! h) = s ∧ oPrice (orders e !!! h) = k.
Proof.
  intros Hl Hf Hq Hh. destruct (level_ok_queue _ _ _ _ _ _ (Hl _ _ _ Hf) Hq) as [_ Hr].
  destruct (Hr _ Hh) as (? & ? & _). done.
Qed.

Lemma FindLevel_writeLevel t k v lvl' k' :
  index_ok t → FindLevel t k = Some v → Price lvl' = k →
  index_ok (writeLevel t k lvl') ∧
  FindLevel (writeLevel t k lvl') k'
  = if decide (k' = k) then Some lvl' else FindLevel t k'.
Proof.
  intros Hi Hf Hp.
  destruct (writeLevel_ok t k v lvl' Hi Hf Hp) as (Hi' & l1 & l2 & E1 & E2 & Hf').
  split; [done|]. destruct (decide (k' = k)) as [->|Hne]; [done|].
  apply FindLevel_ext; try by apply index_ok_sorted.
  intros x. rewrite E1, E2, !elem_of_app, !elem_of_cons.
  split; (intros [?|[?|?]]; [tauto|by simplify_eq|tauto]).
Qed.

Lemma FindLevel_DeleteLevel t k b t' k' :
  index_ok t → DeleteLevel t k = Ok (b, t') →
  index_ok t' ∧
  FindLevel t' k' = if decide (k' = k) then None else FindLevel t k'.
Proof.
  intros Hi HD.
  destruct (DeleteLevel_ok t k Hi) as (b0 & t0 & HD0 & Hi' & Hcase).
  rewrite HD in HD0. injection HD0 as <- <-. split; [done|].
  destruct Hcase as [(-> & -> & Hnone)|(-> & l1 & v & l2 & Hf & E1 & E2)].
  - destruct (decide (k' = k)) as [->|Hne]; done.
  - pose proof (index_ok_sorted _ Hi) as Hs. rewrite E1 in Hs.
    apply sorted_remove in Hs as (_ & Hlt & Hgt).
    unfold lt_all, gt_all in *. rewrite Forall_forall in Hlt, Hgt.
    destruct (decide (k' = k)) as [->|Hne].
    + destruct (FindLevel t' k) as [v'|] eqn:E; [|done].
      apply FindLevel_from_Some in E. rewrite E2 in E.
      apply elem_of_app in E as [E|E].
      * specialize (Hlt _ E). simpl in Hlt. lia.
      * specialize (Hgt _ E). simpl in Hgt. lia.
    + apply FindLevel_ext; try by apply index_ok_sorted.
      intros v'. rewrite E1, E2, !elem_of_app, elem_of_cons.
      split; [|tauto]. intros [?|[?|?]]; [tauto|by simplify_eq|tauto].
Qed.

Lemma FindLevel_UpsertLevel t k lvl t' k' :
  index_ok t → UpsertLevel t k = Ok (lvl, t') →
  index_ok t' ∧
  FindLevel t' k' = (if decide (k' = k) then Some lvl else FindLevel t k') ∧
  (FindLevel t k = Some lvl ∨
   FindLevel t k = None ∧ lvl = mkLevel k None None 0).
Proof.
  intros Hi HU.
  destruct (UpsertLevel_ok t k Hi) as (lvl0 & t0 & HU0 & Hi' & Hcase).
  rewrite HU in HU0. injection HU0 as <- <-. split; [done|].
  destruct Hcase as [[Hf ->]|(Hnone & -> & l1 & l2 & E1 & E2)].
  - split; [|by left]. destruct (decide (k' = k)) as [->|Hne]; done.
  - split; [|by right]. destruct (decide (k' = k)) as [->|Hne].
    + apply FindLevel_from_elem; [by apply index_ok_sorted|].
      rewrite E2. apply elem_of_app. right. by apply elem_of_cons; left.
    + apply FindLevel_ext; try by apply index_ok_sorted.
      intros v. rewrite E1, E2, !elem_of_app, elem_of_cons.
      split; [tauto|]. intros [?|[?|?]]; [tauto|by simplify_eq|tauto].
Qed.

Lemma side_tree_cases s s' t b :
  side_tree s' (set_side_tree s t b) = if decide (s' = s) then t else side_tree s' b.
Proof. by destruct s, s'. Qed.

Lemma cancel_tree_find t price o σ lvl q1 q2 :
  index_ok t → FindLevel t price = Some lvl →
  is_queue σ lvl (q1 ++ o :: q2) →
  ∃ t',
    (match FindLevel t price with
     | Some lvl =>
         let '(lvl', σ') := unlinkAlreadyInactive lvl o σ in
         match lvl_head lvl' with
         | None => '(_, t2) ← DeleteLevel (writeLevel t price lvl') price; Ok (t2, σ')
         | Some _ => Ok (writeLevel t price lvl', σ')
         end
     | None => Ok (t, σ)
     end) = Ok (t', (unlinkAlreadyInactive lvl o σ).2) ∧
    ∀ k', FindLevel t' k'
          = if decide (k' = price)
            then match q1 ++ q2 with
                 | [] => None
                 | _ :: _ => Some (unlinkAlreadyInactive lvl o σ).1
                 end
            else FindLevel t k'.
Proof.
  intros Hi Hf Hq. rewrite Hf.
  destruct (unlink_queue σ lvl q1 o q2 Hq) as ((_ & Hh & _) & _).
  destruct (unlink_spec lvl o σ) as [Hprice _].
  destruct (unlinkAlreadyInactive lvl o σ) as [lvl' σ']. cbn [fst snd] in *.
  assert (Hpl : Price lvl' = price).
  { rewrite Hprice. by apply (index_ok_Price t). }
  rewrite Hh.
  destruct (q1 ++ q2) as [|h0 q0] eqn:Eq; cbn [head].
  - destruct (FindLevel_writeLevel t price lvl lvl' price Hi Hf Hpl) as [Hi1 _].
    destruct (DeleteLevel_ok _ price Hi1) as (b & t2 & HD & _ & _).
    rewrite HD. cbn [mbind Result_bind]. exists t2. split; [done|].
    intros k'. destruct (FindLevel_DeleteLevel _ _ _ _ k' Hi1 HD) as [_ ->].
    destruct (decide (k' = price)) as [->|Hne]; [done|].
    destruct (FindLevel_writeLevel t price lvl lvl' k' Hi Hf Hpl) as [_ ->].
    by destruct (decide (k' = price)).
  - exists (writeLevel t price lvl'). split; [done|].
    intros k'. by destruct (FindLevel_writeLevel t price lvl lvl' k' Hi Hf Hpl) as [_ ->].
Qed.

Lemma engine_ok_ring e : engine_ok e → ring_wf (rq e) (ring_contents (rq e)).
Proof. intros (_ & _ & [l Hwf] & _). by rewrite (ring_wf_contents _ _ Hwf). Qed.

Lemma not_in_both_levels ex e h s k lvl q s' k' lvl' q' :
  levels_ok ex e →
  FindLevel (side_tree s (book e)) k = Some lvl → is_queue (orders e) lvl q →
  FindLevel (side_tree s' (book e)) k' = Some lvl' → is_queue (orders e) lvl' q' →
  h ∈ q → h ∈ q' → s' = s ∧ k' = k.
Proof.
  intros Hl Hf Hq Hf' Hq' Hh Hh'.
  destruct (linked_where _ _ _ _ _ _ _ Hl Hf Hq Hh) as [<- <-].
  destruct (linked_where _ _ _ _ _ _ _ Hl Hf' Hq' Hh') as [<- <-]. done.
Qed.

(** A cancel of a linked order: the order leaves its level, which is pruned
    if it was alone there, and joins the ring; every other level and every
    other order's fields but links stay as they were. *)
Lemma cancelOrder_book price o s e ex lvl q1 q2 :
  book_ok ex e → (ex = None ∨ ex = Some o) →
  FindLevel (side_tree s (book e)) price = Some lvl →
  is_queue (orders e) lvl (q1 ++ o :: q2) →
  match cancelOrder price o s e with
  | Ok e' =>
      book_ok None e' ∧
      ring_contents (rq e') = ring_contents (rq e) ++ [o] ∧ pool e' = pool e ∧
      (∀ h, linked e' h → linked e h ∧ h ≠ o) ∧
      match q1 ++ q2 with
      | [] => FindLevel (side_tree s (book e')) price = None
      | _ :: _ => ∃ lvl', FindLevel (side_tree s (book e')) price = Some lvl' ∧
                          is_queue (orders e') lvl' (q1 ++ q2)
      end ∧
      (∀ s' k', (s' ≠ s ∨ k' ≠ price) →
                FindLevel (side_tree s' (book e')) k'
                = FindLevel (side_tree s' (book e)) k' ∧
                ∀ lvl1 q, FindLevel (side_tree s' (book e)) k' = Some lvl1 →
                          is_queue (orders e) lvl1 q →
                          is_queue (orders e') lvl1 q ∧
                          ∀ h, h ∈ q → orders e' !!! h = orders e !!! h) ∧
      (∀ h, h ≠ o → same_but_links (orders e' !!! h) (orders e !!! h)) ∧
      (∀ h, ¬ linked e h → h ≠ o → orders e' !!! h = orders e !!! h) ∧
      oStatus (orders e' !!! o) = Inactive ∧
      oretireEpoch (orders e' !!! o) = globalEpoch e ∧
      onext (orders e' !!! o) = None ∧ oprev (orders e' !!! o) = None
  | Panic f =>
      f = RetireRingFull ∧ u64 (rq_head (rq e) - rq_tail (rq e)) = ring_cap (rq e)
  end.
Proof.
  intros (He & Hl & Hnd & Hret) Hex Hf Hq.
  pose proof (engine_ok_ring _ He) as Hwf.
  pose proof (cancelOrder_ok price o s e _ He Hwf) as Hok.
  destruct (cancelOrder price o s e) as [e'|f] eqn:Hc; [|done].
  destruct Hok as (He' & Hwf' & Hpool & _ & _).
  pose proof (ring_wf_contents _ _ Hwf') as Hring.
  (* the states inside [cancelOrder] *)
  unfold cancelOrder in Hc. cbv zeta in Hc.
  set (σ2 := upd o (set_retireEpoch (globalEpoch e)) (upd o (set_Status Inactive) (orders e))) in *.
  assert (Hσ2 : ∀ h, h ≠ o → σ2 !!! h = orders e !!! h).
  { intros h Hh. unfold σ2. by rewrite !upd_lookup_ne. }
  assert (Hq2 : is_queue σ2 lvl (q1 ++ o :: q2)).
  { eapply is_queue_frame; [|exact Hq]. intros h _. unfold σ2.
    split; [by rewrite !onext_upd|by rewrite !oprev_upd]. }
  pose proof He as (Hb & Ha & _).
  destruct (side_tree_ok s _ Hb Ha) as [Hi _].
  destruct (cancel_tree_find _ price o σ2 lvl q1 q2 Hi Hf Hq2) as (t' & Heq & Hfind).
  rewrite Heq in Hc. cbn [mbind Result_bind] in Hc.
  destruct (unlink_queue σ2 lvl q1 o q2 Hq2) as (Hq3 & Hon & Hop & Hsame & Hframe).
  set (lvl' := (unlinkAlreadyInactive lvl o σ2).1) in *.
  set (σ3 := (unlinkAlreadyInactive lvl o σ2).2) in *.
  apply bind_Ok in Hc as ([ok q'] & HE & Hc). destruct ok; [|done].
  injection Hc as <-. cbn [orders book rq pool globalEpoch] in *.
  (* facts about the queue of [o] *)
  pose proof Hq as (Hndq & _).
  apply NoDup_app in Hndq as (_ & Hd12 & Hnd2).
  apply NoDup_cons in Hnd2 as [Ho2 _].
  assert (Ho1 : o ∉ q1).
  { intros H. apply (Hd12 _ H). by apply elem_of_cons; left. }
  assert (Hin12 : ∀ h, h ∈ q1 ++ q2 → h ∈ q1 ++ o :: q2 ∧ h ≠ o).
  { intros h Hh. apply elem_of_app in Hh as [Hh|Hh].
    - split; [apply elem_of_app; by left|]. by intros ->.
    - split; [apply elem_of_app; right; apply elem_of_cons; by right|]. by intros ->. }
  assert (Hlinked_o : linked e o).
  { exists s, price, lvl, (q1 ++ o :: q2). split; [done|]. split; [done|].
    apply elem_of_app. right. by apply elem_of_cons; left. }
  (* the other levels are untouched *)
  assert (Hother : ∀ s' k' lvl1 q1',
             (s' ≠ s ∨ k' ≠ price) →
             FindLevel (side_tree s' (book e)) k' = Some lvl1 →
             is_queue (orders e) lvl1 q1' →
             (∀ h, h ∈ q1' → σ3 !!! h = orders e !!! h) ∧ is_queue σ3 lvl1 q1').
  { intros s' k' lvl1 q1' Hne Hf1 Hq1.
    assert (Hfr : ∀ h, h ∈ q1' → σ3 !!! h = orders e !!! h).
    { intros h Hh.
      assert (Hnot : h ∉ q1 ++ o :: q2).
      { intros Hin.
        destruct (not_in_both_levels _ _ _ _ _ _ _ _ _ _ _ Hl Hf Hq Hf1 Hq1 Hin Hh)
          as [-> ->]. by destruct Hne. }
      rewrite Hframe.
      - apply Hσ2. intros ->. apply Hnot. apply elem_of_app. right.
        by apply elem_of_cons; left.
      - intros H. apply Hnot. apply elem_of_app. by left.
      - intros H. apply Hnot. apply elem_of_app. right. apply elem_of_cons. by right.
      - intros ->. apply Hnot. apply elem_of_app. right. by apply elem_of_cons; left. }
    split; [done|]. eapply is_queue_frame; [|exact Hq1].
    intros h Hh. by rewrite (Hfr h Hh). }
  assert (Hfind' : ∀ s' k',
             FindLevel (side_tree s' (set_side_tree s t' (book e))) k'
             = if decide (s' = s ∧ k' = price)
               then match q1 ++ q2 with [] => None | _ :: _ => Some lvl' end
               else FindLevel (side_tree s' (book e)) k').
  { intros s' k'. rewrite side_tree_cases.
    destruct (decide (s' = s)) as [->|Hs].
    - rewrite Hfind. destruct (decide (k' = price)) as [->|Hk].
      + by rewrite decide_True.
      + rewrite decide_False; [done|]. by intros [_ ?].
    - rewrite decide_False; [done|]. by intros [? _]. }
  assert (Hlevels : levels_ok None
            (mkEngine σ3 (pool e) q' (set_side_tree s t' (book e)) (globalEpoch e))).
  { intros s' k' lvl1. cbn [book orders]. rewrite Hfind'.
    destruct (decide (s' = s ∧ k' = price)) as [[-> ->]|Hne].
    - destruct (q1 ++ q2) as [|h0 q0] eqn:E12; [done|]. intros [= <-].
      exists (h0 :: q0). split; [done|]. split; [done|].
      intros h Hh. destruct (Hin12 _ Hh) as [Hin Hne].
      destruct (level_ok_queue _ _ _ _ _ _ (Hl _ _ _ Hf) Hq) as [_ Hr].
      specialize (Hr _ Hin). apply (rests_at_same (orders e)).
      + eapply same_but_links_trans; [apply Hsame|]. rewrite Hσ2 by done.
        apply same_but_links_refl.
      + destruct Hr as (? & ? & Hlive). split; [done|]. split; [done|].
        intros _. apply Hlive. destruct Hex as [->| ->]; [done|]. by intros [= ->].
    - intros Hf1. destruct (Hl _ _ _ Hf1) as (q0 & Hne0 & Hq0 & Hr0).
      assert (Hne' : s' ≠ s ∨ k' ≠ price).
      { destruct (decide (s' = s)) as [->|?]; [|by left].
        right. intros ->. by apply Hne. }
      destruct (Hother _ _ _ _ Hne' Hf1 Hq0) as [Hfr Hq0'].
      exists q0. split; [done|]. split; [done|].
      intros h Hh. specialize (Hr0 _ Hh).
      assert (Hho : h ≠ o).
      { intros ->.
        assert (Hin : o ∈ q1 ++ o :: q2).
        { apply elem_of_app. right. by apply elem_of_cons; left. }
        destruct (not_in_both_levels _ _ _ _ _ _ _ _ _ _ _ Hl Hf Hq Hf1 Hq0 Hin Hh)
          as [-> ->]. by destruct Hne'. }
      destruct Hr0 as (H1 & H2 & Hlive). unfold rests_at. rewrite (Hfr _ Hh).
      split; [done|]. split; [done|]. intros _. apply Hlive.
      destruct Hex as [->| ->]; [done|]. by intros [= ->]. }
  assert (Hlk : ∀ h, linked (mkEngine σ3 (pool e) q' (set_side_tree s t' (book e))
                                      (globalEpoch e)) h →
                     linked e h ∧ h ≠ o).
  { intros h (s' & k' & lvl1 & qh & Hf1 & Hq1 & Hh). cbn [book orders] in *.
    rewrite Hfind' in Hf1.
    destruct (decide (s' = s ∧ k' = price)) as [[-> ->]|Hne].
    - destruct (q1 ++ q2) as [|h0 q0] eqn:E12; [done|]. injection Hf1 as <-.
      rewrite (is_queue_unique _ _ _ _ Hq1 Hq3) in Hh.
      destruct (Hin12 _ Hh) as [Hin Hne]. split; [|done].
      by exists s, price, lvl, (q1 ++ o :: q2).
    - destruct (Hl _ _ _ Hf1) as (q0 & Hne0 & Hq0 & Hr0).
      assert (Hne' : s' ≠ s ∨ k' ≠ price).
      { destruct (decide (s' = s)) as [->|?]; [|by left].
        right. intros ->. by apply Hne. }
      destruct (Hother _ _ _ _ Hne' Hf1 Hq0) as [Hfr Hq0'].
      rewrite (is_queue_unique _ _ _ _ Hq1 Hq0') in Hh.
      split; [by exists s', k', lvl1, q0|].
      intros ->.
      assert (Hin : o ∈ q1 ++ o :: q2).
      { apply elem_of_app. right. by apply elem_of_cons; left. }
      destruct (not_in_both_levels _ _ _ _ _ _ _ _ _ _ _ Hl Hf Hq Hf1 Hq0 Hin Hh)
        as [-> ->]. by destruct Hne'. }
  assert (Ho_ret : o ∉ ring_contents (rq e) ++ pool_free (pool e)).
  { intros H. by apply (Hret _ H). }
  split.
  { split; [done|]. split; [done|]. unfold retired_ok. cbn [rq pool].
    rewrite Hring. split.
    - rewrite <- app_assoc. apply NoDup_app in Hnd as (Hn1 & Hn12 & Hn2).
      apply NoDup_app. split; [done|]. split.
      + intros h Hh Hin. apply elem_of_cons in Hin as [->|Hin].
        * apply Ho_ret. apply elem_of_app. by left.
        * by apply (Hn12 _ Hh).
      + apply NoDup_cons. split; [|done].
        intros H. apply Ho_ret. apply elem_of_app. by right.
    - intros h Hh Hlinked. destruct (Hlk _ Hlinked) as [Hle Hne].
      apply (Hret h); [|done].
      rewrite <- app_assoc in Hh. apply elem_of_app in Hh as [Hh|Hh].
      + apply elem_of_app. by left.
      + apply elem_of_cons in Hh as [->|Hh]; [done|]. apply elem_of_app. by right. }
  split; [done|]. split; [done|]. split; [done|]. split.
  { specialize (Hfind' s price). rewrite decide_True in Hfind' by done.
    destruct (q1 ++ q2) as [|h0 q0] eqn:E12; [done|].
    by exists lvl'. }
  split.
  { intros s' k' Hne. split.
    - rewrite Hfind'. rewrite decide_False; [done|].
      intros [-> ->]. by destruct Hne.
    - intros lvl1 q Hf1 Hq1. by destruct (Hother _ _ _ _ Hne Hf1 Hq1). }
  split.
  { intros h Hh. eapply same_but_links_trans; [apply Hsame|]. rewrite Hσ2 by done.
    apply same_but_links_refl. }
  split.
  { intros h Hnl Hh. rewrite Hframe; [by apply Hσ2| | |done].
    - intros H. apply Hnl. exists s, price, lvl, (q1 ++ o :: q2).
      split; [done|]. split; [done|]. apply elem_of_app. by left.
    - intros H. apply Hnl. exists s, price, lvl, (q1 ++ o :: q2).
      split; [done|]. split; [done|]. apply elem_of_app. right.
      apply elem_of_cons. by right. }
  destruct (Hsame o) as (_ & _ & _ & _ & _ & _ & _ & Hst & Hre).
  rewrite Hst, Hre. unfold σ2. rewrite !upd_lookup. done.
Qed.

(** An order that [placeOrder] has acquired and not yet disposed of. *)
Definition in_flight (e : Engine) (o : handle) : Prop :=
  ¬ linked e o ∧ o ∉ ring_contents (rq e) ++ pool_free (pool e).

Lemma is_queue_links σ σ' lvl q :
  (∀ h, onext (σ' !!! h) = onext (σ !!! h) ∧ oprev (σ' !!! h) = oprev (σ !!! h)) →
  is_queue σ lvl q ↔ is_queue σ' lvl q.
Proof.
  intros H. split; apply is_queue_frame; intros h _; [done|].
  destruct (H h) as [-> ->]. done.
Qed.

Lemma linked_set_orders σ e h :
  (∀ h, onext (σ !!! h) = onext (orders e !!! h) ∧
        oprev (σ !!! h) = oprev (orders e !!! h)) →
  linked (set_orders σ e) h ↔ linked e h.
Proof.
  intros H. unfold linked. cbn [book orders set_orders].
  split; intros (s & k & lvl & q & Hf & Hq & Hh); exists s, k, lvl, q;
    (split; [done|]); (split; [|done]); by apply (is_queue_links (orders e) σ).
Qed.

Lemma best_level side e best :
  engine_ok e →
  match side with
  | Bid => MinLevel (Asks (book e))
  | Ask => MaxLevel (Bids (book e))
  end = Some best →
  FindLevel (side_tree (opposite side) (book e)) (Price best) = Some best.
Proof.
  intros ([(_ & Hsb & Hpb) _] & [(_ & Hsa & Hpa) _] & _) H.
  rewrite Forall_forall in Hpb, Hpa.
  destruct side; simpl.
  - apply MinLevel_elem in H as [k H]. pose proof (Hpa _ H) as E. simpl in E.
    rewrite E. by apply FindLevel_from_elem.
  - apply MaxLevel_elem in H as [k H]. pose proof (Hpb _ H) as E. simpl in E.
    rewrite E. by apply FindLevel_from_elem.
Qed.

Lemma min_int64_spec a b : min_int64 a b = Z.min a b.
Proof. unfold min_int64. destruct (a <? b) eqn:E; [apply Z.ltb_lt in E|apply Z.ltb_ge in E]; lia. Qed.

Lemma set_Qty_id r : set_Qty (oQty r) r = r.
Proof. by destruct r. Qed.

Lemma set_Qty_set_Qty a b r : set_Qty a (set_Qty b r) = set_Qty a r.
Proof. by destruct r. Qed.

(** The state of [match] after the two quantities have been lowered: links
    are as before, and the orders other than the two are untouched. *)
Lemma trade_state (σ : heap) o head t :
  o ≠ head →
  let σ1 := upd o (fun r => set_Qty (i64 (oQty r - t)) r) σ in
  let σ2 := upd head (fun r => set_Qty (i64 (oQty r - t)) r) σ1 in
  σ2 !!! o = set_Qty (i64 (oQty (σ !!! o) - t)) (σ !!! o) ∧
  σ2 !!! head = set_Qty (i64 (oQty (σ !!! head) - t)) (σ !!! head) ∧
  (∀ h, h ≠ o → h ≠ head → σ2 !!! h = σ !!! h) ∧
  (∀ h, onext (σ2 !!! h) = onext (σ !!! h) ∧ oprev (σ2 !!! h) = oprev (σ !!! h)).
Proof.
  intros Hne σ1 σ2. unfold σ2, σ1.
  split; [by rewrite upd_lookup_ne, upd_lookup by done|].
  split; [by rewrite upd_lookup, upd_lookup_ne by done|].
  split; [intros h H1 H2; by rewrite !upd_lookup_ne by done|].
  intros h. by rewrite !onext_upd, !oprev_upd.
Qed.

Lemma book_ok_trade e o head s best q2 t :
  book_ok None e → ¬ linked e o →
  FindLevel (side_tree s (book e)) (Price best) = Some best →
  is_queue (orders e) best (head :: q2) →
  0 ≤ t ≤ oQty (orders e !!! head) → in_i64 (oQty (orders e !!! o) - t) →
  let σ2 := upd head (fun r => set_Qty (i64 (oQty r - t)) r)
                (upd o (fun r => set_Qty (i64 (oQty r - t)) r) (orders e)) in
  book_ok (if decide (t = oQty (orders e !!! head)) then Some head else None)
          (set_orders σ2 e) ∧
  o ≠ head.
Proof.
  intros (He & Hl & Hnd & Hret) Hno Hfb Hq Ht Ho. cbv zeta.
  assert (Hlh : linked e head).
  { exists s, (Price best), best, (head :: q2). split; [done|]. split; [done|].
    by apply elem_of_cons; left. }
  assert (Hne : o ≠ head) by (by intros ->).
  split; [|done].
  destruct (trade_state (orders e) o head t Hne) as (Eo & Eh & Eoth & Elinks).
  cbv zeta in Eo, Eh, Eoth, Elinks.
  set (σ2 := upd head _ _) in *.
  pose proof He as (_ & _ & _ & _ & Hσ).
  assert (Hσ2 : heap_ok σ2).
  { intros h. destruct (decide (h = o)) as [->|H1]; [rewrite Eo; apply i64_range|].
    destruct (decide (h = head)) as [->|H2]; [rewrite Eh; apply i64_range|].
    rewrite Eoth by done. apply Hσ. }
  split; [by apply engine_ok_set_orders|]. split.
  - intros s' k lvl Hf. cbn [book set_orders orders] in *.
    destruct (Hl _ _ _ Hf) as (q & Hne' & Hq' & Hr).
    exists q. split; [done|]. split; [by apply (is_queue_links (orders e) σ2)|].
    intros h Hh. specialize (Hr _ Hh).
    assert (h ≠ o).
    { intros ->. apply Hno. by exists s', k, lvl, q. }
    destruct (decide (h = head)) as [->|Hhh].
    + destruct Hr as (H1 & H2 & H3). destruct (H3 ltac:(done)) as [Hst Hpos].
      unfold rests_at. rewrite Eh. cbn [oSide oPrice oStatus oQty set_Qty].
      split; [done|]. split; [done|]. intros Hex.
      destruct (decide (t = oQty (orders e !!! head))) as [->|Hneq]; [done|].
      split; [done|]. pose proof (Hσ head). rewrite i64_small by (unfold in_i64 in *; lia).
      lia.
    + unfold rests_at. rewrite Eoth by done.
      destruct Hr as (H1 & H2 & H3). split; [done|]. split; [done|].
      intros _. by apply H3.
  - split; [done|]. cbn [rq pool set_orders].
    intros h Hh Hlk. apply (Hret h Hh). by apply (linked_set_orders σ2 e h).
Qed.

(** ** Queues by price *)

(** The orders of these queues, queue after queue, each with the price of
    its queue. *)
Definition visits (qs : list (Z * list handle)) : list (Z * handle) :=
  qs ≫= λ kq, pair kq.1 <$> kq.2.

Lemma visits_cons k q qs : visits ((k, q) :: qs) = (pair k <$> q) ++ visits qs.
Proof. done. Qed.

Lemma visits_app qs1 qs2 : visits (qs1 ++ qs2) = visits qs1 ++ visits qs2.
Proof. unfold visits. apply bind_app. Qed.

Lemma elem_of_visits k h qs : (k, h) ∈ visits qs ↔ ∃ q, (k, q) ∈ qs ∧ h ∈ q.
Proof.
  unfold visits. rewrite list_elem_of_bind. split.
  - intros ([k' q] & Hin & Hq). simpl in Hin.
    apply list_elem_of_fmap in Hin as (h' & E & Hh). injection E as -> ->.
    by exists q.
  - intros (q & Hq & Hh). exists (k, q). split; [|done]. simpl.
    apply list_elem_of_fmap. by exists h.
Qed.

Lemma elem_of_visits_snd h qs : h ∈ (visits qs).*2 ↔ ∃ k q, (k, q) ∈ qs ∧ h ∈ q.
Proof.
  rewrite list_elem_of_fmap. split.
  - intros ([k h'] & -> & Hin). apply elem_of_visits in Hin as (q & ? & ?).
    by exists k, q.
  - intros (k & q & Hq & Hh). exists (k, h). split; [done|].
    apply elem_of_visits. by exists q.
Qed.

Lemma visits_snd_cons k q qs : (visits ((k, q) :: qs)).*2 = q ++ (visits qs).*2.
Proof.
  rewrite visits_cons, fmap_app. f_equal.
  rewrite <- list_fmap_compose. apply list_fmap_id.
Qed.

Lemma queues_NoDup e s (R : relation Z) qs :
  (∀ x, ¬ R x x) → levels_ok None e → StronglySorted R qs.*1 →
  (∀ k q, (k, q) ∈ qs →
          ∃ lvl, FindLevel (side_tree s (book e)) k = Some lvl ∧
                 is_queue (orders e) lvl q) →
  NoDup (visits qs).*2.
Proof.
  intros Hirr Hl Hs H.
  induction qs as [|[k q] qs IH]; [constructor|].
  cbn [fmap list_fmap fst] in Hs. apply StronglySorted_inv in Hs as [Hs Hk].
  rewrite visits_snd_cons. apply NoDup_app.
  destruct (H k q) as (lvl & Hf & Hqq); [apply elem_of_cons; by left|].
  split; [apply Hqq|]. split.
  - intros h Hh Hin. apply elem_of_visits_snd in Hin as (k' & q' & Hin' & Hh').
    destruct (H k' q') as (lvl' & Hf' & Hqq'); [apply elem_of_cons; by right|].
    destruct (not_in_both_levels _ _ _ _ _ _ _ _ _ _ _ Hl Hf Hqq Hf' Hqq' Hh Hh') as [_ ->].
    rewrite Forall_forall in Hk. apply (Hirr k). apply Hk.
    apply list_elem_of_fmap. by exists (k, q').
  - apply IH; [done|]. intros k' q' Hin. apply H. apply elem_of_cons. by right.
Qed.

(** [better s a b]: on side [s], price [a] has priority over price [b]. *)
Definition better (s : Side) (a b : Z) : Prop :=
  match s with Bid => b < a | Ask => a < b end.

(** The queues of one side of the book, best price first. *)
Definition priority_queues (e : Engine) (s : Side) (qs : list (Z * list handle))
  : Prop :=
  StronglySorted (better s) qs.*1 ∧
  ∀ k q, (k, q) ∈ qs ↔
         ∃ lvl, FindLevel (side_tree s (book e)) k = Some lvl ∧
                is_queue (orders e) lvl q.

Definition total_qty (σ : heap) (L : list handle) : Z :=
  foldr (λ h a, oQty (σ !!! h) + a) 0 L.

(** What a placement does to the resting orders of side [s]: the orders
    [gone], first in priority, have been filled completely, the others keep
    their places, only the first of them may have lost quantity, and the
    quantity lost in all is [m]. *)
Definition filled_in_priority (s : Side) (e e' : Engine) (m : Z) : Prop :=
  ∀ qs, priority_queues e s qs →
    ∃ gone qs',
      (visits qs).*2 = gone ++ (visits qs').*2 ∧
      priority_queues e' s qs' ∧
      (∀ h, h ∈ gone → oQty (orders e' !!! h) = 0 ∧
                       oStatus (orders e' !!! h) = Inactive) ∧
      (∀ h, h ∈ tail (visits qs').*2 →
            oQty (orders e' !!! h) = oQty (orders e !!! h)) ∧
      total_qty (orders e) (visits qs).*2 - total_qty (orders e') (visits qs).*2 = m.

Lemma better_irrefl s x : ¬ better s x x.
Proof. destruct s; simpl; lia. Qed.

Lemma total_qty_app σ l1 l2 : total_qty σ (l1 ++ l2) = total_qty σ l1 + total_qty σ l2.
Proof. induction l1 as [|h l1 IH]; simpl; [done|]. unfold total_qty in *. lia. Qed.

Lemma total_qty_ext σ σ' l :
  (∀ h, h ∈ l → oQty (σ' !!! h) = oQty (σ !!! h)) → total_qty σ' l = total_qty σ l.
Proof.
  induction l as [|h l IH]; intros H; simpl; [done|].
  rewrite (H h) by (apply elem_of_cons; by left).
  fold (total_qty σ' l). fold (total_qty σ l). rewrite IH; [done|].
  intros h' Hh'. apply H. apply elem_of_cons. by right.
Qed.

Lemma total_qty_zero σ l :
  (∀ h, h ∈ l → oQty (σ !!! h) = 0) → total_qty σ l = 0.
Proof.
  induction l as [|h l IH]; intros H; simpl; [done|].
  rewrite (H h) by (apply elem_of_cons; by left).
  fold (total_qty σ l). rewrite IH; [done|].
  intros h' Hh'. apply H. apply elem_of_cons. by right.
Qed.

Lemma filled_in_priority_refl s e : filled_in_priority s e e 0.
Proof.
  intros qs Hqs. exists [], qs. split; [done|]. split; [done|].
  split; [intros h Hh; by apply elem_of_nil in Hh|]. split; [done|]. lia.
Qed.

Lemma priority_NoDup e s qs :
  levels_ok None e → priority_queues e s qs → NoDup (visits qs).*2.
Proof.
  intros Hl [Hs Hq]. apply (queues_NoDup e s (better s)); [apply better_irrefl|done..|].
  intros k q. apply Hq.
Qed.

Lemma priority_linked e s qs h :
  priority_queues e s qs → h ∈ (visits qs).*2 → linked e h.
Proof.
  intros [_ Hq] Hh. apply elem_of_visits_snd in Hh as (k & q & Hin & Hh).
  apply Hq in Hin as (lvl & Hf & Hqq). by exists s, k, lvl, q.
Qed.

Lemma priority_frame e e' s qs :
  (∃ ex, levels_ok ex e) →
  (∀ k, FindLevel (side_tree s (book e')) k = FindLevel (side_tree s (book e)) k) →
  (∀ k lvl q, FindLevel (side_tree s (book e)) k = Some lvl →
              is_queue (orders e) lvl q → is_queue (orders e') lvl q) →
  priority_queues e s qs → priority_queues e' s qs.
Proof.
  intros [ex Hl] Hfind Hqueue [Hs Hq]. split; [done|].
  intros k q. rewrite Hq. split.
  - intros (lvl & Hf & Hqq). exists lvl. rewrite Hfind. split; [done|].
    by apply (Hqueue k).
  - intros (lvl & Hf & Hqq). rewrite Hfind in Hf. exists lvl. split; [done|].
    destruct (Hl _ _ _ Hf) as (q0 & _ & Hq0 & _).
    pose proof (Hqueue _ _ _ Hf Hq0) as Hq0'.
    by rewrite (is_queue_unique _ _ _ _ Hqq Hq0').
Qed.

Lemma priority_links σ e s qs :
  (∀ h, onext (σ !!! h) = onext (orders e !!! h) ∧
        oprev (σ !!! h) = oprev (orders e !!! h)) →
  priority_queues e s qs → priority_queues (set_orders σ e) s qs.
Proof.
  intros H [Hs Hq]. split; [done|]. intros k q. rewrite Hq.
  cbn [book orders set_orders].
  split; intros (lvl & Hf & Hqq); exists lvl; (split; [done|]);
    by apply (is_queue_links (orders e) σ).
Qed.

(** The best level of a side is the first of its queues. *)
Lemma priority_head side e best hd q2 qs :
  engine_ok e → priority_queues e (opposite side) qs →
  match side with
  | Bid => MinLevel (Asks (book e))
  | Ask => MaxLevel (Bids (book e))
  end = Some best →
  is_queue (orders e) best (hd :: q2) →
  ∃ qs_t, qs = (Price best, hd :: q2) :: qs_t.
Proof.
  intros He [Hs Hq] Hbest Hqq.
  pose proof (best_level side e best He Hbest) as Hf.
  assert (Hin : (Price best, hd :: q2) ∈ qs) by (apply Hq; by exists best).
  destruct qs as [|[k0 q0] qs_t]; [by apply elem_of_nil in Hin|].
  exists qs_t. apply elem_of_cons in Hin as [Hin|Hin]; [by rewrite Hin|].
  exfalso. cbn [fmap list_fmap fst] in Hs. apply StronglySorted_inv in Hs as [_ Hk].
  rewrite Forall_forall in Hk.
  assert (Hb : better (opposite side) k0 (Price best)).
  { apply Hk. apply list_elem_of_fmap. by exists (Price best, hd :: q2). }
  destruct (proj1 (Hq k0 q0)) as (lvl0 & Hf0 & _); [apply elem_of_cons; by left|].
  pose proof He as ([Hib _] & [Hia _] & _).
  destruct side; simpl in Hb, Hf0.
  - pose proof (MinLevel_least _ Hia) as H. rewrite Hbest in H.
    specialize (H k0 (FindLevel_key _ _ _ Hf0)). lia.
  - pose proof (MaxLevel_greatest _ Hib) as H. rewrite Hbest in H.
    specialize (H k0 (FindLevel_key _ _ _ Hf0)). lia.
Qed.

(** The queues of a side once the first order of its first queue is gone. *)
Lemma priority_pop e e' s k hd q2 qs_t :
  (∃ ex, levels_ok ex e) →
  priority_queues e s ((k, hd :: q2) :: qs_t) →
  match q2 with
  | [] => FindLevel (side_tree s (book e')) k = None
  | _ :: _ => ∃ lvl', FindLevel (side_tree s (book e')) k = Some lvl' ∧
                      is_queue (orders e') lvl' q2
  end →
  (∀ k', k' ≠ k →
         FindLevel (side_tree s (book e')) k' = FindLevel (side_tree s (book e)) k' ∧
         ∀ lvl1 q, FindLevel (side_tree s (book e)) k' = Some lvl1 →
                   is_queue (orders e) lvl1 q → is_queue (orders e') lvl1 q) →
  priority_queues e' s match q2 with [] => qs_t | _ :: _ => (k, q2) :: qs_t end.
Proof.
  intros [ex Hl] [Hs Hq] Hk Hoth.
  cbn [fmap list_fmap fst] in Hs. pose proof Hs as Hs0.
  apply StronglySorted_inv in Hs as [Hs Hlt]. rewrite Forall_forall in Hlt.
  assert (Htail : ∀ k' q', (k', q') ∈ qs_t → k' ≠ k).
  { intros k' q' Hin ->. apply (better_irrefl s k). apply Hlt.
    apply list_elem_of_fmap. by exists (k, q'). }
  assert (Hin_t : ∀ k' q', k' ≠ k →
            ((k', q') ∈ qs_t ↔
             ∃ lvl, FindLevel (side_tree s (book e')) k' = Some lvl ∧
                    is_queue (orders e') lvl q')).
  { intros k' q' Hne. destruct (Hoth k' Hne) as [Hfind Hqueue]. split.
    - intros Hin.
      destruct (proj1 (Hq k' q')) as (lvl & Hf & Hqq); [apply elem_of_cons; by right|].
      exists lvl. rewrite Hfind. split; [done|]. by apply Hqueue.
    - intros (lvl & Hf & Hqq). rewrite Hfind in Hf.
      destruct (Hl _ _ _ Hf) as (q0 & _ & Hq0 & _).
      pose proof (Hqueue _ _ Hf Hq0) as Hq0'.
      rewrite (is_queue_unique _ _ _ _ Hqq Hq0').
      assert (Hin : (k', q0) ∈ (k, hd :: q2) :: qs_t) by (apply Hq; by exists lvl).
      apply elem_of_cons in Hin as [Hin|Hin]; [|done]. by injection Hin as -> _. }
  destruct q2 as [|h2 q2].
  - split; [done|]. intros k' q'. destruct (decide (k' = k)) as [->|Hne].
    + split; [intros Hin; by destruct (Htail _ _ Hin)|].
      intros (lvl & Hf & _). by rewrite Hk in Hf.
    + by apply Hin_t.
  - destruct Hk as (lvl' & Hf' & Hq'). split; [done|].
    intros k' q'. rewrite elem_of_cons. destruct (decide (k' = k)) as [->|Hne].
    + split.
      * intros [E|Hin]; [|by destruct (Htail _ _ Hin)].
        injection E as ->. by exists lvl'.
      * intros (lvl & Hf & Hqq). left. rewrite Hf' in Hf. injection Hf as <-.
        by rewrite (is_queue_unique _ _ _ _ Hqq Hq').
    + rewrite <- (Hin_t k' q' Hne). split; [|by right].
      intros [E|Hin]; [|done]. by injection E as -> _.
Qed.

(** [within_limit side limit p]: an order of [side] with limit price
    [limit] accepts a trade at price [p]. *)
Definition within_limit (side : Side) (limit p : Z) : Prop :=
  match side with Bid => p ≤ limit | Ask => limit ≤ p end.

(** The loop of [match] on a well-used book: it trades with the head of the
    best opposite level, retires the heads it depletes, and keeps the book
    well formed; what the incoming order loses is what [filled] gains. *)
Lemma match_loop_book : ∀ fuel side o filled e,
  book_ok None e → in_flight e o →
  (Z.to_nat (ring_cap (rq e)) - length (ring_contents (rq e)) < fuel)%nat →
  0 ≤ filled → in_i64 (filled + oQty (orders e !!! o)) →
  match match_loop fuel side o filled e with
  | Ok (m, e') =>
      book_ok None e' ∧ in_flight e' o ∧ pool e' = pool e ∧
      filled ≤ m ∧
      orders e' !!! o = set_Qty (filled + oQty (orders e !!! o) - m) (orders e !!! o) ∧
      (0 ≤ oQty (orders e !!! o) → m ≤ filled + oQty (orders e !!! o)) ∧
      (∀ h, linked e' h → linked e h) ∧
      (∀ h, ¬ linked e h → h ≠ o → orders e' !!! h = orders e !!! h) ∧
      filled_in_priority (opposite side) e e' (m - filled) ∧
      (∀ h, h ≠ o → oQty (orders e' !!! h) ≠ oQty (orders e !!! h) →
            linked e h ∧ oSide (orders e !!! h) = opposite side ∧
            oQty (orders e' !!! h) < oQty (orders e !!! h) ∧
            (oType (orders e !!! o) = Market ∨
             within_limit side (oPrice (orders e !!! o)) (oPrice (orders e !!! h)))) ∧
      (∀ h, h ∈ ring_contents (rq e') → h ∈ ring_contents (rq e) ∨ linked e h)
  | Panic f => f = RetireRingFull
  end.
Proof.
  induction fuel as [|fuel IH]; intros side o filled e Hbk Hfl Hfuel Hfilled Hsum; [lia|].
  cbn [match_loop].
  assert (Hstop : book_ok None e ∧ in_flight e o ∧ pool e = pool e ∧ filled ≤ filled ∧
                  orders e !!! o
                  = set_Qty (filled + oQty (orders e !!! o) - filled) (orders e !!! o) ∧
                  (0 ≤ oQty (orders e !!! o) → filled ≤ filled + oQty (orders e !!! o)) ∧
                  (∀ h, linked e h → linked e h) ∧
                  (∀ h, ¬ linked e h → h ≠ o → orders e !!! h = orders e !!! h) ∧
                  filled_in_priority (opposite side) e e (filled - filled) ∧
                  (∀ h, h ≠ o → oQty (orders e !!! h) ≠ oQty (orders e !!! h) →
                        linked e h ∧ oSide (orders e !!! h) = opposite side ∧
                        oQty (orders e !!! h) < oQty (orders e !!! h) ∧
                        (oType (orders e !!! o) = Market ∨
                         within_limit side (oPrice (orders e !!! o)) (oPrice (orders e !!! h)))) ∧
                  (∀ h, h ∈ ring_contents (rq e) → h ∈ ring_contents (rq e) ∨ linked e h)).
  { split; [done|]. split; [done|]. split; [done|]. split; [lia|]. split.
    - replace (filled + oQty (orders e !!! o) - filled) with (oQty (orders e !!! o)) by lia.
      by rewrite set_Qty_id.
    - split; [lia|]. split; [done|]. split; [done|].
      split; [rewrite Z.sub_diag; apply filled_in_priority_refl|].
      split; [by intros h _ Hne|]. intros h Hh. by left. }
  destruct (0 <? oQty (orders e !!! o)) eqn:Hpos; [|done].
  apply Z.ltb_lt in Hpos.
  pose proof Hbk as (He & Hl & Hnd & Hret).
  pose proof (best_level side e) as Hbest.
  destruct (match side with
            | Bid => MinLevel (Asks (book e))
            | Ask => MaxLevel (Bids (book e))
            end) as [best|] eqn:Hmin; [|done].
  specialize (Hbest best He eq_refl).
  destruct (bool_decide _ && _) eqn:Hmk; [done|].
  assert (Hwl : oType (orders e !!! o) = Market ∨
                within_limit side (oPrice (orders e !!! o)) (Price best)).
  { apply andb_false_iff in Hmk as [Hmk|Hmk].
    - left. apply bool_decide_eq_false in Hmk.
      by destruct (decide (oType (orders e !!! o) = Market)).
    - right. destruct side; simpl; apply Z.ltb_ge in Hmk; lia. }
  destruct (Hl _ _ _ Hbest) as (q & Hqne & Hq & Hr).
  destruct q as [|hd q2]; [done|].
  pose proof Hq as (_ & Hhd & _). simpl in Hhd. rewrite Hhd.
  destruct (Hr hd ltac:(by apply elem_of_cons; left)) as (Hsd & Hpr & Hlive).
  destruct (Hlive ltac:(done)) as [_ Hhpos].
  pose proof He as (_ & _ & _ & _ & Hσ).
  pose proof (Hσ o) as Hio. pose proof (Hσ hd) as Hih.
  rewrite min_int64_spec.
  set (t := Z.min (oQty (orders e !!! o)) (oQty (orders e !!! hd))).
  assert (Ht : 0 < t ∧ t ≤ oQty (orders e !!! o) ∧ t ≤ oQty (orders e !!! hd)).
  { unfold t. lia. }
  destruct Hfl as [Hno Hnr].
  destruct (book_ok_trade e o hd _ best q2 t Hbk Hno Hbest Hq ltac:(lia)
              ltac:(unfold in_i64 in *; lia)) as [Hbk2 Hne].
  destruct (trade_state (orders e) o hd t Hne) as (Eo & Eh & Eoth & Elinks).
  cbv zeta in Hbk2, Eo, Eh, Eoth, Elinks. cbv zeta.
  set (σ2 := upd hd _ _) in *.
  rewrite i64_small in Eo by (unfold in_i64 in *; lia).
  rewrite i64_small in Eh by (unfold in_i64 in *; lia).
  rewrite i64_small by (unfold in_i64 in *; lia).
  rewrite Eh. cbn [oQty set_Qty].
  destruct (oQty (orders e !!! hd) - t =? 0) eqn:Ez.
  - apply Z.eqb_eq in Ez.
    rewrite decide_True in Hbk2 by lia.
    assert (Hq2 : is_queue (orders (set_orders σ2 e)) best ([] ++ hd :: q2)).
    { cbn [orders set_orders app]. by apply (is_queue_links (orders e) σ2). }
    pose proof (cancelOrder_book (Price best) hd (opposite side) (set_orders σ2 e)
                  (Some hd) best [] q2 Hbk2 (or_intror eq_refl) Hbest Hq2) as Hc.
    pose proof (cancelOrder_ok (Price best) hd (opposite side) (set_orders σ2 e) _
                  (proj1 Hbk2) (engine_ok_ring _ (proj1 Hbk2))) as Hc'.
    destruct (cancelOrder _ _ _ _) as [e1|f]; [|by destruct Hc].
    destruct Hc as (Hbk1 & Hring1 & Hpool1 & Hlk1 & Hpop1 & Hoth1 & Hsbl1 & Hfr1 & Hst1 & _).
    destruct Hc' as (_ & _ & _ & Hcap1 & Hqty1).
    cbn [mbind Result_bind]. cbn [rq pool set_orders orders] in *.
    assert (Hno1 : ¬ linked e1 o).
    { intros H. destruct (Hlk1 _ H) as [H' _].
      apply Hno. by apply (linked_set_orders σ2 e o). }
    assert (Eo1 : orders e1 !!! o = σ2 !!! o).
    { apply Hfr1; [|done]. intros H. apply Hno. by apply (linked_set_orders σ2 e o). }
    assert (Hfl1 : in_flight e1 o).
    { split; [done|]. rewrite Hring1, Hpool1. rewrite <- app_assoc.
      intros H. apply elem_of_app in H as [H|H].
      - apply Hnr. apply elem_of_app. by left.
      - apply elem_of_cons in H as [->|H]; [done|]. apply Hnr. apply elem_of_app. by right. }
    assert (Hfuel1 : (Z.to_nat (ring_cap (rq e1)) - length (ring_contents (rq e1)) < fuel)%nat).
    { rewrite Hring1, Hcap1, length_app. simpl.
      pose proof (ring_contents_length _ _ (engine_ok_ring _ (proj1 Hbk1))) as Hlen.
      rewrite Hring1, length_app, Hcap1 in Hlen. simpl in Hlen. lia. }
    specialize (IH side o (filled + t) e1 Hbk1 Hfl1 Hfuel1 ltac:(lia)).
    rewrite Eo1, Eo in IH. cbn [oQty set_Qty] in IH.
    specialize (IH ltac:(unfold in_i64 in *; lia)).
    destruct (match_loop fuel side o (filled + t) e1) as [[m e']|f]; [|done].
    destruct IH as (Hbk' & Hfl' & Hpool' & Hm & Eo' & Hle & Hlk' & Hfr' & Hfip' & Hlim' & Hrp').
    assert (Hlhd : linked e hd).
    { exists (opposite side), (Price best), best, (hd :: q2).
      split; [done|]. split; [done|]. by apply elem_of_cons; left. }
    assert (Hback : ∀ h, linked e1 h → linked e h ∧ h ≠ hd).
    { intros h Hh. destruct (Hlk1 _ Hh) as [H' ?]. split; [|done].
      by apply (linked_set_orders σ2 e h). }
    assert (Hkeep : ∀ h, h ≠ o → h ≠ hd →
                         oQty (orders e1 !!! h) = oQty (orders e !!! h)).
    { intros h H1 H2. rewrite Hqty1. cbn [orders set_orders]. by rewrite Eoth. }
    assert (Ehd' : orders e' !!! hd = orders e1 !!! hd).
    { apply Hfr'; [|by intros <-]. intros H. by destruct (Hback _ H). }
    split; [done|]. split; [done|]. split; [by rewrite Hpool'|]. split; [lia|].
    split.
    { rewrite Eo', set_Qty_set_Qty. f_equal. lia. }
    split; [intros _; lia|].
    split.
    { intros h Hh. by destruct (Hback _ (Hlk' _ Hh)). }
    split.
    { intros h Hnl Hho.
      assert (Hnhd : h ≠ hd) by (by intros ->).
      rewrite Hfr'; [|intros H; by destruct (Hback _ H)|done].
      rewrite Hfr1; [by apply Eoth| |done].
      intros H. by apply Hnl, (linked_set_orders σ2 e h). }
    split; [intros qs Hqs|].
    2:{ split.
        2:{ intros h Hh. destruct (Hrp' h Hh) as [Hh1|Hh1];
              [|right; by destruct (Hback _ Hh1)].
            rewrite Hring1 in Hh1. apply elem_of_app in Hh1 as [?|Hh1]; [by left|].
            apply list_elem_of_singleton in Hh1 as ->. by right. }
        intros h Hho Hch. destruct (decide (h = hd)) as [->|Hnhd].
        - split; [done|]. split; [done|]. rewrite Hpr. split; [|done].
          rewrite Ehd', Hqty1. cbn [orders set_orders]. rewrite Eh.
          cbn [oQty set_Qty]. lia.
        - rewrite <- (Hkeep h Hho Hnhd) in Hch.
          destruct (Hlim' h Hho Hch) as (Hl1 & Hs1 & Hlt1 & Hw1).
          pose proof (Hsbl1 h Hnhd) as (_ & Es & _ & Ep & _).
          cbn [orders set_orders] in Es, Ep.
          rewrite (Eoth h Hho Hnhd) in Es, Ep.
          rewrite Es in Hs1. rewrite Ep, ?Eo1, ?Eo in Hw1.
          cbn [oType oPrice set_Qty] in Hw1.
          rewrite (Hkeep h Hho Hnhd) in Hlt1.
          split; [by destruct (Hback _ Hl1)|]. done. }
    destruct (priority_head side e best hd q2 qs He Hqs Hmin Hq) as [qs_t ->].
    pose proof (priority_NoDup _ _ _ Hl Hqs) as HndP.
    rewrite visits_snd_cons in HndP. cbn [app] in HndP.
    apply NoDup_cons in HndP as [HhdP HndP].
    assert (Hqs1 : priority_queues e1 (opposite side)
                     match q2 with [] => qs_t | _ :: _ => (Price best, q2) :: qs_t end).
    { apply (priority_pop (set_orders σ2 e) e1 _ _ hd).
      - exists (Some hd). apply Hbk2.
      - by apply priority_links.
      - exact Hpop1.
      - intros k' Hk'. destruct (Hoth1 (opposite side) k' (or_intror Hk')) as [Hf1 Hq1].
        split; [done|]. intros lvl1 q Hfq Hqq. by destruct (Hq1 _ _ Hfq Hqq). }
    assert (EP1 : (visits match q2 with [] => qs_t | _ :: _ => (Price best, q2) :: qs_t end).*2
                  = q2 ++ (visits qs_t).*2).
    { destruct q2; [done|]. by rewrite visits_snd_cons. }
    destruct (Hfip' _ Hqs1) as (gone1 & qs' & EP & Hqs' & Hgone & Htl & Htot).
    rewrite EP1 in EP, Htot.
    assert (Hin1 : ∀ h, h ∈ q2 ++ (visits qs_t).*2 → h ≠ o ∧ h ≠ hd).
    { intros h Hh. split.
      - intros ->. apply Hno. apply (priority_linked _ _ _ _ Hqs).
        rewrite visits_snd_cons. cbn [app]. apply elem_of_cons. by right.
      - by intros ->. }
    exists (hd :: gone1), qs'. split.
    { rewrite visits_snd_cons. cbn [app]. by rewrite EP. }
    split; [done|]. split.
    { intros h Hh. apply elem_of_cons in Hh as [->|Hh]; [|by apply Hgone].
      rewrite Ehd', Hqty1. cbn [orders set_orders]. rewrite Eh. cbn [oQty set_Qty].
      split; [lia|done]. }
    split.
    { intros h Hh. rewrite (Htl h Hh).
      assert (Hin : h ∈ q2 ++ (visits qs_t).*2).
      { rewrite EP. apply elem_of_app. right.
        destruct ((visits qs').*2) as [|x l]; [done|]. apply elem_of_cons. by right. }
      destruct (Hin1 _ Hin). by apply Hkeep. }
    rewrite visits_snd_cons. cbn [app total_qty foldr].
    fold (total_qty (orders e) (q2 ++ (visits qs_t).*2)).
    fold (total_qty (orders e') (q2 ++ (visits qs_t).*2)).
    rewrite Ehd', Hqty1. cbn [orders set_orders]. rewrite Eh. cbn [oQty set_Qty].
    rewrite <- (total_qty_ext (orders e) (orders e1) (q2 ++ (visits qs_t).*2)).
    + lia.
    + intros h Hh. destruct (Hin1 _ Hh). by apply Hkeep.
  - apply Z.eqb_neq in Ez. cbn [mbind Result_bind].
    rewrite decide_False in Hbk2 by lia.
    assert (Hdone : oQty (orders (set_orders σ2 e) !!! o) ≤ 0).
    { cbn [orders set_orders]. rewrite Eo. cbn [oQty set_Qty]. unfold t in *. lia. }
    rewrite match_loop_exit by done.
    split; [done|]. split.
    { split.
      - intros H. apply Hno. by apply (linked_set_orders σ2 e o).
      - done. }
    split; [done|]. split; [lia|]. cbn [orders set_orders]. split.
    { rewrite Eo. f_equal. lia. }
    split; [intros _; lia|].
    split; [intros h Hh; by apply (linked_set_orders σ2 e h)|].
    assert (Hlhd : linked e hd).
    { exists (opposite side), (Price best), best, (hd :: q2).
      split; [done|]. split; [done|]. by apply elem_of_cons; left. }
    split.
    { intros h Hnl Hho. apply Eoth; [done|]. by intros ->. }
    split; [intros qs Hqs|].
    2:{ split; [|intros h Hh; left; exact Hh].
        intros h Hho Hch. destruct (decide (h = hd)) as [->|Hnhd].
        - split; [done|]. split; [done|]. rewrite Hpr. split; [|done].
          rewrite Eh. cbn [oQty set_Qty]. lia.
        - by rewrite (Eoth h Hho Hnhd) in Hch. }
    destruct (priority_head side e best hd q2 qs He Hqs Hmin Hq) as [qs_t ->].
    pose proof (priority_NoDup _ _ _ Hl Hqs) as HndP.
    rewrite visits_snd_cons in HndP. cbn [app] in HndP.
    apply NoDup_cons in HndP as [HhdP HndP].
    assert (Hin1 : ∀ h, h ∈ q2 ++ (visits qs_t).*2 →
                        oQty (σ2 !!! h) = oQty (orders e !!! h)).
    { intros h Hh. rewrite Eoth; [done| |by intros ->].
      intros ->. apply Hno. apply (priority_linked _ _ _ _ Hqs).
      rewrite visits_snd_cons. cbn [app]. apply elem_of_cons. by right. }
    exists [], ((Price best, hd :: q2) :: qs_t). split; [done|].
    split; [by apply priority_links|]. split.
    { intros h Hh. by apply elem_of_nil in Hh. }
    rewrite visits_snd_cons. cbn [app tail orders set_orders]. split; [done|].
    cbn [total_qty foldr].
    fold (total_qty (orders e) (q2 ++ (visits qs_t).*2)).
    fold (total_qty σ2 (q2 ++ (visits qs_t).*2)).
    rewrite (total_qty_ext (orders e) σ2 _ Hin1).
    rewrite Eh. cbn [oQty set_Qty]. lia.
Qed.

(** An operation that leaves the index alone and does not write to a linked
    order keeps the levels and links nothing. *)
Lemma levels_ok_frame e e' :
  levels_ok None e →
  (∀ s k, FindLevel (side_tree s (book e')) k = FindLevel (side_tree s (book e)) k) →
  (∀ h, linked e h → orders e' !!! h = orders e !!! h) →
  levels_ok None e' ∧ ∀ h, linked e' h → linked e h.
Proof.
  intros Hl Hfind Hfr.
  assert (Hq : ∀ s k lvl q, FindLevel (side_tree s (book e)) k = Some lvl →
                            is_queue (orders e) lvl q → is_queue (orders e') lvl q).
  { intros s k lvl q Hf Hq. eapply is_queue_frame; [|exact Hq].
    intros h Hh. rewrite Hfr; [done|]. by exists s, k, lvl, q. }
  split.
  - intros s k lvl Hf. rewrite Hfind in Hf.
    destruct (Hl _ _ _ Hf) as (q & Hne & Hq0 & Hr).
    exists q. split; [done|]. split; [by apply (Hq s k)|].
    intros h Hh. unfold rests_at. rewrite Hfr; [by apply Hr|]. by exists s, k, lvl, q.
  - intros h (s & k & lvl & q' & Hf & Hq' & Hh). rewrite Hfind in Hf.
    destruct (Hl _ _ _ Hf) as (q & Hne & Hq0 & Hr).
    rewrite (is_queue_unique _ _ _ _ Hq' (Hq _ _ _ _ Hf Hq0)) in Hh.
    by exists s, k, lvl, q.
Qed.

Lemma retire_unchecked_book o e :
  book_ok None e → in_flight e o →
  ∃ e', retire_unchecked o e = Ok e' ∧ book_ok None e' ∧
        pool e' = pool e ∧ book e' = book e ∧
        (∀ h, linked e' h → linked e h) ∧
        (ring_contents (rq e') = ring_contents (rq e) ∨
         ring_contents (rq e') = ring_contents (rq e) ++ [o]) ∧
        orders e' !!! o = set_Status Inactive (orders e !!! o) ∧
        ∀ h, h ≠ o → orders e' !!! h = orders e !!! h.
Proof.
  intros (He & Hl & Hnd & Hret) [Hno Hnr].
  destruct (retire_unchecked_ok o e He) as (e' & Hrun & He' & Hpool).
  exists e'. split; [done|].
  unfold retire_unchecked in Hrun. cbv zeta in Hrun.
  pose proof (engine_ok_ring _ He) as Hwf.
  destruct (Enqueue_spec _ _ o Hwf) as (b & q' & HE & _ & Hfull & Hroom).
  rewrite HE in Hrun. cbn [mbind Result_bind] in Hrun. injection Hrun as <-.
  unfold set_rq, set_orders in *. cbn [orders book rq pool globalEpoch] in *.
  assert (Hfr : ∀ h, h ≠ o → upd o (set_Status Inactive) (orders e) !!! h = orders e !!! h).
  { intros h Hh. by rewrite upd_lookup_ne. }
  destruct (levels_ok_frame e
              (mkEngine (upd o (set_Status Inactive) (orders e)) (pool e) q' (book e)
                        (globalEpoch e)) Hl) as [Hl' Hlk'].
  { done. }
  { intros h Hh. apply Hfr. by intros ->. }
  assert (Hring : ring_contents q' = ring_contents (rq e) ∨
                  ring_contents q' = ring_contents (rq e) ++ [o]).
  { destruct b.
    - right. destruct (Hroom eq_refl) as (_ & _ & _ & Hwf'). by apply ring_wf_contents.
    - left. by rewrite (Hfull eq_refl). }
  split.
  { split; [done|]. split; [done|]. unfold retired_ok. cbn [rq pool].
    assert (Hsub : ∀ h, h ∈ ring_contents q' ++ pool_free (pool e) →
                        h = o ∨ h ∈ ring_contents (rq e) ++ pool_free (pool e)).
    { intros h. destruct Hring as [-> | ->]; [by right|].
      rewrite <- app_assoc, !elem_of_app, elem_of_cons, elem_of_nil. tauto. }
    split.
    - destruct Hring as [-> | ->]; [done|].
      rewrite <- app_assoc. apply NoDup_app in Hnd as (Hn1 & Hn12 & Hn2).
      apply NoDup_app. split; [done|]. split.
      + intros h Hh Hin. apply elem_of_cons in Hin as [->|Hin].
        * apply Hnr. apply elem_of_app. by left.
        * by apply (Hn12 _ Hh).
      + apply NoDup_cons. split; [|done].
        intros H. apply Hnr. apply elem_of_app. by right.
    - intros h Hh Hlk. apply Hlk' in Hlk.
      destruct (Hsub _ Hh) as [->|Hin]; [done|]. by apply (Hret h). }
  split; [done|]. split; [done|]. split; [done|]. split; [done|].
  split; [by rewrite upd_lookup|done].
Qed.

Lemma is_queue_nil σ k : is_queue σ (mkLevel k None None 0) [].
Proof. split; [constructor|]. by split. Qed.

(** [enqueue] of a live order in flight: it becomes the last order of the
    level of its price on its side. *)
Lemma enqueue_book o e :
  book_ok None e → in_flight e o →
  oStatus (orders e !!! o) = Active → 0 < oQty (orders e !!! o) →
  onext (orders e !!! o) = None → oprev (orders e !!! o) = None →
  let s := oSide (orders e !!! o) in
  let p := oPrice (orders e !!! o) in
  ∃ e', enqueue o e = Ok e' ∧ book_ok None e' ∧
        pool e' = pool e ∧ rq e' = rq e ∧
        (∀ h, linked e' h → linked e h ∨ h = o) ∧
        (∀ h, same_but_links (orders e' !!! h) (orders e !!! h)) ∧
        (∀ s' k', (s' ≠ s ∨ k' ≠ p) →
                  FindLevel (side_tree s' (book e')) k'
                  = FindLevel (side_tree s' (book e)) k' ∧
                  ∀ lvl1 q, FindLevel (side_tree s' (book e)) k' = Some lvl1 →
                            is_queue (orders e) lvl1 q →
                            is_queue (orders e') lvl1 q ∧
                            ∀ h, h ∈ q → orders e' !!! h = orders e !!! h) ∧
        ∃ lvl' q, FindLevel (side_tree s (book e')) p = Some lvl' ∧
                  is_queue (orders e') lvl' (q ++ [o]) ∧
                  match FindLevel (side_tree s (book e)) p with
                  | Some lvl => is_queue (orders e) lvl q
                  | None => q = []
                  end.
Proof.
  intros (He & Hl & Hnd & Hret) [Hno Hnr] Hst Hpos Hnx Hpv. cbv zeta.
  destruct (enqueue_ok o e He) as (e' & Hrun & He' & Hpool).
  exists e'. split; [done|].
  unfold enqueue in Hrun. cbv zeta in Hrun.
  set (s := oSide (orders e !!! o)) in *. set (p := oPrice (orders e !!! o)) in *.
  apply bind_Ok in Hrun as ([lvl t1] & HU & Hrun).
  pose proof He as (Hb & Ha & _).
  destruct (side_tree_ok s _ Hb Ha) as [Hi _].
  assert (HU' : ∀ k', FindLevel t1 k'
                      = if decide (k' = p) then Some lvl else FindLevel (side_tree s (book e)) k').
  { intros k'. by destruct (FindLevel_UpsertLevel _ _ _ _ k' Hi HU) as (_ & -> & _). }
  destruct (FindLevel_UpsertLevel _ _ _ _ p Hi HU) as (Hi1 & _ & Hcase).
  (* the queue the order joins *)
  assert (Hold : ∃ q, is_queue (orders e) lvl q ∧ (o ∉ q) ∧
                      (∀ h, h ∈ q → rests_at (orders e) s p None h) ∧
                      (∀ h, h ∈ q → linked e h) ∧
                      match FindLevel (side_tree s (book e)) p with
                      | Some lvl0 => lvl0 = lvl
                      | None => q = []
                      end).
  { destruct Hcase as [Hf|[Hf ->]].
    - destruct (Hl _ _ _ Hf) as (q & _ & Hq & Hr). exists q.
      assert (Hlq : ∀ h, h ∈ q → linked e h).
      { intros h Hh. by exists s, p, lvl, q. }
      split; [done|]. split; [intros H; by apply Hno, Hlq|]. split; [done|].
      split; [done|]. by rewrite Hf.
    - exists []. split; [apply is_queue_nil|].
      split; [intros H; by apply elem_of_nil in H|].
      split; [intros h H; by apply elem_of_nil in H|].
      split; [intros h H; by apply elem_of_nil in H|]. by rewrite Hf. }
  destruct Hold as (q & Hq & Hoq & Hrq & Hlq & Hwas).
  destruct (Level_Enqueue_queue (orders e) lvl q o Hq Hoq Hnx (λ _, Hpv))
    as (Hq' & Hsame & Hframe).
  destruct (Level_Enqueue_spec lvl o (orders e)) as (Hprice & _ & _).
  destruct (Level_Enqueue lvl o (orders e)) as [lvl' σ']. cbn [fst snd] in *.
  injection Hrun as <-.
  unfold set_orders, set_book in *. cbn [orders book rq pool globalEpoch] in *.
  assert (Hpl : Price lvl = p).
  { apply (index_ok_Price t1); [done|]. rewrite HU'. by rewrite decide_True. }
  assert (Hfind' : ∀ s' k',
             FindLevel (side_tree s' (set_side_tree s (writeLevel t1 p lvl') (book e))) k'
             = if decide (s' = s ∧ k' = p) then Some lvl'
               else FindLevel (side_tree s' (book e)) k').
  { intros s' k'. rewrite side_tree_cases.
    assert (Hf1 : FindLevel t1 p = Some lvl) by (rewrite HU'; by rewrite decide_True).
    assert (Hp1 : Price lvl' = p) by congruence.
    destruct (decide (s' = s ∧ k' = p)) as [[-> ->]|Hne].
    - rewrite decide_True by done.
      destruct (FindLevel_writeLevel t1 p lvl lvl' p Hi1 Hf1 Hp1) as [_ ->].
      by rewrite decide_True.
    - destruct (decide (s' = s)) as [->|Hs]; [|done].
      destruct (FindLevel_writeLevel t1 p lvl lvl' k' Hi1 Hf1 Hp1) as [_ ->].
      assert (k' ≠ p) by (intros ->; by apply Hne).
      rewrite decide_False by done. rewrite HU'. by rewrite decide_False. }
  (* the other queues are untouched *)
  assert (Hother : ∀ s' k' lvl1 q1,
             (s' ≠ s ∨ k' ≠ p) →
             FindLevel (side_tree s' (book e)) k' = Some lvl1 →
             is_queue (orders e) lvl1 q1 →
             (∀ h, h ∈ q1 → σ' !!! h = orders e !!! h) ∧ is_queue σ' lvl1 q1).
  { intros s' k' lvl1 q1 Hne Hf1 Hq1.
    assert (Hfr : ∀ h, h ∈ q1 → σ' !!! h = orders e !!! h).
    { intros h Hh. apply Hframe.
      - intros Hin. destruct (Hrq _ Hin) as (Hs1 & Hp1 & _).
        destruct (linked_where _ _ _ _ _ _ _ Hl Hf1 Hq1 Hh) as [Hs2 Hp2].
        destruct Hne as [Hne|Hne]; apply Hne; congruence.
      - intros ->. apply Hno. by exists s', k', lvl1, q1. }
    split; [done|]. eapply is_queue_frame; [|exact Hq1].
    intros h Hh. by rewrite (Hfr h Hh). }
  assert (Hne_of : ∀ s' k', ¬ (s' = s ∧ k' = p) → s' ≠ s ∨ k' ≠ p).
  { intros s' k' Hne. destruct (decide (s' = s)) as [->|?]; [|by left].
    right. intros ->. by apply Hne. }
  assert (Hlevels : levels_ok None
            (mkEngine σ' (pool e) (rq e)
                      (set_side_tree s (writeLevel t1 p lvl') (book e)) (globalEpoch e))).
  { intros s' k' lvl1. cbn [book orders]. rewrite Hfind'.
    destruct (decide (s' = s ∧ k' = p)) as [[-> ->]|Hne].
    - intros [= <-]. exists (q ++ [o]).
      split; [by destruct q|]. split; [done|].
      intros h Hh. apply elem_of_app in Hh as [Hh|Hh].
      + apply (rests_at_same (orders e)); [apply Hsame|by apply Hrq].
      + apply list_elem_of_singleton in Hh as ->.
        apply (rests_at_same (orders e)); [apply Hsame|]. by repeat split.
    - intros Hf1. destruct (Hl _ _ _ Hf1) as (q0 & Hne0 & Hq0 & Hr0).
      destruct (Hother _ _ _ _ (Hne_of _ _ Hne) Hf1 Hq0) as [Hfr Hq0'].
      exists q0. split; [done|]. split; [done|].
      intros h Hh. unfold rests_at. rewrite (Hfr _ Hh). by apply Hr0. }
  assert (Hlk : ∀ h, linked (mkEngine σ' (pool e) (rq e)
                                      (set_side_tree s (writeLevel t1 p lvl') (book e))
                                      (globalEpoch e)) h →
                     linked e h ∨ h = o).
  { intros h (s' & k' & lvl1 & qh & Hf1 & Hq1 & Hh). cbn [book orders] in *.
    rewrite Hfind' in Hf1.
    destruct (decide (s' = s ∧ k' = p)) as [[-> ->]|Hne].
    - injection Hf1 as <-. rewrite (is_queue_unique _ _ _ _ Hq1 Hq') in Hh.
      apply elem_of_app in Hh as [Hh|Hh]; [left; by apply Hlq|].
      right. by apply list_elem_of_singleton in Hh.
    - destruct (Hl _ _ _ Hf1) as (q0 & Hne0 & Hq0 & Hr0).
      destruct (Hother _ _ _ _ (Hne_of _ _ Hne) Hf1 Hq0) as [Hfr Hq0'].
      rewrite (is_queue_unique _ _ _ _ Hq1 Hq0') in Hh.
      left. by exists s', k', lvl1, q0. }
  split.
  { split; [done|]. split; [done|]. unfold retired_ok. cbn [rq pool].
    split; [done|]. intros h Hh Hlinked.
    destruct (Hlk _ Hlinked) as [H| ->]; [by apply (Hret h)|done]. }
  split; [done|]. split; [done|]. split; [done|]. split; [done|]. split.
  { intros s' k' Hne. split.
    - rewrite Hfind'. rewrite decide_False; [done|].
      intros [-> ->]. by destruct Hne.
    - intros lvl1 q1 Hf1 Hq1. by destruct (Hother _ _ _ _ Hne Hf1 Hq1). }
  exists lvl', q. split.
  { rewrite Hfind'. by rewrite decide_True. }
  split; [done|].
  destruct (FindLevel (side_tree s (book e)) p); [by subst|done].
Qed.

Lemma Put_frame p o σ p' σ' :
  Put p o σ = Ok (p', σ') → ∀ h, h ≠ o → σ' !!! h = σ !!! h.
Proof.
  unfold Put. intros H h Hh. repeat case_match; simplify_eq; [done|].
  by rewrite !upd_lookup_ne.
Qed.

Lemma reclaim_loop_frame min : ∀ fuel e e' l,
  ring_wf (rq e) l → reclaim_loop fuel min e = Ok e' →
  ∀ h, h ∉ l → orders e' !!! h = orders e !!! h.
Proof.
  induction fuel as [|fuel IH]; intros e e' l Hwf H h Hh; [done|].
  simpl in H.
  destruct (Dequeue_spec _ _ Hwf) as (got & q1 & HD & _ & Hgot & Hwf1 & _).
  rewrite HD in H. cbn [mbind Result_bind] in H.
  destruct got as [o|]; [|by simplify_eq].
  destruct l as [|o' l']; [done|]. simpl in Hgot, Hwf1. injection Hgot as <-.
  destruct (_ || _).
  - apply bind_Ok in H as ([p' σ'] & HP & H).
    rewrite (IH (mkEngine σ' p' q1 (book e) (globalEpoch e)) e' l' Hwf1 H h).
    + simpl. apply (Put_frame _ _ _ _ _ HP). intros ->. apply Hh. by apply elem_of_cons; left.
    + intros Hin. apply Hh. apply elem_of_cons. by right.
  - apply bind_Ok in H as ([b q2] & _ & H). by simplify_eq.
Qed.

Lemma released_left_perm safe l :
  left_in_ring safe l ++ released safe l ≡ₚ l.
Proof.
  induction l as [|o l IH]; simpl; [done|].
  destruct (safe o).
  - rewrite <- Permutation_middle. by rewrite IH.
  - rewrite app_nil_r. by rewrite Permutation_app_comm.
Qed.

(** A reclaim keeps the book well formed: what it returns to the pool was
    in the ring, hence not linked. *)
Lemma advanceEpochAndReclaim_book rs e :
  book_ok None e →
  ∃ e', advanceEpochAndReclaim rs e = Ok e' ∧ book_ok None e' ∧
        book e' = book e ∧
        (∀ h, linked e h → orders e' !!! h = orders e !!! h) ∧
        (∀ h, linked e' h → linked e h).
Proof.
  intros (He & Hl & Hnd & Hret).
  pose proof (engine_ok_ring _ He) as Hwf.
  pose proof He as (_ & _ & _ & Hp & _).
  destruct (advanceEpochAndReclaim_spec rs e _ Hwf Hp)
    as (e' & Hrun & Hwf' & Hp' & Hfree & _ & Hbook & _).
  cbv zeta in Hwf', Hfree.
  destruct (advanceEpochAndReclaim_ok rs e He) as (e0 & Hrun0 & He').
  rewrite Hrun in Hrun0. injection Hrun0 as <-.
  exists e'. split; [done|].
  assert (Hfr : ∀ h, h ∉ ring_contents (rq e) → orders e' !!! h = orders e !!! h).
  { intros h Hh. unfold advanceEpochAndReclaim in Hrun.
    apply (reclaim_loop_frame _ _ (mkEngine (orders e) (pool e) (rq e) (book e)
                                             (u64 (globalEpoch e + 1)))
                              e' _ Hwf Hrun h Hh). }
  assert (Hfrl : ∀ h, linked e h → orders e' !!! h = orders e !!! h).
  { intros h Hh. apply Hfr. intros Hin. apply (Hret h); [|done].
    apply elem_of_app. by left. }
  destruct (levels_ok_frame e e' Hl) as [Hl' Hlk'].
  { intros s k. by rewrite Hbook. }
  { done. }
  split; [|done].
  split; [done|]. split; [done|].
  set (safe := releasable _ _) in *.
  assert (Hsub : left_in_ring safe (ring_contents (rq e)) ++ pool_free (pool e')
                 `sublist_of`
                 left_in_ring safe (ring_contents (rq e))
                 ++ (pool_free (pool e) ++ released safe (ring_contents (rq e)))).
  { apply sublist_app; [done|]. rewrite Hfree. apply sublist_take. }
  assert (Hperm : left_in_ring safe (ring_contents (rq e))
                  ++ (pool_free (pool e) ++ released safe (ring_contents (rq e)))
                  ≡ₚ ring_contents (rq e) ++ pool_free (pool e)).
  { rewrite (Permutation_app_comm (pool_free (pool e))), app_assoc.
    by rewrite released_left_perm. }
  unfold retired_ok. rewrite (ring_wf_contents _ _ Hwf'). split.
  - eapply sublist_NoDup; [|exact Hsub]. by rewrite Hperm.
  - intros h Hh Hlk. apply Hlk' in Hlk. apply (Hret h); [|done].
    rewrite <- Hperm. eapply elem_of_sublist; [exact Hh|exact Hsub].
Qed.

(** Writing to an order that is not linked, and taking orders out of the
    pool, keep the book well formed. *)
Lemma queues_kept_but o e e' s :
  ¬ linked e o →
  (∀ h, h ≠ o → onext (orders e' !!! h) = onext (orders e !!! h) ∧
                oprev (orders e' !!! h) = oprev (orders e !!! h)) →
  ∀ k lvl q, FindLevel (side_tree s (book e)) k = Some lvl →
             is_queue (orders e) lvl q → is_queue (orders e') lvl q.
Proof.
  intros Hno Hfr k lvl q Hf Hq. eapply is_queue_frame; [|exact Hq].
  intros h Hh. apply Hfr. intros ->. apply Hno. by exists s, k, lvl, q.
Qed.

(** What happens before and after the trades leaves the resting orders of
    the other side as they are. *)
Lemma filled_in_priority_pre s o e e0 e' m :
  ¬ linked e o → (∃ ex, levels_ok ex e) →
  (∀ k, FindLevel (side_tree s (book e0)) k = FindLevel (side_tree s (book e)) k) →
  (∀ k lvl q, FindLevel (side_tree s (book e)) k = Some lvl →
              is_queue (orders e) lvl q → is_queue (orders e0) lvl q) →
  (∀ h, h ≠ o → oQty (orders e0 !!! h) = oQty (orders e !!! h)) →
  filled_in_priority s e0 e' m → filled_in_priority s e e' m.
Proof.
  intros Hno Hl Hfind Hqueue Hqty Hfip qs Hqs.
  assert (Hne : ∀ h, h ∈ (visits qs).*2 → h ≠ o).
  { intros h Hh ->. apply Hno. by apply (priority_linked _ _ _ _ Hqs). }
  destruct (Hfip qs (priority_frame _ _ _ _ Hl Hfind Hqueue Hqs))
    as (gone & qs' & EP & Hqs' & Hgone & Htl & Htot).
  exists gone, qs'. split; [done|]. split; [done|]. split; [done|]. split.
  - intros h Hh. rewrite (Htl h Hh). apply Hqty, Hne. rewrite EP.
    apply elem_of_app. right.
    destruct ((visits qs').*2) as [|x l]; [done|]. apply elem_of_cons. by right.
  - rewrite <- Htot. f_equal. symmetry. apply total_qty_ext.
    intros h Hh. by apply Hqty, Hne.
Qed.

Lemma filled_in_priority_post s o e e1 e2 m :
  ¬ linked e o → (∃ ex, levels_ok ex e1) →
  (∀ k, FindLevel (side_tree s (book e2)) k = FindLevel (side_tree s (book e1)) k) →
  (∀ k lvl q, FindLevel (side_tree s (book e1)) k = Some lvl →
              is_queue (orders e1) lvl q → is_queue (orders e2) lvl q) →
  (∀ h, h ≠ o → oQty (orders e2 !!! h) = oQty (orders e1 !!! h) ∧
                oStatus (orders e2 !!! h) = oStatus (orders e1 !!! h)) →
  filled_in_priority s e e1 m → filled_in_priority s e e2 m.
Proof.
  intros Hno Hl Hfind Hqueue Hsame Hfip qs Hqs.
  assert (Hne : ∀ h, h ∈ (visits qs).*2 → h ≠ o).
  { intros h Hh ->. apply Hno. by apply (priority_linked _ _ _ _ Hqs). }
  destruct (Hfip qs Hqs) as (gone & qs' & EP & Hqs' & Hgone & Htl & Htot).
  exists gone, qs'. split; [done|].
  split; [by apply (priority_frame e1 e2)|]. split; [|split].
  - intros h Hh.
    assert (H : h ≠ o) by (apply Hne; rewrite EP; apply elem_of_app; by left).
    destruct (Hsame h H) as [-> ->]. by apply Hgone.
  - intros h Hh.
    assert (H : h ≠ o).
    { apply Hne. rewrite EP. apply elem_of_app. right.
      destruct ((visits qs').*2) as [|x l]; [done|]. apply elem_of_cons. by right. }
    destruct (Hsame h H) as [-> _]. by apply Htl.
  - rewrite <- Htot. f_equal. apply total_qty_ext.
    intros h Hh. by destruct (Hsame h (Hne h Hh)).
Qed.

Lemma retire_unchecked_priority s o e0 e e' m :
  book_ok None e → in_flight e o → ¬ linked e0 o →
  retire_unchecked o e = Ok e' →
  filled_in_priority s e0 e m → filled_in_priority s e0 e' m.
Proof.
  intros Hbk Hfl Hno Hr Hfip.
  destruct (retire_unchecked_book o e Hbk Hfl)
    as (e1 & Hrun & _ & _ & Hbook & _ & _ & Eo & Hfr).
  rewrite Hr in Hrun. injection Hrun as <-.
  apply (filled_in_priority_post s o e0 e e' m); [done| | | | |done].
  - exists None. apply Hbk.
  - intros k. by rewrite Hbook.
  - apply (queues_kept_but o); [apply Hfl|]. intros h Hh. by rewrite Hfr.
  - intros h Hh. by rewrite Hfr.
Qed.

Lemma enqueue_priority s o e0 e e' m :
  book_ok None e → in_flight e o → ¬ linked e0 o →
  oStatus (orders e !!! o) = Active → 0 < oQty (orders e !!! o) →
  onext (orders e !!! o) = None → oprev (orders e !!! o) = None →
  oSide (orders e !!! o) ≠ s →
  enqueue o e = Ok e' →
  filled_in_priority s e0 e m → filled_in_priority s e0 e' m.
Proof.
  intros Hbk Hfl Hno Hst Hpos Hnx Hpv Hside Hen Hfip.
  destruct (enqueue_book o e Hbk Hfl Hst Hpos Hnx Hpv)
    as (e1 & Hrun & _ & _ & _ & _ & Hsame & Hoth & _).
  rewrite Hen in Hrun. injection Hrun as <-.
  assert (Hne : ∀ k : Z, s ≠ oSide (orders e !!! o) ∨ k ≠ oPrice (orders e !!! o)).
  { intros k. left. by intros ->. }
  apply (filled_in_priority_post s o e0 e e' m); [done| | | | |done].
  - exists None. apply Hbk.
  - intros k. by destruct (Hoth s k (Hne k)).
  - intros k lvl q Hf Hq. destruct (Hoth s k (Hne k)) as [_ H].
    by destruct (H lvl q Hf Hq).
  - intros h _. by destruct (Hsame h) as (_ & _ & _ & _ & ? & _ & _ & ? & _).
Qed.

Lemma opposite_ne side : side ≠ opposite side.
Proof. by destruct side. Qed.

Lemma book_ok_frame e e' o :
  book_ok None e → ¬ linked e o → engine_ok e' →
  (∀ s, side_tree s (book e') = side_tree s (book e)) →
  rq e' = rq e → pool_free (pool e') `sublist_of` pool_free (pool e) →
  (∀ h, h ≠ o → orders e' !!! h = orders e !!! h) →
  book_ok None e' ∧ ∀ h, linked e' h → linked e h.
Proof.
  intros (He & Hl & Hnd & Hret) Hno He' Hside Hrq Hsub Hfr.
  destruct (levels_ok_frame e e' Hl) as [Hl' Hlk'].
  { intros s k. by rewrite Hside. }
  { intros h Hh. apply Hfr. by intros ->. }
  split; [|done]. split; [done|]. split; [done|].
  unfold retired_ok. rewrite Hrq.
  assert (Hsub' : ring_contents (rq e) ++ pool_free (pool e')
                  `sublist_of` ring_contents (rq e) ++ pool_free (pool e)).
  { by apply sublist_app. }
  split.
  - by eapply sublist_NoDup.
  - intros h Hh Hlk. apply Hlk' in Hlk. apply (Hret h); [|done].
    eapply elem_of_sublist; [exact Hh|exact Hsub'].
Qed.

Lemma pool_free_pop p o :
  pool_wf p → store p !! (top p - 1)%nat = Some o → top p ≠ 0%nat →
  pool_free p = pool_free (mkPool (store p) (top p - 1)) ++ [o].
Proof.
  intros Hwf Hlk Htop. unfold pool_free. cbn [top store].
  replace (top p) with (S (top p - 1)) at 1 by lia.
  by rewrite (take_S_r _ _ _ Hlk).
Qed.

(** A placement on a well-used book: it keeps the book well formed, and
    what the order has lost is what it has filled. *)
Lemma placeOrder_book side otype price id qty seq e o e' :
  book_ok None e → in_i64 qty →
  placeOrder side otype price id qty seq e = Ok (o, e') →
  book_ok None e' ∧
  ¬ linked e o ∧
  (∀ h, linked e' h → linked e h ∨ h = o) ∧
  oFilled (orders e' !!! o) + oQty (orders e' !!! o) = qty ∧
  0 ≤ oFilled (orders e' !!! o) ∧
  (0 ≤ qty → 0 ≤ oQty (orders e' !!! o)) ∧
  (linked e' o → oStatus (orders e' !!! o) = Active ∧ 0 < oQty (orders e' !!! o)) ∧
  filled_in_priority (opposite side) e e' (oFilled (orders e' !!! o)) ∧
  (∀ h, h ≠ o → oQty (orders e' !!! h) ≠ oQty (orders e !!! h) →
        linked e h ∧ oSide (orders e !!! h) = opposite side ∧
        oQty (orders e' !!! h) < oQty (orders e !!! h) ∧
        (otype = Market ∨ within_limit side price (oPrice (orders e !!! h)))) ∧
  store (pool e') = store (pool e) ∧
  (∀ h, h ∈ ring_contents (rq e') ++ pool_free (pool e') →
        h ∈ ring_contents (rq e) ++ pool_free (pool e) ∨ linked e h) ∧
  o ∈ pool_free (pool e).
Proof.
  intros Hbk Hqty H. pose proof Hbk as (He & Hl & Hnd & Hret).
  pose proof He as (Hb & Ha & _ & Hp & Hσ).
  destruct (placeOrder_cases _ _ _ _ _ _ _ _ _ Hp H) as (Htop & Hlk & Hcase).
  cbv zeta in Hcase.
  set (ord := placed_order id side otype price qty seq) in *.
  set (e2 := mkEngine _ _ _ _ _) in *.
  pose proof (pool_free_pop _ _ Hp Hlk Htop) as Hfree.
  assert (Hno : ¬ linked e o).
  { apply Hret. rewrite Hfree. rewrite !elem_of_app.
    right. right. by apply list_elem_of_singleton. }
  assert (Hnr : o ∉ ring_contents (rq e2) ++ pool_free (pool e2)).
  { unfold e2. cbn [rq pool]. rewrite Hfree, app_assoc in Hnd.
    apply NoDup_app in Hnd as (_ & Hd & _). intros Hin. apply (Hd _ Hin).
    by apply list_elem_of_singleton. }
  assert (He2 : engine_ok e2).
  { unfold engine_ok, e2. cbn [book orders pool rq Bids Asks].
    split; [done|]. split; [done|]. split; [by destruct He as (_ & _ & ? & _)|]. split.
    - unfold pool_wf in *. simpl. lia.
    - intros h. destruct (decide (o = h)) as [->|Hne].
      + by rewrite lookup_total_insert_eq.
      + rewrite lookup_total_insert_ne by done. apply Hσ. }
  destruct (book_ok_frame e e2 o Hbk Hno He2) as [Hbk2 Hlk2].
  { by intros []. }
  { done. }
  { unfold e2. cbn [pool]. rewrite Hfree. by apply sublist_inserts_r. }
  { intros h Hh. unfold e2. cbn [orders]. by rewrite lookup_total_insert_ne. }
  assert (Hfl2 : in_flight e2 o).
  { split; [|done]. intros Hx. by apply Hno, Hlk2. }
  assert (Eo2 : orders e2 !!! o = ord).
  { unfold e2. cbn [orders]. by rewrite lookup_total_insert_eq. }
  assert (Hpre : ∀ e1 m, filled_in_priority (opposite side) e2 e1 m →
                         filled_in_priority (opposite side) e e1 m).
  { intros e1 m. apply (filled_in_priority_pre _ o); [done|by exists None| | |].
    - intros k. unfold e2. by destruct side.
    - apply (queues_kept_but o); [done|]. intros h Hh. unfold e2. cbn [orders].
      by rewrite lookup_total_insert_ne.
    - intros h Hh. unfold e2. cbn [orders]. by rewrite lookup_total_insert_ne. }
  assert (Hprov : ∀ ex,
            pool ex = pool e2 →
            (∀ h, h ∈ ring_contents (rq ex) →
                  h = o ∨ h ∈ ring_contents (rq e2) ∨ linked e2 h) →
            store (pool ex) = store (pool e) ∧
            (∀ h, h ∈ ring_contents (rq ex) ++ pool_free (pool ex) →
                  h ∈ ring_contents (rq e) ++ pool_free (pool e) ∨ linked e h) ∧
            o ∈ pool_free (pool e)).
  { intros ex Hpx Hrx. rewrite Hpx. split; [done|].
    assert (Hoin : o ∈ ring_contents (rq e) ++ pool_free (pool e)).
    { rewrite Hfree, !elem_of_app. right. right. by apply list_elem_of_singleton. }
    split; [|rewrite Hfree; apply elem_of_app; right; by apply list_elem_of_singleton].
    intros h Hh. apply elem_of_app in Hh as [Hh|Hh].
    - destruct (Hrx h Hh) as [->|[Hx|Hx]]; [by left| |right; by apply Hlk2].
      left. apply elem_of_app. left. exact Hx.
    - left. rewrite Hfree, !elem_of_app. right. left. exact Hh. }
  destruct Hcase as [(-> & _ & Hret')|(_ & matched & e3 & Hm & Hd)].
  { (* FOK rejected *)
    destruct (retire_unchecked_book o e2 Hbk2 Hfl2)
      as (e0 & Hrun & Hbk' & Hpool' & _ & Hlk' & Hring' & Eo' & _).
    rewrite Hret' in Hrun. injection Hrun as <-.
    split; [done|]. split; [done|].
    split; [intros h Hh; left; by apply Hlk2, Hlk'|].
    rewrite Eo', Eo2. cbn [oFilled oQty oStatus set_Status ord placed_order].
    split; [lia|]. split; [lia|]. split; [done|].
    split; [intros Hx; exfalso; by apply Hno, Hlk2, Hlk'|].
    split.
    { apply Hpre.
      apply (retire_unchecked_priority _ o e2 e2 e' 0 Hbk2 Hfl2 (proj1 Hfl2) Hret').
      apply filled_in_priority_refl. }
    split.
    { intros h Hho Hne. exfalso. apply Hne.
      destruct (retire_unchecked_post o e2 e' Hret') as (_ & _ & _ & _ & _ & _ & -> & _).
      unfold e2. cbn [orders]. by rewrite lookup_total_insert_ne. }
    apply Hprov; [done|]. intros h Hh.
    destruct Hring' as [E|E]; rewrite E in Hh; [right; by left|].
    apply elem_of_app in Hh as [Hh|Hh]; [right; by left|].
    left. by apply list_elem_of_singleton in Hh. }
  assert (Hfuel : (Z.to_nat (ring_cap (rq e2)) - length (ring_contents (rq e2))
                   < S (length (buf (rq e))))%nat).
  { unfold ring_cap, e2. cbn [rq]. lia. }
  pose proof (match_loop_book _ side o 0 e2 Hbk2 Hfl2 Hfuel ltac:(lia)) as Hmb.
  rewrite Eo2 in Hmb. cbn [oQty ord placed_order] in Hmb.
  specialize (Hmb ltac:(by rewrite Z.add_0_l)).
  rewrite Hm in Hmb.
  destruct Hmb as (Hbk3 & Hfl3 & Hpool3 & Hm0 & Eo3 & Hle3 & Hlk3 & Hfr3 & Hfip3 & Hlim3 & Hrp3).
  rewrite Z.add_0_l in Eo3, Hle3.
  cbv zeta in Hd.
  set (e4 := set_orders _ e3) in *.
  assert (Eo4 : orders e4 !!! o = set_Filled matched (set_Qty (qty - matched) ord)).
  { unfold e4. cbn [orders set_orders]. by rewrite upd_lookup, Eo3. }
  assert (He4 : engine_ok e4).
  { apply engine_ok_set_orders; [by destruct Hbk3|].
    destruct Hbk3 as ((_ & _ & _ & _ & Hσ3) & _).
    intros h. rewrite oQty_upd by done. apply Hσ3. }
  destruct (book_ok_frame e3 e4 o Hbk3 (proj1 Hfl3) He4) as [Hbk4 Hlk4].
  { done. }
  { done. }
  { done. }
  { intros h Hh. unfold e4. cbn [orders set_orders]. by rewrite upd_lookup_ne. }
  assert (Hfl4 : in_flight e4 o).
  { split; [|by destruct Hfl3]. intros Hx. by apply (proj1 Hfl3), Hlk4. }
  assert (Hlk_e : ∀ h, linked e4 h → linked e h).
  { intros h Hh. by apply Hlk2, Hlk3, Hlk4. }
  assert (Hq3 : oQty (orders e3 !!! o) = qty - matched).
  { by rewrite Eo3. }
  assert (Hstay : e' = e4 →
          book_ok None e' ∧ ¬ linked e o ∧
          (∀ h, linked e' h → linked e h ∨ h = o) ∧
          oFilled (orders e' !!! o) + oQty (orders e' !!! o) = qty ∧
          0 ≤ oFilled (orders e' !!! o) ∧
          (0 ≤ qty → 0 ≤ oQty (orders e' !!! o)) ∧
          (linked e' o → oStatus (orders e' !!! o) = Active ∧
                         0 < oQty (orders e' !!! o))).
  { intros ->. split; [done|]. split; [done|].
    split; [intros h Hh; left; by apply Hlk_e|].
    rewrite Eo4. cbn [oFilled oQty oStatus set_Filled set_Qty ord placed_order].
    split; [lia|]. split; [lia|]. split; [intros Hq0; specialize (Hle3 Hq0); lia|].
    intros Hx. exfalso. by apply (proj1 Hfl4). }
  assert (Hretire : retire_unchecked o e4 = Ok e' →
          book_ok None e' ∧ ¬ linked e o ∧
          (∀ h, linked e' h → linked e h ∨ h = o) ∧
          oFilled (orders e' !!! o) + oQty (orders e' !!! o) = qty ∧
          0 ≤ oFilled (orders e' !!! o) ∧
          (0 ≤ qty → 0 ≤ oQty (orders e' !!! o)) ∧
          (linked e' o → oStatus (orders e' !!! o) = Active ∧
                         0 < oQty (orders e' !!! o))).
  { intros Hr.
    destruct (retire_unchecked_book o e4 Hbk4 Hfl4)
      as (e0 & Hrun & Hbk' & _ & _ & Hlk' & _ & Eo' & _).
    rewrite Hr in Hrun. injection Hrun as <-.
    split; [done|]. split; [done|].
    split; [intros h Hh; left; by apply Hlk_e, Hlk'|].
    rewrite Eo', Eo4. cbn [oFilled oQty oStatus set_Status set_Filled set_Qty ord placed_order].
    split; [lia|]. split; [lia|]. split; [intros Hq0; specialize (Hle3 Hq0); lia|].
    intros Hx. exfalso. by apply (proj1 Hfl4), Hlk'. }
  assert (Henq : enqueue o e4 = Ok e' → 0 < oQty (orders e3 !!! o) →
          book_ok None e' ∧ ¬ linked e o ∧
          (∀ h, linked e' h → linked e h ∨ h = o) ∧
          oFilled (orders e' !!! o) + oQty (orders e' !!! o) = qty ∧
          0 ≤ oFilled (orders e' !!! o) ∧
          (0 ≤ qty → 0 ≤ oQty (orders e' !!! o)) ∧
          (linked e' o → oStatus (orders e' !!! o) = Active ∧
                         0 < oQty (orders e' !!! o))).
  { intros Hen Hpos. rewrite Hq3 in Hpos.
    destruct (enqueue_book o e4 Hbk4 Hfl4) as (e0 & Hrun & Hbk' & _ & _ & Hlk' & Hsame & _).
    { by rewrite Eo4. }
    { rewrite Eo4. cbn [oQty set_Filled set_Qty]. lia. }
    { by rewrite Eo4. }
    { by rewrite Eo4. }
    rewrite Hen in Hrun. injection Hrun as <-.
    split; [done|]. split; [done|]. split.
    { intros h Hh. destruct (Hlk' _ Hh) as [Hx| ->]; [left; by apply Hlk_e|by right]. }
    destruct (Hsame o) as (_ & _ & _ & _ & -> & -> & _ & -> & _).
    rewrite Eo4. cbn [oFilled oQty oStatus set_Filled set_Qty ord placed_order].
    split; [lia|]. split; [lia|]. split; [lia|]. intros _. split; [done|lia]. }
  assert (Hold : book_ok None e' ∧ ¬ linked e o ∧
          (∀ h, linked e' h → linked e h ∨ h = o) ∧
          oFilled (orders e' !!! o) + oQty (orders e' !!! o) = qty ∧
          0 ≤ oFilled (orders e' !!! o) ∧
          (0 ≤ qty → 0 ≤ oQty (orders e' !!! o)) ∧
          (linked e' o → oStatus (orders e' !!! o) = Active ∧
                         0 < oQty (orders e' !!! o))).
  { destruct (oType (orders e3 !!! o)); repeat case_match;
      first [by apply Hstay | by apply Hretire
            | apply Henq; [done|]; by apply Z.ltb_lt ]. }
  destruct Hold as (H1 & H2 & H3 & H4 & H5 & H6 & H7).
  do 7 (split; [done|]).
  assert (HRP : pool e' = pool e4 ∧
                (ring_contents (rq e') = ring_contents (rq e4) ∨
                 ring_contents (rq e') = ring_contents (rq e4) ++ [o])).
  { assert (Hs : e' = e4 → pool e' = pool e4 ∧
                   (ring_contents (rq e') = ring_contents (rq e4) ∨
                    ring_contents (rq e') = ring_contents (rq e4) ++ [o])).
    { intros ->. split; [done|by left]. }
    assert (Hr : retire_unchecked o e4 = Ok e' → pool e' = pool e4 ∧
                   (ring_contents (rq e') = ring_contents (rq e4) ∨
                    ring_contents (rq e') = ring_contents (rq e4) ++ [o])).
    { intros Hr.
      destruct (retire_unchecked_book o e4 Hbk4 Hfl4)
        as (e0 & Hrun & _ & Hpool0 & _ & _ & Hring0 & _).
      rewrite Hr in Hrun. by injection Hrun as <-. }
    assert (Hn : enqueue o e4 = Ok e' → pool e' = pool e4 ∧
                   (ring_contents (rq e') = ring_contents (rq e4) ∨
                    ring_contents (rq e') = ring_contents (rq e4) ++ [o])).
    { intros Hen.
      destruct (enqueue_post o e4 e' He4 Hen) as (_ & _ & _ & _ & -> & -> & _).
      split; [done|by left]. }
    destruct (oType (orders e3 !!! o)); repeat case_match;
      first [by apply Hs | by apply Hr | by apply Hn]. }
  assert (HPROV : store (pool e') = store (pool e) ∧
                  (∀ h, h ∈ ring_contents (rq e') ++ pool_free (pool e') →
                        h ∈ ring_contents (rq e) ++ pool_free (pool e) ∨ linked e h) ∧
                  o ∈ pool_free (pool e)).
  { destruct HRP as [Hp' Hr']. apply Hprov.
    - rewrite Hp'. unfold e4. cbn [pool set_orders]. exact Hpool3.
    - assert (Hr4 : ∀ h, h ∈ ring_contents (rq e4) →
                         h = o ∨ h ∈ ring_contents (rq e2) ∨ linked e2 h).
      { intros h Hh. right. apply Hrp3. exact Hh. }
      intros h Hh. destruct Hr' as [E|E]; rewrite E in Hh; [by apply Hr4|].
      apply elem_of_app in Hh as [Hh|Hh]; [by apply Hr4|].
      left. by apply list_elem_of_singleton in Hh. }
  split.
  2:{ split; [|exact HPROV].
      (* the quantities of the other orders *)
      assert (HQ : ∀ h, oQty (orders e' !!! h) = oQty (orders e4 !!! h)).
      { assert (Hs : e' = e4 → ∀ h, oQty (orders e' !!! h) = oQty (orders e4 !!! h)).
        { by intros ->. }
        assert (Hr : retire_unchecked o e4 = Ok e' →
                     ∀ h, oQty (orders e' !!! h) = oQty (orders e4 !!! h)).
        { intros Hr. by destruct (retire_unchecked_post o e4 e' Hr)
            as (_ & _ & _ & _ & _ & _ & ? & _). }
        assert (Hn : enqueue o e4 = Ok e' →
                     ∀ h, oQty (orders e' !!! h) = oQty (orders e4 !!! h)).
        { intros Hen h.
          destruct (enqueue_post o e4 e' He4 Hen) as (_ & _ & _ & _ & _ & _ & Hsame & _).
          by destruct (Hsame h) as (_ & _ & _ & _ & ? & _). }
        destruct (oType (orders e3 !!! o)); repeat case_match;
          first [by apply Hs | by apply Hr | by apply Hn]. }
      intros h Hho Hne. rewrite HQ in Hne |- *.
      unfold e4 in Hne |- *. cbn [orders set_orders] in Hne |- *.
      rewrite upd_lookup_ne in Hne |- * by done.
      assert (E2 : orders e2 !!! h = orders e !!! h).
      { unfold e2. cbn [orders]. by rewrite lookup_total_insert_ne. }
      rewrite <- E2 in Hne.
      destruct (Hlim3 h Hho Hne) as (Hl3 & Hs3 & Hlt3 & Hw3).
      rewrite E2 in Hs3, Hlt3, Hw3. rewrite ?Eo2 in Hw3.
      split; [by apply Hlk2|]. split; [done|]. split; [done|].
      destruct Hw3 as [Hw3|Hw3]; [by left|].
      cbn [oType oPrice ord placed_order] in Hw3.
      destruct (decide (otype = Market)); [by left|by right]. }
  (* the resting orders of the other side *)
  rewrite Z.sub_0_r in Hfip3.
  assert (Hfip4 : filled_in_priority (opposite side) e e4 matched).
  { apply Hpre.
    apply (filled_in_priority_post _ o e2 e3 e4 matched); [apply Hfl2| | | | |done].
    - exists None. apply Hbk3.
    - done.
    - apply (queues_kept_but o); [apply Hfl3|]. intros h Hh. unfold e4.
      cbn [orders set_orders]. by rewrite upd_lookup_ne.
    - intros h Hh. unfold e4. cbn [orders set_orders]. by rewrite upd_lookup_ne. }
  assert (HF4 : oFilled (orders e4 !!! o) = matched) by (by rewrite Eo4).
  assert (HFstay : e' = e4 →
            filled_in_priority (opposite side) e e' (oFilled (orders e' !!! o))).
  { intros ->. by rewrite HF4. }
  assert (HFret : retire_unchecked o e4 = Ok e' →
            filled_in_priority (opposite side) e e' (oFilled (orders e' !!! o))).
  { intros Hr.
    destruct (retire_unchecked_book o e4 Hbk4 Hfl4)
      as (e0 & Hrun & _ & _ & _ & _ & _ & Eo' & _).
    rewrite Hr in Hrun. injection Hrun as <-.
    rewrite Eo'. cbn [oFilled set_Status]. rewrite HF4.
    by apply (retire_unchecked_priority _ o e e4 e' matched Hbk4 Hfl4 Hno Hr). }
  assert (HFenq : enqueue o e4 = Ok e' → 0 < oQty (orders e3 !!! o) →
            filled_in_priority (opposite side) e e' (oFilled (orders e' !!! o))).
  { intros Hen Hpos. rewrite Hq3 in Hpos.
    assert (Hp1 : oStatus (orders e4 !!! o) = Active) by (by rewrite Eo4).
    assert (Hp2 : 0 < oQty (orders e4 !!! o)).
    { rewrite Eo4. cbn [oQty set_Filled set_Qty]. lia. }
    assert (Hp3 : onext (orders e4 !!! o) = None) by (by rewrite Eo4).
    assert (Hp4 : oprev (orders e4 !!! o) = None) by (by rewrite Eo4).
    destruct (enqueue_book o e4 Hbk4 Hfl4 Hp1 Hp2 Hp3 Hp4)
      as (e0 & Hrun & _ & _ & _ & _ & Hsame & _).
    rewrite Hen in Hrun. injection Hrun as <-.
    destruct (Hsame o) as (_ & _ & _ & _ & _ & -> & _).
    rewrite HF4.
    apply (enqueue_priority _ o e e4 e' matched Hbk4 Hfl4 Hno Hp1 Hp2 Hp3 Hp4);
      [|done|done].
    rewrite Eo4. cbn [oSide set_Filled set_Qty ord placed_order].
    apply opposite_ne. }
  destruct (oType (orders e3 !!! o)); repeat case_match;
    first [by apply HFstay | by apply HFret
          | apply HFenq; [done|]; by apply Z.ltb_lt ].
Qed.

(** ** Runs in which every cancel names a linked order *)

(** Whether [o] is reached from [n] along the [next] pointers within
    [fuel] steps. *)
Fixpoint linkedb (fuel : nat) (σ : heap) (n : option handle) (o : handle) : bool :=
  match fuel, n with
  | S fuel', Some h =>
      if decide (h = o) then true else linkedb fuel' σ (onext (σ !!! h)) o
  | _, _ => false
  end.

(** The arguments have the types of the parameters, and a cancel names an
    order that is linked in the level of that price on that side. *)
Definition op_valid (fuel : nat) (e : Engine) (op : engine_op) : bool :=
  op_typed op &&
  match op with
  | OpCancel price o side =>
      match FindLevel (side_tree side (book e)) price with
      | Some lvl => linkedb fuel (orders e) (lvl_head lvl) o
      | None => false
      end
  | _ => true
  end.

Fixpoint valid_run (fuel : nat) (ops : list engine_op) (e : Engine) : bool :=
  match ops with
  | [] => true
  | op :: ops' =>
      op_valid fuel e op &&
      match engine_step e op with
      | Ok e' => valid_run fuel ops' e'
      | Panic _ => true
      end
  end.

Lemma linkedb_sound σ o : ∀ fuel q p,
  seg σ p q None → linkedb fuel σ (head q) o = true → o ∈ q.
Proof.
  induction fuel as [|fuel IH]; intros q p Hs H; [done|].
  destruct q as [|h q]; [done|]. simpl in H.
  destruct (decide (h = o)) as [->|Hne]; [by apply elem_of_cons; left|].
  destruct Hs as (_ & Hn & Hs). apply elem_of_cons. right.
  apply (IH q (Some h) Hs). rewrite Hn in H. by destruct q.
Qed.

Lemma op_valid_cancel fuel e price o side :
  levels_ok None e → op_valid fuel e (OpCancel price o side) = true →
  ∃ lvl q1 q2, FindLevel (side_tree side (book e)) price = Some lvl ∧
               is_queue (orders e) lvl (q1 ++ o :: q2).
Proof.
  intros Hl H. unfold op_valid in H. apply andb_prop in H as [_ H].
  destruct (FindLevel (side_tree side (book e)) price) as [lvl|] eqn:Hf; [|done].
  destruct (Hl _ _ _ Hf) as (q & _ & Hq & _).
  pose proof Hq as (_ & Hh & _ & Hs). rewrite Hh in H.
  apply (linkedb_sound _ _ _ _ _ Hs) in H.
  apply list_elem_of_split in H as (q1 & q2 & ->). by exists lvl, q1, q2.
Qed.

Lemma op_valid_typed fuel e op : op_valid fuel e op = true → op_typed op = true.
Proof. unfold op_valid. by intros [? _]%andb_prop. Qed.

Lemma engine_step_book fuel e op :
  book_ok None e → op_valid fuel e op = true →
  match engine_step e op with
  | Ok e' => book_ok None e'
  | Panic f => fatal f
  end.
Proof.
  intros Hbk Hv. pose proof (op_valid_typed _ _ _ Hv) as Hty.
  pose proof (engine_step_ok e op (proj1 Hbk) Hty) as Hok.
  destruct (engine_step e op) as [e'|f] eqn:Hstep; [|done].
  destruct op as [side otype price id qty seq|price o side|rs]; simpl in Hstep.
  - apply bind_Ok in Hstep as ([o e1] & Hpl & Hstep). injection Hstep as <-.
    destruct (op_typed_place _ _ _ _ _ _ Hty) as [Hq _].
    by destruct (placeOrder_book _ _ _ _ _ _ _ _ _ Hbk Hq Hpl) as (? & _).
  - destruct (op_valid_cancel _ _ _ _ _ (proj1 (proj2 Hbk)) Hv) as (lvl & q1 & q2 & Hf & Hq).
    pose proof (cancelOrder_book price o side e None lvl q1 q2 Hbk (or_introl eq_refl) Hf Hq) as H.
    rewrite Hstep in H. by destruct H.
  - destruct (advanceEpochAndReclaim_book rs e Hbk) as (e1 & H1 & ? & _).
    rewrite Hstep in H1. by injection H1 as <-.
Qed.

Lemma engine_exec_book fuel ops : ∀ e,
  book_ok None e → valid_run fuel ops e = true →
  match engine_exec ops e with
  | Ok e' => book_ok None e'
  | Panic f => fatal f
  end.
Proof.
  induction ops as [|op ops IH]; intros e Hbk Hv; simpl; [done|].
  simpl in Hv. apply andb_prop in Hv as [Hop Hv].
  pose proof (engine_step_book fuel e op Hbk Hop) as H.
  destruct (engine_step e op) as [e'|f]; simpl; [by apply IH|done].
Qed.

Lemma book_ok_new poolCap k epoch0 :
  0 ≤ k < 64 → book_ok None (newEngine poolCap (2 ^ k) epoch0).
Proof.
  intros Hk. split; [by apply engine_ok_new|]. split.
  - intros s kk lvl Hf. by destruct s.
  - assert (Hnl : ∀ h, ¬ linked (newEngine poolCap (2 ^ k) epoch0) h).
    { intros h (s & kk & lvl & q & Hf & _). by destruct s. }
    split; [|by intros h _].
    unfold newEngine. cbn [rq pool].
    rewrite (ring_wf_contents _ [] (ring_wf_new k Hk)). simpl.
    unfold pool_free, NewOrderPool. cbn [top store].
    rewrite take_ge by (by rewrite length_seq). apply NoDup_seq.
Qed.

(** Resting orders: after any run on a fresh engine in which every cancel
    names an order linked at that price and side, every level of the book
    holds a non-empty, properly linked FIFO of orders that are Active, have
    a positive remaining quantity and carry the side and price of the level;
    none of them is waiting in the ring or free in the pool, and no order is
    twice among the waiting and the free ones. *)
Theorem resting_orders_are_live_and_owned
        (fuel poolCap : nat) (k epoch0 : Z) (ops : list engine_op) :
  0 ≤ k < 64 →
  valid_run fuel ops (newEngine poolCap (2 ^ k) epoch0) = true →
  match engine_exec ops (newEngine poolCap (2 ^ k) epoch0) with
  | Ok e =>
      (∀ s price lvl,
         FindLevel (side_tree s (book e)) price = Some lvl →
         ∃ q, q ≠ [] ∧ is_queue (orders e) lvl q ∧
              ∀ h, h ∈ q →
                   oStatus (orders e !!! h) = Active ∧ 0 < oQty (orders e !!! h) ∧
                   oSide (orders e !!! h) = s ∧ oPrice (orders e !!! h) = price ∧
                   (h ∉ ring_contents (rq e)) ∧ (h ∉ pool_free (pool e))) ∧
      NoDup (ring_contents (rq e) ++ pool_free (pool e))
  | Panic f => f = PoolExhausted ∨ f = RetireRingFull
  end.
Proof.
  intros Hk Hv.
  pose proof (engine_exec_book fuel ops _ (book_ok_new poolCap k epoch0 Hk) Hv) as H.
  destruct (engine_exec ops _) as [e|f]; [|done].
  destruct H as (He & Hl & Hnd & Hret). split; [|done].
  intros s price lvl Hf. destruct (Hl _ _ _ Hf) as (q & Hne & Hq & Hr).
  exists q. split; [done|]. split; [done|].
  intros h Hh. destruct (Hr _ Hh) as (Hs & Hp & Hlive).
  destruct (Hlive ltac:(done)) as [Hst Hpos].
  split; [done|]. split; [done|]. split; [done|]. split; [done|].
  assert (Hlk : linked e h) by (by exists s, price, lvl, q).
  split; intros Hin; apply (Hret h); try done; apply elem_of_app; [by left|by right].
Qed.

(** Two asks at 100, a bid that takes the first and part of the second, a
    cancel of the second, and a reclaim. *)
Definition busy_ops : list engine_op :=
  [OpPlace Ask Limit 100 1 5 1; OpPlace Ask Limit 100 2 7 2;
   OpPlace Ask Limit 102 3 4 3; OpPlace Bid Limit 100 4 6 4;
   OpCancel 100 6%nat Ask; OpReclaim [mkReader 0]; OpPlace Bid Limit 99 5 2 5].

Lemma resting_orders_are_live_and_owned_witness :
  match engine_exec busy_ops (newEngine 8 (2 ^ 3) 0) with
  | Ok e =>
      (∀ s price lvl,
         FindLevel (side_tree s (book e)) price = Some lvl →
         ∃ q, q ≠ [] ∧ is_queue (orders e) lvl q ∧
              ∀ h, h ∈ q →
                   oStatus (orders e !!! h) = Active ∧ 0 < oQty (orders e !!! h) ∧
                   oSide (orders e !!! h) = s ∧ oPrice (orders e !!! h) = price ∧
                   (h ∉ ring_contents (rq e)) ∧ (h ∉ pool_free (pool e))) ∧
      NoDup (ring_contents (rq e) ++ pool_free (pool e))
  | Panic f => f = PoolExhausted ∨ f = RetireRingFull
  end.
Proof.
  apply (resting_orders_are_live_and_owned 8 8 3 0 busy_ops); [lia|].
  vm_compute. reflexivity.
Defined.

(** An order never fills more than it asked for: after a run in which every
    cancel names a linked order, a placement of quantity [qty] returns an
    order with [Filled + Qty = qty] and [Filled >= 0]; when [qty] is not
    negative, the remaining Qty is not negative either.  The order it returns
    was not linked in any level: the pool never hands out an order that is
    still in the book. *)
Theorem placement_conserves_quantity
        (fuel poolCap : nat) (k epoch0 : Z) (ops : list engine_op) (e : Engine)
        (side : Side) (otype : OrderType) (price id qty seq : Z)
        (o : handle) (e' : Engine) :
  0 ≤ k < 64 →
  valid_run fuel ops (newEngine poolCap (2 ^ k) epoch0) = true →
  engine_exec ops (newEngine poolCap (2 ^ k) epoch0) = Ok e →
  - 2 ^ 63 ≤ qty < 2 ^ 63 →
  placeOrder side otype price id qty seq e = Ok (o, e') →
  oFilled (orders e' !!! o) + oQty (orders e' !!! o) = qty ∧
  0 ≤ oFilled (orders e' !!! o) ∧
  (0 ≤ qty → 0 ≤ oQty (orders e' !!! o) ∧ oFilled (orders e' !!! o) ≤ qty) ∧
  (∀ s p lvl q, FindLevel (side_tree s (book e)) p = Some lvl →
                is_queue (orders e) lvl q → o ∉ q).
Proof.
  intros Hk Hv Hrun Hqty Hpl.
  pose proof (engine_exec_book fuel ops _ (book_ok_new poolCap k epoch0 Hk) Hv) as Hbk.
  rewrite Hrun in Hbk.
  destruct (placeOrder_book _ _ _ _ _ _ _ _ _ Hbk Hqty Hpl)
    as (_ & Hno & _ & Hsum & Hf & Hq & _).
  split; [done|]. split; [done|]. split.
  - intros H0. specialize (Hq H0). lia.
  - intros s p lvl q Hfind Hqq Hin. apply Hno. by exists s, p, lvl, q.
Qed.

Lemma placement_conserves_quantity_witness :
  oFilled (orders bid_rests_engine !!! 2%nat)
  + oQty (orders bid_rests_engine !!! 2%nat) = 8 ∧
  0 ≤ oFilled (orders bid_rests_engine !!! 2%nat) ∧
  (0 ≤ 8 → 0 ≤ oQty (orders bid_rests_engine !!! 2%nat) ∧
           oFilled (orders bid_rests_engine !!! 2%nat) ≤ 8) ∧
  (∀ s p lvl q, FindLevel (side_tree s (book one_ask_engine)) p = Some lvl →
                is_queue (orders one_ask_engine) lvl q → 2%nat ∉ q).
Proof.
  apply (placement_conserves_quantity 4 4 2 0 one_ask_ops one_ask_engine
           Bid Limit 100 2 8 2 2%nat bid_rests_engine).
  - lia.
  - vm_compute. reflexivity.
  - vm_compute. reflexivity.
  - lia.
  - vm_compute. reflexivity.
Defined.

(** A cancel of a linked order, after a run in which every cancel named a
    linked order: either the ring is full and the cancel panics, or the order
    is unlinked from its level, whose other orders keep their order, marked
    Inactive, stamped with the global epoch, and put last in the ring; its
    level is pruned exactly when it was alone there; every other level of the
    book is as it was, with the same queue of the same orders. *)
Theorem cancel_unlinks_and_retires
        (fuel poolCap : nat) (k epoch0 : Z) (ops : list engine_op) (e : Engine)
        (price : Z) (o : handle) (side : Side) :
  0 ≤ k < 64 →
  valid_run fuel (ops ++ [OpCancel price o side])
            (newEngine poolCap (2 ^ k) epoch0) = true →
  engine_exec ops (newEngine poolCap (2 ^ k) epoch0) = Ok e →
  ∃ lvl q1 q2,
    FindLevel (side_tree side (book e)) price = Some lvl ∧
    is_queue (orders e) lvl (q1 ++ o :: q2) ∧
    match cancelOrder price o side e with
    | Ok e' =>
        oStatus (orders e' !!! o) = Inactive ∧
        oretireEpoch (orders e' !!! o) = globalEpoch e ∧
        onext (orders e' !!! o) = None ∧ oprev (orders e' !!! o) = None ∧
        ring_contents (rq e') = ring_contents (rq e) ++ [o] ∧
        pool e' = pool e ∧
        match q1 ++ q2 with
        | [] => FindLevel (side_tree side (book e')) price = None
        | _ :: _ => ∃ lvl', FindLevel (side_tree side (book e')) price = Some lvl' ∧
                            is_queue (orders e') lvl' (q1 ++ q2)
        end ∧
        (∀ s' k', (s' ≠ side ∨ k' ≠ price) →
                  FindLevel (side_tree s' (book e')) k'
                  = FindLevel (side_tree s' (book e)) k' ∧
                  ∀ lvl1 q, FindLevel (side_tree s' (book e)) k' = Some lvl1 →
                            is_queue (orders e) lvl1 q →
                            is_queue (orders e') lvl1 q ∧
                            ∀ h, h ∈ q → orders e' !!! h = orders e !!! h) ∧
        (∀ h, h ≠ o → same_but_links (orders e' !!! h) (orders e !!! h))
    | Panic f =>
        f = RetireRingFull ∧ u64 (rq_head (rq e) - rq_tail (rq e)) = ring_cap (rq e)
    end.
Proof.
  intros Hk Hv Hrun.
  assert (Hv' : valid_run fuel ops (newEngine poolCap (2 ^ k) epoch0) = true ∧
                op_valid fuel e (OpCancel price o side) = true).
  { clear -Hv Hrun. revert Hv Hrun. generalize (newEngine poolCap (2 ^ k) epoch0).
    induction ops as [|op ops IH]; intros e0 Hv Hrun; simpl in *.
    - injection Hrun as <-. apply andb_prop in Hv as [Hv _]. done.
    - apply andb_prop in Hv as [Hop Hv]. rewrite Hop. simpl.
      destruct (engine_step e0 op) as [e1|f]; [|done]. by apply IH. }
  destruct Hv' as [Hv0 Hop].
  pose proof (engine_exec_book fuel ops _ (book_ok_new poolCap k epoch0 Hk) Hv0) as Hbk.
  rewrite Hrun in Hbk.
  destruct (op_valid_cancel _ _ _ _ _ (proj1 (proj2 Hbk)) Hop) as (lvl & q1 & q2 & Hf & Hq).
  exists lvl, q1, q2. split; [done|]. split; [done|].
  pose proof (cancelOrder_book price o side e None lvl q1 q2 Hbk (or_introl eq_refl) Hf Hq) as H.
  destruct (cancelOrder price o side e) as [e'|f]; [|done].
  destruct H as (_ & Hring & Hpool & _ & Hlv & Hoth & Hsame & _ & Hst & Hre & Hn & Hp).
  done.
Qed.

Definition two_asks_ops : list engine_op :=
  [OpPlace Ask Limit 100 1 5 1; OpPlace Ask Limit 100 2 7 2].

Definition two_asks_engine : Engine :=
  Eval vm_compute in
    match engine_exec two_asks_ops (newEngine 4 (2 ^ 2) 0) with
    | Ok e => e
    | Panic _ => newEngine 0 1 0
    end.

Lemma cancel_unlinks_and_retires_witness :
  ∃ lvl q1 q2,
    FindLevel (side_tree Ask (book two_asks_engine)) 100 = Some lvl ∧
    is_queue (orders two_asks_engine) lvl (q1 ++ 3%nat :: q2) ∧
    match cancelOrder 100 3%nat Ask two_asks_engine with
    | Ok e' =>
        oStatus (orders e' !!! 3%nat) = Inactive ∧
        oretireEpoch (orders e' !!! 3%nat) = globalEpoch two_asks_engine ∧
        onext (orders e' !!! 3%nat) = None ∧ oprev (orders e' !!! 3%nat) = None ∧
        ring_contents (rq e') = ring_contents (rq two_asks_engine) ++ [3%nat] ∧
        pool e' = pool two_asks_engine ∧
        match q1 ++ q2 with
        | [] => FindLevel (side_tree Ask (book e')) 100 = None
        | _ :: _ => ∃ lvl', FindLevel (side_tree Ask (book e')) 100 = Some lvl' ∧
                            is_queue (orders e') lvl' (q1 ++ q2)
        end ∧
        (∀ s' k', (s' ≠ Ask ∨ k' ≠ 100) →
                  FindLevel (side_tree s' (book e')) k'
                  = FindLevel (side_tree s' (book two_asks_engine)) k' ∧
                  ∀ lvl1 q, FindLevel (side_tree s' (book two_asks_engine)) k' = Some lvl1 →
                            is_queue (orders two_asks_engine) lvl1 q →
                            is_queue (orders e') lvl1 q ∧
                            ∀ h, h ∈ q → orders e' !!! h = orders two_asks_engine !!! h) ∧
        (∀ h, h ≠ 3%nat →
              same_but_links (orders e' !!! h) (orders two_asks_engine !!! h))
    | Panic f =>
        f = RetireRingFull ∧
        u64 (rq_head (rq two_asks_engine) - rq_tail (rq two_asks_engine))
        = ring_cap (rq two_asks_engine)
    end.
Proof.
  apply (cancel_unlinks_and_retires 4 4 2 0 two_asks_ops two_asks_engine
           100 3%nat Ask).
  - lia.
  - vm_compute. reflexivity.
  - vm_compute. reflexivity.
Defined.

(** ** Snapshots *)

(** The queues of one side of the book, by ascending price. *)
Definition side_queues (e : Engine) (s : Side) (qs : list (Z * list handle)) : Prop :=
  StronglySorted Z.lt qs.*1 ∧
  ∀ k q, (k, q) ∈ qs ↔
         ∃ lvl, FindLevel (side_tree s (book e)) k = Some lvl ∧
                is_queue (orders e) lvl q.

Lemma visit_level_spec {A} (visit : Z → handle → Order → A → A) σ price :
  ∀ q p fuel acc,
    seg σ p q None → (∀ h, h ∈ q → oStatus (σ !!! h) = Active) →
    (length q ≤ fuel)%nat →
    visit_level visit fuel σ price (head q) acc
    = Ok (foldl (λ a h, visit price h (σ !!! h) a) acc q).
Proof.
  induction q as [|h q IH]; intros p fuel acc Hs Hact Hlen.
  { by destruct fuel. }
  destruct fuel as [|fuel]; [simpl in Hlen; lia|].
  destruct Hs as (_ & Hn & Hs). cbn [head visit_level foldl].
  rewrite (Hact h) by (apply elem_of_cons; by left). rewrite Hn.
  assert (E : from_option Some None (head q) = head q) by by destruct q.
  rewrite E. apply (IH (Some h)); [done| |simpl in Hlen; lia].
  intros h' Hh'. apply Hact. apply elem_of_cons. by right.
Qed.

(** What the snapshot knows of a level and its queue. *)
Definition level_queue (σ : heap) (s : Side) (kv : Z * PriceLevel)
           (kq : Z * list handle) : Prop :=
  kq.1 = kv.1 ∧ Price kv.2 = kv.1 ∧ is_queue σ kv.2 kq.2 ∧
  ∀ h, h ∈ kq.2 → rests_at σ s kv.1 None h.

Lemma level_queues_exist σ s (els : list (Z * PriceLevel)) :
  (∀ kv, kv ∈ els → Price kv.2 = kv.1 ∧ level_ok σ s kv.1 None kv.2) →
  ∃ qs, Forall2 (level_queue σ s) els qs.
Proof.
  induction els as [|[k lvl] els IH]; intros H.
  { exists []. constructor. }
  destruct IH as (qs & Hqs).
  { intros kv Hkv. apply H. apply elem_of_cons. by right. }
  destruct (H (k, lvl)) as (Hp & q & _ & Hq & Hr); [apply elem_of_cons; by left|].
  exists ((k, q) :: qs). constructor; [|done]. done.
Qed.

Lemma level_queues_keys σ s els qs :
  Forall2 (level_queue σ s) els qs → qs.*1 = els.*1.
Proof.
  induction 1 as [|kv kq els qs (E & _) _ IH]; [done|].
  cbn [fmap list_fmap]. by rewrite E, IH.
Qed.

Lemma level_queues_walk {A} (visit : Z → handle → Order → A → A) σ s fuel :
  ∀ els qs acc,
    Forall2 (level_queue σ s) els qs →
    Forall (λ kq, (length kq.2 ≤ fuel)%nat) qs →
    fold_stop (λ lvl (acc : Result A),
                 (true, a ← acc; visit_level visit fuel σ (Price lvl) (lvl_head lvl) a))
              els.*2 (Ok acc)
    = Ok (foldl (λ a kh, visit kh.1 kh.2 (σ !!! kh.2) a) acc (visits qs)).
Proof.
  intros els qs acc H. revert acc.
  induction H as [|[k lvl] [k' q] els qs (E & Hp & Hq & Hr) _ IH]; intros acc Hlen.
  { done. }
  apply Forall_cons in Hlen as [Hl Hlen]. simpl in E, Hp, Hq, Hr, Hl. subst k'.
  cbn [fmap list_fmap snd fold_stop]. cbn [mbind Result_bind].
  destruct Hq as (_ & Hhd & _ & Hs). rewrite Hhd, Hp.
  rewrite (visit_level_spec visit σ k q None fuel acc Hs); [|intros h Hh; by apply (Hr h Hh)|done].
  rewrite IH by done. rewrite visits_cons, foldl_app. f_equal. f_equal.
  by rewrite foldl_fmap.
Qed.

Lemma side_queues_exist e s :
  book_ok None e →
  ∃ qs, Forall2 (level_queue (orders e) s) (elements (root (side_tree s (book e)))) qs ∧
        side_queues e s qs.
Proof.
  intros ((Hb & Ha & _) & Hl & _).
  assert (Hi : index_ok (side_tree s (book e))) by (destruct s; [apply Hb|apply Ha]).
  pose proof (index_ok_sorted _ Hi) as Hs.
  destruct (level_queues_exist (orders e) s (elements (root (side_tree s (book e)))))
    as (qs & Hqs).
  { intros [k lvl] Hin. simpl.
    pose proof (FindLevel_from_elem _ _ _ Hs Hin) as Hf.
    split; [by apply (index_ok_Price _ _ _ Hi Hf)|]. by apply (Hl s k lvl). }
  exists qs. split; [done|]. split.
  { rewrite (level_queues_keys _ _ _ _ Hqs). by apply sorted_keys. }
  intros k q. split.
  - intros Hin. apply list_elem_of_lookup in Hin as (i & Hi').
    destruct (Forall2_lookup_r _ _ _ _ _ Hqs Hi') as ([k' lvl] & Hel & E & _ & Hq & _).
    simpl in E, Hq. subst k'. exists lvl. split; [|done].
    apply FindLevel_from_elem; [done|]. by apply list_elem_of_lookup_2 in Hel.
  - intros (lvl & Hf & Hq). apply FindLevel_from_Some in Hf.
    apply list_elem_of_lookup in Hf as (i & Hi').
    destruct (Forall2_lookup_l _ _ _ _ _ Hqs Hi') as ([k' q'] & Hel & E & _ & Hq' & _).
    simpl in E, Hq'. subst k'.
    rewrite (is_queue_unique _ _ _ _ Hq Hq'). by apply list_elem_of_lookup_2 in Hel.
Qed.

Lemma side_visits_NoDup e s qs :
  levels_ok None e → side_queues e s qs → NoDup (visits qs).*2.
Proof.
  intros Hl [Hs Hq]. apply (queues_NoDup e s Z.lt); [lia|done..|].
  intros k q. apply Hq.
Qed.

Lemma Result_bind_Ok {A B} (a : A) (k : A → Result B) : (Ok a ≫= k) = k a.
Proof. done. Qed.

(** A snapshot visits every resting order exactly once, in priority order.
    After a run in which every cancel names a linked order, the bids and the
    asks of the book are queues by price; with [fuel] no less than the
    longest queue, [SnapshotActiveIter] returns, having called [visit] on the
    orders of the bid queues from the highest price down and then on those of
    the ask queues from the lowest price up, each queue oldest first.  The
    orders visited are all Active, with a positive Qty and the price of
    their level, no order is visited twice, and the reader's epoch is 0 once
    more at the end. *)
Theorem snapshot_visits_resting_orders
        (fuel poolCap : nat) (k epoch0 : Z) (ops : list engine_op) (e : Engine) :
  0 ≤ k < 64 →
  valid_run fuel ops (newEngine poolCap (2 ^ k) epoch0) = true →
  engine_exec ops (newEngine poolCap (2 ^ k) epoch0) = Ok e →
  ∃ bids asks,
    side_queues e Bid bids ∧ side_queues e Ask asks ∧
    NoDup (visits (reverse bids ++ asks)).*2 ∧
    (∀ p h, (p, h) ∈ visits (reverse bids ++ asks) →
            oStatus (orders e !!! h) = Active ∧ 0 < oQty (orders e !!! h) ∧
            oPrice (orders e !!! h) = p) ∧
    ∀ (A : Type) (visit : Z → handle → Order → A → A) (fuel' : nat)
      (r : Reader) (acc : A),
      Forall (λ kq, (length kq.2 ≤ fuel')%nat) (bids ++ asks) →
      SnapshotActiveIter visit fuel' r e acc
      = Ok (mkReader 0,
            foldl (λ a ph, visit ph.1 ph.2 (orders e !!! ph.2) a) acc
                  (visits (reverse bids ++ asks))).
Proof.
  intros Hk Hv Hrun.
  pose proof (engine_exec_book fuel ops _ (book_ok_new poolCap k epoch0 Hk) Hv) as Hbk.
  rewrite Hrun in Hbk.
  destruct (side_queues_exist e Bid Hbk) as (bids & HB2 & HB).
  destruct (side_queues_exist e Ask Hbk) as (asks & HA2 & HA).
  pose proof (proj1 (proj2 Hbk)) as Hl.
  exists bids, asks. split; [done|]. split; [done|]. split; [|split].
  - rewrite visits_app, fmap_app. apply NoDup_app. split; [|split].
    + assert (P : (visits (reverse bids)).*2 ≡ₚ (visits bids).*2).
      { unfold visits. by rewrite reverse_Permutation. }
      rewrite P. by apply (side_visits_NoDup e Bid).
    + intros h Hb Ha.
      apply elem_of_visits_snd in Hb as (kb & qb & Hb & Hhb).
      apply elem_of_visits_snd in Ha as (ka & qa & Ha & Hha).
      rewrite elem_of_reverse in Hb.
      apply (proj2 HB) in Hb as (lb & Hfb & Hqb).
      apply (proj2 HA) in Ha as (la & Hfa & Hqa).
      by destruct (not_in_both_levels _ _ _ _ _ _ _ _ _ _ _ Hl Hfb Hqb Hfa Hqa Hhb Hha).
    + by apply (side_visits_NoDup e Ask).
  - intros p h Hin. apply elem_of_visits in Hin as (q & Hq & Hh).
    assert (∃ s lvl, FindLevel (side_tree s (book e)) p = Some lvl ∧
                     is_queue (orders e) lvl q) as (s & lvl & Hf & Hqq).
    { apply elem_of_app in Hq as [Hq|Hq].
      - rewrite elem_of_reverse in Hq. apply (proj2 HB) in Hq as (lvl & ? & ?).
        by exists Bid, lvl.
      - apply (proj2 HA) in Hq as (lvl & ? & ?). by exists Ask, lvl. }
    destruct (Hl s p lvl Hf) as (q' & _ & Hq' & Hr).
    rewrite (is_queue_unique _ _ _ _ Hq' Hqq) in Hr.
    destruct (Hr h Hh) as (_ & Hp & Hact). destruct Hact as [? ?]; [done|]. done.
  - intros A visit fuel' r acc Hlen. apply Forall_app in Hlen as [HlenB HlenA].
    unfold SnapshotActiveIter.
    rewrite ForEachDescending_fold, Result_bind_Ok.
    rewrite ForEachAscending_fold, Result_bind_Ok.
    unfold levels. rewrite <- fmap_reverse.
    rewrite (level_queues_walk visit (orders e) Bid fuel' _ (reverse bids) acc);
      [|by apply Forall2_reverse|by apply Forall_reverse].
    rewrite (level_queues_walk visit (orders e) Ask fuel' _ asks _ HA2 HlenA).
    rewrite Result_bind_Ok. by rewrite visits_app, foldl_app.
Qed.

Definition busy_engine : Engine :=
  Eval vm_compute in
    match engine_exec busy_ops (newEngine 8 (2 ^ 3) 0) with
    | Ok e => e
    | Panic _ => newEngine 0 1 0
    end.

Lemma snapshot_visits_resting_orders_witness :
  ∃ bids asks,
    side_queues busy_engine Bid bids ∧ side_queues busy_engine Ask asks ∧
    NoDup (visits (reverse bids ++ asks)).*2 ∧
    (∀ p h, (p, h) ∈ visits (reverse bids ++ asks) →
            oStatus (orders busy_engine !!! h) = Active ∧
            0 < oQty (orders busy_engine !!! h) ∧
            oPrice (orders busy_engine !!! h) = p) ∧
    ∀ (A : Type) (visit : Z → handle → Order → A → A) (fuel' : nat)
      (r : Reader) (acc : A),
      Forall (λ kq, (length kq.2 ≤ fuel')%nat) (bids ++ asks) →
      SnapshotActiveIter visit fuel' r busy_engine acc
      = Ok (mkReader 0,
            foldl (λ a ph, visit ph.1 ph.2 (orders busy_engine !!! ph.2) a) acc
                  (visits (reverse bids ++ asks))).
Proof.
  apply (snapshot_visits_resting_orders 8 8 3 0 busy_ops busy_engine).
  - lia.
  - vm_compute. reflexivity.
  - vm_compute. reflexivity.
Defined.

Lemma side_queues_priority e s qs :
  side_queues e s qs →
  priority_queues e s match s with Bid => reverse qs | Ask => qs end.
Proof.
  intros [Hs Hq]. destruct s.
  - split.
    + rewrite fmap_reverse.
      apply (StronglySorted_impl (flip Z.lt)); [by intros x y|].
      by apply StronglySorted_reverse.
    + intros k q. rewrite elem_of_reverse. apply Hq.
  - split; [|done]. by apply (StronglySorted_impl Z.lt); [intros x y|].
Qed.

(** Price-time priority.  After a run in which every cancel names a linked
    order, take the resting orders of the side opposite to a placement, best
    price first and oldest first within a price.  The placement fills them in
    that order: the orders it removes from the book are the first ones, each
    filled completely (Qty 0, Inactive); the orders behind keep their places,
    and only the first of them can have lost quantity.  The quantity that
    the resting orders lose in all is the Filled of the incoming order. *)
Theorem placement_fills_in_priority
        (fuel poolCap : nat) (k epoch0 : Z) (ops : list engine_op) (e : Engine)
        (side : Side) (otype : OrderType) (price id qty seq : Z)
        (o : handle) (e' : Engine) :
  0 ≤ k < 64 →
  valid_run fuel ops (newEngine poolCap (2 ^ k) epoch0) = true →
  engine_exec ops (newEngine poolCap (2 ^ k) epoch0) = Ok e →
  - 2 ^ 63 ≤ qty < 2 ^ 63 →
  placeOrder side otype price id qty seq e = Ok (o, e') →
  ∃ qs gone qs',
    priority_queues e (opposite side) qs ∧
    priority_queues e' (opposite side) qs' ∧
    (visits qs).*2 = gone ++ (visits qs').*2 ∧
    (∀ h, h ∈ gone → oQty (orders e' !!! h) = 0 ∧
                     oStatus (orders e' !!! h) = Inactive) ∧
    (∀ h, h ∈ tail (visits qs').*2 →
          oQty (orders e' !!! h) = oQty (orders e !!! h)) ∧
    total_qty (orders e) (visits qs).*2 - total_qty (orders e') (visits qs).*2
    = oFilled (orders e' !!! o).
Proof.
  intros Hk Hv Hrun Hqty Hpl.
  pose proof (engine_exec_book fuel ops _ (book_ok_new poolCap k epoch0 Hk) Hv) as Hbk.
  rewrite Hrun in Hbk.
  destruct (placeOrder_book _ _ _ _ _ _ _ _ _ Hbk Hqty Hpl)
    as (_ & _ & _ & _ & _ & _ & _ & Hfip & _).
  destruct (side_queues_exist e (opposite side) Hbk) as (qs0 & _ & Hqs0).
  apply side_queues_priority in Hqs0.
  destruct (Hfip _ Hqs0) as (gone & qs' & EP & Hqs' & Hgone & Htl & Htot).
  by eexists _, gone, qs'.
Qed.

(** The book of three asks after a Limit bid of 9 at 101: it takes the 5 at
    100 and 4 of the 7 at 101. *)
Definition bid_sweeps_engine : Engine :=
  Eval vm_compute in
    match placeOrder Bid Limit 101 4 9 4 three_asks_engine with
    | Ok (_, e) => e
    | Panic _ => newEngine 0 1 0
    end.

Lemma placement_fills_in_priority_witness :
  ∃ qs gone qs',
    priority_queues three_asks_engine (opposite Bid) qs ∧
    priority_queues bid_sweeps_engine (opposite Bid) qs' ∧
    (visits qs).*2 = gone ++ (visits qs').*2 ∧
    (∀ h, h ∈ gone → oQty (orders bid_sweeps_engine !!! h) = 0 ∧
                     oStatus (orders bid_sweeps_engine !!! h) = Inactive) ∧
    (∀ h, h ∈ tail (visits qs').*2 →
          oQty (orders bid_sweeps_engine !!! h)
          = oQty (orders three_asks_engine !!! h)) ∧
    total_qty (orders three_asks_engine) (visits qs).*2
    - total_qty (orders bid_sweeps_engine) (visits qs).*2
    = oFilled (orders bid_sweeps_engine !!! 0%nat).
Proof.
  apply (placement_fills_in_priority 4 4 2 0 three_asks_ops three_asks_engine
           Bid Limit 101 4 9 4 0%nat bid_sweeps_engine).
  - lia.
  - vm_compute. reflexivity.
  - vm_compute. reflexivity.
  - lia.
  - vm_compute. reflexivity.
Defined.

(** A reclaim never touches the book.  After a run in which every cancel
    names a linked order, [advanceEpochAndReclaim] returns for any readers,
    advances the global epoch by one (modulo 2^64) and leaves the two
    indexes as they are; every order linked in a level keeps all its fields,
    stays linked, and is not among the free orders of the pool afterwards:
    the pool gets back only orders that were retired. *)
Theorem reclaim_spares_resting_orders
        (fuel poolCap : nat) (k epoch0 : Z) (ops : list engine_op) (e : Engine)
        (rs : list Reader) :
  0 ≤ k < 64 →
  valid_run fuel ops (newEngine poolCap (2 ^ k) epoch0) = true →
  engine_exec ops (newEngine poolCap (2 ^ k) epoch0) = Ok e →
  ∃ e', advanceEpochAndReclaim rs e = Ok e' ∧
        book e' = book e ∧
        globalEpoch e' = u64 (globalEpoch e + 1) ∧
        ∀ h, linked e h →
             orders e' !!! h = orders e !!! h ∧ linked e' h ∧
             (h ∉ pool_free (pool e')) ∧ (h ∉ ring_contents (rq e')).
Proof.
  intros Hk Hv Hrun.
  pose proof (engine_exec_book fuel ops _ (book_ok_new poolCap k epoch0 Hk) Hv) as Hbk.
  rewrite Hrun in Hbk.
  destruct (advanceEpochAndReclaim_book rs e Hbk) as (e' & Hre & Hbk' & Hbook & Hfr & _).
  exists e'. split; [done|]. split; [done|]. split.
  { pose proof Hbk as (He & _).
    destruct (advanceEpochAndReclaim_spec rs e _ (engine_ok_ring _ He)
                (proj1 (proj2 (proj2 (proj2 He)))))
      as (e0 & Hre0 & _ & _ & _ & _ & _ & Hg).
    rewrite Hre in Hre0. by injection Hre0 as <-. }
  intros h Hh.
  assert (Hlk : linked e' h).
  { destruct Hh as (s & p & lvl & q & Hf & Hq & Hin). exists s, p, lvl, q.
    rewrite Hbook. split; [done|]. split; [|done].
    eapply is_queue_frame; [|exact Hq]. intros h' Hh'.
    rewrite Hfr; [done|]. by exists s, p, lvl, q. }
  split; [by apply Hfr|]. split; [done|].
  destruct Hbk' as (_ & _ & _ & Hret').
  split; intros Hin; apply (Hret' h); try done; apply elem_of_app; [by right|by left].
Qed.

(** Two asks at 100, the first of them cancelled. *)
Definition cancelled_ops : list engine_op :=
  two_asks_ops ++ [OpCancel 100 3%nat Ask].

Definition cancelled_engine : Engine :=
  Eval vm_compute in
    match engine_exec cancelled_ops (newEngine 4 (2 ^ 2) 0) with
    | Ok e => e
    | Panic _ => newEngine 0 1 0
    end.

Lemma reclaim_spares_resting_orders_witness :
  ∃ e', advanceEpochAndReclaim [] cancelled_engine = Ok e' ∧
        book e' = book cancelled_engine ∧
        globalEpoch e' = u64 (globalEpoch cancelled_engine + 1) ∧
        ∀ h, linked cancelled_engine h →
             orders e' !!! h = orders cancelled_engine !!! h ∧ linked e' h ∧
             (h ∉ pool_free (pool e')) ∧ (h ∉ ring_contents (rq e')).
Proof.
  apply (reclaim_spares_resting_orders 4 4 2 0 cancelled_ops cancelled_engine []).
  - lia.
  - vm_compute. reflexivity.
  - vm_compute. reflexivity.
Defined.

(** A placement trades only within its limit.  After a run in which every
    cancel names a linked order, the only orders other than the incoming one
    whose Qty a placement changes were resting on the opposite side at a
    price no worse than the limit price of the placement (at any price when
    the placement is a Market order); their Qty goes down and does not go
    below 0. *)
Theorem placement_trades_within_limit
        (fuel poolCap : nat) (k epoch0 : Z) (ops : list engine_op) (e : Engine)
        (side : Side) (otype : OrderType) (price id qty seq : Z)
        (o : handle) (e' : Engine) (h : handle) :
  0 ≤ k < 64 →
  valid_run fuel ops (newEngine poolCap (2 ^ k) epoch0) = true →
  engine_exec ops (newEngine poolCap (2 ^ k) epoch0) = Ok e →
  - 2 ^ 63 ≤ qty < 2 ^ 63 →
  placeOrder side otype price id qty seq e = Ok (o, e') →
  h ≠ o → oQty (orders e' !!! h) ≠ oQty (orders e !!! h) →
  linked e h ∧ oSide (orders e !!! h) = opposite side ∧
  0 ≤ oQty (orders e' !!! h) < oQty (orders e !!! h) ∧
  (otype = Market ∨ within_limit side price (oPrice (orders e !!! h))).
Proof.
  intros Hk Hv Hrun Hqty Hpl Hho Hch.
  pose proof (engine_exec_book fuel ops _ (book_ok_new poolCap k epoch0 Hk) Hv) as Hbk.
  rewrite Hrun in Hbk.
  destruct (placeOrder_book _ _ _ _ _ _ _ _ _ Hbk Hqty Hpl)
    as (Hbk' & _ & _ & _ & _ & _ & _ & Hfip & Hlim & _).
  destruct (Hlim h Hho Hch) as (Hlk & Hsd & Hlt & Hwl).
  split; [done|]. split; [done|]. split; [|done]. split; [|done].
  destruct (side_queues_exist e (opposite side) Hbk) as (qs0 & _ & Hqs0).
  apply side_queues_priority in Hqs0.
  destruct (Hfip _ Hqs0) as (gone & qs' & EP & Hqs' & Hgone & _).
  assert (Hin : h ∈ (visits match opposite side with
                             | Bid => reverse qs0
                             | Ask => qs0
                             end).*2).
  { destruct Hlk as (s & p & lvl & q & Hf & Hq & Hh).
    destruct (linked_where _ _ _ _ _ _ _ (proj1 (proj2 Hbk)) Hf Hq Hh) as [Hs _].
    rewrite Hsd in Hs. subst s.
    apply elem_of_visits_snd. exists p, q. split; [|done].
    apply (proj2 Hqs0). by exists lvl. }
  rewrite EP in Hin. apply elem_of_app in Hin as [Hin|Hin].
  - destruct (Hgone h Hin) as [-> _]. lia.
  - apply elem_of_visits_snd in Hin as (p & q & Hq & Hh).
    apply (proj2 Hqs') in Hq as (lvl & Hf & Hqq).
    destruct (proj1 (proj2 Hbk') _ _ _ Hf) as (q0 & _ & Hq0 & Hr).
    rewrite (is_queue_unique _ _ _ _ Hq0 Hqq) in Hr.
    destruct (Hr h Hh) as (_ & _ & Hlive). destruct Hlive as [_ ?]; [done|]. lia.
Qed.

Lemma placement_trades_within_limit_witness :
  linked three_asks_engine 2%nat ∧
  oSide (orders three_asks_engine !!! 2%nat) = opposite Bid ∧
  0 ≤ oQty (orders bid_sweeps_engine !!! 2%nat)
    < oQty (orders three_asks_engine !!! 2%nat) ∧
  (Limit = Market ∨
   within_limit Bid 101 (oPrice (orders three_asks_engine !!! 2%nat))).
Proof.
  apply (placement_trades_within_limit 4 4 2 0 three_asks_ops three_asks_engine
           Bid Limit 101 4 9 4 0%nat bid_sweeps_engine 2%nat).
  - lia.
  - vm_compute. reflexivity.
  - vm_compute. reflexivity.
  - lia.
  - vm_compute. reflexivity.
  - lia.
  - vm_compute. lia.
Defined.

(** ** Reclaiming on a well-used book *)

(** Every order in play is one of the pool's own. *)
Definition bounded (e : Engine) : Prop :=
  ∀ h, linked e h ∨ h ∈ ring_contents (rq e) ++ pool_free (pool e) →
       (h < length (store (pool e)))%nat.

(** [e] is reached from a fresh engine by operations in which every cancel
    names an order linked at that price and side. *)
Definition reachable (e : Engine) : Prop :=
  ∃ (fuel poolCap : nat) (k epoch0 : Z) (ops : list engine_op),
    0 ≤ k < 64 ∧
    valid_run fuel ops (newEngine poolCap (2 ^ k) epoch0) = true ∧
    engine_exec ops (newEngine poolCap (2 ^ k) epoch0) = Ok e.

(** The orders waiting in the ring always fit in the pool. *)
Lemma bounded_room e :
  book_ok None e → bounded e →
  (top (pool e) + length (ring_contents (rq e)) ≤ length (store (pool e)))%nat.
Proof.
  intros (He & _ & Hnd & _) Hb.
  assert (Hsub : ring_contents (rq e) ++ pool_free (pool e)
                 ⊆+ seq 0 (length (store (pool e)))).
  { apply NoDup_submseteq; [done|]. intros h Hh. apply elem_of_seq.
    specialize (Hb h (or_intror Hh)). lia. }
  apply submseteq_length in Hsub.
  rewrite length_app, length_seq, pool_free_length in Hsub by apply He. lia.
Qed.

Lemma released_left_total safe l :
  (length (left_in_ring safe l) + length (released safe l) = length l)%nat.
Proof. by rewrite <- length_app, released_left_perm. Qed.

(** One [advanceEpochAndReclaim] when the pool has room for the handles of
    the ring: the longest releasable prefix of the ring goes to the pool, in
    order, and the rest stays. *)
Lemma reclaim_release_rule rs e :
  ring_wf (rq e) (ring_contents (rq e)) → pool_wf (pool e) →
  (top (pool e) + length (ring_contents (rq e)) ≤ length (store (pool e)))%nat →
  let safe := releasable (minReaderEpoch rs) (λ h, oretireEpoch (orders e !!! h)) in
  ∃ e', advanceEpochAndReclaim rs e = Ok e' ∧
        ring_contents (rq e') = left_in_ring safe (ring_contents (rq e)) ∧
        pool_free (pool e') = pool_free (pool e) ++ released safe (ring_contents (rq e)).
Proof.
  intros Hwf Hp Hroom safe.
  destruct (advanceEpochAndReclaim_spec rs e _ Hwf Hp)
    as (e' & He' & Hwf' & _ & Hfree & _).
  exists e'. split; [done|]. split; [by apply ring_wf_contents|].
  rewrite Hfree. apply take_ge. rewrite length_app, pool_free_length by done.
  pose proof (released_left_total safe (ring_contents (rq e))). fold safe. lia.
Qed.

Lemma advanceEpochAndReclaim_store rs e e' :
  ring_wf (rq e) (ring_contents (rq e)) → pool_wf (pool e) →
  advanceEpochAndReclaim rs e = Ok e' →
  length (store (pool e')) = length (store (pool e)).
Proof.
  intros Hwf Hp H. unfold advanceEpochAndReclaim in H.
  pose proof (ring_contents_length _ _ Hwf) as Hlen. unfold ring_cap in Hlen.
  destruct (reclaim_loop_spec (minReaderEpoch rs) (fun h => oretireEpoch (orders e !!! h))
              (ring_contents (rq e)) (S (length (buf (rq e))))
              (mkEngine (orders e) (pool e) (rq e) (book e) (u64 (globalEpoch e + 1))))
    as (e0 & He0 & _ & _ & Hst & _);
    [exact Hwf|cbn [rq]; lia|exact Hp|done|].
  rewrite H in He0. by injection He0 as <-.
Qed.

Lemma bounded_new poolCap k epoch0 :
  0 ≤ k < 64 → bounded (newEngine poolCap (2 ^ k) epoch0).
Proof.
  intros Hk h [Hh|Hh].
  { destruct Hh as (s & kk & lvl & q & Hf & _). by destruct s. }
  unfold newEngine in *. cbn [rq pool] in *.
  rewrite (ring_wf_contents _ [] (ring_wf_new k Hk)) in Hh. simpl in Hh.
  unfold pool_free, NewOrderPool in *. cbn [top store] in *.
  rewrite take_ge in Hh by (by rewrite length_seq).
  apply elem_of_seq in Hh. rewrite length_seq. lia.
Qed.

Lemma advanceEpochAndReclaim_bounded rs e e' :
  book_ok None e → bounded e → advanceEpochAndReclaim rs e = Ok e' → bounded e'.
Proof.
  intros Hbk Hb Hre. pose proof Hbk as (He & _).
  pose proof (engine_ok_ring _ He) as Hwf.
  pose proof He as (_ & _ & _ & Hp & _).
  destruct (reclaim_release_rule rs e Hwf Hp (bounded_room e Hbk Hb))
    as (e0 & Hre0 & Hring & Hfree).
  rewrite Hre in Hre0. injection Hre0 as <-.
  destruct (advanceEpochAndReclaim_book rs e Hbk) as (e0 & Hre0 & _ & _ & _ & Hlk).
  rewrite Hre in Hre0. injection Hre0 as <-.
  intros h Hh. rewrite (advanceEpochAndReclaim_store rs e e' Hwf Hp Hre).
  apply Hb. destruct Hh as [Hh|Hh]; [left; by apply Hlk|]. right.
  rewrite Hring, Hfree in Hh.
  pose proof (released_left_perm
                (releasable (minReaderEpoch rs) (λ h, oretireEpoch (orders e !!! h)))
                (ring_contents (rq e))) as Hperm.
  rewrite !elem_of_app in Hh. rewrite elem_of_app, <- Hperm, elem_of_app. tauto.
Qed.

Lemma engine_step_bounded fuel e op e' :
  book_ok None e → bounded e → op_valid fuel e op = true →
  engine_step e op = Ok e' → bounded e'.
Proof.
  intros Hbk Hb Hv Hstep. pose proof (op_valid_typed _ _ _ Hv) as Hty.
  destruct op as [side otype price id qty seq|price o side|rs]; simpl in Hstep.
  - apply bind_Ok in Hstep as ([o e1] & Hpl & Hstep). injection Hstep as <-.
    destruct (op_typed_place _ _ _ _ _ _ Hty) as [Hq _].
    destruct (placeOrder_book _ _ _ _ _ _ _ _ _ Hbk Hq Hpl)
      as (_ & _ & Hlk & _ & _ & _ & _ & _ & _ & Hst & Hprov & Ho).
    intros h Hh. rewrite Hst. apply Hb. destruct Hh as [Hh|Hh].
    + destruct (Hlk h Hh) as [?| ->]; [by left|].
      right. apply elem_of_app. by right.
    + destruct (Hprov h Hh); [by right|by left].
  - destruct (op_valid_cancel _ _ _ _ _ (proj1 (proj2 Hbk)) Hv) as (lvl & q1 & q2 & Hf & Hq).
    pose proof (cancelOrder_book price o side e None lvl q1 q2 Hbk (or_introl eq_refl) Hf Hq) as H.
    rewrite Hstep in H. destruct H as (_ & Hring & Hpool & Hlk & _).
    assert (Hlo : linked e o).
    { exists side, price, lvl, (q1 ++ o :: q2). split; [done|]. split; [done|].
      apply elem_of_app. right. by apply elem_of_cons; left. }
    intros h Hh. rewrite Hpool. apply Hb. destruct Hh as [Hh|Hh].
    + left. by destruct (Hlk h Hh).
    + rewrite Hring, Hpool in Hh. rewrite <- app_assoc in Hh.
      apply elem_of_app in Hh as [Hh|Hh]; [right; apply elem_of_app; by left|].
      apply elem_of_cons in Hh as [->|Hh]; [by left|].
      right. apply elem_of_app. by right.
  - by apply (advanceEpochAndReclaim_bounded rs e e').
Qed.

Lemma engine_exec_bounded fuel ops : ∀ e e',
  book_ok None e → bounded e → valid_run fuel ops e = true →
  engine_exec ops e = Ok e' → book_ok None e' ∧ bounded e'.
Proof.
  induction ops as [|op ops IH]; intros e e' Hbk Hb Hv Hrun; simpl in *.
  { by injection Hrun as <-. }
  apply andb_prop in Hv as [Hop Hv].
  pose proof (engine_step_book fuel e op Hbk Hop) as Hbk1.
  destruct (engine_step e op) as [e1|f] eqn:Hstep; [|done].
  simpl in Hrun. apply (IH e1 e'); [done| |done|done].
  by apply (engine_step_bounded fuel e op e1).
Qed.

Lemma reachable_book e : reachable e → book_ok None e ∧ bounded e.
Proof.
  intros (fuel & poolCap & k & epoch0 & ops & Hk & Hv & Hrun).
  apply (engine_exec_bounded fuel ops _ e (book_ok_new poolCap k epoch0 Hk)
           (bounded_new poolCap k epoch0 Hk) Hv Hrun).
Qed.

(** With no active reader a reclaim on a well-used book empties the ring
    into the pool. *)
Lemma reclaim_idle_drains rs e :
  book_ok None e → bounded e → minReaderEpoch rs = ALL_F →
  ∃ e', advanceEpochAndReclaim rs e = Ok e' ∧
        ring_contents (rq e') = [] ∧
        pool_free (pool e') = pool_free (pool e) ++ ring_contents (rq e).
Proof.
  intros Hbk Hb Hmin. pose proof Hbk as (He & _).
  pose proof He as (_ & _ & _ & Hp & _).
  destruct (reclaim_release_rule rs e (engine_ok_ring _ He) Hp (bounded_room e Hbk Hb))
    as (e' & Hre & Hring & Hfree).
  destruct (released_all (releasable (minReaderEpoch rs)
                            (λ h, oretireEpoch (orders e !!! h)))
                         (ring_contents (rq e))) as [Hrel Hleft].
  { intros h. unfold releasable. by rewrite Hmin. }
  rewrite Hrel in Hfree. rewrite Hleft in Hring. by exists e'.
Qed.

(** C5 (amended): an order in the ring whose retire epoch is [E] is not
    released by [advanceEpochAndReclaim] while some reader's epoch is
    non-zero, below the all-ones value and not greater than [E]: it stays in
    the ring and does not enter the pool.  In a state reached from a fresh
    engine by operations in which every cancel names a linked order, once no
    reader is active ([minReaderEpoch] returns the all-ones sentinel) the
    call drains the ring and the order is in the pool afterwards; and
    whatever the first call did, a later call with no active reader leaves
    the order in the pool and the ring empty. *)
Theorem reclaim_waits_for_readers (rs : list Reader) (e : Engine) (o : handle) :
  ring_okb (rq e) = true → pool_wf (pool e) →
  o ∈ ring_contents (rq e) →
  ∃ e', advanceEpochAndReclaim rs e = Ok e' ∧
        ((∃ r, r ∈ rs ∧ epoch r ≠ 0 ∧ epoch r < ALL_F ∧
               epoch r ≤ oretireEpoch (orders e !!! o)) →
         o ∈ ring_contents (rq e') ∧
         (o ∉ pool_free (pool e) → o ∉ pool_free (pool e'))) ∧
        (reachable e →
         (o ∉ pool_free (pool e)) ∧
         (minReaderEpoch rs = ALL_F →
          o ∈ pool_free (pool e') ∧ ring_contents (rq e') = []) ∧
         (∀ rs', minReaderEpoch rs' = ALL_F →
                 ∃ e'', advanceEpochAndReclaim rs' e' = Ok e'' ∧
                        o ∈ pool_free (pool e'') ∧ ring_contents (rq e'') = [])).
Proof.
  intros Hok Hp Hin.
  apply ring_okb_wf in Hok.
  destruct (advanceEpochAndReclaim_spec rs e _ Hok Hp)
    as (e' & He' & Hwf' & _ & Hfree & _).
  exists e'. split; [done|].
  split.
  - apply ring_wf_contents in Hwf'. rewrite Hwf', Hfree.
    intros (r & Hr & Hnz & Hlt & Hle).
    pose proof (minReaderEpoch_le rs r Hr Hnz) as Hmin.
    assert (Hunsafe : releasable (minReaderEpoch rs)
                        (λ h, oretireEpoch (orders e !!! h)) o = false).
    { unfold releasable. apply orb_false_intro.
      - apply Z.eqb_neq. lia.
      - apply Z.ltb_ge. lia. }
    split; [by apply left_in_ring_unsafe|].
    intros Hnot Hfr. apply elem_of_take in Hfr as (i & Hfr & _).
    apply list_elem_of_lookup_2 in Hfr.
    apply elem_of_app in Hfr as [?|Hfr]; [done|].
    by apply released_unsafe in Hfr.
  - intros Hreach. destruct (reachable_book e Hreach) as [Hbk Hb].
    split.
    { destruct Hbk as (_ & _ & Hnd & _). apply NoDup_app in Hnd as (_ & Hd & _).
      by apply Hd. }
    split.
    + intros Hmin.
      destruct (reclaim_idle_drains rs e Hbk Hb Hmin) as (e0 & Hre0 & Hring0 & Hfree0).
      rewrite He' in Hre0. injection Hre0 as <-.
      split; [|done]. rewrite Hfree0. apply elem_of_app. by right.
    + intros rs' Hmin'.
      destruct (advanceEpochAndReclaim_book rs e Hbk) as (e0 & Hre0 & Hbk' & _).
      rewrite He' in Hre0. injection Hre0 as <-.
      pose proof (advanceEpochAndReclaim_bounded rs e e' Hbk Hb He') as Hb'.
      destruct (reclaim_idle_drains rs' e' Hbk' Hb' Hmin') as (e'' & Hre'' & Hring'' & Hfree'').
      exists e''. split; [done|]. split; [|done].
      rewrite Hfree''. pose proof Hbk as (He & _).
      destruct (reclaim_release_rule rs e (engine_ok_ring _ He) Hp (bounded_room e Hbk Hb))
        as (e0 & Hre0 & Hring0 & Hfree0).
      rewrite He' in Hre0. injection Hre0 as <-.
      rewrite Hring0, Hfree0.
      pose proof (released_left_perm
                    (releasable (minReaderEpoch rs) (λ h, oretireEpoch (orders e !!! h)))
                    (ring_contents (rq e))) as Hperm.
      rewrite <- Hperm in Hin. rewrite !elem_of_app. rewrite elem_of_app in Hin. tauto.
Qed.

(** A bid placed and cancelled at global epoch 7 (scenario S5). *)
Definition cancelled_bid_ops : list engine_op :=
  [OpPlace Bid Limit 100 1 5 1; OpCancel 100 3%nat Bid].

Definition cancelled_bid_engine : Engine :=
  Eval vm_compute in
    match engine_exec cancelled_bid_ops (newEngine 4 (2 ^ 2) 7) with
    | Ok e => e
    | Panic _ => newEngine 0 1 0
    end.

Lemma reclaim_waits_for_readers_witness :
  ∃ e1 e2 e3,
    advanceEpochAndReclaim [EnterRead 7 (mkReader 0)] cancelled_bid_engine = Ok e1 ∧
    3%nat ∈ ring_contents (rq e1) ∧ (3%nat ∉ pool_free (pool e1)) ∧
    advanceEpochAndReclaim [ExitRead (EnterRead 7 (mkReader 0))] e1 = Ok e2 ∧
    3%nat ∈ pool_free (pool e2) ∧ ring_contents (rq e2) = [] ∧
    advanceEpochAndReclaim [] cancelled_bid_engine = Ok e3 ∧
    3%nat ∈ pool_free (pool e3) ∧ ring_contents (rq e3) = [].
Proof.
  assert (Hreach : reachable cancelled_bid_engine).
  { exists 4%nat, 4%nat, 2, 7, cancelled_bid_ops.
    split; [lia|]. split; vm_compute; reflexivity. }
  assert (Hin : 3%nat ∈ ring_contents (rq cancelled_bid_engine)).
  { apply list_elem_of_In. vm_compute. by left. }
  assert (Hp : pool_wf (pool cancelled_bid_engine)).
  { unfold pool_wf. simpl. lia. }
  destruct (reclaim_waits_for_readers [EnterRead 7 (mkReader 0)]
              cancelled_bid_engine 3%nat eq_refl Hp Hin)
    as (e1 & H1 & Hblock & Hrest).
  destruct (Hrest Hreach) as (Hnot & _ & Hlater).
  destruct Hblock as [Hr1 Hp1].
  { exists (mkReader 7). split; [by apply list_elem_of_singleton|].
    simpl. unfold ALL_F. lia. }
  destruct (Hlater [ExitRead (EnterRead 7 (mkReader 0))] eq_refl)
    as (e2 & H2 & Hf2 & Hr2).
  destruct (reclaim_waits_for_readers [] cancelled_bid_engine 3%nat eq_refl Hp Hin)
    as (e3 & H3 & _ & Hrest3).
  destruct (Hrest3 Hreach) as (_ & Hidle & _).
  destruct (Hidle eq_refl) as [Hf3 Hr3].
  exists e1, e2, e3.
  split; [done|]. split; [done|]. split; [by apply Hp1|].
  split; [done|]. split; [done|]. split; [done|].
  split; [done|]. split; done.
Defined.

(** Outside that contract the release can fail.  Two bids are placed on a
    pool of 2 orders, the first is cancelled twice and the second once: the
    ring holds the first handle twice, and when no reader is active the
    drain fills the pool with it before it comes to the second handle, which
    [Put] drops. *)
Definition repeated_cancel_ops : list engine_op :=
  [OpPlace Bid Limit 100 1 5 1; OpPlace Bid Limit 101 2 5 2;
   OpCancel 100 1%nat Bid; OpCancel 100 1%nat Bid; OpCancel 101 0%nat Bid].

Lemma reclaim_drops_after_repeated_cancel :
  (∀ fuel, valid_run fuel repeated_cancel_ops (newEngine 2 (2 ^ 2) 7) = false) ∧
  ∃ e e',
    engine_exec repeated_cancel_ops (newEngine 2 (2 ^ 2) 7) = Ok e ∧
    ring_okb (rq e) = true ∧ pool_wf (pool e) ∧
    ring_contents (rq e) = [1; 1; 0]%nat ∧ pool_free (pool e) = [] ∧
    minReaderEpoch [] = ALL_F ∧
    advanceEpochAndReclaim [] e = Ok e' ∧
    ring_contents (rq e') = [] ∧ pool_free (pool e') = [1; 1]%nat.
Proof.
  split.
  { intros [|fuel]; vm_compute; reflexivity. }
  eexists _, _. split; [vm_compute; reflexivity|].
  split; [reflexivity|]. split; [unfold pool_wf; simpl; lia|].
  split; [reflexivity|]. split; [reflexivity|]. split; [reflexivity|].
  split; [vm_compute; reflexivity|]. split; reflexivity.
Qed.
